(** * Area assembler and vector-based sparse multimap of libosmium

    A shallow embedding of [osmium/area/assembler.hpp] and
    [osmium/index/multimap/vector.hpp], with the properties of their
    specification stated and proved over it.

    Conventions of the embedding:
    - C++ integers ([int32_t] coordinates, [int64_t] ids, [int] counters,
      [size_t] sizes) are [Z] or [nat].  The id of an area is computed from
      the id of an object in [int64_t] and can leave its range; there the
      wrap-around of the two's complement machine is written out.  The
      counters count segments of the input and stay in their range.
    - a [std::vector] is a [list]; an iterator is an index into it.
    - a [const char*] is a [string].
    - the problem reporter is an object outside the assembler; the reports it
      receives are collected in a list, newest last.
    - debug output to [std::cerr] is not modelled. *)

From Stdlib Require Import String Ascii.
From Stdlib Require Import ZArith List Bool Lia Arith.
From Stdlib Require Import Permutation Sorted.
From Stdlib Require OrderedTypeEx.
Import ListNotations.
Open Scope list_scope.

(** * Algorithms of the C++ standard library *)

(** [std::sort]: the elements in an order in which no element is less than
    one before it.  The C++ function leaves the order of equivalent elements
    open; this one keeps them in their original order, which is one of the
    orders the C++ function may give.  Where equivalent elements differ
    (segments at the same place that come from different ways, rings of
    equal area) the library may put them in another order than this one. *)
Fixpoint sorted_insert {A : Type} (lt : A -> A -> bool) (a : A) (l : list A)
  : list A :=
  match l with
  | [] => [a]
  | b :: r => if lt b a then b :: sorted_insert lt a r else a :: b :: r
  end.

Definition std_sort {A : Type} (lt : A -> A -> bool) (l : list A) : list A :=
  fold_right (sorted_insert lt) [] l.

(** * Part I: [VectorBasedSparseMultimap] *)

Module Multimap.

Set Implicit Arguments.

Section VectorBasedSparseMultimap.

(** Template parameters [TId] and [TValue]. *)
Variables TId TValue : Type.

(** [operator<] of [TId]. *)
Variable id_ltb : TId -> TId -> bool.

(** [operator==] of [TValue]. *)
Variable value_eqb : TValue -> TValue -> bool.

(** [operator<] of [TValue]. *)
Variable value_ltb : TValue -> TValue -> bool.

(** The value the literal [0] converts to in [it->second = 0]. *)
Variable zero : TValue.

(** [osmium::index::empty_value<TValue>()], declared in
    [osmium/index/index.hpp]. *)
Variable empty_value : TValue.

Definition element_type : Type := (TId * TValue)%type.
Definition vector_type : Type := list element_type.

Definition is_removed (element : element_type) : bool :=
  value_eqb (snd element) empty_value.

Definition set (m_vector : vector_type) (id : TId) (value : TValue)
  : vector_type :=
  m_vector ++ [(id, value)].

Definition unsorted_set (m_vector : vector_type) (id : TId) (value : TValue)
  : vector_type :=
  m_vector ++ [(id, value)].

Definition size (m_vector : vector_type) : nat := length m_vector.

Definition clear (m_vector : vector_type) : vector_type := [].

(** Length of the longest prefix whose elements satisfy [p]: the partition
    point [std::lower_bound] and [std::upper_bound] return on a range
    partitioned by [p]. *)
Fixpoint partition_point (p : element_type -> bool) (v : vector_type) : nat :=
  match v with
  | [] => 0
  | e :: r => if p e then S (partition_point p r) else 0
  end.

(** [std::equal_range] with the comparator [a.first < b.first]: the pair of
    the first position whose id is not less than [id] and the first
    position whose id is greater.  The C++ function requires the vector to
    be partitioned with respect to [id], which [sort] establishes. *)
Definition get_all (m_vector : vector_type) (id : TId) : nat * nat :=
  (partition_point (fun e => id_ltb (fst e) id) m_vector,
   partition_point (fun e => negb (id_ltb id (fst e))) m_vector).

(** [operator<] of [std::pair]: by the ids, and by the values where neither
    id is less than the other. *)
Definition pair_ltb (a b : element_type) : bool :=
  id_ltb (fst a) (fst b)
  || (negb (id_ltb (fst b) (fst a)) && value_ltb (snd a) (snd b)).

Definition sort (m_vector : vector_type) : vector_type :=
  std_sort pair_ltb m_vector.

Definition consolidate (m_vector : vector_type) : vector_type :=
  std_sort pair_ltb m_vector.

(** The loop [for (it = r.first; it != r.second; ++it)] of [remove]; [n] is
    the distance from [it] to [r.second] and [l] the vector from [it] on. *)
Fixpoint remove_loop (n : nat) (value : TValue) (l : vector_type)
  : vector_type :=
  match n, l with
  | S n', e :: r =>
      if value_eqb (snd e) value then (fst e, zero) :: r
      else e :: remove_loop n' value r
  | _, _ => l
  end.

Definition remove (m_vector : vector_type) (id : TId) (value : TValue)
  : vector_type :=
  let (first, second) := get_all m_vector id in
  firstn first m_vector
    ++ remove_loop (second - first) value (skipn first m_vector).

(** [std::remove_if] followed by [erase] to the end. *)
Fixpoint remove_if (p : element_type -> bool) (v : vector_type)
  : vector_type :=
  match v with
  | [] => []
  | e :: r => if p e then remove_if p r else e :: remove_if p r
  end.

Definition erase_removed (m_vector : vector_type) : vector_type :=
  remove_if is_removed m_vector.

(** ** What the specification says [remove] does *)

Definition id_eqb (a b : TId) : bool :=
  negb (id_ltb a b) && negb (id_ltb b a).

Definition matches (id : TId) (value : TValue) (e : element_type) : bool :=
  id_eqb (fst e) id && value_eqb (snd e) value.

(** Overwrite with [zero] the value of the first element satisfying [p]. *)
Fixpoint overwrite_first (p : element_type -> bool) (v : vector_type)
  : vector_type :=
  match v with
  | [] => []
  | e :: r => if p e then (fst e, zero) :: r else e :: overwrite_first p r
  end.

(** Ids in non-decreasing order. *)
Definition sorted_by_id (v : vector_type) : Prop :=
  StronglySorted (fun a b => id_ltb (fst b) (fst a) = false) v.

(** Number of positions at which two vectors differ. *)
Fixpoint differences (v w : vector_type) : nat :=
  match v, w with
  | e :: r, e' :: r' =>
      (if id_eqb (fst e) (fst e') && value_eqb (snd e) (snd e') then 0 else 1)
      + differences r r'
  | _, _ => 0
  end.

(** The elements from the first iterator of a pair up to the second. *)
Definition range_of (v : vector_type) (r : nat * nat) : vector_type :=
  firstn (snd r - fst r) (skipn (fst r) v).

(** The vector without the first element satisfying [p]. *)
Fixpoint erase_first (p : element_type -> bool) (v : vector_type)
  : vector_type :=
  match v with
  | [] => []
  | e :: r => if p e then r else e :: erase_first p r
  end.

End VectorBasedSparseMultimap.

Unset Implicit Arguments.

End Multimap.

(** * Part II: the OSM data model the assembler works on

    The headers that declare these classes ([osmium/osm/location.hpp],
    [node_ref.hpp], [tag.hpp], [way.hpp], [relation.hpp], [area.hpp],
    [osmium/memory/buffer.hpp], [osmium/osm/builder.hpp],
    [osmium/tags/key_filter.hpp]) are not part of the sources at hand; what
    the assembler needs of them is modelled from the specification. *)

Module Location.

(** Modelled from the spec: [osmium::Location], a pair of 32-bit integers
    (x = longitude * 1e7, y = latitude * 1e7). *)
Record t : Type := make { x : Z; y : Z }.

(** Modelled from the spec: equality of locations is exact. *)
Definition eqb (a b : t) : bool := ((x a =? x b) && (y a =? y b))%Z.

(** Modelled from the spec: locations are ordered lexicographically, x
    then y. *)
Definition ltb (a b : t) : bool :=
  ((x a <? x b) || ((x a =? x b) && (y a <? y b)))%Z.

End Location.

Module NodeRef.

(** Modelled from the spec: [osmium::NodeRef], a node id with its
    location. *)
Record t : Type := make { ref : Z; location : Location.t }.

(** Modelled from the spec: the node ref that stands for the front or back
    of an empty node list, which C++ leaves undefined. *)
Definition default : t := make 0 (Location.make 0 0).

End NodeRef.

Module Tag.

(** Modelled from the spec: [osmium::Tag], a key and a value. *)
Record t : Type := make { key : string; value : string }.

(** Modelled from the spec: two tags are equal when their keys and their
    values are. *)
Definition eqb (a b : t) : bool :=
  String.eqb (key a) (key b) && String.eqb (value a) (value b).

End Tag.

(** Modelled from the spec: [osmium::TagList], the tags of an object in
    their order. *)
Definition TagList : Type := list Tag.t.

Module Object.

(** Modelled from the spec: the attributes every [osmium::Object] carries
    (id, version, changeset, timestamp, visible, uid, user) and its tags. *)
Record t : Type := make {
  id : Z;
  version : Z;
  changeset : Z;
  timestamp : Z;
  visible : bool;
  uid : Z;
  user : string;
  tags : TagList
}.

End Object.

Module Way.

(** Modelled from the spec: [osmium::Way], an object with a node list, each
    node carrying id and location. *)
Record t : Type := make { object : Object.t; nodes : list NodeRef.t }.

(** Modelled from the spec: the id of the way as an object. *)
Definition id (w : t) : Z := Object.id (object w).

(** Modelled from the spec: the tags of the way as an object. *)
Definition tags (w : t) : TagList := Object.tags (object w).

(** Modelled from the spec: [nodes().front()]; undefined in C++ on a way
    without nodes, the default node ref here. *)
Definition front (w : t) : NodeRef.t := hd NodeRef.default (nodes w).

(** Modelled from the spec: [nodes().back()], with the same default. *)
Definition back (w : t) : NodeRef.t := last (nodes w) NodeRef.default.

(** Modelled from the spec: the way's first and last node share an id. *)
Definition ends_have_same_id (w : t) : bool :=
  (NodeRef.ref (front w) =? NodeRef.ref (back w))%Z.

(** Modelled from the spec: a way is closed when its first and last node are
    the same node. *)
Definition is_closed (w : t) : bool := ends_have_same_id w.

End Way.

Module WayPtr.

(** Modelled from the spec: a [const osmium::Way*], the address of a way
    together with the way it points to.  Ways are never changed by the assembler, so an address
    determines its pointee; a [std::set<const Way*>] compares the addresses
    only. *)
Record t : Type := make { address : nat; deref : Way.t }.

End WayPtr.

Module RelationMember.

(** Modelled from the spec: a relation member, of which the assembler reads
    the role string. *)
Record t : Type := make { role : string; ref : Z }.

End RelationMember.

Module Relation.

(** Modelled from the spec: [osmium::Relation], an object with a member
    list. *)
Record t : Type := make { object : Object.t; members : list RelationMember.t }.

(** Modelled from the spec: the id of the relation as an object. *)
Definition id (r : t) : Z := Object.id (object r).

(** Modelled from the spec: the tags of the relation as an object. *)
Definition tags (r : t) : TagList := Object.tags (object r).

End Relation.

Module Area.

(** Modelled from the spec: one ring of an area as the [OuterRingBuilder]
    or the [InnerRingBuilder] writes it, a sequence of node refs. *)
Inductive Ring : Type :=
| OuterRing (nodes : list NodeRef.t)
| InnerRing (nodes : list NodeRef.t).

(** Modelled from the spec: [osmium::Area], the attributes of the object it
    was made from, a tag list, and outer rings each followed by its inner
    rings. *)
Record t : Type := make {
  id : Z;
  version : Z;
  changeset : Z;
  timestamp : Z;
  visible : bool;
  uid : Z;
  user : string;
  tags : TagList;
  rings : list Ring
}.

End Area.

(** Modelled from the spec: the output buffer owns the emitted area
    entities; here the list of the areas committed to it, oldest first.  An
    [AreaBuilder] constructed on the buffer creates the area entity in it,
    and [commit] makes what was written part of the buffer; the offset
    [committed()] of the next entity is the number of areas before it. *)
Definition OutBuffer : Type := list Area.t.

(** Modelled from the spec: the input buffer of fully materialised ways;
    a member offset is a position in it.  [get<const Way>(offset)] is
    undefined in C++ for an offset that holds no way, an empty way here. *)
Definition InBuffer : Type := list Way.t.

(** Modelled from the spec: the object of the way that stands for what an
    offset without a way holds. *)
Definition empty_object : Object.t :=
  Object.make 0 0 0 0 false 0 EmptyString [].

(** Modelled from the spec: [in_buffer.get<const osmium::Way>(offset)]; the
    address of the way is its offset. *)
Definition get_way (in_buffer : InBuffer) (offset : nat) : WayPtr.t :=
  WayPtr.make offset (nth offset in_buffer (Way.make empty_object [])).

Module KeyFilter.

(** Modelled from the spec: [osmium::tags::KeyFilter], a default result and
    a list of rules, each a result for one key; a tag gets the result of the
    first rule with its key, or the default. *)
Record t : Type := make { default_result : bool; rules : list (bool * string) }.

(** Modelled from the spec: [add(result, key)] appends a rule. *)
Definition add (f : t) (result : bool) (key : string) : t :=
  make (default_result f) (rules f ++ [(result, key)]).

(** Modelled from the spec: the result of the first rule for a key, if
    there is one. *)
Fixpoint first_rule (rules : list (bool * string)) (key : string) : option bool :=
  match rules with
  | [] => None
  | (result, k) :: rest =>
      if String.eqb k key then Some result else first_rule rest key
  end.

(** Modelled from the spec: whether a tag passes the filter. *)
Definition test (f : t) (tag : Tag.t) : bool :=
  match first_rule (rules f) (Tag.key tag) with
  | Some result => result
  | None => default_result f
  end.

(** Modelled from the spec: the range between two [KeyFilter::iterator]s
    over a tag list, the tags that pass the filter, in order. *)
Definition filtered (f : t) (l : TagList) : TagList := filter (test f) l.

End KeyFilter.

(** * Part III: problem reporter, segments, segment list and proto-rings

    [osmium/area/problem_reporter.hpp] and the headers under
    [osmium/area/detail/] are not part of the sources at hand either. *)

(** Modelled from the spec: the kinds of object [set_object] is called
    with. *)
Inductive item_type : Type := item_way | item_relation.

(** Modelled from the spec: one constructor per method of the
    [ProblemReporter] interface; a reporter is the list of the calls it has
    received, oldest first. *)
Inductive Report : Type :=
| set_object (kind : item_type) (id : Z)
| report_duplicate_node (id1 id2 : Z) (location : Location.t)
| report_intersection (way1_id : Z) (way1_start way1_end : Location.t)
                      (way2_id : Z) (way2_start way2_end : Location.t)
| report_ring_not_closed (front_location back_location : Location.t)
| report_role_should_be_outer (way_id : Z) (seg_start seg_end : Location.t)
| report_role_should_be_inner (way_id : Z) (seg_start seg_end : Location.t).

(** Modelled from the spec: the object the pointer [problem_reporter]
    points to, as the list of the calls it has received. *)
Definition ProblemReporter : Type := list Report.

Module NodeRefSegment.

(** Modelled from the spec: a directed edge between two node refs that
    remembers the way it comes from and that way's role in the relation. *)
Record t : Type := make {
  first : NodeRef.t;
  second : NodeRef.t;
  role : string;
  way : WayPtr.t
}.

(** Modelled from the spec: the segment that stands for the front or back
    of an empty segment vector, which C++ leaves undefined. *)
Definition default : t :=
  make NodeRef.default NodeRef.default EmptyString
       (WayPtr.make 0 (Way.make empty_object [])).

(** Modelled from the spec: flips [first] and [second], keeps way and
    role. *)
Definition swap_locations (s : t) : t :=
  make (second s) (first s) (role s) (way s).

(** Modelled from the spec: the constructor establishes
    [first.location <= second.location]. *)
Definition create (nr1 nr2 : NodeRef.t) (role : string) (way : WayPtr.t) : t :=
  if Location.ltb (NodeRef.location nr2) (NodeRef.location nr1)
  then make nr2 nr1 role way
  else make nr1 nr2 role way.

(** Modelled from the spec: the segment comes from a way whose member role
    is "outer". *)
Definition role_outer (s : t) : bool := String.eqb (role s) "outer".

(** Modelled from the spec: the segment comes from a way whose member role
    is "inner". *)
Definition role_inner (s : t) : bool := String.eqb (role s) "inner".

(** Modelled from the spec: equality is by the pair of endpoint locations,
    the way is ignored. *)
Definition eqb (a b : t) : bool :=
  Location.eqb (NodeRef.location (first a)) (NodeRef.location (first b))
  && Location.eqb (NodeRef.location (second a)) (NodeRef.location (second b)).

(** Modelled from the spec: the order of the segment list, lexicographic
    by (first.location, second.location). *)
Definition ltb (a b : t) : bool :=
  Location.ltb (NodeRef.location (first a)) (NodeRef.location (first b))
  || (Location.eqb (NodeRef.location (first a)) (NodeRef.location (first b))
      && Location.ltb (NodeRef.location (second a))
                      (NodeRef.location (second b))).

(** Modelled from the spec: true iff the segment passes strictly to the
    left of [p] at the height of [p]: none of its ends is at [p], it
    straddles [y = p.y] (lower end strictly below, upper end at or above),
    and the point in which it meets that line is left of [p].  With [lower]
    and [upper] the two ends, that point is left of [p] iff
    [(upper.x - lower.x) * (p.y - lower.y)
     < (p.x - lower.x) * (upper.y - lower.y)]. *)
Definition to_left_of (s : t) (p : Location.t) : bool :=
  let a := NodeRef.location (first s) in
  let b := NodeRef.location (second s) in
  if Location.eqb a p || Location.eqb b p then false
  else
    let lower := if (Location.y b <? Location.y a)%Z then b else a in
    let upper := if (Location.y b <? Location.y a)%Z then a else b in
    ((Location.y lower <? Location.y p) && (Location.y p <=? Location.y upper)
     && ((Location.x upper - Location.x lower)
           * (Location.y p - Location.y lower)
         <? (Location.x p - Location.x lower)
              * (Location.y upper - Location.y lower)))%Z.

(** Modelled from the spec: the sign of the cross product of the integer
    deltas of [p]->[q] and [p]->[r]. *)
Definition orientation (p q r : Location.t) : Z :=
  Z.sgn ((Location.x q - Location.x p) * (Location.y r - Location.y p)
         - (Location.y q - Location.y p) * (Location.x r - Location.x p)).

(** Modelled from the spec: the four results of [intersects]. *)
Inductive intersection : Type :=
| disjoint | touch_endpoint | cross | collinear_overlap.

(** Modelled from the spec: orientation tests on the four endpoint triples.
    Both segments have [first.location <= second.location].  Two collinear
    segments overlap when each starts before the other ends; two segments
    cross when each has its ends strictly on both sides of the other. *)
Definition intersects (a b : t) : intersection :=
  let a1 := NodeRef.location (first a) in
  let a2 := NodeRef.location (second a) in
  let b1 := NodeRef.location (first b) in
  let b2 := NodeRef.location (second b) in
  let o1 := orientation a1 a2 b1 in
  let o2 := orientation a1 a2 b2 in
  let o3 := orientation b1 b2 a1 in
  let o4 := orientation b1 b2 a2 in
  if ((o1 =? 0) && (o2 =? 0) && (o3 =? 0) && (o4 =? 0))%Z then
    if Location.ltb a1 b2 && Location.ltb b1 a2 then collinear_overlap
    else if Location.eqb a1 b2 || Location.eqb b1 a2 then touch_endpoint
    else disjoint
  else if ((o1 * o2 <? 0) && (o3 * o4 <? 0))%Z then cross
  else if Location.eqb a1 b1 || Location.eqb a1 b2
          || Location.eqb a2 b1 || Location.eqb a2 b2 then touch_endpoint
  else disjoint.

End NodeRefSegment.

Module SegmentList.

(** Modelled from the spec: [SegmentList], an ordered sequence of
    segments. *)
Definition t : Type := list NodeRefSegment.t.

(** Modelled from the spec: one segment per consecutive node pair of the
    way, segments with equal endpoints discarded. *)
Fixpoint segments_of_nodes (nodes : list NodeRef.t) (role : string)
  (way : WayPtr.t) : t :=
  match nodes with
  | nr1 :: ((nr2 :: _) as rest) =>
      if Location.eqb (NodeRef.location nr1) (NodeRef.location nr2)
      then segments_of_nodes rest role way
      else NodeRefSegment.create nr1 nr2 role way
             :: segments_of_nodes rest role way
  | _ => []
  end.

(** Modelled from the spec: appends the segments of the way to the list. *)
Definition extract_segments_from_way (m_segments : t) (way : WayPtr.t)
  (role : string) : t :=
  m_segments ++ segments_of_nodes (Way.nodes (WayPtr.deref way)) role way.

(** Modelled from the spec: appends the segments of every member way, each
    with the role of its member; the members of the relation and the offsets
    are walked in step. *)
Fixpoint extract_segments_from_ways (m_segments : t)
  (relation_members : list RelationMember.t) (members : list nat)
  (in_buffer : InBuffer) : t :=
  match members, relation_members with
  | offset :: members', member :: relation_members' =>
      extract_segments_from_ways
        (extract_segments_from_way m_segments (get_way in_buffer offset)
                                   (RelationMember.role member))
        relation_members' members' in_buffer
  | _, _ => m_segments
  end.

(** Modelled from the spec: [sort()] puts the list in lexicographic order
    by (first.location, second.location). *)
Definition sort (m_segments : t) : t := std_sort NodeRefSegment.ltb m_segments.

(** Modelled from the spec: the list without the first two adjacent equal
    segments, if there are any. *)
Fixpoint erase_first_adjacent_pair (l : t) : option t :=
  match l with
  | a :: ((b :: r) as rest) =>
      if NodeRefSegment.eqb a b then Some r
      else match erase_first_adjacent_pair rest with
           | Some rest' => Some (a :: rest')
           | None => None
           end
  | _ => None
  end.

(** Modelled from the spec: the rounds of [erase_duplicate_segments], at
    most [fuel] of them. *)
Fixpoint erase_duplicate_segments_loop (fuel : nat) (l : t) : t :=
  match fuel with
  | O => l
  | S fuel' =>
      match erase_first_adjacent_pair l with
      | Some l' => erase_duplicate_segments_loop fuel' l'
      | None => l
      end
  end.

(** Modelled from the spec: removes adjacent equal pairs, both copies, until
    none is left.  Every round removes two segments, so the length of the
    list bounds the number of rounds. *)
Definition erase_duplicate_segments (m_segments : t) : t :=
  erase_duplicate_segments_loop (length m_segments) m_segments.

(** Modelled from the spec: the call of [report_intersection] for two
    segments. *)
Definition report_of_intersection (s1 s2 : NodeRefSegment.t) : Report :=
  report_intersection
    (Way.id (WayPtr.deref (NodeRefSegment.way s1)))
    (NodeRef.location (NodeRefSegment.first s1))
    (NodeRef.location (NodeRefSegment.second s1))
    (Way.id (WayPtr.deref (NodeRefSegment.way s2)))
    (NodeRef.location (NodeRefSegment.first s2))
    (NodeRef.location (NodeRefSegment.second s2)).

(** Modelled from the spec: the inner loop of the sweep, [s1] against the
    segments after it, up to the first one that starts right of the end of
    [s1]. *)
Fixpoint find_intersections_with (s1 : NodeRefSegment.t) (rest : t)
  (problem_reporter : bool) (reports : ProblemReporter)
  : bool * ProblemReporter :=
  match rest with
  | [] => (false, reports)
  | s2 :: rest' =>
      if (Location.x (NodeRef.location (NodeRefSegment.second s1))
          <? Location.x (NodeRef.location (NodeRefSegment.first s2)))%Z
      then (false, reports)
      else
        match NodeRefSegment.intersects s1 s2 with
        | NodeRefSegment.cross | NodeRefSegment.collinear_overlap =>
            let reports' :=
              if problem_reporter
              then reports ++ [report_of_intersection s1 s2] else reports in
            let '(_, reports'') :=
              find_intersections_with s1 rest' problem_reporter reports' in
            (true, reports'')
        | _ => find_intersections_with s1 rest' problem_reporter reports
        end
  end.

(** Modelled from the spec: scans the sorted list, testing every segment
    against the following ones whose minimum x is not beyond its maximum x;
    every proper crossing and every collinear overlap is reported, and the
    result tells whether there was one. *)
Fixpoint find_intersections (m_segments : t) (problem_reporter : bool)
  (reports : ProblemReporter) : bool * ProblemReporter :=
  match m_segments with
  | [] => (false, reports)
  | s1 :: rest =>
      let '(found1, reports1) :=
        find_intersections_with s1 rest problem_reporter reports in
      let '(found, reports2) :=
        find_intersections rest problem_reporter reports1 in
      (found1 || found, reports2)
  end.

End SegmentList.

(** A [ProtoRing*]: the address of a node of the list [m_rings] of the
    assembler. *)
Definition ring_ptr : Type := nat.

Module ProtoRing.

(** Modelled from the spec: an ordered sequence of segments forming a chain,
    the outer/inner mark, and the inner rings nested in it (by address). *)
Record t : Type := make {
  segments : list NodeRefSegment.t;
  m_outer : bool;
  inner_rings : list ring_ptr
}.

(** Modelled from the spec: the ring made of one segment; a ring is outer
    by default and has no inner rings. *)
Definition of_segment (segment : NodeRefSegment.t) : t := make [segment] true [].

(** Modelled from the spec: the ring made of a range of segments. *)
Definition of_range (range : list NodeRefSegment.t) : t := make range true [].

(** Modelled from the spec: [outer()], true until [set_inner] is called. *)
Definition outer (r : t) : bool := m_outer r.

(** Modelled from the spec: [set_inner()]. *)
Definition set_inner (r : t) : t := make (segments r) false (inner_rings r).

(** Modelled from the spec: the ring with other segments. *)
Definition with_segments (r : t) (l : list NodeRefSegment.t) : t :=
  make l (m_outer r) (inner_rings r).

(** Modelled from the spec: the first segment; undefined in C++ on an empty
    segment vector, the default segment here. *)
Definition get_segment_front (r : t) : NodeRefSegment.t :=
  hd NodeRefSegment.default (segments r).

(** Modelled from the spec: the last segment, with the same default. *)
Definition get_segment_back (r : t) : NodeRefSegment.t :=
  last (segments r) NodeRefSegment.default.

(** Modelled from the spec: a ring is closed iff the first node of its first
    segment is co-located with the second node of its last segment. *)
Definition closed (r : t) : bool :=
  Location.eqb
    (NodeRef.location (NodeRefSegment.first (get_segment_front r)))
    (NodeRef.location (NodeRefSegment.second (get_segment_back r))).

(** Modelled from the spec: [add_segment_front(s)]. *)
Definition add_segment_front (r : t) (s : NodeRefSegment.t) : t :=
  with_segments r (s :: segments r).

(** Modelled from the spec: [add_segment_back(s)]. *)
Definition add_segment_back (r : t) (s : NodeRefSegment.t) : t :=
  with_segments r (segments r ++ [s]).

(** Modelled from the spec: reverses the order and swaps the endpoints of
    each segment. *)
Definition reverse (r : t) : t :=
  with_segments r (rev (map NodeRefSegment.swap_locations (segments r))).

(** Modelled from the spec: appends [other] after the ring. *)
Definition merge_ring (r other : t) : t :=
  with_segments r (segments r ++ segments other).

(** Modelled from the spec: reverses [other], then appends it. *)
Definition merge_ring_reverse (r other : t) : t :=
  with_segments r (segments r ++ segments (reverse other)).

(** Modelled from the spec: exchanges the segment storage of two rings. *)
Definition swap_segments (r other : t) : t * t :=
  (with_segments r (segments other), with_segments other (segments r)).

(** Modelled from the spec: splices out the range from position [b] up to
    position [e]. *)
Definition remove_segments (r : t) (b e : nat) : t :=
  with_segments r (firstn b (segments r) ++ skipn e (segments r)).

(** Modelled from the spec: the segments from position [b] up to position
    [e]. *)
Definition range (r : t) (b e : nat) : list NodeRefSegment.t :=
  firstn (e - b) (skipn b (segments r)).

(** Modelled from the spec: twice the signed shoelace area over the node
    polyline, with the sign that makes it positive for a ring that runs
    clockwise in the plane (x to the right, y upwards). *)
Definition sum (r : t) : Z :=
  fold_left
    (fun acc s =>
       let a := NodeRef.location (NodeRefSegment.first s) in
       let b := NodeRef.location (NodeRefSegment.second s) in
       acc + (Location.x b * Location.y a - Location.x a * Location.y b))%Z
    (segments r) 0%Z.

(** Modelled from the spec: the signed shoelace area, as an integer (half
    of [sum], rounded towards zero). *)
Definition area (r : t) : Z := Z.quot (sum r) 2.

(** Modelled from the spec: clockwise iff the signed area, half of [sum], is
    positive; the test is on [sum], which the division in [area] would
    round. *)
Definition is_cw (r : t) : bool := (0 <? sum r)%Z.

(** Modelled from the spec: whether the ring holds the segment; a ring
    stores its segments in ring direction, so the endpoints may be stored
    either way round. *)
Definition contains (r : t) (segment : NodeRefSegment.t) : bool :=
  existsb
    (fun s => NodeRefSegment.eqb s segment
              || NodeRefSegment.eqb s (NodeRefSegment.swap_locations segment))
    (segments r).

(** Modelled from the spec: insertion into the [std::set<const Way*>] that
    [get_ways] fills, kept in address order. *)
Fixpoint set_insert (w : WayPtr.t) (ways : list WayPtr.t) : list WayPtr.t :=
  match ways with
  | [] => [w]
  | v :: rest =>
      if WayPtr.address w <? WayPtr.address v then w :: ways
      else if WayPtr.address w =? WayPtr.address v then ways
      else v :: set_insert w rest
  end.

(** Modelled from the spec: collects the distinct way pointers of the
    ring's segments. *)
Definition get_ways (r : t) (ways : list WayPtr.t) : list WayPtr.t :=
  fold_left (fun acc s => set_insert (NodeRefSegment.way s) acc)
            (segments r) ways.

(** Modelled from the spec: the node ref with the smaller location. *)
Definition node_min (a b : NodeRef.t) : NodeRef.t :=
  if Location.ltb (NodeRef.location b) (NodeRef.location a) then b else a.

(** Modelled from the spec: the segment endpoint with the smallest
    (x, y). *)
Definition min_node (r : t) : NodeRef.t :=
  match segments r with
  | [] => NodeRef.default
  | s :: rest =>
      fold_left
        (fun m s' => node_min (node_min m (NodeRefSegment.first s'))
                              (NodeRefSegment.second s'))
        rest
        (node_min (NodeRefSegment.first s) (NodeRefSegment.second s))
  end.

(** Modelled from the spec: point-in-polygon of [min_node] against the other
    ring, by casting a ray to the left and counting the segments of the
    other ring it passes. *)
Definition is_in (r outer_ring : t) : bool :=
  Nat.odd
    (length
       (filter
          (fun s => NodeRefSegment.to_left_of s (NodeRef.location (min_node r)))
          (segments outer_ring))).

(** Modelled from the spec: [add_inner_ring(ring)] appends to the inner
    rings. *)
Definition add_inner_ring (r : t) (ring : ring_ptr) : t :=
  make (segments r) (m_outer r) (inner_rings r ++ [ring]).

(** Modelled from the spec: the ring without segments. *)
Definition empty : t := make [] true [].

End ProtoRing.

(** * Part IV: the assembler ([osmium/area/assembler.hpp]) *)

Record AssemblerConfig : Type := make_config {
  (** whether the pointer [problem_reporter] is non-null *)
  problem_reporter : bool;
  debug : bool
}.

Module Assembler.

(** The member state of [class Assembler].  [m_rings] is a [std::list], whose
    nodes keep their addresses: a list of rings each with its address, in
    list order, and the address the next new node gets.  [reporter] is the
    object [m_config.problem_reporter] points to; every assembler made from
    the same configuration writes to the same one. *)
Record t : Type := make {
  m_config : AssemblerConfig;
  m_segment_list : SegmentList.t;
  m_rings : list (ring_ptr * ProtoRing.t);
  m_outer_rings : list ring_ptr;
  m_inner_rings : list ring_ptr;
  m_inner_outer_mismatches : Z;
  next_address : ring_ptr;
  reporter : ProblemReporter
}.

(** [Assembler(const config_type& config)]. *)
Definition create (config : AssemblerConfig) (reports : ProblemReporter) : t :=
  make config [] [] [] [] 0%Z 0 reports.

Definition with_segment_list (a : t) (l : SegmentList.t) : t :=
  make (m_config a) l (m_rings a) (m_outer_rings a) (m_inner_rings a)
       (m_inner_outer_mismatches a) (next_address a) (reporter a).

Definition with_rings (a : t) (rings : list (ring_ptr * ProtoRing.t)) : t :=
  make (m_config a) (m_segment_list a) rings (m_outer_rings a)
       (m_inner_rings a) (m_inner_outer_mismatches a) (next_address a)
       (reporter a).

Definition with_outer_rings (a : t) (l : list ring_ptr) : t :=
  make (m_config a) (m_segment_list a) (m_rings a) l (m_inner_rings a)
       (m_inner_outer_mismatches a) (next_address a) (reporter a).

Definition with_inner_rings (a : t) (l : list ring_ptr) : t :=
  make (m_config a) (m_segment_list a) (m_rings a) (m_outer_rings a) l
       (m_inner_outer_mismatches a) (next_address a) (reporter a).

Definition with_mismatches (a : t) (n : Z) : t :=
  make (m_config a) (m_segment_list a) (m_rings a) (m_outer_rings a)
       (m_inner_rings a) n (next_address a) (reporter a).

Definition with_reporter (a : t) (reports : ProblemReporter) : t :=
  make (m_config a) (m_segment_list a) (m_rings a) (m_outer_rings a)
       (m_inner_rings a) (m_inner_outer_mismatches a) (next_address a) reports.

(** A call of a method of the problem reporter, made only when the pointer
    is non-null. *)
Definition report (a : t) (r : Report) : t :=
  if problem_reporter (m_config a) then with_reporter a (reporter a ++ [r])
  else a.

(** ** The list of rings *)

Fixpoint lookup (rings : list (ring_ptr * ProtoRing.t)) (p : ring_ptr)
  : option ProtoRing.t :=
  match rings with
  | [] => None
  | (q, r) :: rest => if q =? p then Some r else lookup rest p
  end.

(** The ring a pointer points to; no pointer of the assembler outlives its
    ring, the empty ring stands for what C++ leaves undefined. *)
Definition ring_at (a : t) (p : ring_ptr) : ProtoRing.t :=
  match lookup (m_rings a) p with
  | Some r => r
  | None => ProtoRing.empty
  end.

Fixpoint update (rings : list (ring_ptr * ProtoRing.t)) (p : ring_ptr)
  (f : ProtoRing.t -> ProtoRing.t) : list (ring_ptr * ProtoRing.t) :=
  match rings with
  | [] => []
  | (q, r) :: rest =>
      if q =? p then (q, f r) :: rest else (q, r) :: update rest p f
  end.

(** A change of the ring at [p] in place. *)
Definition modify_ring (a : t) (p : ring_ptr) (f : ProtoRing.t -> ProtoRing.t)
  : t :=
  with_rings a (update (m_rings a) p f).

(** [m_rings.erase(it)]. *)
Definition erase (a : t) (p : ring_ptr) : t :=
  with_rings a (filter (fun e => negb (fst e =? p)) (m_rings a)).

(** [m_rings.push_back] and [m_rings.emplace_back]: a new node at the end of
    the list, at a fresh address. *)
Definition push_back (a : t) (r : ProtoRing.t) : t :=
  make (m_config a) (m_segment_list a) (m_rings a ++ [(next_address a, r)])
       (m_outer_rings a) (m_inner_rings a) (m_inner_outer_mismatches a)
       (S (next_address a)) (reporter a).

(** ** Comparing node refs *)

Definition has_same_location (a : t) (nr1 nr2 : NodeRef.t) : bool * t :=
  if negb (Location.eqb (NodeRef.location nr1) (NodeRef.location nr2)) then
    (false, a)
  else if negb (NodeRef.ref nr1 =? NodeRef.ref nr2)%Z then
    (true, report a (report_duplicate_node (NodeRef.ref nr1) (NodeRef.ref nr2)
                                           (NodeRef.location nr1)))
  else (true, a).

(** ** Attributes and tags of the area *)

(** The value an [int64_t] holds after a computation whose result is [z]:
    [z] itself if it is in the range, and what the two's complement machine
    leaves of it if it is not. *)
Definition int64 (z : Z) : Z := ((z + 2 ^ 63) mod 2 ^ 64 - 2 ^ 63)%Z.

(** [object.id() * 2 + id_offset]. *)
Definition area_id (id id_offset : Z) : Z := int64 (int64 (id * 2) + id_offset).

Definition initialize_area_from_object (object : Object.t) (id_offset : Z)
  : Area.t :=
  Area.make (area_id (Object.id object) id_offset)
            (Object.version object) (Object.changeset object)
            (Object.timestamp object) (Object.visible object)
            (Object.uid object) (Object.user object) [] [].

Definition add_tags (area : Area.t) (l : TagList) : Area.t :=
  Area.make (Area.id area) (Area.version area) (Area.changeset area)
            (Area.timestamp area) (Area.visible area) (Area.uid area)
            (Area.user area) (Area.tags area ++ l) (Area.rings area).

Definition add_rings (area : Area.t) (l : list Area.Ring) : Area.t :=
  Area.make (Area.id area) (Area.version area) (Area.changeset area)
            (Area.timestamp area) (Area.visible area) (Area.uid area)
            (Area.user area) (Area.tags area) (Area.rings area ++ l).

(** [add_tags_to_area(builder, way)]: the tags of the way, one by one. *)
Definition add_tags_to_area_way (way : Way.t) : TagList :=
  map (fun tag => Tag.make (Tag.key tag) (Tag.value tag)) (Way.tags way).

(** The key of the [std::map] of [add_common_tags]: key, a zero byte, value. *)
Definition kv_of_tag (tag : Tag.t) : string :=
  (Tag.key tag ++ String "000"%char (Tag.value tag))%string.

(** [++counter[kv]] on a [std::map<std::string, size_t>], whose entries are
    kept in the order of their keys. *)
Fixpoint counter_increment (counter : list (string * nat)) (kv : string)
  : list (string * nat) :=
  match counter with
  | [] => [(kv, 1)]
  | (k, n) :: rest =>
      match String.compare kv k with
      | Lt => (kv, 1) :: counter
      | Eq => (k, S n) :: rest
      | Gt => (k, n) :: counter_increment rest kv
      end
  end.

(** The C string at the start of [s]: up to the first zero byte. *)
Fixpoint c_str (s : string) : string :=
  match s with
  | EmptyString => EmptyString
  | String c rest =>
      if Ascii.eqb c "000"%char then EmptyString else String c (c_str rest)
  end.

(** The characters of [s] after the first [n] ([c_str() + n]); past the end
    of the string there is its terminating zero byte. *)
Fixpoint advance (s : string) (n : nat) : string :=
  match n, s with
  | S n', String _ rest => advance rest n'
  | _, _ => s
  end.

Definition add_common_tags (ways : list WayPtr.t) : TagList :=
  let counter :=
    fold_left
      (fun counter way =>
         fold_left (fun counter tag => counter_increment counter (kv_of_tag tag))
                   (Way.tags (WayPtr.deref way)) counter)
      ways [] in
  let num_ways := length ways in
  flat_map
    (fun t_c : string * nat =>
       if snd t_c =? num_ways then
         let len := String.length (c_str (fst t_c)) in
         [Tag.make (c_str (fst t_c)) (c_str (advance (fst t_c) (len + 1)))]
       else [])
    counter.

Definition relation_tags_filter : KeyFilter.t :=
  KeyFilter.add (KeyFilter.add (KeyFilter.add (KeyFilter.add (KeyFilter.add
    (KeyFilter.add (KeyFilter.make true []) false "type") false "created_by")
    false "source") false "note") false "test:id") false "test:section".

Definition add_tags_to_area_relation (a : t) (relation : Relation.t) : TagList :=
  let count := length (KeyFilter.filtered relation_tags_filter
                                          (Relation.tags relation)) in
  if 0 <? count then
    map (fun tag => Tag.make (Tag.key tag) (Tag.value tag))
        (filter (fun tag => negb (String.eqb (Tag.key tag) "type"))
                (Relation.tags relation))
  else
    let ways :=
      fold_left (fun ways ring => ProtoRing.get_ways (ring_at a ring) ways)
                (m_outer_rings a) [] in
    if length ways =? 1 then
      map (fun tag => Tag.make (Tag.key tag) (Tag.value tag))
          (Way.tags (WayPtr.deref (hd (WayPtr.make 0 (Way.make empty_object []))
                                      ways)))
    else add_common_tags ways.

(** ** Ring stitching *)

(** The loop of [check_for_open_rings] over [m_rings]. *)
Fixpoint check_for_open_rings_loop (rings : list (ring_ptr * ProtoRing.t))
  (a : t) (open_rings : bool) : bool * t :=
  match rings with
  | [] => (open_rings, a)
  | (_, ring) :: rest =>
      if negb (ProtoRing.closed ring) then
        check_for_open_rings_loop rest
          (report a (report_ring_not_closed
             (NodeRef.location
                (NodeRefSegment.first (ProtoRing.get_segment_front ring)))
             (NodeRef.location
                (NodeRefSegment.second (ProtoRing.get_segment_back ring)))))
          true
      else check_for_open_rings_loop rest a open_rings
  end.

Definition check_for_open_rings (a : t) : bool * t :=
  check_for_open_rings_loop (m_rings a) a false.

(** The loop of [possibly_combine_rings_back] over the rings [its]; a probe
    that fails leaves the assembler as it is, so the rings still to be
    visited are those of the list at the start. *)
Fixpoint possibly_combine_rings_back_loop (ring : ring_ptr) (nr : NodeRef.t)
  (its : list (ring_ptr * ProtoRing.t)) (a : t) : bool * t :=
  match its with
  | [] => (false, a)
  | (it, it_ring) :: rest =>
      if negb (it =? ring) && negb (ProtoRing.closed it_ring) then
        let '(same1, a1) :=
          has_same_location a nr
            (NodeRefSegment.first (ProtoRing.get_segment_front it_ring)) in
        if same1 then
          (true,
           erase (modify_ring a1 ring
                    (fun r => ProtoRing.merge_ring r (ring_at a1 it))) it)
        else
          let '(same2, a2) :=
            has_same_location a1 nr
              (NodeRefSegment.second (ProtoRing.get_segment_back it_ring)) in
          if same2 then
            (true,
             erase (modify_ring a2 ring
                      (fun r => ProtoRing.merge_ring_reverse r (ring_at a2 it)))
                   it)
          else possibly_combine_rings_back_loop ring nr rest a2
      else possibly_combine_rings_back_loop ring nr rest a
  end.

Definition possibly_combine_rings_back (a : t) (ring : ring_ptr) : bool * t :=
  let nr := NodeRefSegment.second (ProtoRing.get_segment_back (ring_at a ring)) in
  possibly_combine_rings_back_loop ring nr (m_rings a) a.

(** [ring.swap_segments] applied to another ring of the list. *)
Definition swap_segments (a : t) (ring it : ring_ptr) : t :=
  let '(r', it') := ProtoRing.swap_segments (ring_at a ring) (ring_at a it) in
  modify_ring (modify_ring a ring (fun _ => r')) it (fun _ => it').

Fixpoint possibly_combine_rings_front_loop (ring : ring_ptr) (nr : NodeRef.t)
  (its : list (ring_ptr * ProtoRing.t)) (a : t) : bool * t :=
  match its with
  | [] => (false, a)
  | (it, it_ring) :: rest =>
      if negb (it =? ring) && negb (ProtoRing.closed it_ring) then
        let '(same1, a1) :=
          has_same_location a nr
            (NodeRefSegment.second (ProtoRing.get_segment_back it_ring)) in
        if same1 then
          let a2 := swap_segments a1 ring it in
          (true,
           erase (modify_ring a2 ring
                    (fun r => ProtoRing.merge_ring r (ring_at a2 it))) it)
        else
          let '(same2, a2) :=
            has_same_location a1 nr
              (NodeRefSegment.first (ProtoRing.get_segment_front it_ring)) in
          if same2 then
            let a3 := modify_ring a2 ring ProtoRing.reverse in
            (true,
             erase (modify_ring a3 ring
                      (fun r => ProtoRing.merge_ring r (ring_at a3 it))) it)
          else possibly_combine_rings_front_loop ring nr rest a2
      else possibly_combine_rings_front_loop ring nr rest a
  end.

Definition possibly_combine_rings_front (a : t) (ring : ring_ptr) : bool * t :=
  let nr := NodeRefSegment.first (ProtoRing.get_segment_front (ring_at a ring)) in
  possibly_combine_rings_front_loop ring nr (m_rings a) a.

(** [split_off_subring]: the segments from position [it_begin] up to
    [it_end] leave the ring and become a ring of their own. *)
Definition split_off_subring (a : t) (ring : ring_ptr) (it_begin it_end : nat)
  : t :=
  let new_ring :=
    ProtoRing.of_range (ProtoRing.range (ring_at a ring) it_begin it_end) in
  push_back
    (modify_ring a ring (fun r => ProtoRing.remove_segments r it_begin it_end))
    new_ring.

(** The positions [begin() + 1] up to [end() - 1] of a segment vector, each
    with its segment. *)
Definition inner_positions (l : list NodeRefSegment.t)
  : list (nat * NodeRefSegment.t) :=
  firstn (length l - 2) (skipn 1 (combine (seq 0 (length l)) l)).

Fixpoint has_closed_subring_back_loop (ring : ring_ptr) (nr : NodeRef.t)
  (its : list (nat * NodeRefSegment.t)) (end_ : nat) (a : t) : bool * t :=
  match its with
  | [] => (false, a)
  | (it, segment) :: rest =>
      let '(same, a1) := has_same_location a nr (NodeRefSegment.first segment) in
      if same then (true, split_off_subring a1 ring it end_)
      else has_closed_subring_back_loop ring nr rest end_ a1
  end.

Definition has_closed_subring_back (a : t) (ring : ring_ptr) (nr : NodeRef.t)
  : bool * t :=
  let segments := ProtoRing.segments (ring_at a ring) in
  if length segments <? 3 then (false, a)
  else has_closed_subring_back_loop ring nr (inner_positions segments)
                                    (length segments) a.

Fixpoint has_closed_subring_front_loop (ring : ring_ptr) (nr : NodeRef.t)
  (its : list (nat * NodeRefSegment.t)) (a : t) : bool * t :=
  match its with
  | [] => (false, a)
  | (it, segment) :: rest =>
      let '(same, a1) := has_same_location a nr (NodeRefSegment.second segment) in
      if same then (true, split_off_subring a1 ring 0 (it + 1))
      else has_closed_subring_front_loop ring nr rest a1
  end.

Definition has_closed_subring_front (a : t) (ring : ring_ptr) (nr : NodeRef.t)
  : bool * t :=
  let segments := ProtoRing.segments (ring_at a ring) in
  if length segments <? 3 then (false, a)
  else has_closed_subring_front_loop ring nr (inner_positions segments) a.

(** [std::adjacent_find] with [has_same_location] on the first nodes as
    predicate: the first two neighbours it accepts. *)
Fixpoint adjacent_find (segments : list NodeRefSegment.t) (a : t)
  : option (NodeRefSegment.t * NodeRefSegment.t) * t :=
  match segments with
  | s1 :: ((s2 :: _) as rest) =>
      let '(same, a1) :=
        has_same_location a (NodeRefSegment.first s1) (NodeRefSegment.first s2) in
      if same then (Some (s1, s2), a1) else adjacent_find rest a1
  | _ => (None, a)
  end.

(** [std::find_first_of] for a single segment: the first position holding a
    segment equal to it, the length of the vector when there is none. *)
Fixpoint find_first_of (l : list NodeRefSegment.t) (s : NodeRefSegment.t) : nat :=
  match l with
  | [] => 0
  | h :: rest => if NodeRefSegment.eqb h s then 0 else S (find_first_of rest s)
  end.

Definition check_for_closed_subring (a : t) (ring : ring_ptr) : bool * t :=
  let segments :=
    std_sort NodeRefSegment.ltb (ProtoRing.segments (ring_at a ring)) in
  match adjacent_find segments a with
  | (None, a1) => (false, a1)
  | (Some (s1, s2), a1) =>
      let r1 := find_first_of (ProtoRing.segments (ring_at a1 ring)) s1 in
      let r2 := find_first_of (ProtoRing.segments (ring_at a1 ring)) s2 in
      let m := if r2 <? r1 then (r2, r1) else (r1, r2) in
      let new_ring :=
        ProtoRing.of_range (ProtoRing.range (ring_at a1 ring) (fst m) (snd m)) in
      (true,
       push_back
         (modify_ring a1 ring
            (fun r => ProtoRing.remove_segments r (fst m) (snd m)))
         new_ring)
  end.

Definition combine_rings_front (a : t) (segment : NodeRefSegment.t)
  (ring : ring_ptr) : t :=
  let a1 := modify_ring a ring (fun r => ProtoRing.add_segment_front r segment) in
  let '(_, a2) := has_closed_subring_front a1 ring (NodeRefSegment.first segment) in
  let '(combined, a3) := possibly_combine_rings_front a2 ring in
  if combined then snd (check_for_closed_subring a3 ring) else a3.

Definition combine_rings_back (a : t) (segment : NodeRefSegment.t)
  (ring : ring_ptr) : t :=
  let a1 := modify_ring a ring (fun r => ProtoRing.add_segment_back r segment) in
  let '(_, a2) := has_closed_subring_back a1 ring (NodeRefSegment.second segment) in
  let '(combined, a3) := possibly_combine_rings_back a2 ring in
  if combined then snd (check_for_closed_subring a3 ring) else a3.

(** The loop of [add_to_existing_ring] over the rings; as before, a probe
    that fails changes nothing. *)
Fixpoint add_to_existing_ring_loop (rings : list (ring_ptr * ProtoRing.t))
  (segment : NodeRefSegment.t) (a : t) : bool * t :=
  match rings with
  | [] => (false, a)
  | (p, ring) :: rest =>
      if ProtoRing.closed ring then add_to_existing_ring_loop rest segment a
      else
        let back := NodeRefSegment.second (ProtoRing.get_segment_back ring) in
        let front := NodeRefSegment.first (ProtoRing.get_segment_front ring) in
        let '(same1, a1) :=
          has_same_location a back (NodeRefSegment.first segment) in
        if same1 then (true, combine_rings_back a1 segment p) else
        let '(same2, a2) :=
          has_same_location a1 back (NodeRefSegment.second segment) in
        if same2 then
          (true, combine_rings_back a2 (NodeRefSegment.swap_locations segment) p)
        else
        let '(same3, a3) :=
          has_same_location a2 front (NodeRefSegment.first segment) in
        if same3 then
          (true, combine_rings_front a3 (NodeRefSegment.swap_locations segment) p)
        else
        let '(same4, a4) :=
          has_same_location a3 front (NodeRefSegment.second segment) in
        if same4 then (true, combine_rings_front a4 segment p)
        else add_to_existing_ring_loop rest segment a4
  end.

Definition add_to_existing_ring (a : t) (segment : NodeRefSegment.t) : bool * t :=
  add_to_existing_ring_loop (m_rings a) segment a.

(** ** Emitting the rings *)

(** The node refs a ring builder receives: the first node of the first
    segment, then the second node of every segment. *)
Definition ring_nodes (r : ProtoRing.t) : list NodeRef.t :=
  NodeRefSegment.first (ProtoRing.get_segment_front r)
    :: map NodeRefSegment.second (ProtoRing.segments r).

Definition add_rings_to_area (a : t) : list Area.Ring :=
  flat_map
    (fun ring =>
       Area.OuterRing (ring_nodes (ring_at a ring))
         :: map (fun inner => Area.InnerRing (ring_nodes (ring_at a inner)))
                (ProtoRing.inner_rings (ring_at a ring)))
    (m_outer_rings a).

(** ** Inner and outer rings *)

(** The loop of [check_inner_outer] over the segment list, which ends at the
    first segment starting right of [min_node]. *)
Fixpoint check_inner_outer_loop (ring : ProtoRing.t) (min_node : NodeRef.t)
  (its : SegmentList.t) (count above : Z) : Z * Z :=
  match its with
  | [] => (count, above)
  | it :: rest =>
      if (Location.x (NodeRef.location (NodeRefSegment.first it))
          <=? Location.x (NodeRef.location min_node))%Z
      then
        if negb (ProtoRing.contains ring it) then
          let count1 :=
            if NodeRefSegment.to_left_of it (NodeRef.location min_node)
            then (count + 1)%Z else count in
          let above1 :=
            if Location.eqb (NodeRef.location (NodeRefSegment.first it))
                            (NodeRef.location min_node)
               && (Location.y (NodeRef.location min_node)
                   <? Location.y (NodeRef.location (NodeRefSegment.second it)))%Z
            then (above + 1)%Z else above in
          let above2 :=
            if Location.eqb (NodeRef.location (NodeRefSegment.second it))
                            (NodeRef.location min_node)
               && (Location.y (NodeRef.location min_node)
                   <? Location.y (NodeRef.location (NodeRefSegment.first it)))%Z
            then (above1 + 1)%Z else above1 in
          check_inner_outer_loop ring min_node rest count1 above2
        else check_inner_outer_loop ring min_node rest count above
      else (count, above)
  end.

(** [check_inner_outer] on a ring, given the segment list: the ring as the
    function leaves it.  [%] is the remainder of the C++ division. *)
Definition check_inner_outer_ring (m_segment_list : SegmentList.t)
  (ring : ProtoRing.t) : ProtoRing.t :=
  let min_node := ProtoRing.min_node ring in
  let '(count, above) :=
    check_inner_outer_loop ring min_node m_segment_list 0%Z 0%Z in
  let count := (count + Z.rem above 2)%Z in
  if negb (Z.rem count 2 =? 0)%Z then ProtoRing.set_inner ring else ring.

Definition check_inner_outer (a : t) (ring : ring_ptr) : t :=
  modify_ring a ring (check_inner_outer_ring (m_segment_list a)).

(** The loop over the segments of one ring in [check_inner_outer_roles]. *)
Fixpoint check_roles_of_ring (expect_outer : bool)
  (segments : list NodeRefSegment.t) (a : t) : t :=
  match segments with
  | [] => a
  | segment :: rest =>
      let way_id := Way.id (WayPtr.deref (NodeRefSegment.way segment)) in
      let first := NodeRef.location (NodeRefSegment.first segment) in
      let second := NodeRef.location (NodeRefSegment.second segment) in
      if expect_outer then
        if negb (NodeRefSegment.role_outer segment) then
          check_roles_of_ring expect_outer rest
            (report (with_mismatches a (m_inner_outer_mismatches a + 1)%Z)
                    (report_role_should_be_outer way_id first second))
        else check_roles_of_ring expect_outer rest a
      else
        if negb (NodeRefSegment.role_inner segment) then
          check_roles_of_ring expect_outer rest
            (report (with_mismatches a (m_inner_outer_mismatches a + 1)%Z)
                    (report_role_should_be_inner way_id first second))
        else check_roles_of_ring expect_outer rest a
  end.

Definition check_inner_outer_roles (a : t) : t :=
  let a1 :=
    fold_left
      (fun a ringptr =>
         check_roles_of_ring true (ProtoRing.segments (ring_at a ringptr)) a)
      (m_outer_rings a) a in
  fold_left
    (fun a ringptr =>
       check_roles_of_ring false (ProtoRing.segments (ring_at a ringptr)) a)
    (m_inner_rings a1) a1.

(** ** [create_rings], phase by phase *)

(** [m_segment_list.sort(); m_segment_list.erase_duplicate_segments();] *)
Definition normalize (a : t) : t :=
  with_segment_list a
    (SegmentList.erase_duplicate_segments (SegmentList.sort (m_segment_list a))).

(** [m_segment_list.find_intersections(m_config.problem_reporter)] *)
Definition find_intersections (a : t) : bool * t :=
  let '(found, reports) :=
    SegmentList.find_intersections (m_segment_list a)
      (problem_reporter (m_config a)) (reporter a) in
  (found, with_reporter a reports).

(** The loop that adds every segment to a ring, a new one if no existing
    ring takes it. *)
Fixpoint add_segments (segments : SegmentList.t) (a : t) : t :=
  match segments with
  | [] => a
  | segment :: rest =>
      let '(added, a1) := add_to_existing_ring a segment in
      if added then add_segments rest a1
      else add_segments rest (push_back a1 (ProtoRing.of_segment segment))
  end.

(** One round of the loop over [m_rings] that classifies and orients the
    ring at address [ring]. *)
Definition classify_ring (a : t) (ring : ring_ptr) : t :=
  let a1 := check_inner_outer a ring in
  if ProtoRing.outer (ring_at a1 ring) then
    let a2 :=
      if negb (ProtoRing.is_cw (ring_at a1 ring))
      then modify_ring a1 ring ProtoRing.reverse else a1 in
    with_outer_rings a2 (m_outer_rings a2 ++ [ring])
  else
    let a2 :=
      if ProtoRing.is_cw (ring_at a1 ring)
      then modify_ring a1 ring ProtoRing.reverse else a1 in
    with_inner_rings a2 (m_inner_rings a2 ++ [ring]).

Definition classify_rings (a : t) : t :=
  fold_left classify_ring (map fst (m_rings a)) a.

(** The inner loop of the hole assignment: the first outer ring the inner
    ring is in gets it. *)
Fixpoint add_to_first_outer (a : t) (inner : ring_ptr) (outers : list ring_ptr)
  : t :=
  match outers with
  | [] => a
  | outer :: rest =>
      if ProtoRing.is_in (ring_at a inner) (ring_at a outer)
      then modify_ring a outer (fun r => ProtoRing.add_inner_ring r inner)
      else add_to_first_outer a inner rest
  end.

Definition area_less (a : t) (p q : ring_ptr) : bool :=
  (ProtoRing.area (ring_at a p) <? ProtoRing.area (ring_at a q))%Z.

Definition assign_inner_rings (a : t) : t :=
  if length (m_outer_rings a) =? 1 then
    fold_left
      (fun a inner =>
         modify_ring a (hd 0 (m_outer_rings a))
                     (fun r => ProtoRing.add_inner_ring r inner))
      (m_inner_rings a) a
  else
    let a1 := with_outer_rings a (std_sort (area_less a) (m_outer_rings a)) in
    fold_left (fun a inner => add_to_first_outer a inner (m_outer_rings a))
              (m_inner_rings a1) a1.

(** The assembler after the loop over the segments, when no intersection
    was found. *)
Definition stitched (a : t) : t :=
  let a2 := snd (find_intersections (normalize a)) in
  add_segments (m_segment_list a2) a2.

Definition create_rings (a : t) : bool * t :=
  let a1 := normalize a in
  let '(found, a2) := find_intersections a1 in
  if found then (false, a2)
  else
    let a3 := add_segments (m_segment_list a2) a2 in
    let '(open_rings, a4) := check_for_open_rings a3 in
    if open_rings then (false, a4)
    else
      let a5 :=
        if length (m_rings a4) =? 1 then
          with_outer_rings a4 (m_outer_rings a4 ++ [fst (hd (0, ProtoRing.empty)
                                                           (m_rings a4))])
        else assign_inner_rings (classify_rings a4) in
      (true, check_inner_outer_roles a5).

(** ** The two entry points *)

(** The way entry point up to the call of [create_rings]: the reports and
    the extraction of the segments. *)
Definition begin_way (a : t) (way : WayPtr.t) : t :=
  let w := WayPtr.deref way in
  let a1 := report a (set_object item_way (Way.id w)) in
  let a2 :=
    if negb (Way.ends_have_same_id w) then
      report a1 (report_duplicate_node (NodeRef.ref (Way.front w))
                                       (NodeRef.ref (Way.back w))
                                       (NodeRef.location (Way.front w)))
    else a1 in
  with_segment_list a2
    (SegmentList.extract_segments_from_way (m_segment_list a2) way "outer").

(** [operator()(const osmium::Way&, osmium::memory::Buffer&)]. *)
Definition assemble_way (a : t) (way : WayPtr.t) (out_buffer : OutBuffer)
  : t * OutBuffer :=
  let w := WayPtr.deref way in
  let a3 := begin_way a way in
  let builder := initialize_area_from_object (Way.object w) 0 in
  let '(ok, a4) := create_rings a3 in
  let builder :=
    if ok then add_rings (add_tags builder (add_tags_to_area_way w))
                         (add_rings_to_area a4)
    else builder in
  (a4, out_buffer ++ [builder]).

(** [std::equal(first1, last1, first2)] on tag ranges; where the second
    range ends before the first, C++ reads past its end, which counts as a
    difference here. *)
Fixpoint std_equal (l1 l2 : TagList) : bool :=
  match l1, l2 with
  | [], _ => true
  | t1 :: r1, t2 :: r2 => Tag.eqb t1 t2 && std_equal r1 r2
  | _ :: _, [] => false
  end.

Definition inner_way_filter : KeyFilter.t :=
  KeyFilter.add (KeyFilter.add (KeyFilter.add (KeyFilter.add
    (KeyFilter.add (KeyFilter.make true []) false "created_by")
    false "source") false "note") false "test:id") false "test:section".

(** The test the second loop of the relation entry point makes on a member:
    whether its way is assembled as an area of its own. *)
Definition inner_way_is_area (role : string) (way : Way.t) (area_tags : TagList)
  : bool :=
  if String.eqb role "inner" then
    if Way.is_closed way && (0 <? length (Way.tags way)) then
      let fi := KeyFilter.filtered inner_way_filter (Way.tags way) in
      let d := length fi in
      if 0 <? d then
        let area_fi := KeyFilter.filtered inner_way_filter area_tags in
        negb (std_equal fi area_fi) || negb (d =? length area_fi)
      else false
    else false
  else false.

(** The loop over the members in the relation entry point; every way it
    picks is assembled by an assembler of its own, made from the same
    configuration. *)
Fixpoint assemble_inner_ways (config : AssemblerConfig)
  (relation_members : list RelationMember.t) (members : list nat)
  (in_buffer : InBuffer) (area_tags : TagList)
  (reports : ProblemReporter) (out_buffer : OutBuffer)
  : ProblemReporter * OutBuffer :=
  match members, relation_members with
  | offset :: members', memit :: relation_members' =>
      let way := get_way in_buffer offset in
      if inner_way_is_area (RelationMember.role memit) (WayPtr.deref way)
                           area_tags
      then
        let assembler := create config reports in
        let '(assembler', out_buffer') :=
          assemble_way assembler way out_buffer in
        assemble_inner_ways config relation_members' members' in_buffer
                            area_tags (reporter assembler') out_buffer'
      else
        assemble_inner_ways config relation_members' members' in_buffer
                            area_tags reports out_buffer
  | _, _ => (reports, out_buffer)
  end.

(** The relation entry point up to the call of [create_rings]. *)
Definition begin_relation (a : t) (relation : Relation.t) (members : list nat)
  (in_buffer : InBuffer) : t :=
  let a1 := report a (set_object item_relation (Relation.id relation)) in
  with_segment_list a1
    (SegmentList.extract_segments_from_ways
       (m_segment_list a1) (Relation.members relation) members in_buffer).

(** [operator()(const osmium::Relation&, const std::vector<size_t>&,
    const osmium::memory::Buffer&, osmium::memory::Buffer&)]. *)
Definition assemble_relation (a : t) (relation : Relation.t)
  (members : list nat) (in_buffer : InBuffer) (out_buffer : OutBuffer)
  : t * OutBuffer :=
  let a2 := begin_relation a relation members in_buffer in
  let builder := initialize_area_from_object (Relation.object relation) 1 in
  let '(ok, a3) := create_rings a2 in
  let builder :=
    if ok then add_rings (add_tags builder (add_tags_to_area_relation a3 relation))
                         (add_rings_to_area a3)
    else builder in
  let out_buffer1 := out_buffer ++ [builder] in
  let area_tags := Area.tags builder in
  if (m_inner_outer_mismatches a3 =? 0)%Z then
    let '(reports, out_buffer2) :=
      assemble_inner_ways (m_config a3) (Relation.members relation) members
                          in_buffer area_tags (reporter a3) out_buffer1 in
    (with_reporter a3 reports, out_buffer2)
  else (a3, out_buffer1).

End Assembler.

(** * Part V: inputs used as examples *)

Module Examples.

Definition node (id x y : Z) : NodeRef.t := NodeRef.make id (Location.make x y).

Definition object (id : Z) (tags : TagList) : Object.t :=
  Object.make id 1 1 0 true 1 "user" tags.

(** A configuration with a problem reporter, and an assembler just
    constructed from it. *)
Definition config : AssemblerConfig := make_config true false.
Definition fresh : Assembler.t := Assembler.create config [].

(** Scenario 1 of the specification: the square as a closed way. *)
Definition square : Way.t :=
  Way.make (object 7 [Tag.make "natural" "water"])
    [node 1 0 0; node 2 10 0; node 3 10 10; node 4 0 10; node 1 0 0]%Z.

(** Scenario 5: the square without its closing segment. *)
Definition open_way : Way.t :=
  Way.make (object 8 [Tag.make "natural" "water"])
    [node 1 0 0; node 2 10 0; node 3 10 10; node 4 0 10]%Z.

(** Two closed ways with three nodes each, mirror images of each other: the
    first runs counter-clockwise in the plane, the second clockwise. *)
Definition triangle_up : Way.t :=
  Way.make (object 9 []) [node 1 0 0; node 2 1 (-5); node 3 2 5; node 1 0 0]%Z.
Definition triangle_down : Way.t :=
  Way.make (object 9 []) [node 1 0 0; node 2 1 5; node 3 2 (-5); node 1 0 0]%Z.

(** Two triangles that touch in their leftmost corner, which is node 1 in
    the small one and node 4, at the same place, in the large one that
    encloses it. *)
Definition small_triangle : Way.t :=
  Way.make (object 10 [Tag.make "natural" "water"])
    [node 1 0 0; node 2 10 5; node 3 10 (-5); node 1 0 0]%Z.
Definition large_triangle : Way.t :=
  Way.make (object 11 [Tag.make "natural" "water"])
    [node 4 0 0; node 5 20 40; node 6 20 (-40); node 4 0 0]%Z.
Definition touching_triangles : Relation.t :=
  Relation.make (object 20 [Tag.make "type" "multipolygon"])
    [RelationMember.make "inner" 10; RelationMember.make "inner" 11]%Z.
Definition touching_triangles_buffer : InBuffer :=
  [small_triangle; large_triangle].

(** Scenario 2, the square with a triangular hole, the way of the hole
    carrying the single tag [type=fountain]. *)
Definition hole : Way.t :=
  Way.make (object 12 [Tag.make "type" "fountain"])
    [node 11 2 2; node 12 6 2; node 13 4 6; node 11 2 2]%Z.
Definition square_with_hole : Relation.t :=
  Relation.make (object 21 [Tag.make "type" "multipolygon"])
    [RelationMember.make "outer" 7; RelationMember.make "inner" 12]%Z.
Definition square_with_hole_buffer : InBuffer := [square; hole].

(** The closed way through 1, 2, 3, 4, 5, 6 and back to 1 whose nodes 1 and
    4 are at the same place: two triangles that touch there. *)
Definition bow_tie : Way.t :=
  Way.make (object 30 [])
    [node 1 0 0; node 2 10 (-20); node 3 10 (-10);
     node 4 0 0; node 5 10 20; node 6 10 10;
     node 1 0 0]%Z.

(** A relation of two squares next to each other, both outer; the way of
    the first has the tag [name=x] twice, the way of the second has no
    tag. *)
Definition repeated_tag_square : Way.t :=
  Way.make (object 40 [Tag.make "name" "x"; Tag.make "name" "x"])
    [node 1 0 0; node 2 10 0; node 3 10 10;
     node 4 0 10; node 1 0 0]%Z.
Definition untagged_square : Way.t :=
  Way.make (object 41 [])
    [node 5 20 0; node 6 30 0; node 7 30 10;
     node 8 20 10; node 5 20 0]%Z.
Definition two_squares : Relation.t :=
  Relation.make (object 50 [Tag.make "type" "multipolygon"])
    [RelationMember.make "outer" 40; RelationMember.make "outer" 41]%Z.

(** A relation of a triangle of area one half and the second of these
    squares, both outer. *)
Definition unit_triangle : Way.t :=
  Way.make (object 42 [])
    [node 1 0 0; node 2 0 1; node 3 1 0; node 1 0 0]%Z.
Definition triangle_and_square : Relation.t :=
  Relation.make (object 51 [Tag.make "type" "multipolygon"])
    [RelationMember.make "outer" 42; RelationMember.make "outer" 41]%Z.

End Examples.

(** * Part VI: the notions the properties are stated with *)

(** What the stitching of rings never touches: the configuration, the
    segment list, the two vectors of ring pointers and the mismatch
    counter. *)
Definition same_members (a b : Assembler.t) : Prop :=
  Assembler.m_config a = Assembler.m_config b
  /\ Assembler.m_segment_list a = Assembler.m_segment_list b
  /\ Assembler.m_outer_rings a = Assembler.m_outer_rings b
  /\ Assembler.m_inner_rings a = Assembler.m_inner_rings b
  /\ Assembler.m_inner_outer_mismatches a = Assembler.m_inner_outer_mismatches b.

(** What [create_rings] keeps of the state it starts with: every pointer in
    the two vectors, and at least the count of mismatches. *)
Definition carried_over (a b : Assembler.t) : Prop :=
  incl (Assembler.m_outer_rings a) (Assembler.m_outer_rings b)
  /\ incl (Assembler.m_inner_rings a) (Assembler.m_inner_rings b)
  /\ (Assembler.m_inner_outer_mismatches a
      <= Assembler.m_inner_outer_mismatches b)%Z.

(** The pointer points to a ring of the list. *)
Definition valid (a : Assembler.t) (p : ring_ptr) : Prop :=
  Assembler.lookup (Assembler.m_rings a) p <> None.

(** Two assemblers with the same vectors of ring pointers whose rings differ
    at most in the inner rings attached to them. *)
Definition same_chains (a b : Assembler.t) : Prop :=
  Assembler.m_outer_rings b = Assembler.m_outer_rings a
  /\ Assembler.m_inner_rings b = Assembler.m_inner_rings a
  /\ Assembler.reporter b = Assembler.reporter a
  /\ (forall p, valid b p <-> valid a p)
  /\ (forall p, ProtoRing.segments (Assembler.ring_at b p)
                = ProtoRing.segments (Assembler.ring_at a p)).

(** The outer ring the hole assignment picks for an inner ring among
    [outers]: the first one the inner ring is in. *)
Definition first_containing (a : Assembler.t) (outers : list ring_ptr)
  (inner : ring_ptr) : option ring_ptr :=
  find (fun outer =>
          ProtoRing.is_in (Assembler.ring_at a inner) (Assembler.ring_at a outer))
       outers.

Definition is_some_ptr (o : option ring_ptr) (p : ring_ptr) : bool :=
  match o with
  | Some q => q =? p
  | None => false
  end.

(** The ring pointers [add_rings_to_area] visits, in order, each with
    whether it is emitted as an outer ring. *)
Definition rings_to_emit (a : Assembler.t) : list (bool * ring_ptr) :=
  flat_map
    (fun ring =>
       (true, ring)
         :: map (fun inner => (false, inner))
                (ProtoRing.inner_rings (Assembler.ring_at a ring)))
    (Assembler.m_outer_rings a).

Definition emit_ring (a : Assembler.t) (e : bool * ring_ptr) : Area.Ring :=
  if fst e
  then Area.OuterRing (Assembler.ring_nodes (Assembler.ring_at a (snd e)))
  else Area.InnerRing (Assembler.ring_nodes (Assembler.ring_at a (snd e))).

(** What the check of the roles leaves as it is: the rings and the two
    vectors of ring pointers. *)
Definition same_rings (a b : Assembler.t) : Prop :=
  Assembler.m_rings b = Assembler.m_rings a
  /\ Assembler.m_outer_rings b = Assembler.m_outer_rings a
  /\ Assembler.m_inner_rings b = Assembler.m_inner_rings a.

(** The rings of an assembler with twice their signed shoelace area. *)
Definition ring_sums (a : Assembler.t) : list (ring_ptr * Z) :=
  map (fun e => (fst e, ProtoRing.sum (snd e))) (Assembler.m_rings a).

(** The segments [check_inner_outer] looks at for a ring: those that start at
    or left of the minimal node of the ring and are not contained in it. *)
Definition scanned (ring : ProtoRing.t) (s : NodeRefSegment.t) : bool :=
  (Location.x (NodeRef.location (NodeRefSegment.first s))
   <=? Location.x (NodeRef.location (ProtoRing.min_node ring)))%Z
  && negb (ProtoRing.contains ring s).

(** One endpoint is at the location of the node, the other strictly above
    it. *)
Definition hangs_above (s : NodeRefSegment.t) (node : NodeRef.t) : bool :=
  (Location.eqb (NodeRef.location (NodeRefSegment.first s))
                (NodeRef.location node)
   && (Location.y (NodeRef.location node)
       <? Location.y (NodeRef.location (NodeRefSegment.second s)))%Z)
  || (Location.eqb (NodeRef.location (NodeRefSegment.second s))
                   (NodeRef.location node)
      && (Location.y (NodeRef.location node)
          <? Location.y (NodeRef.location (NodeRefSegment.first s)))%Z).


(** The number of scanned segments with one endpoint at the minimal node and
    the other above it. *)
Definition above (l : SegmentList.t) (ring : ProtoRing.t) : nat :=
  length
    (filter (fun s => scanned ring s && hangs_above s (ProtoRing.min_node ring))
            l).

(** The segment list is in the order [sort] establishes. *)
Definition sorted_segments (l : SegmentList.t) : Prop :=
  StronglySorted (fun s1 s2 => NodeRefSegment.ltb s2 s1 = false) l.





(** The distinct ways the outer rings come from, as [add_tags_to_area]
    collects them. *)
Definition outer_ways (a : Assembler.t) : list WayPtr.t :=
  fold_left
    (fun ways ring => ProtoRing.get_ways (Assembler.ring_at a ring) ways)
    (Assembler.m_outer_rings a) [].

(** A string a [const char*] can point to: no zero byte in it. *)
Fixpoint is_c_string (s : string) : bool :=
  match s with
  | EmptyString => true
  | String c rest => negb (Ascii.eqb c "000"%char) && is_c_string rest
  end.

Definition c_tag (tag : Tag.t) : Prop :=
  is_c_string (Tag.key tag) = true /\ is_c_string (Tag.value tag) = true.

(** The tag [add_common_tags] makes of a key of its map. *)
Definition tag_of_kv (kv : string) : Tag.t :=
  Tag.make (Assembler.c_str kv)
    (Assembler.c_str
       (Assembler.advance kv (String.length (Assembler.c_str kv) + 1))).

(** The count the map of [add_common_tags] holds for a key. *)
Fixpoint counter_get (counter : list (string * nat)) (k : string) : nat :=
  match counter with
  | [] => 0
  | (k', n) :: rest => if String.eqb k' k then n else counter_get rest k
  end.

(** The entries of a [std::map] are in the strict order of their keys. *)
Definition counter_ok (counter : list (string * nat)) : Prop :=
  StronglySorted (fun e1 e2 => String.compare (fst e1) (fst e2) = Lt) counter.

(** The keys of the map in the order the two loops produce them. *)
Definition kvs_of_ways (ways : list WayPtr.t) : list string :=
  flat_map (fun way => map Assembler.kv_of_tag (Way.tags (WayPtr.deref way)))
           ways.

(** What reaches the reporter of a sequence of calls: all of them if a
    reporter is configured, none if the pointer is null. *)
Definition received (a : Assembler.t) (reports : list Report) : list Report :=
  if problem_reporter (Assembler.m_config a) then reports else [].

(** The rings of the assembler that are not closed, in list order. *)
Definition open_rings (a : Assembler.t) : list ProtoRing.t :=
  filter (fun ring => negb (ProtoRing.closed ring))
         (map snd (Assembler.m_rings a)).

(** The report [check_for_open_rings] makes for a ring. *)
Definition open_ring_report (ring : ProtoRing.t) : Report :=
  report_ring_not_closed
    (NodeRef.location (NodeRefSegment.first (ProtoRing.get_segment_front ring)))
    (NodeRef.location (NodeRefSegment.second (ProtoRing.get_segment_back ring))).

(** Whether a segment has the role its ring asks for. *)
Definition has_role (expect_outer : bool) (segment : NodeRefSegment.t) : bool :=
  if expect_outer then NodeRefSegment.role_outer segment
  else NodeRefSegment.role_inner segment.

(** The segments of the rings in [rings] that do not have the role, ring by
    ring. *)
Definition wrong_roles (expect_outer : bool) (a : Assembler.t)
  (rings : list ring_ptr) : list NodeRefSegment.t :=
  flat_map
    (fun ringptr =>
       filter (fun segment => negb (has_role expect_outer segment))
              (ProtoRing.segments (Assembler.ring_at a ringptr)))
    rings.

(** The report [check_inner_outer_roles] makes for such a segment. *)
Definition role_report (expect_outer : bool) (segment : NodeRefSegment.t)
  : Report :=
  let way_id := Way.id (WayPtr.deref (NodeRefSegment.way segment)) in
  let first := NodeRef.location (NodeRefSegment.first segment) in
  let second := NodeRef.location (NodeRefSegment.second segment) in
  if expect_outer then report_role_should_be_outer way_id first second
  else report_role_should_be_inner way_id first second.

(** The node refs of a ring of an area. *)
Definition nodes_of_ring (ring : Area.Ring) : list NodeRef.t :=
  match ring with
  | Area.OuterRing nodes => nodes
  | Area.InnerRing nodes => nodes
  end.

(** The first and the last node ref of the sequence are at the same
    location. *)
Definition ends_meet (nodes : list NodeRef.t) : bool :=
  Location.eqb (NodeRef.location (hd NodeRef.default nodes))
               (NodeRef.location (last nodes NodeRef.default)).

(** Every ring of the assembler is closed. *)
Definition all_closed (a : Assembler.t) : Prop :=
  forall p ring,
    Assembler.lookup (Assembler.m_rings a) p = Some ring ->
    ProtoRing.closed ring = true.

(** Every entry of the map has been incremented at least once. *)
Definition counter_positive (counter : list (string * nat)) : Prop :=
  Forall (fun e => 0 < snd e) counter.

(** The assembler with a null [problem_reporter] and the reporter object in
    the state [log]; the rest is that of [a]. *)
Definition muted (a : Assembler.t) (log : ProblemReporter) : Assembler.t :=
  Assembler.make
    (make_config false (debug (Assembler.m_config a)))
    (Assembler.m_segment_list a) (Assembler.m_rings a)
    (Assembler.m_outer_rings a) (Assembler.m_inner_rings a)
    (Assembler.m_inner_outer_mismatches a) (Assembler.next_address a) log.

(** The nodes of the list of rings have distinct addresses, all below the
    address the next node gets. *)
Definition distinct_addresses (a : Assembler.t) : Prop :=
  NoDup (map fst (Assembler.m_rings a))
  /\ Forall (fun e => fst e < Assembler.next_address a) (Assembler.m_rings a).

(** The segments of all rings, ring by ring. *)
Definition ring_segments (a : Assembler.t) : list NodeRefSegment.t :=
  flat_map (fun e => ProtoRing.segments (snd e)) (Assembler.m_rings a).

(** The number of segments with the property [P]. *)
Definition count_segments (P : NodeRefSegment.t -> bool)
  (l : list NodeRefSegment.t) : nat :=
  length (filter P l).

(** A ring as the stitching makes it: marked outer, without inner rings. *)
Definition unclassified_ring (ring : ProtoRing.t) : Prop :=
  ProtoRing.m_outer ring = true /\ ProtoRing.inner_rings ring = [].

Definition unclassified (a : Assembler.t) : Prop :=
  Forall (fun e => unclassified_ring (snd e)) (Assembler.m_rings a).

(** What a step of the stitching that works on the ring at [target] keeps:
    the addresses stay distinct and [target] stays a ring, the rings at the
    protected addresses are not touched, and rings that were unclassified
    still are. *)
Definition ring_step (protected : ring_ptr -> Prop) (target : ring_ptr)
  (a a' : Assembler.t) : Prop :=
  distinct_addresses a'
  /\ valid a' target
  /\ (forall q ring,
        protected q ->
        Assembler.lookup (Assembler.m_rings a) q = Some ring ->
        Assembler.lookup (Assembler.m_rings a') q = Some ring)
  /\ (unclassified a -> unclassified a').

(** The protected addresses hold closed rings. *)
Definition protected_closed (protected : ring_ptr -> Prop) (a : Assembler.t)
  : Prop :=
  forall q,
    protected q ->
    exists ring,
      Assembler.lookup (Assembler.m_rings a) q = Some ring
      /\ ProtoRing.closed ring = true.

(** What such a step starts from. *)
Definition ready (protected : ring_ptr -> Prop) (target : ring_ptr)
  (a : Assembler.t) : Prop :=
  ~ protected target
  /\ protected_closed protected a
  /\ distinct_addresses a
  /\ valid a target.

(** Such a step after which the number of segments with [P] in the rings
    has grown by [n]. *)
Definition stitch_step (P : NodeRefSegment.t -> bool)
  (protected : ring_ptr -> Prop) (target : ring_ptr) (n : nat)
  (a a' : Assembler.t) : Prop :=
  ring_step protected target a a'
  /\ count_segments P (ring_segments a')
     = count_segments P (ring_segments a) + n.

(** The same for a step that adds segments to open rings or to rings of
    their own. *)
Definition stitches (P : NodeRefSegment.t -> bool)
  (protected : ring_ptr -> Prop) (n : nat) (a a' : Assembler.t) : Prop :=
  distinct_addresses a'
  /\ protected_closed protected a'
  /\ count_segments P (ring_segments a')
     = count_segments P (ring_segments a) + n
  /\ (forall q ring,
        protected q ->
        Assembler.lookup (Assembler.m_rings a) q = Some ring ->
        Assembler.lookup (Assembler.m_rings a') q = Some ring)
  /\ (unclassified a -> unclassified a').

(** Two assemblers whose rings have the same addresses and the same marks,
    outer or inner. *)
Definition same_marks (a b : Assembler.t) : Prop :=
  map fst (Assembler.m_rings b) = map fst (Assembler.m_rings a)
  /\ forall q,
       ProtoRing.outer (Assembler.ring_at b q)
       = ProtoRing.outer (Assembler.ring_at a q).

(** The segment [t] starts at the location at which [s] ends. *)
Definition joined (s t : NodeRefSegment.t) : Prop :=
  NodeRef.location (NodeRefSegment.second s)
  = NodeRef.location (NodeRefSegment.first t).

(** Each segment of the sequence starts where the one before it ends. *)
Fixpoint chain (l : list NodeRefSegment.t) : Prop :=
  match l with
  | [] => True
  | s :: rest =>
      match rest with
      | [] => True
      | t :: _ => joined s t
      end /\ chain rest
  end.

(** Every ring of the list is such a chain. *)
Definition chained (a : Assembler.t) : Prop :=
  Forall (fun e => chain (ProtoRing.segments (snd e))) (Assembler.m_rings a).

(** A ring as the loop over the rings leaves it: an outer ring does not run
    counter-clockwise, an inner ring does not run clockwise.  [sum] is twice
    the signed area, without rounding. *)
Definition oriented (ring : ProtoRing.t) : Prop :=
  if ProtoRing.outer ring then (0 <= ProtoRing.sum ring)%Z
  else (ProtoRing.sum ring <= 0)%Z.

(** The offsets of the member ways the loop of the relation entry point
    picks, in the order of the members. *)
Fixpoint inner_way_offsets (relation_members : list RelationMember.t)
  (members : list nat) (in_buffer : InBuffer) (area_tags : TagList)
  : list nat :=
  match members, relation_members with
  | offset :: members', memit :: relation_members' =>
      if Assembler.inner_way_is_area (RelationMember.role memit)
           (WayPtr.deref (get_way in_buffer offset)) area_tags
      then offset :: inner_way_offsets relation_members' members' in_buffer
                                       area_tags
      else inner_way_offsets relation_members' members' in_buffer area_tags
  | _, _ => []
  end.

(** An end of the segment is where the ring ends or where it starts. *)
Definition meets (ring : ProtoRing.t) (segment : NodeRefSegment.t) : bool :=
  let back :=
    NodeRef.location (NodeRefSegment.second (ProtoRing.get_segment_back ring)) in
  let front :=
    NodeRef.location (NodeRefSegment.first (ProtoRing.get_segment_front ring)) in
  Location.eqb back (NodeRef.location (NodeRefSegment.first segment))
  || Location.eqb back (NodeRef.location (NodeRefSegment.second segment))
  || Location.eqb front (NodeRef.location (NodeRefSegment.first segment))
  || Location.eqb front (NodeRef.location (NodeRefSegment.second segment)).

(** The ring is open and the segment meets it. *)
Definition takes (segment : NodeRefSegment.t) (e : ring_ptr * ProtoRing.t)
  : bool :=
  negb (ProtoRing.closed (snd e)) && meets (snd e) segment.

(** The segment put to the ring at [p], at the first of its ends that fits:
    the end of the ring before its start, the first node of the segment
    before its second. *)
Definition attached (a : Assembler.t) (segment : NodeRefSegment.t)
  (p : ring_ptr) (ring : ProtoRing.t) : Assembler.t :=
  let back := NodeRefSegment.second (ProtoRing.get_segment_back ring) in
  let front := NodeRefSegment.first (ProtoRing.get_segment_front ring) in
  let seen nr1 nr2 := snd (Assembler.has_same_location a nr1 nr2) in
  let at_ nr1 nr2 :=
    Location.eqb (NodeRef.location nr1) (NodeRef.location nr2) in
  if at_ back (NodeRefSegment.first segment) then
    Assembler.combine_rings_back (seen back (NodeRefSegment.first segment))
                                 segment p
  else if at_ back (NodeRefSegment.second segment) then
    Assembler.combine_rings_back (seen back (NodeRefSegment.second segment))
                                 (NodeRefSegment.swap_locations segment) p
  else if at_ front (NodeRefSegment.first segment) then
    Assembler.combine_rings_front (seen front (NodeRefSegment.first segment))
                                  (NodeRefSegment.swap_locations segment) p
  else
    Assembler.combine_rings_front (seen front (NodeRefSegment.second segment))
                                  segment p.

(** What a merge at the end of the ring at [ring] leaves: the ring [other]
    at [it] has gone into it, as it was or reversed, and no other ring has
    changed. *)
Definition merged_back (a a' : Assembler.t) (ring : ring_ptr) (r : ProtoRing.t)
  : Prop :=
  exists it other merged,
    it <> ring
    /\ Assembler.lookup (Assembler.m_rings a) it = Some other
    /\ ProtoRing.closed other = false
    /\ Assembler.lookup (Assembler.m_rings a') ring = Some merged
    /\ Assembler.lookup (Assembler.m_rings a') it = None
    /\ (forall q, q <> ring -> q <> it ->
                  Assembler.lookup (Assembler.m_rings a') q
                  = Assembler.lookup (Assembler.m_rings a) q)
    /\ ((NodeRef.location
           (NodeRefSegment.second (ProtoRing.get_segment_back r))
         = NodeRef.location
             (NodeRefSegment.first (ProtoRing.get_segment_front other))
         /\ ProtoRing.segments merged
            = ProtoRing.segments r ++ ProtoRing.segments other)
        \/ (NodeRef.location
              (NodeRefSegment.second (ProtoRing.get_segment_back r))
            = NodeRef.location
                (NodeRefSegment.second (ProtoRing.get_segment_back other))
            /\ ProtoRing.segments merged
               = ProtoRing.segments r
                   ++ rev (map NodeRefSegment.swap_locations
                               (ProtoRing.segments other)))).

(** The same at the start of the ring. *)
Definition merged_front (a a' : Assembler.t) (ring : ring_ptr)
  (r : ProtoRing.t) : Prop :=
  exists it other merged,
    it <> ring
    /\ Assembler.lookup (Assembler.m_rings a) it = Some other
    /\ ProtoRing.closed other = false
    /\ Assembler.lookup (Assembler.m_rings a') ring = Some merged
    /\ Assembler.lookup (Assembler.m_rings a') it = None
    /\ (forall q, q <> ring -> q <> it ->
                  Assembler.lookup (Assembler.m_rings a') q
                  = Assembler.lookup (Assembler.m_rings a) q)
    /\ ((NodeRef.location
           (NodeRefSegment.first (ProtoRing.get_segment_front r))
         = NodeRef.location
             (NodeRefSegment.second (ProtoRing.get_segment_back other))
         /\ ProtoRing.segments merged
            = ProtoRing.segments other ++ ProtoRing.segments r)
        \/ (NodeRef.location
              (NodeRefSegment.first (ProtoRing.get_segment_front r))
            = NodeRef.location
                (NodeRefSegment.first (ProtoRing.get_segment_front other))
            /\ ProtoRing.segments merged
               = rev (map NodeRefSegment.swap_locations (ProtoRing.segments r))
                   ++ ProtoRing.segments other)).


(** The ring [r'] has the segments of the ring [r], in their direction or
    in the other. *)
Definition same_loop (r r' : ProtoRing.t) : Prop :=
  ProtoRing.segments r' = ProtoRing.segments r
  \/ ProtoRing.segments r' = ProtoRing.segments (ProtoRing.reverse r).

(** Two assemblers whose lists of rings have the same nodes, each with the
    same loop of segments. *)
Definition same_loops (a b : Assembler.t) : Prop :=
  Assembler.next_address b = Assembler.next_address a
  /\ map fst (Assembler.m_rings b) = map fst (Assembler.m_rings a)
  /\ forall q, same_loop (Assembler.ring_at a q) (Assembler.ring_at b q).

(** What a call of an entry point that starts with the assembler [a] and
    extracts [segments] leaves in [a']: the segment list is the list [a]
    had with [segments] after it, sorted and without its pairs of equal
    segments; and when the nodes of the list of rings of [a] have distinct
    addresses, so have those of [a'], every closed ring of [a] still is a
    ring of [a'] at its address, with its segments in their direction or in
    the other, and the rings are those of [a] if the segment list has an
    intersection, and hold the segments of the rings of [a] and those of
    the segment list, up to direction, if it has none. *)
Definition works_on (a : Assembler.t) (segments : SegmentList.t)
  (a' : Assembler.t) : Prop :=
  let l :=
    SegmentList.erase_duplicate_segments
      (SegmentList.sort (Assembler.m_segment_list a ++ segments)) in
  Assembler.m_segment_list a' = l
  /\ (distinct_addresses a ->
      distinct_addresses a'
      /\ (forall p ring,
            Assembler.lookup (Assembler.m_rings a) p = Some ring ->
            ProtoRing.closed ring = true ->
            exists ring',
              Assembler.lookup (Assembler.m_rings a') p = Some ring'
              /\ same_loop ring ring')
      /\ if fst (SegmentList.find_intersections l false [])
         then Assembler.m_rings a' = Assembler.m_rings a
         else
           forall P : NodeRefSegment.t -> bool,
             (forall s, P (NodeRefSegment.swap_locations s) = P s) ->
             count_segments P (ring_segments a')
             = count_segments P (ring_segments a) + count_segments P l).

(** * Part VII: properties *)

(** ** Lists *)

Lemma filter_none {A : Type} (f : A -> bool) l :
  (forall x, In x l -> f x = false) -> filter f l = [].
Proof.
  induction l as [|x l IH]; intros H; simpl; auto.
  rewrite (H x) by (simpl; auto). apply IH. intros; apply H; simpl; auto.
Qed.

(** ** [std::sort] keeps the elements *)

Lemma std_sort_insert_perm {A : Type} (lt : A -> A -> bool) x l :
  Permutation (sorted_insert lt x l) (x :: l).
Proof.
  induction l as [|y l IH]; simpl; auto.
  destruct (lt y x); auto.
  rewrite IH. apply perm_swap.
Qed.

Lemma std_sort_perm {A : Type} (lt : A -> A -> bool) l :
  Permutation (std_sort lt l) l.
Proof.
  induction l as [|x l IH]; simpl; auto.
  rewrite std_sort_insert_perm. now constructor.
Qed.

(** ** The multimap (C9) *)

Set Implicit Arguments.

Section VectorBasedSparseMultimapFacts.

(** Template parameters [TId] and [TValue]. *)
Variables TId TValue : Type.

(** [operator<] of [TId], a strict total order. *)
Variable id_ltb : TId -> TId -> bool.
Hypothesis id_ltb_irrefl : forall a, id_ltb a a = false.
Hypothesis id_ltb_trans :
  forall a b c, id_ltb a b = true -> id_ltb b c = true -> id_ltb a c = true.
Hypothesis id_ltb_total :
  forall a b, id_ltb a b = false -> id_ltb b a = false -> a = b.

(** [operator==] of [TValue]. *)
Variable value_eqb : TValue -> TValue -> bool.
Hypothesis value_eqb_spec : forall a b, value_eqb a b = true <-> a = b.

Variables zero empty_value : TValue.

Local Abbreviation element_type := (Multimap.element_type TId TValue).
Local Abbreviation vector_type := (Multimap.vector_type TId TValue).
Local Abbreviation is_removed := (@Multimap.is_removed TId TValue value_eqb empty_value).
Local Abbreviation size := (@Multimap.size TId TValue).
Local Abbreviation partition_point := (@Multimap.partition_point TId TValue).
Local Abbreviation get_all := (@Multimap.get_all TId TValue id_ltb).
Local Abbreviation remove_loop := (@Multimap.remove_loop TId TValue value_eqb zero).
Local Abbreviation remove := (@Multimap.remove TId TValue id_ltb value_eqb zero).
Local Abbreviation remove_if := (@Multimap.remove_if TId TValue).
Local Abbreviation erase_removed :=
  (@Multimap.erase_removed TId TValue value_eqb empty_value).
Local Abbreviation id_eqb := (@Multimap.id_eqb TId id_ltb).
Local Abbreviation matches := (@Multimap.matches TId TValue id_ltb value_eqb).
Local Abbreviation overwrite_first := (@Multimap.overwrite_first TId TValue zero).
Local Abbreviation sorted_by_id := (@Multimap.sorted_by_id TId TValue id_ltb).
Local Abbreviation differences :=
  (@Multimap.differences TId TValue id_ltb value_eqb).

Lemma id_eqb_eq a b : id_eqb a b = true <-> a = b.
Proof.
  unfold Multimap.id_eqb. split.
  - intros H. apply andb_prop in H. destruct H as [H1 H2].
    apply negb_true_iff in H1, H2. now apply id_ltb_total.
  - intros ->. now rewrite id_ltb_irrefl.
Qed.

Lemma differences_refl v : differences v v = 0.
Proof.
  induction v as [|e r IH]; simpl; auto.
  assert (H1 : id_eqb (fst e) (fst e) = true) by now apply id_eqb_eq.
  assert (H2 : value_eqb (snd e) (snd e) = true) by now apply value_eqb_spec.
  now rewrite H1, H2, IH.
Qed.

Lemma overwrite_first_none p v :
  (forall e, In e v -> p e = false) -> overwrite_first p v = v.
Proof.
  induction v as [|e r IH]; simpl; intros H; auto.
  rewrite (H e) by auto. f_equal. apply IH. intros; apply H; auto.
Qed.

Lemma overwrite_first_length p v :
  length (overwrite_first p v) = length v.
Proof.
  induction v as [|e r IH]; simpl; auto.
  destruct (p e); simpl; auto.
Qed.

Lemma overwrite_first_differences p v :
  differences v (overwrite_first p v) <= 1.
Proof.
  induction v as [|e r IH]; simpl; auto.
  destruct (p e); simpl.
  - rewrite differences_refl.
    destruct (id_eqb (fst e) (fst e) && value_eqb (snd e) zero); simpl; lia.
  - assert (H1 : id_eqb (fst e) (fst e) = true) by now apply id_eqb_eq.
    assert (H2 : value_eqb (snd e) (snd e) = true)
      by now apply value_eqb_spec.
    rewrite H1, H2. simpl. exact IH.
Qed.

(** Once the ids are not below [id], the loop of [remove] over the range up
    to the upper bound overwrites the first matching element. *)
Lemma remove_loop_upper id value l :
  sorted_by_id l ->
  (forall e, In e l -> id_ltb (fst e) id = false) ->
  remove_loop (partition_point (fun e => negb (id_ltb id (fst e))) l) value l
  = overwrite_first (matches id value) l.
Proof.
  induction l as [|e r IH]; intros Hs Hge; simpl; auto.
  inversion Hs as [|? ? Hr Hall]; subst.
  destruct (id_ltb id (fst e)) eqn:Hlt; simpl.
  - assert (Hnone : forall e', In e' (e :: r) -> matches id value e' = false).
    { intros e' [<-|Hin].
      - unfold Multimap.matches, Multimap.id_eqb. rewrite Hlt.
        now rewrite andb_false_r.
      - unfold Multimap.matches, Multimap.id_eqb.
        rewrite Forall_forall in Hall. specialize (Hall _ Hin). simpl in Hall.
        assert (Hlt' : id_ltb id (fst e') = true).
        { destruct (id_ltb id (fst e')) eqn:E; auto.
          assert (Heq : fst e' = id).
          { apply id_ltb_total; [apply Hge; right; exact Hin | exact E]. }
          assert (Hc : id_ltb (fst e') (fst e) = true)
            by (rewrite Heq; exact Hlt).
          congruence. }
        rewrite Hlt'. now rewrite andb_false_r. }
    symmetry. change (overwrite_first (matches id value) (e :: r) = e :: r).
    now apply overwrite_first_none.
  - unfold Multimap.matches at 1. unfold Multimap.id_eqb.
    rewrite Hlt, (Hge e) by (simpl; auto). simpl.
    destruct (value_eqb (snd e) value); auto.
    f_equal. apply IH; auto. intros; apply Hge; simpl; auto.
Qed.

Lemma remove_sorted v id value :
  sorted_by_id v ->
  remove v id value = overwrite_first (matches id value) v.
Proof.
  unfold Multimap.remove, Multimap.get_all.
  induction v as [|e r IH]; intros Hs; simpl; auto.
  inversion Hs as [|? ? Hr Hall]; subst.
  destruct (id_ltb (fst e) id) eqn:Hlt; simpl.
  - assert (Hn : id_ltb id (fst e) = false).
    { destruct (id_ltb id (fst e)) eqn:E; auto.
      pose proof (id_ltb_trans Hlt E) as Hc.
      rewrite id_ltb_irrefl in Hc. discriminate. }
    rewrite Hn. simpl.
    unfold Multimap.matches at 1. unfold Multimap.id_eqb. rewrite Hlt. simpl.
    f_equal. now apply IH.
  - pose proof (@remove_loop_upper id value (e :: r) Hs) as Hl.
    simpl in Hl. rewrite Nat.sub_0_r. apply Hl.
    intros e' [<-|Hin]; auto.
    rewrite Forall_forall in Hall. specialize (Hall _ Hin). simpl in Hall.
    destruct (id_ltb (fst e') id) eqn:E; auto.
    destruct (id_ltb id (fst e)) eqn:E2.
    + pose proof (id_ltb_trans E E2). congruence.
    + assert (fst e = id) by now apply id_ltb_total. subst id. congruence.
Qed.

Lemma remove_loop_length n value l :
  length (remove_loop n value l) = length l.
Proof.
  revert l. induction n as [|n IH]; intros [|e r]; simpl; auto.
  destruct (value_eqb (snd e) value); simpl; auto.
Qed.

Lemma remove_length v id value : size (remove v id value) = size v.
Proof.
  unfold Multimap.size, Multimap.remove. destruct (get_all v id) as [first second].
  rewrite length_app, remove_loop_length, <- length_app.
  now rewrite firstn_skipn.
Qed.

Lemma remove_if_filter p v :
  remove_if p v = filter (fun e => negb (p e)) v.
Proof.
  induction v as [|e r IH]; simpl; auto.
  destruct (p e); simpl; now rewrite IH.
Qed.

Lemma matches_spec id value e :
  matches id value e = true <-> fst e = id /\ snd e = value.
Proof.
  unfold Multimap.matches. rewrite andb_true_iff, id_eqb_eq, value_eqb_spec. tauto.
Qed.

Lemma erase_removed_In v e :
  In e (erase_removed v) <-> In e v /\ snd e <> empty_value.
Proof.
  unfold Multimap.erase_removed. rewrite remove_if_filter, filter_In.
  unfold Multimap.is_removed. rewrite negb_true_iff.
  split; intros [Hin H]; split; auto.
  - intros Heq. apply value_eqb_spec in Heq. congruence.
  - destruct (value_eqb (snd e) empty_value) eqn:E; auto.
    apply value_eqb_spec in E. contradiction.
Qed.

(** C9: on a vector sorted by id (what [std::equal_range] asks for),
    [remove(id, value)] overwrites with the hard-coded zero the value of the
    first stored element whose id and value both match; it changes at most
    one element and keeps [size()]; elements leave the vector only in
    [erase_removed], which keeps, in order, exactly the elements whose value
    differs from [empty_value<TValue>()]. *)
Theorem remove_marks_first_match v id value :
  sorted_by_id v ->
  remove v id value = overwrite_first (matches id value) v
  /\ (forall e, matches id value e = true <-> fst e = id /\ snd e = value)
  /\ differences v (remove v id value) <= 1
  /\ size (remove v id value) = size v
  /\ erase_removed v = filter (fun e => negb (is_removed e)) v
  /\ (forall e, In e (erase_removed v) <-> In e v /\ snd e <> empty_value).
Proof.
  intros Hs.
  refine (conj _ (conj _ (conj _ (conj _ (conj _ _))))).
  - now apply remove_sorted.
  - intros e. apply matches_spec.
  - rewrite remove_sorted by assumption. apply overwrite_first_differences.
  - apply remove_length.
  - apply remove_if_filter.
  - intros e. apply erase_removed_In.
Qed.

(** *** Looking up, sorting and erasing *)

(** [operator<] of [TValue]. *)
Variable value_ltb : TValue -> TValue -> bool.

Local Abbreviation pair_ltb := (@Multimap.pair_ltb TId TValue id_ltb value_ltb).
Local Abbreviation sort := (@Multimap.sort TId TValue id_ltb value_ltb).
Local Abbreviation consolidate :=
  (@Multimap.consolidate TId TValue id_ltb value_ltb).
Local Abbreviation range_of := (@Multimap.range_of TId TValue).
Local Abbreviation erase_first := (@Multimap.erase_first TId TValue).
Local Abbreviation set := (@Multimap.set TId TValue).

Lemma id_ltb_asym a b : id_ltb a b = true -> id_ltb b a = false.
Proof.
  intros H. destruct (id_ltb b a) eqn:E; auto.
  pose proof (id_ltb_trans H E) as Hc. rewrite id_ltb_irrefl in Hc.
  discriminate.
Qed.

Lemma id_lt_le_trans a b c :
  id_ltb a b = true -> id_ltb c b = false -> id_ltb a c = true.
Proof.
  intros Hab Hbc. destruct (id_ltb a c) eqn:E; auto.
  destruct (id_ltb c a) eqn:E'.
  - pose proof (id_ltb_trans E' Hab). congruence.
  - assert (a = c) by now apply id_ltb_total. subst c. congruence.
Qed.

Lemma id_le_trans a b c :
  id_ltb b a = false -> id_ltb c b = false -> id_ltb c a = false.
Proof.
  intros Hab Hbc. destruct (id_ltb c a) eqn:E; auto.
  pose proof (id_lt_le_trans E Hab). congruence.
Qed.

(** On a vector sorted by id, the pair of iterators [get_all] returns
    encloses the elements with the id: those before have smaller ids, those
    after have greater ones. *)
Lemma get_all_sorted v id :
  sorted_by_id v ->
  fst (get_all v id) <= snd (get_all v id) <= size v
  /\ (forall e, In e (firstn (fst (get_all v id)) v) -> id_ltb (fst e) id = true)
  /\ range_of v (get_all v id) = filter (fun e => id_eqb (fst e) id) v
  /\ (forall e, In e (skipn (snd (get_all v id)) v) -> id_ltb id (fst e) = true).
Proof.
  unfold Multimap.get_all, Multimap.range_of, Multimap.size.
  induction v as [|e r IH]; intros Hs; cbn [fst snd].
  - simpl. repeat split; auto; intros e [].
  - inversion Hs as [|? ? Hr Hall]; subst.
    destruct (IH Hr) as (Hle & Hbelow & Hrange & Habove). clear IH.
    cbn [fst snd] in *. rewrite Forall_forall in Hall.
    cbn [Multimap.partition_point].
    destruct (id_ltb (fst e) id) eqn:Hlt.
    + rewrite (id_ltb_asym Hlt). cbn [negb].
      refine (conj _ (conj _ (conj _ _))).
      * simpl. lia.
      * intros e' [<-|Hin]; auto.
      * cbn [filter]. unfold Multimap.id_eqb at 1. rewrite Hlt. simpl negb.
        cbn [andb]. simpl. exact Hrange.
      * exact Habove.
    + destruct (id_ltb id (fst e)) eqn:Hgt; cbn [negb].
      * assert (Hall' : forall e', In e' (e :: r) -> id_ltb id (fst e') = true).
        { intros e' [<-|Hin]; auto.
          apply (id_lt_le_trans Hgt). now apply Hall. }
        refine (conj _ (conj _ (conj _ _))).
        -- simpl. lia.
        -- intros e' [].
        -- simpl firstn. symmetry. apply filter_none.
           intros e' Hin. unfold Multimap.id_eqb.
           rewrite (Hall' _ Hin). now rewrite andb_false_r.
        -- exact Hall'.
      * assert (Hfirst : Multimap.partition_point
                           (fun e0 => id_ltb (fst e0) id) r = 0).
        { destruct r as [|e' r']; auto. simpl.
          assert (Hge : id_ltb (fst e') id = false).
          { apply (@id_le_trans id (fst e) (fst e') Hlt).
            apply Hall. now left. }
          now rewrite Hge. }
        rewrite Hfirst in *.
        refine (conj _ (conj _ (conj _ _))).
        -- simpl. lia.
        -- intros e' [].
        -- cbn [filter]. unfold Multimap.id_eqb at 1. rewrite Hlt, Hgt.
           cbn [negb andb]. rewrite Nat.sub_0_r in *. simpl. f_equal.
           exact Hrange.
        -- exact Habove.
Qed.

Lemma sort_insert_sorted_by_id e v :
  sorted_by_id v -> sorted_by_id (sorted_insert pair_ltb e v).
Proof.
  unfold Multimap.sorted_by_id.
  induction v as [|b r IH]; intros Hs; simpl.
  - repeat constructor.
  - inversion Hs as [|? ? Hr Hall]; subst.
    destruct (pair_ltb b e) eqn:E.
    + constructor; [now apply IH|].
      rewrite Forall_forall in Hall |- *. intros z Hz.
      apply (Permutation_in _ (std_sort_insert_perm _ e r)) in Hz.
      destruct Hz as [<-|Hz]; [|now apply Hall].
      unfold Multimap.pair_ltb in E. apply orb_true_iff in E.
      destruct E as [E|E]; [now apply id_ltb_asym|].
      apply andb_true_iff in E. destruct E as [E _].
      now apply negb_true_iff in E.
    + unfold Multimap.pair_ltb in E. apply orb_false_iff in E.
      destruct E as [E _].
      constructor; [exact Hs|]. constructor; [exact E|].
      rewrite Forall_forall in Hall |- *. intros z Hz.
      apply (@id_le_trans (fst e) (fst b) (fst z) E). now apply Hall.
Qed.

Lemma sort_sorted_by_id v : sorted_by_id (sort v).
Proof.
  unfold Multimap.sort, std_sort.
  induction v as [|e r IH]; simpl.
  - constructor.
  - now apply sort_insert_sorted_by_id.
Qed.

(** A filter applied to two orders of the same elements gives two orders
    of the same elements. *)
Lemma filter_same_elements {A : Type} (keep : A -> bool) (v w : list A)
  (Hvw : Permutation v w) :
  Permutation (filter keep v) (filter keep w).
Proof.
  induction Hvw as [|e v w _ IH|e e' v|v w u _ IH1 _ IH2]; simpl.
  - constructor.
  - destruct (keep e); auto.
  - destruct (keep e), (keep e'); auto. apply perm_swap.
  - now rewrite IH1.
Qed.

Lemma remove_loop_ids n value l :
  map fst (remove_loop n value l) = map fst l.
Proof.
  revert l. induction n as [|n IH]; intros [|e r]; simpl; auto.
  destruct (value_eqb (snd e) value); simpl; auto.
  now rewrite IH.
Qed.

Lemma remove_ids v id value : map fst (remove v id value) = map fst v.
Proof.
  unfold Multimap.remove. destruct (get_all v id) as [first second].
  rewrite map_app, remove_loop_ids, <- map_app. now rewrite firstn_skipn.
Qed.

Lemma partition_point_ids (f : TId -> bool) v :
  forall w,
    map fst v = map fst w ->
    partition_point (fun e => f (fst e)) v
    = partition_point (fun e => f (fst e)) w.
Proof.
  induction v as [|e r IH]; intros [|e' r'] H; simpl in *;
    try discriminate; auto.
  injection H as He Hr. rewrite He.
  destruct (f (fst e')); auto.
Qed.

Lemma sorted_by_id_ids v :
  sorted_by_id v
  <-> StronglySorted (fun a b => id_ltb b a = false) (map fst v).
Proof.
  unfold Multimap.sorted_by_id.
  induction v as [|e r IH]; simpl.
  - split; constructor.
  - split; intros H; inversion H as [|? ? Hr Hall]; subst;
      (constructor; [now apply IH|]).
    + rewrite Forall_map. exact Hall.
    + rewrite Forall_map in Hall. exact Hall.
Qed.

Lemma filter_sorted_by_id (f : element_type -> bool) v :
  sorted_by_id v -> sorted_by_id (filter f v).
Proof.
  unfold Multimap.sorted_by_id.
  induction v as [|e r IH]; intros Hs; simpl; auto.
  inversion Hs as [|? ? Hr Hall]; subst.
  destruct (f e); [|now apply IH].
  constructor; [now apply IH|].
  rewrite Forall_forall in Hall |- *. intros z Hz.
  apply filter_In in Hz. now apply Hall.
Qed.

Lemma erase_marked_first p v :
  (forall e, p e = true -> is_removed e = false) ->
  zero = empty_value ->
  filter (fun e => negb (is_removed e)) (overwrite_first p v)
  = erase_first p (filter (fun e => negb (is_removed e)) v).
Proof.
  intros Hp Hzero.
  assert (Hz : forall i : TId, is_removed (i, zero) = true).
  { intros i. unfold Multimap.is_removed. simpl. now apply value_eqb_spec. }
  induction v as [|e r IH]; simpl; auto.
  destruct (p e) eqn:E.
  - cbn [filter]. rewrite Hz, (Hp _ E). simpl. now rewrite E.
  - cbn [filter]. destruct (is_removed e); simpl; auto.
    now rewrite E, IH.
Qed.

Lemma keep_marked_first p v :
  (forall e, p e = true -> is_removed e = false) ->
  zero <> empty_value ->
  filter (fun e => negb (is_removed e)) (overwrite_first p v)
  = overwrite_first p (filter (fun e => negb (is_removed e)) v).
Proof.
  intros Hp Hzero.
  assert (Hz : forall i : TId, is_removed (i, zero) = false).
  { intros i. unfold Multimap.is_removed. simpl.
    destruct (value_eqb zero empty_value) eqn:E; auto.
    apply value_eqb_spec in E. contradiction. }
  induction v as [|e r IH]; simpl; auto.
  destruct (p e) eqn:E.
  - cbn [filter]. rewrite Hz, (Hp _ E). simpl. now rewrite E.
  - cbn [filter]. destruct (is_removed e); simpl; auto.
    now rewrite E, IH.
Qed.

(** X1: on a vector sorted by id, the range [get_all(id)] returns lies within
    the vector and holds exactly the elements with that id, in their order;
    every element before it has a smaller id and every element after it a
    greater one.  For an id no element has, the range is empty. *)
Theorem get_all_selects_id v id :
  sorted_by_id v ->
  fst (get_all v id) <= snd (get_all v id) <= size v
  /\ range_of v (get_all v id) = filter (fun e => id_eqb (fst e) id) v
  /\ (forall e, In e (firstn (fst (get_all v id)) v) -> id_ltb (fst e) id = true)
  /\ (forall e, In e (skipn (snd (get_all v id)) v) -> id_ltb id (fst e) = true)
  /\ ((forall e, In e v -> fst e <> id) -> range_of v (get_all v id) = []).
Proof.
  intros Hs. destruct (get_all_sorted id Hs) as (Hle & Hbelow & Hrange & Habove).
  refine (conj Hle (conj Hrange (conj Hbelow (conj Habove _)))).
  intros Hnone. rewrite Hrange. apply filter_none.
  intros e Hin. destruct (id_eqb (fst e) id) eqn:E; auto.
  apply id_eqb_eq in E. now apply Hnone in Hin.
Qed.

(** X2: [sort] and [consolidate] do the same; they keep every element and
    leave the vector sorted by id, so that afterwards [get_all(id)] returns
    the elements stored under that id, all of them and no other.  A pair
    stored with [set] is found by [get_all] once the vector has been
    sorted. *)
Theorem sorted_vector_returns_what_was_set v id :
  consolidate v = sort v
  /\ Permutation (sort v) v
  /\ sorted_by_id (sort v)
  /\ Permutation (range_of (sort v) (get_all (sort v) id))
                 (filter (fun e => id_eqb (fst e) id) v)
  /\ forall value,
       In (id, value)
          (range_of (sort (set v id value))
                    (get_all (sort (set v id value)) id)).
Proof.
  assert (Hrange : forall w,
            Permutation (range_of (sort w) (get_all (sort w) id))
                        (filter (fun e => id_eqb (fst e) id) w)).
  { intros w.
    destruct (get_all_sorted id (sort_sorted_by_id w)) as (_ & _ & H & _).
    rewrite H. apply filter_same_elements. apply std_sort_perm. }
  refine (conj eq_refl (conj _ (conj _ (conj _ _)))).
  - apply std_sort_perm.
  - apply sort_sorted_by_id.
  - apply Hrange.
  - intros value.
    apply (Permutation_in _ (Permutation_sym (Hrange (set v id value)))).
    apply filter_In. split.
    + unfold Multimap.set. apply in_or_app. right. now left.
    + simpl. now apply id_eqb_eq.
Qed.

(** X3: [remove] changes no id: the ids of the vector, in order, are the
    same afterwards.  A vector sorted by id so stays sorted by id, and every
    [get_all] returns the same pair of positions as before the call. *)
Theorem remove_keeps_ids v id value :
  map fst (remove v id value) = map fst v
  /\ (sorted_by_id v -> sorted_by_id (remove v id value))
  /\ forall id', get_all (remove v id value) id' = get_all v id'.
Proof.
  pose proof (remove_ids v id value) as Hids.
  refine (conj Hids (conj _ _)).
  - intros Hs. apply sorted_by_id_ids. rewrite Hids.
    now apply sorted_by_id_ids.
  - intros id'. unfold Multimap.get_all. f_equal.
    + now apply (partition_point_ids (fun i => id_ltb i id')).
    + now apply (partition_point_ids (fun i => negb (id_ltb id' i))).
Qed.

(** X4: on a vector sorted by id, [remove(id, value)] of a pair the vector
    does not hold changes nothing. *)
Theorem remove_of_absent_pair v id value :
  sorted_by_id v -> ~ In (id, value) v -> remove v id value = v.
Proof.
  intros Hs Hnotin. rewrite remove_sorted by assumption.
  apply overwrite_first_none. intros e Hin.
  destruct (matches id value e) eqn:E; auto.
  apply matches_spec in E. destruct E as [E1 E2].
  destruct e as [i x]. simpl in E1, E2. subst. contradiction.
Qed.

(** X5: on a vector sorted by id, [remove(id, value)] followed by
    [erase_removed()], for a value other than the empty value: where the
    literal zero is the empty value of [TValue], the two calls together take
    the first element with the id and the value out of the vector, along
    with the elements marked before; where it is not, the element stays in
    the vector, with the value zero. *)
Theorem remove_then_erase_removed v id value :
  sorted_by_id v ->
  value <> empty_value ->
  erase_removed (remove v id value)
  = if value_eqb zero empty_value
    then erase_first (matches id value) (erase_removed v)
    else overwrite_first (matches id value) (erase_removed v).
Proof.
  intros Hs Hvalue.
  assert (Hp : forall e, matches id value e = true -> is_removed e = false).
  { intros e E. apply matches_spec in E. destruct E as [_ E].
    unfold Multimap.is_removed.
    destruct (value_eqb (snd e) empty_value) eqn:E'; auto.
    apply value_eqb_spec in E'. congruence. }
  rewrite remove_sorted by assumption.
  unfold Multimap.erase_removed. rewrite !remove_if_filter.
  destruct (value_eqb zero empty_value) eqn:Ez.
  - apply value_eqb_spec in Ez. now apply erase_marked_first.
  - apply keep_marked_first; auto.
    intros Heq. apply value_eqb_spec in Heq. congruence.
Qed.

(** X6: [erase_removed] takes out every element whose value is the empty
    value, whether [remove] marked it or [set] stored it so: a pair stored
    with the empty value is gone after the call.  A second call changes
    nothing more, and a vector sorted by id stays sorted by id. *)
Theorem erase_removed_drops_empty_values v :
  (forall id, erase_removed (set v id empty_value) = erase_removed v)
  /\ (forall e, In e (erase_removed v) -> snd e <> empty_value)
  /\ erase_removed (erase_removed v) = erase_removed v
  /\ (sorted_by_id v -> sorted_by_id (erase_removed v)).
Proof.
  unfold Multimap.erase_removed. rewrite !remove_if_filter.
  refine (conj _ (conj _ (conj _ _))).
  - intros id. rewrite remove_if_filter. unfold Multimap.set.
    rewrite filter_app. simpl.
    assert (E : is_removed (id, empty_value) = true).
    { unfold Multimap.is_removed. simpl. now apply value_eqb_spec. }
    rewrite E. simpl. now rewrite app_nil_r.
  - intros e Hin. apply filter_In in Hin. destruct Hin as [_ Hin].
    apply negb_true_iff in Hin. intros Heq.
    unfold Multimap.is_removed in Hin. apply value_eqb_spec in Heq. congruence.
  - induction v as [|e r IH]; simpl; auto.
    destruct (is_removed e) eqn:E; simpl; auto.
    now rewrite E, IH.
  - apply filter_sorted_by_id.
Qed.

End VectorBasedSparseMultimapFacts.

Unset Implicit Arguments.

(** The multimap from unsigned ids to unsigned values: removing (2, 8) from
    the sorted vector (1,5) (2,7) (2,8) (3,8). *)
Lemma remove_marks_first_match_witness :
  let v := [(1, 5); (2, 7); (2, 8); (3, 8)]%N in
  Multimap.sorted_by_id N.ltb v
  /\ Multimap.remove N.ltb N.eqb 0%N v 2%N 8%N = [(1, 5); (2, 7); (2, 0); (3, 8)]%N.
Proof.
  assert (Hs : Multimap.sorted_by_id N.ltb [(1, 5); (2, 7); (2, 8); (3, 8)]%N).
  { unfold Multimap.sorted_by_id. repeat constructor. }
  split; [exact Hs|].
  destruct (@remove_marks_first_match N N N.ltb N.ltb_irrefl
              (fun a b c Hab Hbc =>
                 proj2 (N.ltb_lt a c)
                   (N.lt_trans a b c (proj1 (N.ltb_lt a b) Hab)
                                     (proj1 (N.ltb_lt b c) Hbc)))
              (fun a b Hab Hba =>
                 N.le_antisymm a b (proj1 (N.ltb_ge b a) Hba)
                                   (proj1 (N.ltb_ge a b) Hab))
              N.eqb N.eqb_eq 0%N 0%N
              [(1, 5); (2, 7); (2, 8); (3, 8)]%N 2%N 8%N Hs) as [H _].
  rewrite H. reflexivity.
Defined.

(** The order of the unsigned integers is a strict total order. *)
Lemma N_ltb_trans a b c :
  N.ltb a b = true -> N.ltb b c = true -> N.ltb a c = true.
Proof. rewrite !N.ltb_lt. apply N.lt_trans. Qed.

Lemma N_ltb_total a b : N.ltb a b = false -> N.ltb b a = false -> a = b.
Proof. rewrite !N.ltb_ge. intros H1 H2. now apply N.le_antisymm. Qed.

Lemma sorted_by_id_example :
  Multimap.sorted_by_id N.ltb [(1, 5); (2, 7); (2, 8); (3, 8)]%N.
Proof. unfold Multimap.sorted_by_id. repeat constructor. Qed.

(** In the sorted vector (1,5) (2,7) (2,8) (3,8), the range of the id 2 is
    made of the second and the third element. *)
Lemma get_all_selects_id_witness :
  let v := [(1, 5); (2, 7); (2, 8); (3, 8)]%N in
  Multimap.sorted_by_id N.ltb v
  /\ Multimap.get_all N.ltb v 2%N = (1, 3)
  /\ Multimap.range_of v (Multimap.get_all N.ltb v 2%N) = [(2, 7); (2, 8)]%N.
Proof.
  split; [exact sorted_by_id_example|].
  split; [reflexivity|].
  destruct (@get_all_selects_id N N N.ltb N.ltb_irrefl N_ltb_trans N_ltb_total
              [(1, 5); (2, 7); (2, 8); (3, 8)]%N 2%N sorted_by_id_example)
    as (_ & H & _).
  rewrite H. reflexivity.
Defined.

(** After (3,8), (2,7) and (1,5) the pair (2,6) is stored and the vector
    sorted: the range of the id 2 holds it. *)
Lemma sorted_vector_returns_what_was_set_witness :
  let v := [(3, 8); (2, 7); (1, 5)]%N in
  Multimap.sort N.ltb N.ltb (Multimap.set v 2 6)%N
  = [(1, 5); (2, 6); (2, 7); (3, 8)]%N
  /\ In (2, 6)%N
        (Multimap.range_of
           (Multimap.sort N.ltb N.ltb (Multimap.set v 2 6)%N)
           (Multimap.get_all N.ltb
              (Multimap.sort N.ltb N.ltb (Multimap.set v 2 6)%N) 2%N)).
Proof.
  split; [reflexivity|].
  destruct (@sorted_vector_returns_what_was_set N N N.ltb N.ltb_irrefl
              N_ltb_trans N_ltb_total N.ltb [(3, 8); (2, 7); (1, 5)]%N 2%N)
    as (_ & _ & _ & _ & H).
  exact (H 6%N).
Defined.

(** The sorted vector (1,5) (2,7) (2,8) (3,8) does not hold the pair
    (2,9). *)
Lemma remove_of_absent_pair_witness :
  let v := [(1, 5); (2, 7); (2, 8); (3, 8)]%N in
  Multimap.sorted_by_id N.ltb v
  /\ ~ In (2, 9)%N v
  /\ Multimap.remove N.ltb N.eqb 0%N v 2%N 9%N = v.
Proof.
  assert (Hnotin : ~ In (2, 9)%N [(1, 5); (2, 7); (2, 8); (3, 8)]%N).
  { simpl. intros [H|[H|[H|[H|[]]]]]; discriminate. }
  split; [exact sorted_by_id_example|].
  split; [exact Hnotin|].
  exact (@remove_of_absent_pair N N N.ltb N.ltb_irrefl N_ltb_trans N_ltb_total
           N.eqb N.eqb_eq 0%N [(1, 5); (2, 7); (2, 8); (3, 8)]%N 2%N 9%N
           sorted_by_id_example Hnotin).
Defined.

(** With unsigned values, of which zero is the empty value, removing (2,8)
    and erasing takes the third element out of (1,5) (2,7) (2,8) (3,8). *)
Lemma remove_then_erase_removed_witness :
  let v := [(1, 5); (2, 7); (2, 8); (3, 8)]%N in
  Multimap.sorted_by_id N.ltb v
  /\ 8%N <> 0%N
  /\ Multimap.erase_removed N.eqb 0%N (Multimap.remove N.ltb N.eqb 0%N v 2%N 8%N)
     = [(1, 5); (2, 7); (3, 8)]%N.
Proof.
  assert (Hvalue : 8%N <> 0%N) by discriminate.
  split; [exact sorted_by_id_example|].
  split; [exact Hvalue|].
  rewrite (@remove_then_erase_removed N N N.ltb N.ltb_irrefl N_ltb_trans
             N_ltb_total N.eqb N.eqb_eq 0%N 0%N
             [(1, 5); (2, 7); (2, 8); (3, 8)]%N 2%N 8%N
             sorted_by_id_example Hvalue).
  reflexivity.
Defined.

(** Unsigned values again: the pair (4,0) stored after (1,5) and (2,7) is
    gone after [erase_removed]. *)
Lemma erase_removed_drops_empty_values_witness :
  Multimap.erase_removed N.eqb 0%N
    (Multimap.set [(1, 5); (2, 7)]%N 4%N 0%N)
  = [(1, 5); (2, 7)]%N.
Proof.
  destruct (@erase_removed_drops_empty_values N N N.ltb N.eqb N.eqb_eq 0%N
              [(1, 5); (2, 7)]%N) as (H & _).
  rewrite H. reflexivity.
Defined.

(** ** What is emitted when [create_rings] fails (C1) *)

Lemma create_rings_false_iff a :
  fst (Assembler.create_rings a) = false
  <-> fst (Assembler.find_intersections (Assembler.normalize a)) = true
      \/ fst (Assembler.check_for_open_rings (Assembler.stitched a)) = true.
Proof.
  unfold Assembler.create_rings, Assembler.stitched.
  destruct (Assembler.find_intersections (Assembler.normalize a))
    as [found a2] eqn:Hf.
  simpl. destruct found; simpl.
  - tauto.
  - destruct (Assembler.check_for_open_rings
                (Assembler.add_segments (Assembler.m_segment_list a2) a2))
      as [open_rings a4] eqn:Ho.
    simpl. destruct open_rings; simpl.
    + tauto.
    + split; [discriminate|]. intros [H|H]; discriminate.
Qed.

Lemma assemble_way_appends a way out :
  exists area, snd (Assembler.assemble_way a way out) = out ++ [area].
Proof.
  unfold Assembler.assemble_way.
  destruct (Assembler.create_rings (Assembler.begin_way a way)) as [ok a4].
  simpl. eauto.
Qed.

Lemma assemble_inner_ways_appends config relation_members :
  forall members in_buffer area_tags reports out,
  exists more,
    snd (Assembler.assemble_inner_ways config relation_members members
           in_buffer area_tags reports out) = out ++ more.
Proof.
  induction relation_members as [|memit rest IH];
    intros [|offset members] in_buffer area_tags reports out; simpl;
    try (exists []; now rewrite app_nil_r).
  destruct (Assembler.inner_way_is_area _ _ _).
  - destruct (Assembler.assemble_way (Assembler.create config reports)
                (get_way in_buffer offset) out) as [a' out'] eqn:Hw.
    destruct (assemble_way_appends (Assembler.create config reports)
                (get_way in_buffer offset) out) as [area Harea].
    rewrite Hw in Harea. simpl in Harea. subst out'.
    destruct (IH members in_buffer area_tags (Assembler.reporter a')
                (out ++ [area])) as [more Hmore].
    exists (area :: more). rewrite Hmore. now rewrite <- app_assoc.
  - apply IH.
Qed.

(** C1, as the code has it: when normalization finds a crossing or an
    overlap, or a ring is open after the stitching, [create_rings] returns
    false, and both entry points still commit the area entity they had
    initialized from the object: it has the attributes, no tags and no
    rings.  The relation entry point puts it right after what the buffer
    held; what its loop over the inner ways adds comes after it. *)
Theorem aborted_assembly_emits_bare_area :
  (forall a way out,
     let a0 := Assembler.begin_way a way in
     fst (Assembler.find_intersections (Assembler.normalize a0)) = true
     \/ fst (Assembler.check_for_open_rings (Assembler.stitched a0)) = true ->
     fst (Assembler.create_rings a0) = false
     /\ snd (Assembler.assemble_way a way out)
        = out ++ [Assembler.initialize_area_from_object
                    (Way.object (WayPtr.deref way)) 0])
  /\ (forall a relation members in_buffer out,
        let a0 := Assembler.begin_relation a relation members in_buffer in
        fst (Assembler.find_intersections (Assembler.normalize a0)) = true
        \/ fst (Assembler.check_for_open_rings (Assembler.stitched a0)) = true ->
        fst (Assembler.create_rings a0) = false
        /\ exists more,
             snd (Assembler.assemble_relation a relation members in_buffer out)
             = out ++ [Assembler.initialize_area_from_object
                         (Relation.object relation) 1] ++ more).
Proof.
  split.
  - intros a way out a0 H. apply create_rings_false_iff in H.
    split; [exact H|].
    unfold Assembler.assemble_way. fold a0.
    destruct (Assembler.create_rings a0) as [ok a4]. simpl in H. subst ok.
    reflexivity.
  - intros a relation members in_buffer out a0 H.
    apply create_rings_false_iff in H.
    split; [exact H|].
    unfold Assembler.assemble_relation. fold a0.
    destruct (Assembler.create_rings a0) as [ok a3]. simpl in H. subst ok.
    destruct (Assembler.m_inner_outer_mismatches a3 =? 0)%Z.
    + match goal with
      | |- context [Assembler.assemble_inner_ways ?c ?rm ?m ?ib ?at_ ?r ?o] =>
          destruct (assemble_inner_ways_appends c rm m ib at_ r o)
            as [more Hmore];
          destruct (Assembler.assemble_inner_ways c rm m ib at_ r o)
            as [reports out2]
      end.
      simpl in Hmore. subst out2. simpl. exists more.
      now rewrite <- app_assoc.
    + simpl. exists []. reflexivity.
Qed.

(** C1 as stated fails: the way of scenario 5 leaves a ring open, and the
    output buffer holds an area entity afterwards. *)
Lemma open_way_emits_area :
  let a0 := Assembler.begin_way Examples.fresh (WayPtr.make 0 Examples.open_way) in
  fst (Assembler.check_for_open_rings (Assembler.stitched a0)) = true
  /\ fst (Assembler.create_rings a0) = false
  /\ map Area.id
       (snd (Assembler.assemble_way Examples.fresh
               (WayPtr.make 0 Examples.open_way) []))
     = [16%Z].
Proof. vm_compute. repeat split. Qed.

(** ** Assembler state is carried from call to call (C8) *)

(** C8 as stated fails: a second call with the square on the assembler that
    has just assembled it emits an area with two outer rings, where a fresh
    assembler emits one with one. *)
Lemma second_call_differs_from_fresh :
  let way := WayPtr.make 0 Examples.square in
  let first_call := Assembler.assemble_way Examples.fresh way [] in
  let second_call := Assembler.assemble_way (fst first_call) way [] in
  let fresh_call :=
    Assembler.assemble_way
      (Assembler.create Examples.config (Assembler.reporter (fst first_call)))
      way [] in
  map (fun area => length (Area.rings area)) (snd second_call) = [2]
  /\ map (fun area => length (Area.rings area)) (snd fresh_call) = [1]
  /\ snd second_call <> snd fresh_call.
Proof.
  vm_compute. repeat split. intros H. discriminate H.
Qed.

Lemma same_members_refl a : same_members a a.
Proof. unfold same_members. tauto. Qed.

Lemma same_members_trans a b c :
  same_members a b -> same_members b c -> same_members a c.
Proof.
  unfold same_members. intros (H1 & H2 & H3 & H4 & H5) (K1 & K2 & K3 & K4 & K5).
  repeat split; congruence.
Qed.

Lemma same_members_report a r : same_members a (Assembler.report a r).
Proof.
  unfold same_members, Assembler.report.
  destruct (problem_reporter (Assembler.m_config a)); simpl; tauto.
Qed.

Lemma same_members_modify_ring a p f :
  same_members a (Assembler.modify_ring a p f).
Proof. unfold same_members. simpl. tauto. Qed.

Lemma same_members_erase a p : same_members a (Assembler.erase a p).
Proof. unfold same_members. simpl. tauto. Qed.

Lemma same_members_push_back a r : same_members a (Assembler.push_back a r).
Proof. unfold same_members. simpl. tauto. Qed.

Lemma same_members_swap_segments a p q :
  same_members a (Assembler.swap_segments a p q).
Proof. unfold same_members. simpl. tauto. Qed.

Lemma same_members_split_off_subring a ring b e :
  same_members a (Assembler.split_off_subring a ring b e).
Proof. unfold same_members. simpl. tauto. Qed.

Create HintDb members.

#[local] Hint Resolve same_members_refl same_members_report
  same_members_modify_ring same_members_erase same_members_push_back
  same_members_swap_segments same_members_split_off_subring : members.

Lemma same_members_has_same_location a nr1 nr2 :
  same_members a (snd (Assembler.has_same_location a nr1 nr2)).
Proof.
  unfold Assembler.has_same_location.
  destruct (negb (Location.eqb _ _)); simpl; auto with members.
  destruct (negb (NodeRef.ref nr1 =? NodeRef.ref nr2)%Z); simpl;
    auto with members.
Qed.

(** Splits a call of [has_same_location] in the goal into its result and the
    assembler it leaves, with the fact that the members are the same. *)
Ltac split_probe H :=
  match goal with
  | |- context [Assembler.has_same_location ?a ?x ?y] =>
      let same := fresh "same" in
      let a' := fresh "a" in
      let E := fresh "E" in
      pose proof (same_members_has_same_location a x y) as H;
      destruct (Assembler.has_same_location a x y) as [same a'] eqn:E;
      simpl in H; destruct same; simpl
  end.

Ltac chain :=
  repeat (first [ eassumption
                | solve [auto with members]
                | eapply same_members_trans; [eassumption|]
                | eapply same_members_trans;
                  [|solve [auto with members]] ]).

Lemma same_members_possibly_combine_rings_back_loop ring nr its :
  forall a,
    same_members a
      (snd (Assembler.possibly_combine_rings_back_loop ring nr its a)).
Proof.
  induction its as [|[it it_ring] rest IH]; intros a; simpl;
    [apply same_members_refl|].
  destruct (negb (it =? ring) && negb (ProtoRing.closed it_ring)); [|apply IH].
  split_probe H1; [chain|].
  split_probe H2; [chain|].
  eapply same_members_trans; [exact H1|].
  eapply same_members_trans; [exact H2|]. apply IH.
Qed.

Lemma same_members_possibly_combine_rings_front_loop ring nr its :
  forall a,
    same_members a
      (snd (Assembler.possibly_combine_rings_front_loop ring nr its a)).
Proof.
  induction its as [|[it it_ring] rest IH]; intros a; simpl;
    [apply same_members_refl|].
  destruct (negb (it =? ring) && negb (ProtoRing.closed it_ring)); [|apply IH].
  split_probe H1; [chain|].
  split_probe H2; [chain|].
  eapply same_members_trans; [exact H1|].
  eapply same_members_trans; [exact H2|]. apply IH.
Qed.

Lemma same_members_has_closed_subring_back a ring nr :
  same_members a (snd (Assembler.has_closed_subring_back a ring nr)).
Proof.
  unfold Assembler.has_closed_subring_back.
  destruct (_ <? 3); simpl; [apply same_members_refl|].
  generalize (length (ProtoRing.segments (Assembler.ring_at a ring))).
  generalize (Assembler.inner_positions
                (ProtoRing.segments (Assembler.ring_at a ring))).
  intros its. revert a.
  induction its as [|[it segment] rest IH]; intros a end_; simpl;
    [apply same_members_refl|].
  split_probe H1; [chain|].
  eapply same_members_trans; [exact H1|]. apply IH.
Qed.

Lemma same_members_has_closed_subring_front a ring nr :
  same_members a (snd (Assembler.has_closed_subring_front a ring nr)).
Proof.
  unfold Assembler.has_closed_subring_front.
  destruct (_ <? 3); simpl; [apply same_members_refl|].
  generalize (Assembler.inner_positions
                (ProtoRing.segments (Assembler.ring_at a ring))).
  intros its. revert a.
  induction its as [|[it segment] rest IH]; intros a; simpl;
    [apply same_members_refl|].
  split_probe H1; [chain|].
  eapply same_members_trans; [exact H1|]. apply IH.
Qed.

Lemma same_members_adjacent_find segments :
  forall a, same_members a (snd (Assembler.adjacent_find segments a)).
Proof.
  induction segments as [|s1 rest IH]; intros a; simpl;
    [apply same_members_refl|].
  destruct rest as [|s2 rest']; [apply same_members_refl|].
  split_probe H1; [chain|].
  eapply same_members_trans; [exact H1|]. apply IH.
Qed.

Lemma same_members_check_for_closed_subring a ring :
  same_members a (snd (Assembler.check_for_closed_subring a ring)).
Proof.
  unfold Assembler.check_for_closed_subring.
  match goal with
  | |- context [Assembler.adjacent_find ?l a] =>
      pose proof (same_members_adjacent_find l a) as H;
      destruct (Assembler.adjacent_find l a) as [[[s1 s2]|] a1]
  end; simpl in *; chain.
Qed.

Lemma same_members_combine_rings_front a segment ring :
  same_members a (Assembler.combine_rings_front a segment ring).
Proof.
  unfold Assembler.combine_rings_front.
  match goal with
  | |- context [Assembler.has_closed_subring_front ?b ring ?nr] =>
      pose proof (same_members_has_closed_subring_front b ring nr) as H1;
      destruct (Assembler.has_closed_subring_front b ring nr) as [found a2]
  end.
  simpl in H1.
  unfold Assembler.possibly_combine_rings_front.
  match goal with
  | |- context [Assembler.possibly_combine_rings_front_loop ?r ?nr ?its a2] =>
      pose proof
        (same_members_possibly_combine_rings_front_loop r nr its a2) as H2;
      destruct (Assembler.possibly_combine_rings_front_loop r nr its a2)
        as [combined a3]
  end.
  simpl in H2.
  assert (H0 : same_members a a3).
  { eapply same_members_trans; [apply same_members_modify_ring|].
    eapply same_members_trans; eassumption. }
  destruct combined; [|exact H0].
  eapply same_members_trans; [exact H0|].
  apply same_members_check_for_closed_subring.
Qed.

Lemma same_members_combine_rings_back a segment ring :
  same_members a (Assembler.combine_rings_back a segment ring).
Proof.
  unfold Assembler.combine_rings_back.
  match goal with
  | |- context [Assembler.has_closed_subring_back ?b ring ?nr] =>
      pose proof (same_members_has_closed_subring_back b ring nr) as H1;
      destruct (Assembler.has_closed_subring_back b ring nr) as [found a2]
  end.
  simpl in H1.
  unfold Assembler.possibly_combine_rings_back.
  match goal with
  | |- context [Assembler.possibly_combine_rings_back_loop ?r ?nr ?its a2] =>
      pose proof
        (same_members_possibly_combine_rings_back_loop r nr its a2) as H2;
      destruct (Assembler.possibly_combine_rings_back_loop r nr its a2)
        as [combined a3]
  end.
  simpl in H2.
  assert (H0 : same_members a a3).
  { eapply same_members_trans; [apply same_members_modify_ring|].
    eapply same_members_trans; eassumption. }
  destruct combined; [|exact H0].
  eapply same_members_trans; [exact H0|].
  apply same_members_check_for_closed_subring.
Qed.

Lemma same_members_add_to_existing_ring_loop rings segment :
  forall a,
    same_members a (snd (Assembler.add_to_existing_ring_loop rings segment a)).
Proof.
  induction rings as [|[p ring] rest IH]; intros a; simpl;
    [apply same_members_refl|].
  destruct (ProtoRing.closed ring); [apply IH|].
  split_probe H1.
  { eapply same_members_trans; [exact H1|].
    apply same_members_combine_rings_back. }
  split_probe H2.
  { eapply same_members_trans; [exact H1|].
    eapply same_members_trans; [exact H2|].
    apply same_members_combine_rings_back. }
  split_probe H3.
  { eapply same_members_trans; [exact H1|].
    eapply same_members_trans; [exact H2|].
    eapply same_members_trans; [exact H3|].
    apply same_members_combine_rings_front. }
  split_probe H4.
  { eapply same_members_trans; [exact H1|].
    eapply same_members_trans; [exact H2|].
    eapply same_members_trans; [exact H3|].
    eapply same_members_trans; [exact H4|].
    apply same_members_combine_rings_front. }
  eapply same_members_trans; [exact H1|].
  eapply same_members_trans; [exact H2|].
  eapply same_members_trans; [exact H3|].
  eapply same_members_trans; [exact H4|]. apply IH.
Qed.

Lemma same_members_add_segments segments :
  forall a, same_members a (Assembler.add_segments segments a).
Proof.
  induction segments as [|segment rest IH]; intros a; simpl;
    [apply same_members_refl|].
  unfold Assembler.add_to_existing_ring.
  pose proof (same_members_add_to_existing_ring_loop
                (Assembler.m_rings a) segment a) as H.
  destruct (Assembler.add_to_existing_ring_loop (Assembler.m_rings a) segment a)
    as [added a1].
  simpl in H. destruct added.
  - eapply same_members_trans; [exact H|]. apply IH.
  - eapply same_members_trans; [exact H|].
    eapply same_members_trans; [apply same_members_push_back|]. apply IH.
Qed.

Lemma same_members_check_for_open_rings_loop rings :
  forall a open_rings,
    same_members a
      (snd (Assembler.check_for_open_rings_loop rings a open_rings)).
Proof.
  induction rings as [|[p ring] rest IH]; intros a open_rings; simpl;
    [apply same_members_refl|].
  destruct (negb (ProtoRing.closed ring)); [|apply IH].
  eapply same_members_trans; [apply same_members_report|]. apply IH.
Qed.

Lemma carried_over_refl a : carried_over a a.
Proof. unfold carried_over. repeat split; try apply incl_refl. lia. Qed.

Lemma carried_over_trans a b c :
  carried_over a b -> carried_over b c -> carried_over a c.
Proof.
  unfold carried_over. intros (H1 & H2 & H3) (K1 & K2 & K3).
  repeat split; try (eapply incl_tran; eassumption). lia.
Qed.

Lemma same_members_carried_over a b : same_members a b -> carried_over a b.
Proof.
  unfold same_members, carried_over. intros (_ & _ & H1 & H2 & H3).
  rewrite H1, H2, H3. repeat split; try apply incl_refl. lia.
Qed.

Lemma carried_over_classify_ring a ring :
  carried_over a (Assembler.classify_ring a ring).
Proof.
  unfold Assembler.classify_ring, carried_over.
  destruct (ProtoRing.outer _).
  - destruct (negb (ProtoRing.is_cw _)); simpl;
      repeat split; try apply incl_refl; try apply incl_appl, incl_refl; lia.
  - destruct (ProtoRing.is_cw _); simpl;
      repeat split; try apply incl_refl; try apply incl_appl, incl_refl; lia.
Qed.

Lemma carried_over_fold_left {A : Type} (f : Assembler.t -> A -> Assembler.t) :
  (forall a x, carried_over a (f a x)) ->
  forall l a, carried_over a (fold_left f l a).
Proof.
  intros Hf l. induction l as [|x l IH]; intros a; simpl.
  - apply carried_over_refl.
  - eapply carried_over_trans; [apply Hf|apply IH].
Qed.

Lemma carried_over_add_to_first_outer inner outers :
  forall a, same_members a (Assembler.add_to_first_outer a inner outers).
Proof.
  induction outers as [|outer rest IH]; intros a; simpl;
    [apply same_members_refl|].
  destruct (ProtoRing.is_in _ _); [apply same_members_modify_ring|apply IH].
Qed.

Lemma carried_over_assign_inner_rings a :
  carried_over a (Assembler.assign_inner_rings a).
Proof.
  unfold Assembler.assign_inner_rings.
  destruct (length (Assembler.m_outer_rings a) =? 1).
  - apply carried_over_fold_left. intros b x.
    apply same_members_carried_over, same_members_modify_ring.
  - eapply carried_over_trans.
    2:{ apply carried_over_fold_left. intros b x.
        apply same_members_carried_over, carried_over_add_to_first_outer. }
    unfold carried_over. simpl. repeat split; try apply incl_refl; [|lia].
    intros p Hp. eapply Permutation_in; [|exact Hp].
    symmetry. apply std_sort_perm.
Qed.

Lemma carried_over_check_roles_of_ring expect_outer segments :
  forall a,
    carried_over a (Assembler.check_roles_of_ring expect_outer segments a).
Proof.
  induction segments as [|segment rest IH]; intros a; simpl;
    [apply carried_over_refl|].
  assert (Hstep : forall r,
    carried_over a
      (Assembler.report
         (Assembler.with_mismatches a
            (Assembler.m_inner_outer_mismatches a + 1)%Z) r)).
  { intros r. eapply carried_over_trans;
      [|apply same_members_carried_over, same_members_report].
    unfold carried_over. simpl. repeat split; try apply incl_refl. lia. }
  destruct expect_outer.
  - destruct (negb (NodeRefSegment.role_outer segment)); [|apply IH].
    eapply carried_over_trans; [apply Hstep|apply IH].
  - destruct (negb (NodeRefSegment.role_inner segment)); [|apply IH].
    eapply carried_over_trans; [apply Hstep|apply IH].
Qed.

Lemma carried_over_check_inner_outer_roles a :
  carried_over a (Assembler.check_inner_outer_roles a).
Proof.
  unfold Assembler.check_inner_outer_roles.
  eapply carried_over_trans.
  - apply carried_over_fold_left with
      (f := fun a ringptr =>
              Assembler.check_roles_of_ring true
                (ProtoRing.segments (Assembler.ring_at a ringptr)) a).
    intros b x. apply carried_over_check_roles_of_ring.
  - apply carried_over_fold_left with
      (f := fun a ringptr =>
              Assembler.check_roles_of_ring false
                (ProtoRing.segments (Assembler.ring_at a ringptr)) a).
    intros b x. apply carried_over_check_roles_of_ring.
Qed.

Lemma carried_over_create_rings a :
  carried_over a (snd (Assembler.create_rings a)).
Proof.
  unfold Assembler.create_rings.
  assert (H1 : carried_over a (Assembler.normalize a)).
  { unfold carried_over. simpl. repeat split; try apply incl_refl. lia. }
  assert (H2 : carried_over (Assembler.normalize a)
                 (snd (Assembler.find_intersections (Assembler.normalize a)))).
  { unfold Assembler.find_intersections.
    destruct (SegmentList.find_intersections _ _ _) as [found reports].
    unfold carried_over. simpl. repeat split; try apply incl_refl. lia. }
  destruct (Assembler.find_intersections (Assembler.normalize a))
    as [found a2].
  cbn [snd] in H2.
  assert (H02 : carried_over a a2) by exact (carried_over_trans _ _ _ H1 H2).
  destruct found; [exact H02|].
  pose proof (same_members_add_segments (Assembler.m_segment_list a2) a2) as H3.
  unfold Assembler.check_for_open_rings.
  pose proof (same_members_check_for_open_rings_loop
                (Assembler.m_rings
                   (Assembler.add_segments (Assembler.m_segment_list a2) a2))
                (Assembler.add_segments (Assembler.m_segment_list a2) a2)
                false) as H4.
  destruct (Assembler.check_for_open_rings_loop _ _ false)
    as [open_rings a4].
  cbn [snd] in H4.
  assert (H04 : carried_over a a4).
  { eapply carried_over_trans; [exact H02|].
    apply same_members_carried_over.
    exact (same_members_trans _ _ _ H3 H4). }
  destruct open_rings; [exact H04|].
  simpl. eapply carried_over_trans; [|apply carried_over_check_inner_outer_roles].
  eapply carried_over_trans; [exact H04|].
  destruct (length (Assembler.m_rings a4) =? 1).
  - unfold carried_over. simpl.
    repeat split; try apply incl_refl; try apply incl_appl, incl_refl. lia.
  - eapply carried_over_trans; [|apply carried_over_assign_inner_rings].
    unfold Assembler.classify_rings.
    apply carried_over_fold_left. apply carried_over_classify_ring.
Qed.

Lemma carried_over_with_segment_list a l :
  carried_over a (Assembler.with_segment_list a l).
Proof.
  unfold carried_over. simpl. repeat split; try apply incl_refl. lia.
Qed.

Lemma carried_over_report a r : carried_over a (Assembler.report a r).
Proof. apply same_members_carried_over, same_members_report. Qed.

Lemma carried_over_begin_way a way :
  carried_over a (Assembler.begin_way a way).
Proof.
  unfold Assembler.begin_way.
  eapply carried_over_trans; [|apply carried_over_with_segment_list].
  destruct (negb (Way.ends_have_same_id (WayPtr.deref way))).
  - eapply carried_over_trans; apply carried_over_report.
  - apply carried_over_report.
Qed.

Lemma carried_over_begin_relation a relation members in_buffer :
  carried_over a (Assembler.begin_relation a relation members in_buffer).
Proof.
  unfold Assembler.begin_relation.
  eapply carried_over_trans; [|apply carried_over_with_segment_list].
  apply carried_over_report.
Qed.

(** ** Duplicate-node reports (C10) *)

Lemma Location_eqb_eq a b : Location.eqb a b = true <-> a = b.
Proof.
  unfold Location.eqb. destruct a as [xa ya], b as [xb yb]. simpl.
  rewrite andb_true_iff, !Z.eqb_eq. split.
  - intros [-> ->]. reflexivity.
  - intros H. injection H. auto.
Qed.

Lemma has_same_location_false a nr1 nr2 :
  fst (Assembler.has_same_location a nr1 nr2) = false ->
  snd (Assembler.has_same_location a nr1 nr2) = a.
Proof.
  unfold Assembler.has_same_location.
  destruct (negb (Location.eqb _ _)); simpl; auto.
  destruct (negb (NodeRef.ref nr1 =? NodeRef.ref nr2)%Z); simpl; discriminate.
Qed.

Lemma add_to_existing_ring_loop_false rings segment :
  forall a,
    fst (Assembler.add_to_existing_ring_loop rings segment a) = false ->
    snd (Assembler.add_to_existing_ring_loop rings segment a) = a.
Proof.
  induction rings as [|[p ring] rest IH]; intros a; simpl; auto.
  destruct (ProtoRing.closed ring); [apply IH|].
  repeat
    match goal with
    | |- context [Assembler.has_same_location ?b ?x ?y] =>
        let H := fresh "H" in
        pose proof (has_same_location_false b x y) as H;
        destruct (Assembler.has_same_location b x y) as [[|] ?];
        cbn [fst snd] in H |- *;
        [discriminate|specialize (H eq_refl); subst]
    end.
  apply IH.
Qed.

(** C10, as the code has it: a call of [has_same_location] on two node refs
    at the same location with different ids returns true and calls
    [report_duplicate_node] once, which adds a report when a reporter is
    configured and nothing when the pointer is null.  A call that returns
    false reports nothing, so every reporting probe of
    [add_to_existing_ring] leads to an attachment, and a segment no ring
    takes leaves the assembler, reporter included, as it was.  One pair can
    still be reported more than once in one assembly: the bow tie gets the
    report for its nodes 1 and 4 twice. *)
Theorem duplicate_node_reports :
  (forall a nr1 nr2,
     NodeRef.location nr1 = NodeRef.location nr2 ->
     NodeRef.ref nr1 <> NodeRef.ref nr2 ->
     Assembler.has_same_location a nr1 nr2
     = (true,
        Assembler.report a
          (report_duplicate_node (NodeRef.ref nr1) (NodeRef.ref nr2)
                                 (NodeRef.location nr1))))
  /\ (forall a r,
        Assembler.reporter (Assembler.report a r)
        = if problem_reporter (Assembler.m_config a)
          then Assembler.reporter a ++ [r] else Assembler.reporter a)
  /\ (forall a nr1 nr2,
        fst (Assembler.has_same_location a nr1 nr2) = false ->
        snd (Assembler.has_same_location a nr1 nr2) = a)
  /\ (forall a segment,
        fst (Assembler.add_to_existing_ring a segment) = false ->
        snd (Assembler.add_to_existing_ring a segment) = a)
  /\ Assembler.reporter
       (fst (Assembler.assemble_way Examples.fresh (WayPtr.make 0 Examples.bow_tie) []))
     = [set_object item_way 30;
        report_duplicate_node 1 4 (Location.make 0 0);
        report_duplicate_node 1 4 (Location.make 0 0)].
Proof.
  refine (conj _ (conj _ (conj _ (conj _ _)))).
  - intros a nr1 nr2 Hloc Href. unfold Assembler.has_same_location.
    apply Location_eqb_eq in Hloc. rewrite Hloc. simpl.
    apply Z.eqb_neq in Href. rewrite Href. reflexivity.
  - intros a r. unfold Assembler.report.
    destruct (problem_reporter (Assembler.m_config a)); reflexivity.
  - apply has_same_location_false.
  - intros a segment. apply add_to_existing_ring_loop_false.
  - vm_compute. reflexivity.
Qed.

(** C10 as stated fails: in the relation of the two touching triangles,
    [check_inner_outer] on the ring of the small triangle compares the
    location of the ring's minimal node, node 1, with the location of the
    first node of a segment of the large triangle, node 4; the two are at
    the same place and have different ids, and the reporter, which is
    configured, gets no duplicate-node report during the whole assembly. *)
Lemma comparison_without_report :
  let a0 :=
    Assembler.begin_relation Examples.fresh Examples.touching_triangles
      [0; 1] Examples.touching_triangles_buffer in
  let stitched := Assembler.stitched a0 in
  let ring := Assembler.ring_at stitched 0 in
  let it := nth 2 (Assembler.m_segment_list stitched) NodeRefSegment.default in
  problem_reporter (Assembler.m_config stitched) = true
  /\ NodeRef.ref (ProtoRing.min_node ring) = 1%Z
  /\ NodeRef.ref (NodeRefSegment.first it) = 4%Z
  /\ ProtoRing.contains ring it = false
  /\ (Location.x (NodeRef.location (NodeRefSegment.first it))
      <=? Location.x (NodeRef.location (ProtoRing.min_node ring)))%Z = true
  /\ Location.eqb (NodeRef.location (NodeRefSegment.first it))
                  (NodeRef.location (ProtoRing.min_node ring)) = true
  /\ Assembler.reporter
       (fst (Assembler.assemble_relation Examples.fresh
               Examples.touching_triangles [0; 1]
               Examples.touching_triangles_buffer []))
     = [set_object item_relation 20; set_object item_way 10;
        set_object item_way 11].
Proof. vm_compute. repeat split. Qed.

(** ** Hole assignment (C4, C5) *)

Lemma lookup_update rings p f q :
  Assembler.lookup (Assembler.update rings p f) q
  = if q =? p then option_map f (Assembler.lookup rings p)
    else Assembler.lookup rings q.
Proof.
  induction rings as [|[k r] rest IH]; simpl.
  - destruct (q =? p); reflexivity.
  - destruct (k =? p) eqn:Ekp; simpl.
    + apply Nat.eqb_eq in Ekp. subst k.
      destruct (q =? p) eqn:Eqp.
      * apply Nat.eqb_eq in Eqp. subst q. now rewrite Nat.eqb_refl.
      * rewrite Nat.eqb_sym, Eqp. reflexivity.
    + destruct (k =? q) eqn:Ekq.
      * apply Nat.eqb_eq in Ekq. subst k. now rewrite Ekp.
      * exact IH.
Qed.

Lemma ring_at_modify_ring a p f q :
  Assembler.ring_at (Assembler.modify_ring a p f) q
  = if q =? p then
      match Assembler.lookup (Assembler.m_rings a) p with
      | Some r => f r
      | None => ProtoRing.empty
      end
    else Assembler.ring_at a q.
Proof.
  unfold Assembler.ring_at, Assembler.modify_ring. simpl.
  rewrite lookup_update. destruct (q =? p); [|reflexivity].
  destruct (Assembler.lookup (Assembler.m_rings a) p); reflexivity.
Qed.

Lemma same_chains_refl a : same_chains a a.
Proof. unfold same_chains. repeat split; auto. Qed.

Lemma same_chains_trans a b c :
  same_chains a b -> same_chains b c -> same_chains a c.
Proof.
  unfold same_chains.
  intros (H1 & H2 & H3 & H4 & H5) (K1 & K2 & K3 & K4 & K5).
  repeat split; try congruence.
  - intros H. apply H4, K4, H.
  - intros H. apply K4, H4, H.
Qed.

Lemma same_chains_add_inner_ring a outer inner :
  same_chains a
    (Assembler.modify_ring a outer (fun r => ProtoRing.add_inner_ring r inner)).
Proof.
  unfold same_chains, valid. simpl. repeat split; auto.
  - rewrite lookup_update. destruct (p =? outer) eqn:E; auto.
    apply Nat.eqb_eq in E. subst p.
    destruct (Assembler.lookup (Assembler.m_rings a) outer); simpl; congruence.
  - rewrite lookup_update. destruct (p =? outer) eqn:E; auto.
    apply Nat.eqb_eq in E. subst p.
    destruct (Assembler.lookup (Assembler.m_rings a) outer); simpl; congruence.
  - intros p. rewrite ring_at_modify_ring. destruct (p =? outer) eqn:E; auto.
    apply Nat.eqb_eq in E. subst p. unfold Assembler.ring_at.
    destruct (Assembler.lookup (Assembler.m_rings a) outer); reflexivity.
Qed.

Lemma is_in_segments r r' o o' :
  ProtoRing.segments r = ProtoRing.segments r' ->
  ProtoRing.segments o = ProtoRing.segments o' ->
  ProtoRing.is_in r o = ProtoRing.is_in r' o'.
Proof.
  unfold ProtoRing.is_in, ProtoRing.min_node. intros -> ->. reflexivity.
Qed.


(** The inner rings of the ring at [p] after [inner] has been added to the
    ring at [outer]. *)
Lemma inner_rings_add_inner_ring a outer inner p :
  valid a p ->
  ProtoRing.inner_rings
    (Assembler.ring_at
       (Assembler.modify_ring a outer
          (fun r => ProtoRing.add_inner_ring r inner)) p)
  = ProtoRing.inner_rings (Assembler.ring_at a p)
      ++ (if outer =? p then [inner] else []).
Proof.
  intros Hv. rewrite ring_at_modify_ring. rewrite (Nat.eqb_sym outer p).
  destruct (p =? outer) eqn:E.
  - apply Nat.eqb_eq in E. subst p. unfold valid in Hv. unfold Assembler.ring_at.
    destruct (Assembler.lookup (Assembler.m_rings a) outer); [reflexivity|].
    contradiction.
  - now rewrite app_nil_r.
Qed.

Lemma first_containing_same_chains a b outers inner :
  same_chains a b ->
  first_containing b outers inner = first_containing a outers inner.
Proof.
  intros (_ & _ & _ & _ & Hseg). unfold first_containing.
  induction outers as [|outer rest IH]; simpl; auto.
  rewrite (is_in_segments (Assembler.ring_at b inner) (Assembler.ring_at a inner)
             (Assembler.ring_at b outer) (Assembler.ring_at a outer))
    by apply Hseg.
  now rewrite IH.
Qed.

Lemma add_to_first_outer_spec inner outers :
  forall a,
    same_chains a (Assembler.add_to_first_outer a inner outers)
    /\ forall p,
         valid a p ->
         ProtoRing.inner_rings
           (Assembler.ring_at (Assembler.add_to_first_outer a inner outers) p)
         = ProtoRing.inner_rings (Assembler.ring_at a p)
             ++ (if is_some_ptr (first_containing a outers inner) p
                 then [inner] else []).
Proof.
  induction outers as [|outer rest IH]; intros a; simpl.
  - split; [apply same_chains_refl|]. intros p _. now rewrite app_nil_r.
  - unfold first_containing. simpl.
    destruct (ProtoRing.is_in (Assembler.ring_at a inner)
                              (Assembler.ring_at a outer)).
    + split; [apply same_chains_add_inner_ring|].
      intros p Hv. simpl. now apply inner_rings_add_inner_ring.
    + apply IH.
Qed.

Lemma assign_to_first_outer_spec a inners :
  forall b,
    same_chains a b ->
    let b' :=
      fold_left
        (fun c inner =>
           Assembler.add_to_first_outer c inner (Assembler.m_outer_rings c))
        inners b in
    same_chains a b'
    /\ forall p,
         valid a p ->
         ProtoRing.inner_rings (Assembler.ring_at b' p)
         = ProtoRing.inner_rings (Assembler.ring_at b p)
             ++ filter
                  (fun inner =>
                     is_some_ptr
                       (first_containing a (Assembler.m_outer_rings a) inner) p)
                  inners.
Proof.
  induction inners as [|inner rest IH]; intros b Hab; simpl.
  - split; [exact Hab|]. intros p _. now rewrite app_nil_r.
  - assert (Houter : Assembler.m_outer_rings b = Assembler.m_outer_rings a)
      by apply Hab.
    rewrite Houter.
    destruct (add_to_first_outer_spec inner (Assembler.m_outer_rings a) b)
      as [Hstep Hinner].
    assert (Hab' : same_chains a
                     (Assembler.add_to_first_outer b inner
                        (Assembler.m_outer_rings a)))
      by (eapply same_chains_trans; eassumption).
    destruct (IH _ Hab') as [Hres Hrec].
    split; [exact Hres|].
    intros p Hv. rewrite (Hrec p Hv).
    rewrite Hinner by (apply Hab; exact Hv).
    rewrite (first_containing_same_chains a b (Assembler.m_outer_rings a)
               inner Hab).
    rewrite <- app_assoc. f_equal.
    destruct (is_some_ptr
                (first_containing a (Assembler.m_outer_rings a) inner) p);
      reflexivity.
Qed.

Lemma assign_to_only_outer_spec a inners :
  forall b,
    same_chains a b ->
    let b' :=
      fold_left
        (fun c inner =>
           Assembler.modify_ring c (hd 0 (Assembler.m_outer_rings c))
             (fun r => ProtoRing.add_inner_ring r inner)) inners b in
    same_chains a b'
    /\ forall p,
         valid a p ->
         ProtoRing.inner_rings (Assembler.ring_at b' p)
         = ProtoRing.inner_rings (Assembler.ring_at b p)
             ++ (if hd 0 (Assembler.m_outer_rings a) =? p then inners else []).
Proof.
  induction inners as [|inner rest IH]; intros b Hab; simpl.
  - split; [exact Hab|]. intros p _.
    destruct (hd 0 (Assembler.m_outer_rings a) =? p); now rewrite app_nil_r.
  - assert (Houter : Assembler.m_outer_rings b = Assembler.m_outer_rings a)
      by apply Hab.
    rewrite Houter.
    assert (Hab' : same_chains a
                     (Assembler.modify_ring b
                        (hd 0 (Assembler.m_outer_rings a))
                        (fun r => ProtoRing.add_inner_ring r inner))).
    { eapply same_chains_trans; [exact Hab|].
      apply same_chains_add_inner_ring. }
    destruct (IH _ Hab') as [Hres Hrec].
    split; [exact Hres|].
    intros p Hv. rewrite (Hrec p Hv).
    rewrite inner_rings_add_inner_ring by (apply Hab; exact Hv).
    rewrite <- app_assoc. f_equal.
    destruct (hd 0 (Assembler.m_outer_rings a) =? p); reflexivity.
Qed.



Lemma assign_inner_rings_spec a :
  let a' := Assembler.assign_inner_rings a in
  same_chains
    (Assembler.with_outer_rings a (Assembler.m_outer_rings a')) a'
  /\ (forall outer,
        Assembler.m_outer_rings a = [outer] ->
        Assembler.m_outer_rings a' = [outer]
        /\ forall p,
             valid a p ->
             ProtoRing.inner_rings (Assembler.ring_at a' p)
             = ProtoRing.inner_rings (Assembler.ring_at a p)
                 ++ (if outer =? p then Assembler.m_inner_rings a else []))
  /\ (length (Assembler.m_outer_rings a) <> 1 ->
      Assembler.m_outer_rings a'
      = std_sort (Assembler.area_less a) (Assembler.m_outer_rings a)
      /\ forall p,
           valid a p ->
           ProtoRing.inner_rings (Assembler.ring_at a' p)
           = ProtoRing.inner_rings (Assembler.ring_at a p)
               ++ filter
                    (fun inner =>
                       is_some_ptr
                         (first_containing a (Assembler.m_outer_rings a') inner)
                         p)
                    (Assembler.m_inner_rings a)).
Proof.
  unfold Assembler.assign_inner_rings.
  destruct (length (Assembler.m_outer_rings a) =? 1) eqn:Elen.
  - destruct (assign_to_only_outer_spec a (Assembler.m_inner_rings a) a
                (same_chains_refl a)) as [Hsame Hinner].
    cbv zeta in *.
    set (a' := fold_left _ (Assembler.m_inner_rings a) a) in *.
    assert (Houter : Assembler.m_outer_rings a' = Assembler.m_outer_rings a)
      by apply Hsame.
    split; [|split].
    + rewrite Houter.
      replace (Assembler.with_outer_rings a (Assembler.m_outer_rings a))
        with a by (destruct a; reflexivity).
      exact Hsame.
    + intros outer Hone. split; [now rewrite Houter|].
      intros p Hv. rewrite (Hinner p Hv). rewrite Hone. reflexivity.
    + apply Nat.eqb_eq in Elen. contradiction.
  - set (sorted := std_sort (Assembler.area_less a) (Assembler.m_outer_rings a)).
    set (a1 := Assembler.with_outer_rings a sorted).
    destruct (assign_to_first_outer_spec a1 (Assembler.m_inner_rings a1) a1
                (same_chains_refl a1)) as [Hsame Hinner].
    cbv zeta in *.
    set (a' := fold_left _ (Assembler.m_inner_rings a1) a1) in *.
    assert (Houter : Assembler.m_outer_rings a' = sorted) by apply Hsame.
    split; [|split].
    + rewrite Houter. exact Hsame.
    + intros outer Hone. rewrite Hone in Elen. discriminate.
    + intros _. split; [exact Houter|].
      intros p Hv. rewrite Houter. exact (Hinner p Hv).
Qed.



Lemma add_rings_to_area_rings_to_emit a :
  Assembler.add_rings_to_area a = map (emit_ring a) (rings_to_emit a).
Proof.
  unfold Assembler.add_rings_to_area, rings_to_emit.
  induction (Assembler.m_outer_rings a) as [|ring rest IH]; simpl; auto.
  rewrite map_app, map_map, IH. reflexivity.
Qed.

Lemma same_rings_refl a : same_rings a a.
Proof. unfold same_rings. auto. Qed.

Lemma same_rings_trans a b c :
  same_rings a b -> same_rings b c -> same_rings a c.
Proof.
  unfold same_rings. intros (H1 & H2 & H3) (K1 & K2 & K3).
  repeat split; congruence.
Qed.

Lemma same_rings_check_roles_of_ring expect_outer segments :
  forall a,
    same_rings a (Assembler.check_roles_of_ring expect_outer segments a).
Proof.
  induction segments as [|segment rest IH]; intros a; simpl;
    [apply same_rings_refl|].
  assert (Hstep : forall r,
    same_rings a
      (Assembler.report
         (Assembler.with_mismatches a
            (Assembler.m_inner_outer_mismatches a + 1)%Z) r)).
  { intros r. unfold same_rings, Assembler.report. simpl.
    destruct (problem_reporter (Assembler.m_config a)); simpl; auto. }
  destruct expect_outer.
  - destruct (negb (NodeRefSegment.role_outer segment)); [|apply IH].
    eapply same_rings_trans; [apply Hstep|apply IH].
  - destruct (negb (NodeRefSegment.role_inner segment)); [|apply IH].
    eapply same_rings_trans; [apply Hstep|apply IH].
Qed.

Lemma same_rings_fold_left {A : Type} (f : Assembler.t -> A -> Assembler.t) :
  (forall a x, same_rings a (f a x)) ->
  forall l a, same_rings a (fold_left f l a).
Proof.
  intros Hf l. induction l as [|x l IH]; intros a; simpl.
  - apply same_rings_refl.
  - eapply same_rings_trans; [apply Hf|apply IH].
Qed.

Lemma same_rings_check_inner_outer_roles a :
  same_rings a (Assembler.check_inner_outer_roles a).
Proof.
  unfold Assembler.check_inner_outer_roles.
  eapply same_rings_trans.
  - apply same_rings_fold_left with
      (f := fun a ringptr =>
              Assembler.check_roles_of_ring true
                (ProtoRing.segments (Assembler.ring_at a ringptr)) a).
    intros b x. apply same_rings_check_roles_of_ring.
  - apply same_rings_fold_left with
      (f := fun a ringptr =>
              Assembler.check_roles_of_ring false
                (ProtoRing.segments (Assembler.ring_at a ringptr)) a).
    intros b x. apply same_rings_check_roles_of_ring.
Qed.

Lemma rings_to_emit_same_rings a b :
  same_rings a b -> rings_to_emit b = rings_to_emit a.
Proof.
  intros (H1 & H2 & _). unfold rings_to_emit, Assembler.ring_at.
  now rewrite H1, H2.
Qed.

(** C5, as the code has it: the hole assignment never calls the problem
    reporter, so an inner ring that is in no outer ring is not reported;
    [create_rings] returns true whenever no intersection was found and no
    ring was left open, whatever the hole assignment did; and when the
    number of outer rings is not one, an inner ring that is in none of them
    and was attached to no ring before is attached to none, so that
    [add_rings_to_area], which visits the outer rings and the inner rings
    attached to them, leaves it out of the area. *)
Theorem orphan_inner_ring_is_dropped_silently :
  (forall a,
     Assembler.reporter (Assembler.assign_inner_rings a) = Assembler.reporter a)
  /\ (forall a,
        fst (Assembler.find_intersections (Assembler.normalize a)) = false ->
        fst (Assembler.check_for_open_rings (Assembler.stitched a)) = false ->
        fst (Assembler.create_rings a) = true)
  /\ (forall a,
        Assembler.add_rings_to_area a = map (emit_ring a) (rings_to_emit a))
  /\ (forall a inner,
        length (Assembler.m_outer_rings a) <> 1 ->
        (forall outer,
           In outer (Assembler.m_outer_rings a) ->
           ProtoRing.is_in (Assembler.ring_at a inner)
                           (Assembler.ring_at a outer) = false) ->
        (forall p,
           ~ In inner (ProtoRing.inner_rings (Assembler.ring_at a p))) ->
        ~ In (false, inner)
             (rings_to_emit
                (Assembler.check_inner_outer_roles
                   (Assembler.assign_inner_rings a)))).
Proof.
  refine (conj _ (conj _ (conj _ _))).
  - intros a. destruct (assign_inner_rings_spec a) as (Hsame & _).
    destruct Hsame as (_ & _ & H & _). exact H.
  - intros a Hf Ho.
    destruct (Assembler.create_rings a) as [ok a'] eqn:E.
    destruct ok; [reflexivity|].
    assert (H : fst (Assembler.create_rings a) = false) by now rewrite E.
    apply create_rings_false_iff in H. destruct H; congruence.
  - apply add_rings_to_area_rings_to_emit.
  - intros a inner Hlen Horphan Hfree.
    rewrite (rings_to_emit_same_rings _ _
               (same_rings_check_inner_outer_roles _)).
    destruct (assign_inner_rings_spec a) as (_ & _ & Hmany).
    destruct (Hmany Hlen) as [Hsorted Hinner].
    unfold rings_to_emit. rewrite in_flat_map.
    intros (outer & Houter & [Heq|Hin]); [discriminate|].
    apply in_map_iff in Hin. destruct Hin as (i & Hi & Hin).
    injection Hi as ->.
    destruct (Assembler.lookup (Assembler.m_rings a) outer) eqn:Hl.
    + assert (Hv : valid a outer) by (unfold valid; congruence).
      rewrite (Hinner outer Hv) in Hin. apply in_app_or in Hin.
      destruct Hin as [Hin|Hin]; [exact (Hfree outer Hin)|].
      apply filter_In in Hin. destruct Hin as [_ Hsome].
      unfold is_some_ptr in Hsome.
      destruct (first_containing a _ inner) as [q|] eqn:Hfc; [|discriminate].
      unfold first_containing in Hfc. apply find_some in Hfc.
      destruct Hfc as [Hq His].
      rewrite Hsorted in Hq.
      apply (Permutation_in _ (std_sort_perm _ _)) in Hq.
      rewrite (Horphan q Hq) in His. discriminate.
    + destruct (assign_inner_rings_spec a) as (Hsame & _).
      destruct Hsame as (_ & _ & _ & Hvalid & _).
      assert (Hnone : Assembler.lookup
                        (Assembler.m_rings (Assembler.assign_inner_rings a))
                        outer = None).
      { destruct (Assembler.lookup
                    (Assembler.m_rings (Assembler.assign_inner_rings a)) outer)
          eqn:E; auto.
        exfalso. assert (Hv : valid (Assembler.assign_inner_rings a) outer)
          by (unfold valid; congruence).
        apply Hvalid in Hv. unfold valid in Hv. simpl in Hv. congruence. }
      unfold Assembler.ring_at in Hin. rewrite Hnone in Hin. exact Hin.
Qed.

(** C5 as stated fails: in the relation of the two touching triangles both
    rings are classified inner and there is no outer ring for them to be
    in; [create_rings] returns true, and the only call the configured
    reporter has received is the [set_object] of the entry point.  The area
    is emitted without rings. *)
Lemma orphan_inner_rings_not_reported :
  let a0 :=
    Assembler.begin_relation Examples.fresh Examples.touching_triangles
      [0; 1] Examples.touching_triangles_buffer in
  let result := Assembler.create_rings a0 in
  fst result = true
  /\ Assembler.m_outer_rings (snd result) = []
  /\ Assembler.m_inner_rings (snd result) = [0; 1]
  /\ Assembler.reporter (snd result) = [set_object item_relation 20]
  /\ map Area.rings
       (firstn 1
          (snd (Assembler.assemble_relation Examples.fresh
                  Examples.touching_triangles [0; 1]
                  Examples.touching_triangles_buffer []))) = [[]].
Proof. vm_compute. repeat split. Qed.

(** ** The single ring is not oriented (C2) *)

Lemma single_ring_left_as_stitched a :
  let a4 := snd (Assembler.check_for_open_rings (Assembler.stitched a)) in
  fst (Assembler.find_intersections (Assembler.normalize a)) = false ->
  fst (Assembler.check_for_open_rings (Assembler.stitched a)) = false ->
  length (Assembler.m_rings a4) = 1 ->
  Assembler.m_rings (snd (Assembler.create_rings a)) = Assembler.m_rings a4
  /\ Assembler.m_outer_rings (snd (Assembler.create_rings a))
     = Assembler.m_outer_rings a4
         ++ [fst (hd (0, ProtoRing.empty) (Assembler.m_rings a4))].
Proof.
  intros a4 Hf Ho Hlen. subst a4.
  unfold Assembler.create_rings, Assembler.stitched in *.
  destruct (Assembler.find_intersections (Assembler.normalize a))
    as [found a2].
  cbn [fst snd] in *. subst found.
  destruct (Assembler.check_for_open_rings
              (Assembler.add_segments (Assembler.m_segment_list a2) a2))
    as [open_rings a4].
  cbn [fst snd] in *. subst open_rings.
  rewrite Hlen. cbn [Nat.eqb snd].
  match goal with
  | |- context [Assembler.check_inner_outer_roles ?b] =>
      destruct (same_rings_check_inner_outer_roles b) as (H1 & H2 & _)
  end.
  rewrite H1, H2. split; reflexivity.
Qed.

(** C2: when the stitching leaves exactly one ring, [create_rings] makes it
    an outer ring and leaves it as it is, without the test of the direction
    the rings get otherwise.  At a closed way with three nodes and at its
    mirror image, [create_rings] so returns true with one closed outer ring
    each, and the two run in opposite directions; the one of the first way,
    through the nodes 3, 1, 2 and back to 3, is not clockwise. *)
Theorem single_ring_keeps_stitched_orientation :
  (forall a,
     let a4 := snd (Assembler.check_for_open_rings (Assembler.stitched a)) in
     fst (Assembler.find_intersections (Assembler.normalize a)) = false ->
     fst (Assembler.check_for_open_rings (Assembler.stitched a)) = false ->
     length (Assembler.m_rings a4) = 1 ->
     Assembler.m_rings (snd (Assembler.create_rings a)) = Assembler.m_rings a4
     /\ Assembler.m_outer_rings (snd (Assembler.create_rings a))
        = Assembler.m_outer_rings a4
            ++ [fst (hd (0, ProtoRing.empty) (Assembler.m_rings a4))])
  /\ (let up :=
        Assembler.create_rings
          (Assembler.begin_way Examples.fresh
             (WayPtr.make 0 Examples.triangle_up)) in
      let down :=
        Assembler.create_rings
          (Assembler.begin_way Examples.fresh
             (WayPtr.make 0 Examples.triangle_down)) in
      fst up = true /\ fst down = true
      /\ Assembler.m_outer_rings (snd up) = [0]
      /\ Assembler.m_outer_rings (snd down) = [0]
      /\ map (fun e => ProtoRing.closed (snd e)) (Assembler.m_rings (snd up))
         = [true]
      /\ map (fun e => ProtoRing.closed (snd e)) (Assembler.m_rings (snd down))
         = [true]
      /\ ring_sums (snd up) = [(0, (-15)%Z)]
      /\ ring_sums (snd down) = [(0, 15%Z)]
      /\ map NodeRef.ref (Assembler.ring_nodes (Assembler.ring_at (snd up) 0))
         = [3; 1; 2; 3]%Z
      /\ ProtoRing.outer (Assembler.ring_at (snd up) 0) = true
      /\ ProtoRing.is_cw (Assembler.ring_at (snd up) 0) = false).
Proof.
  split.
  - intros a. apply single_ring_left_as_stitched.
  - vm_compute. repeat split.
Qed.

(** ** Inner or outer (C3) *)








(** [create_rings] classifies on a sorted list: what [sort] and
    [erase_duplicate_segments] leave is in the order of the segments. *)

Lemma segment_ltb_iff a b :
  NodeRefSegment.ltb a b = true
  <-> (let xa := Location.x (NodeRef.location (NodeRefSegment.first a)) in
       let ya := Location.y (NodeRef.location (NodeRefSegment.first a)) in
       let xa' := Location.x (NodeRef.location (NodeRefSegment.second a)) in
       let ya' := Location.y (NodeRef.location (NodeRefSegment.second a)) in
       let xb := Location.x (NodeRef.location (NodeRefSegment.first b)) in
       let yb := Location.y (NodeRef.location (NodeRefSegment.first b)) in
       let xb' := Location.x (NodeRef.location (NodeRefSegment.second b)) in
       let yb' := Location.y (NodeRef.location (NodeRefSegment.second b)) in
       (xa < xb \/ (xa = xb /\ ya < yb)
        \/ (xa = xb /\ ya = yb /\ (xa' < xb' \/ (xa' = xb' /\ ya' < yb'))))%Z).
Proof.
  unfold NodeRefSegment.ltb, Location.ltb, Location.eqb. cbv zeta.
  rewrite !orb_true_iff, !andb_true_iff, !orb_true_iff, !andb_true_iff,
    !Z.ltb_lt, !Z.eqb_eq.
  tauto.
Qed.

Lemma segment_ltb_asym a b :
  NodeRefSegment.ltb a b = true -> NodeRefSegment.ltb b a = false.
Proof.
  intros H. apply not_true_is_false. intros H'.
  apply segment_ltb_iff in H. apply segment_ltb_iff in H'.
  cbv zeta in *. lia.
Qed.

Lemma segment_le_trans a b c :
  NodeRefSegment.ltb b a = false -> NodeRefSegment.ltb c b = false ->
  NodeRefSegment.ltb c a = false.
Proof.
  intros H1 H2. apply not_true_is_false. intros H3.
  apply not_true_iff_false in H1. apply not_true_iff_false in H2.
  rewrite segment_ltb_iff in H1, H2, H3. cbv zeta in *. lia.
Qed.

Lemma sort_insert_sorted_segments s l :
  sorted_segments l ->
  sorted_segments (sorted_insert NodeRefSegment.ltb s l).
Proof.
  unfold sorted_segments.
  induction l as [|b l IH]; intros Hs; simpl.
  - repeat constructor.
  - inversion Hs as [|? ? Hl Hall]; subst.
    destruct (NodeRefSegment.ltb b s) eqn:E.
    + constructor; [now apply IH|].
      rewrite Forall_forall. intros z Hz.
      apply (Permutation_in _ (std_sort_insert_perm _ s l)) in Hz.
      destruct Hz as [<-|Hz]; [now apply segment_ltb_asym|].
      rewrite Forall_forall in Hall. now apply Hall.
    + constructor; [exact Hs|].
      constructor; [exact E|].
      rewrite Forall_forall in Hall |- *. intros z Hz.
      apply (segment_le_trans s b z E). now apply Hall.
Qed.

Lemma sort_sorted_segments l : sorted_segments (SegmentList.sort l).
Proof.
  unfold SegmentList.sort, std_sort.
  induction l as [|s l IH]; simpl.
  - constructor.
  - now apply sort_insert_sorted_segments.
Qed.

Lemma erase_first_adjacent_pair_sorted l :
  forall l',
    sorted_segments l ->
    SegmentList.erase_first_adjacent_pair l = Some l' ->
    sorted_segments l' /\ incl l' l.
Proof.
  unfold sorted_segments.
  induction l as [|a l IH]; intros l' Hs H; simpl in H; [discriminate|].
  destruct l as [|b r]; [discriminate|].
  inversion Hs as [|? ? Hl Hall]; subst.
  destruct (NodeRefSegment.eqb a b).
  - injection H as <-. inversion Hl; subst.
    split; [assumption|]. intros z Hz. simpl. auto.
  - destruct (SegmentList.erase_first_adjacent_pair (b :: r)) as [rest'|] eqn:E;
      [|discriminate].
    injection H as <-.
    destruct (IH rest' Hl eq_refl) as [Hsorted Hincl].
    split.
    + constructor; [exact Hsorted|].
      rewrite Forall_forall in Hall |- *. intros z Hz. apply Hall, Hincl, Hz.
    + intros z [<-|Hz]; [simpl; auto|]. right. apply Hincl, Hz.
Qed.

Lemma erase_duplicate_segments_sorted l :
  sorted_segments l -> sorted_segments (SegmentList.erase_duplicate_segments l).
Proof.
  unfold SegmentList.erase_duplicate_segments.
  generalize (length l). intros fuel. revert l.
  induction fuel as [|fuel IH]; intros l Hs; simpl; [exact Hs|].
  destruct (SegmentList.erase_first_adjacent_pair l) as [l'|] eqn:E;
    [|exact Hs].
  apply IH. now destruct (erase_first_adjacent_pair_sorted l l' Hs E).
Qed.

Lemma normalize_sorted a :
  sorted_segments (Assembler.m_segment_list (Assembler.normalize a)).
Proof.
  unfold Assembler.normalize. simpl.
  apply erase_duplicate_segments_sorted, sort_sorted_segments.
Qed.

(** ** The inner ways that become areas of their own (C7) *)








(** ** The tags of the area of a relation (C6) *)

Lemma copy_tags (l : TagList) :
  map (fun tag => Tag.make (Tag.key tag) (Tag.value tag)) l = l.
Proof.
  induction l as [|[k v] l IH]; simpl; [reflexivity|]. now rewrite IH.
Qed.

(** *** Common tags when no way repeats a pair *)

Lemma c_str_c_string s : is_c_string s = true -> Assembler.c_str s = s.
Proof.
  induction s as [|c s IH]; simpl; auto.
  intros H. apply andb_true_iff in H. destruct H as [Hc Hs].
  apply negb_true_iff in Hc. rewrite Hc. now rewrite IH.
Qed.

Lemma c_str_kv k v :
  is_c_string k = true ->
  Assembler.c_str (k ++ String "000"%char v)%string = k.
Proof.
  induction k as [|c k IH]; simpl; auto.
  intros H. apply andb_true_iff in H. destruct H as [Hc Hk].
  apply negb_true_iff in Hc. rewrite Hc. now rewrite IH.
Qed.

Lemma advance_kv k v :
  Assembler.advance (k ++ String "000"%char v)%string (String.length k + 1) = v.
Proof.
  induction k as [|c k IH]; simpl; auto.
  destruct v; reflexivity.
Qed.

Lemma tag_of_kv_of_tag tag :
  c_tag tag -> tag_of_kv (Assembler.kv_of_tag tag) = tag.
Proof.
  intros [Hk Hv]. unfold tag_of_kv, Assembler.kv_of_tag.
  rewrite (c_str_kv _ _ Hk), advance_kv, (c_str_c_string _ Hv).
  destruct tag; reflexivity.
Qed.

Lemma compare_lt_trans a b c :
  String.compare a b = Lt -> String.compare b c = Lt -> String.compare a c = Lt.
Proof.
  intros H1 H2.
  apply OrderedTypeEx.String_as_OT.cmp_lt in H1.
  apply OrderedTypeEx.String_as_OT.cmp_lt in H2.
  apply OrderedTypeEx.String_as_OT.cmp_lt.
  eapply OrderedTypeEx.String_as_OT.lt_trans; eassumption.
Qed.

Lemma compare_lt_neq a b : String.compare a b = Lt -> String.eqb a b = false.
Proof.
  intros H. apply String.eqb_neq. intros ->.
  assert (E : String.compare b b = Eq)
    by now apply OrderedTypeEx.String_as_OT.cmp_eq.
  congruence.
Qed.

Lemma compare_gt_lt a b : String.compare a b = Gt -> String.compare b a = Lt.
Proof.
  intros H. rewrite String.compare_antisym, H. reflexivity.
Qed.

Lemma counter_get_below counter kv :
  Forall (fun e => String.compare kv (fst e) = Lt) counter ->
  counter_get counter kv = 0.
Proof.
  induction counter as [|[k n] rest IH]; intros H; simpl; auto.
  inversion H as [|? ? Hk Hrest]; subst. simpl in Hk.
  assert (E : String.eqb k kv = false).
  { rewrite String.eqb_sym. now apply compare_lt_neq. }
  rewrite E. now apply IH.
Qed.

Lemma counter_increment_keys counter kv e :
  In e (Assembler.counter_increment counter kv) ->
  fst e = kv \/ In e counter.
Proof.
  induction counter as [|[k n] rest IH]; simpl.
  - intros [<-|[]]. now left.
  - destruct (String.compare kv k) eqn:E; simpl.
    + intros [<-|H]; [|now right; right].
      left. simpl. symmetry. now apply String.compare_eq_iff.
    + intros [<-|H]; [now left|now right].
    + intros [<-|H]; [now right; left|].
      destruct (IH H) as [H'|H']; [now left|now right; right].
Qed.

Lemma counter_increment_spec counter kv :
  counter_ok counter ->
  counter_ok (Assembler.counter_increment counter kv)
  /\ forall k,
       counter_get (Assembler.counter_increment counter kv) k
       = counter_get counter k + (if String.eqb kv k then 1 else 0).
Proof.
  unfold counter_ok.
  induction counter as [|[k0 n0] rest IH]; intros Hok; simpl.
  - split; [repeat constructor|]. intros k. destruct (String.eqb kv k); reflexivity.
  - inversion Hok as [|? ? Hrest Hall]; subst. simpl in Hall.
    destruct (String.compare kv k0) eqn:E.
    + apply String.compare_eq_iff in E. subst k0.
      split; [constructor; assumption|].
      intros k. simpl. destruct (String.eqb kv k); lia.
    + assert (Hbelow : Forall (fun e => String.compare kv (fst e) = Lt)
                              ((k0, n0) :: rest)).
      { constructor; [exact E|].
        rewrite Forall_forall in Hall |- *. intros e He.
        eapply compare_lt_trans; [exact E|now apply Hall]. }
      split; [constructor; assumption|].
      intros k. simpl. destruct (String.eqb kv k) eqn:Ek.
      * apply String.eqb_eq in Ek. subst k.
        pose proof (counter_get_below _ _ Hbelow) as H0. simpl in H0.
        rewrite H0. reflexivity.
      * lia.
    + destruct (IH Hrest) as [Hok' Hget].
      split.
      * constructor; [exact Hok'|].
        rewrite Forall_forall in Hall |- *. intros e He.
        destruct (counter_increment_keys _ _ _ He) as [Hk|Hin].
        -- rewrite Hk. now apply compare_gt_lt.
        -- now apply Hall.
      * intros k. simpl. rewrite Hget.
        destruct (String.eqb k0 k) eqn:Ek; [|reflexivity].
        apply String.eqb_eq in Ek. subst k0.
        assert (Ekv : String.eqb kv k = false).
        { rewrite String.eqb_sym. apply compare_lt_neq.
          now apply compare_gt_lt. }
        rewrite Ekv. lia.
Qed.

Lemma counter_of_list l :
  forall counter,
    counter_ok counter ->
    counter_ok (fold_left Assembler.counter_increment l counter)
    /\ forall k,
         counter_get (fold_left Assembler.counter_increment l counter) k
         = counter_get counter k + count_occ string_dec l k.
Proof.
  induction l as [|kv l IH]; intros counter Hok; simpl.
  - split; [exact Hok|]. intros k. lia.
  - destruct (counter_increment_spec counter kv Hok) as [Hok' Hget].
    destruct (IH _ Hok') as [Hres Hcount].
    split; [exact Hres|].
    intros k. rewrite Hcount, Hget.
    destruct (string_dec kv k) as [->|Hneq].
    + rewrite String.eqb_refl. lia.
    + apply String.eqb_neq in Hneq. rewrite Hneq. lia.
Qed.

Lemma counter_get_In counter k n :
  counter_ok counter -> In (k, n) counter -> counter_get counter k = n.
Proof.
  unfold counter_ok.
  induction counter as [|[k0 n0] rest IH]; intros Hok Hin; [contradiction|].
  inversion Hok as [|? ? Hrest Hall]; subst. simpl.
  destruct Hin as [Heq|Hin].
  - injection Heq as -> ->. now rewrite String.eqb_refl.
  - rewrite Forall_forall in Hall. specialize (Hall _ Hin). simpl in Hall.
    rewrite (compare_lt_neq _ _ Hall). now apply IH.
Qed.

Lemma In_counter_get counter k :
  counter_get counter k <> 0 -> In (k, counter_get counter k) counter.
Proof.
  induction counter as [|[k0 n0] rest IH]; simpl; [contradiction|].
  destruct (String.eqb k0 k) eqn:E.
  - apply String.eqb_eq in E. subst k0. now left.
  - intros H. right. now apply IH.
Qed.

Lemma counter_of_ways ways :
  forall counter,
    fold_left
      (fun counter way =>
         fold_left
           (fun counter tag =>
              Assembler.counter_increment counter (Assembler.kv_of_tag tag))
           (Way.tags (WayPtr.deref way)) counter)
      ways counter
    = fold_left Assembler.counter_increment (kvs_of_ways ways) counter.
Proof.
  unfold kvs_of_ways.
  induction ways as [|way ways IH]; intros counter; simpl; [reflexivity|].
  rewrite IH, fold_left_app. f_equal.
  generalize (Way.tags (WayPtr.deref way)). intros l. revert counter.
  induction l as [|tag l IHl]; intros counter; simpl; auto.
Qed.

(** Among lists without repetition, an element occurs as often as there are
    lists if and only if it is in every one of them. *)
Lemma count_occ_flat_map {A : Type} (f : A -> list string) (ways : list A) k :
  (forall way, In way ways -> NoDup (f way)) ->
  count_occ string_dec (flat_map f ways) k <= length ways
  /\ (count_occ string_dec (flat_map f ways) k = length ways
      <-> forall way, In way ways -> In k (f way)).
Proof.
  induction ways as [|way ways IH]; intros Hnd; simpl.
  - split; [lia|]. split; [intros _ way []|reflexivity].
  - rewrite count_occ_app.
    destruct IH as [Hle Hiff]; [intros w Hw; apply Hnd; now right|].
    assert (Hway : NoDup (f way)) by (apply Hnd; now left).
    pose proof (proj1 (NoDup_count_occ string_dec (f way)) Hway k) as H1.
    split; [lia|].
    split.
    + intros Heq way' [<-|Hin].
      * apply (count_occ_In string_dec). lia.
      * apply Hiff; [lia|exact Hin].
    + intros Hall.
      assert (H2 : count_occ string_dec (f way) k > 0).
      { apply (count_occ_In string_dec). apply Hall. now left. }
      assert (H3 : count_occ string_dec (flat_map f ways) k = length ways).
      { apply Hiff. intros w Hw. apply Hall. now right. }
      lia.
Qed.

Lemma NoDup_kvs tags :
  NoDup tags -> Forall c_tag tags -> NoDup (map Assembler.kv_of_tag tags).
Proof.
  induction tags as [|tag tags IH]; intros Hnd Hc; simpl; [constructor|].
  inversion Hnd as [|? ? Hnotin Hnd']; subst.
  inversion Hc as [|? ? Htag Hc']; subst.
  constructor; [|now apply IH].
  intros Hin. apply in_map_iff in Hin. destruct Hin as (tag' & Heq & Hin').
  rewrite Forall_forall in Hc'.
  assert (tag' = tag).
  { rewrite <- (tag_of_kv_of_tag tag' (Hc' _ Hin')),
            <- (tag_of_kv_of_tag tag Htag).
    now rewrite Heq. }
  subst tag'. contradiction.
Qed.

(** Where every way has tags that are C strings and no tag twice,
    [add_common_tags] emits exactly the tags every way has (none if there is
    no way). *)
Lemma add_common_tags_common ways :
  (forall way, In way ways ->
     NoDup (Way.tags (WayPtr.deref way))
     /\ Forall c_tag (Way.tags (WayPtr.deref way))) ->
  forall tag,
    In tag (Assembler.add_common_tags ways)
    <-> ways <> []
        /\ forall way, In way ways -> In tag (Way.tags (WayPtr.deref way)).
Proof.
  intros Hways tag. unfold Assembler.add_common_tags.
  rewrite counter_of_ways.
  destruct (counter_of_list (kvs_of_ways ways) [] (SSorted_nil _))
    as [Hok Hget].
  set (counter := fold_left Assembler.counter_increment (kvs_of_ways ways) [])
    in *.
  assert (Hnd : forall way, In way ways ->
            NoDup (map Assembler.kv_of_tag (Way.tags (WayPtr.deref way)))).
  { intros way Hin. destruct (Hways way Hin). now apply NoDup_kvs. }
  rewrite in_flat_map. split.
  - intros ([kv n] & Hin & Htag). simpl in Htag.
    destruct (n =? length ways) eqn:En; [|contradiction].
    apply Nat.eqb_eq in En. destruct Htag as [<-|[]].
    pose proof (counter_get_In counter kv n Hok Hin) as Hn.
    rewrite Hget in Hn. simpl in Hn.
    assert (Hpos : n <> 0).
    { intros ->. clear - Hin Hok Hget.
      (* an entry of the map has been incremented at least once *)
      assert (H : forall l c, Forall (fun e => snd e <> 0) c ->
                Forall (fun e => snd e <> 0)
                       (fold_left Assembler.counter_increment l c)).
      { induction l as [|x l IH]; intros c Hc; simpl; auto.
        apply IH. rewrite Forall_forall in Hc |- *. intros e He.
        clear IH. induction c as [|[k0 n0] rest IHc]; simpl in He.
        - destruct He as [<-|[]]. simpl. lia.
        - destruct (String.compare x k0).
          + destruct He as [<-|He]; [simpl; lia|]. apply Hc. now right.
          + destruct He as [<-|He]; [simpl; lia|]. apply Hc. exact He.
          + destruct He as [<-|He]; [apply Hc; now left|].
            apply IHc; [|exact He]. intros e' He'. apply Hc. now right. }
      specialize (H (kvs_of_ways ways) [] (Forall_nil _)).
      rewrite Forall_forall in H. specialize (H _ Hin). simpl in H. lia. }
    assert (Hne : ways <> []).
    { intros ->. simpl in *. lia. }
    split; [exact Hne|].
    destruct (count_occ_flat_map
                (fun way => map Assembler.kv_of_tag (Way.tags (WayPtr.deref way)))
                ways kv Hnd) as [_ Hiff].
    fold (kvs_of_ways ways) in Hiff.
    assert (Hall : forall way, In way ways ->
              In kv (map Assembler.kv_of_tag (Way.tags (WayPtr.deref way)))).
    { apply Hiff. lia. }
    intros way Hway. specialize (Hall way Hway).
    apply in_map_iff in Hall. destruct Hall as (tag' & Hkv & Hin').
    destruct (Hways way Hway) as [_ Hc]. rewrite Forall_forall in Hc.
    change (In (tag_of_kv kv) (Way.tags (WayPtr.deref way))).
    rewrite <- Hkv, (tag_of_kv_of_tag tag' (Hc _ Hin')). exact Hin'.
  - intros [Hne Hall].
    exists (Assembler.kv_of_tag tag, length ways). 
    destruct (count_occ_flat_map
                (fun way => map Assembler.kv_of_tag (Way.tags (WayPtr.deref way)))
                ways (Assembler.kv_of_tag tag) Hnd) as [_ Hiff].
    fold (kvs_of_ways ways) in Hiff.
    assert (Hcount : count_occ string_dec (kvs_of_ways ways)
                       (Assembler.kv_of_tag tag) = length ways).
    { apply Hiff. intros way Hway. apply in_map. now apply Hall. }
    assert (Hlen : length ways <> 0) by (destruct ways; simpl; congruence).
    split.
    + specialize (Hget (Assembler.kv_of_tag tag)). simpl in Hget.
      rewrite Hcount in Hget. rewrite <- Hget.
      apply In_counter_get. lia.
    + simpl. rewrite Nat.eqb_refl. left.
      destruct ways as [|way ways]; [contradiction|].
      destruct (Hways way (or_introl eq_refl)) as [_ Hc].
      rewrite Forall_forall in Hc.
      apply (tag_of_kv_of_tag tag). apply Hc. apply Hall. now left.
Qed.

(** C6: the first two cases are as the claim says.  If a tag of the relation
    passes the filter, the tags of the relation except [type] are copied;
    if none does and the outer rings come from one way, the tags of that way
    are copied.  In the third case the tags every outer way has are emitted
    as long as no way has a tag twice.  The code counts occurrences, not
    ways: for the two squares the area gets the tag [name=x], which the
    first way has twice and the second way does not have. *)
Theorem common_tags_count_occurrences :
  (forall a relation,
     KeyFilter.filtered Assembler.relation_tags_filter (Relation.tags relation)
     <> [] ->
     Assembler.add_tags_to_area_relation a relation
     = filter (fun tag => negb (String.eqb (Tag.key tag) "type"))
              (Relation.tags relation))
  /\ (forall a relation way,
        KeyFilter.filtered Assembler.relation_tags_filter
                           (Relation.tags relation) = [] ->
        outer_ways a = [way] ->
        Assembler.add_tags_to_area_relation a relation
        = Way.tags (WayPtr.deref way))
  /\ (forall a relation,
        KeyFilter.filtered Assembler.relation_tags_filter
                           (Relation.tags relation) = [] ->
        length (outer_ways a) <> 1 ->
        (forall way, In way (outer_ways a) ->
           NoDup (Way.tags (WayPtr.deref way))
           /\ Forall c_tag (Way.tags (WayPtr.deref way))) ->
        forall tag,
          In tag (Assembler.add_tags_to_area_relation a relation)
          <-> outer_ways a <> []
              /\ forall way, In way (outer_ways a) ->
                             In tag (Way.tags (WayPtr.deref way)))
  /\ (let a :=
        snd (Assembler.create_rings
               (Assembler.begin_relation Examples.fresh Examples.two_squares [0; 1]
                  [Examples.repeated_tag_square; Examples.untagged_square])) in
      map (fun way => Way.tags (WayPtr.deref way)) (outer_ways a)
      = [[Tag.make "name" "x"; Tag.make "name" "x"]; []]
      /\ Assembler.add_tags_to_area_relation a Examples.two_squares
         = [Tag.make "name" "x"]
      /\ map Area.tags
           (snd (Assembler.assemble_relation Examples.fresh Examples.two_squares [0; 1]
                   [Examples.repeated_tag_square; Examples.untagged_square] []))
         = [[Tag.make "name" "x"]]).
Proof.
  refine (conj _ (conj _ (conj _ _))).
  - intros a relation H. unfold Assembler.add_tags_to_area_relation.
    destruct (KeyFilter.filtered Assembler.relation_tags_filter
                (Relation.tags relation)); [contradiction|].
    cbn [length Nat.ltb Nat.leb]. apply copy_tags.
  - intros a relation way H Hway. unfold Assembler.add_tags_to_area_relation.
    rewrite H. cbn [length Nat.ltb Nat.leb].
    fold (outer_ways a). rewrite Hway. cbn [length Nat.eqb hd].
    apply copy_tags.
  - intros a relation H Hlen Hways tag.
    unfold Assembler.add_tags_to_area_relation.
    rewrite H. cbn [length Nat.ltb Nat.leb].
    fold (outer_ways a).
    apply Nat.eqb_neq in Hlen. rewrite Hlen.
    now apply add_common_tags_common.
  - vm_compute. repeat split.
Qed.

(** * Part VIII: further properties of the assembler *)

(** ** What the reporter receives *)

Lemma report_fields a r :
  let b := Assembler.report a r in
  Assembler.m_config b = Assembler.m_config a
  /\ Assembler.m_segment_list b = Assembler.m_segment_list a
  /\ Assembler.m_rings b = Assembler.m_rings a
  /\ Assembler.m_outer_rings b = Assembler.m_outer_rings a
  /\ Assembler.m_inner_rings b = Assembler.m_inner_rings a
  /\ Assembler.m_inner_outer_mismatches b = Assembler.m_inner_outer_mismatches a
  /\ Assembler.next_address b = Assembler.next_address a
  /\ Assembler.reporter b = Assembler.reporter a ++ received a [r].
Proof.
  unfold Assembler.report, received.
  destruct (problem_reporter (Assembler.m_config a)); simpl;
    rewrite ?app_nil_r; repeat split.
Qed.

(** ** Open rings *)

Lemma check_for_open_rings_loop_spec rings :
  forall a open,
    fst (Assembler.check_for_open_rings_loop rings a open)
    = open || existsb (fun ring => negb (ProtoRing.closed ring)) (map snd rings)
    /\ Assembler.m_rings (snd (Assembler.check_for_open_rings_loop rings a open))
       = Assembler.m_rings a
    /\ Assembler.reporter
         (snd (Assembler.check_for_open_rings_loop rings a open))
       = Assembler.reporter a
           ++ received a
                (map open_ring_report
                     (filter (fun ring => negb (ProtoRing.closed ring))
                             (map snd rings))).
Proof.
  induction rings as [|[p ring] rest IH]; intros a open.
  - cbn. unfold received. rewrite orb_false_r.
    destruct (problem_reporter _); now rewrite app_nil_r.
  - cbn [Assembler.check_for_open_rings_loop map filter existsb snd].
    fold (open_ring_report ring).
    destruct (negb (ProtoRing.closed ring)) eqn:E.
    + destruct (IH (Assembler.report a (open_ring_report ring)) true)
        as (H1 & H2 & H3).
      destruct (report_fields a (open_ring_report ring))
        as (K1 & _ & K3 & _ & _ & _ & _ & K8).
      cbn zeta in K1, K3, K8.
      rewrite H1, H2, H3, K3, K8. unfold received. rewrite K1.
      cbn [orb map]. rewrite orb_true_r.
      destruct (problem_reporter (Assembler.m_config a)).
      * rewrite <- app_assoc. repeat split.
      * rewrite !app_nil_r. repeat split.
    + cbn [orb]. apply IH.
Qed.

Lemma check_for_open_rings_reports_open_rings a :
  fst (Assembler.check_for_open_rings a) = negb (length (open_rings a) =? 0)
  /\ Assembler.reporter (snd (Assembler.check_for_open_rings a))
     = Assembler.reporter a
         ++ received a (map open_ring_report (open_rings a))
  /\ Assembler.m_rings (snd (Assembler.check_for_open_rings a))
     = Assembler.m_rings a
  /\ same_members a (snd (Assembler.check_for_open_rings a)).
Proof.
  unfold Assembler.check_for_open_rings.
  destruct (check_for_open_rings_loop_spec (Assembler.m_rings a) a false)
    as (H1 & H2 & H3).
  refine (conj _ (conj H3 (conj H2 _))).
  - rewrite H1. cbn [orb]. unfold open_rings.
    generalize (map snd (Assembler.m_rings a)). intros l.
    induction l as [|ring l IH]; simpl; auto.
    destruct (negb (ProtoRing.closed ring)); simpl; auto.
  - apply same_members_check_for_open_rings_loop.
Qed.

(** X7: [check_for_open_rings] returns true if and only if some ring of the
    list is not closed; it calls [report_ring_not_closed] once for every
    such ring, in the order of the list, with the location the ring starts
    at and the one it ends at, and changes nothing of the assembler. *)
Theorem check_for_open_rings_reports_each_open_ring :
  forall a,
    let result := Assembler.check_for_open_rings a in
    fst result = negb (length (open_rings a) =? 0)
    /\ Assembler.reporter (snd result)
       = Assembler.reporter a
           ++ received a (map open_ring_report (open_rings a))
    /\ Assembler.m_rings (snd result) = Assembler.m_rings a
    /\ same_members a (snd result).
Proof.
  intros a result. subst result.
  apply check_for_open_rings_reports_open_rings.
Qed.

(** ** Roles that do not fit *)

Lemma check_roles_of_ring_counts expect_outer segments :
  forall a,
    let b := Assembler.check_roles_of_ring expect_outer segments a in
    let wrong :=
      filter (fun segment => negb (has_role expect_outer segment)) segments in
    Assembler.m_config b = Assembler.m_config a
    /\ Assembler.m_segment_list b = Assembler.m_segment_list a
    /\ Assembler.m_inner_outer_mismatches b
       = (Assembler.m_inner_outer_mismatches a + Z.of_nat (length wrong))%Z
    /\ Assembler.reporter b
       = Assembler.reporter a
           ++ received a (map (role_report expect_outer) wrong).
Proof.
  induction segments as [|segment rest IH]; intros a; cbn zeta.
  - cbn. unfold received. rewrite Z.add_0_r.
    destruct (problem_reporter _); rewrite app_nil_r; repeat split.
  - cbn [Assembler.check_roles_of_ring filter].
    assert (Hstep : forall r,
      let a1 :=
        Assembler.report
          (Assembler.with_mismatches a
             (Assembler.m_inner_outer_mismatches a + 1)%Z) r in
      Assembler.m_config a1 = Assembler.m_config a
      /\ Assembler.m_segment_list a1 = Assembler.m_segment_list a
      /\ Assembler.m_inner_outer_mismatches a1
         = (Assembler.m_inner_outer_mismatches a + 1)%Z
      /\ Assembler.reporter a1 = Assembler.reporter a ++ received a [r]).
    { intros r. cbn zeta. unfold Assembler.report, received. simpl.
      destruct (problem_reporter (Assembler.m_config a)); simpl;
        rewrite ?app_nil_r; repeat split. }
    destruct expect_outer; cbn [has_role] in *.
    + destruct (negb (NodeRefSegment.role_outer segment)).
      * match goal with
        | |- context [Assembler.report _ ?r] =>
            destruct (Hstep r) as (K1 & K2 & K3 & K4);
            destruct (IH (Assembler.report
                            (Assembler.with_mismatches a
                               (Assembler.m_inner_outer_mismatches a + 1)%Z) r))
              as (H1 & H2 & H3 & H4)
        end.
        cbn zeta in *. rewrite H1, H2, H3, H4, K1, K2, K3, K4.
        unfold received. rewrite K1. cbn [length map role_report].
        destruct (problem_reporter (Assembler.m_config a));
          rewrite <- ?app_assoc, ?app_nil_r;
          (split; [reflexivity|split; [reflexivity|split; [lia|reflexivity]]]).
      * apply IH.
    + destruct (negb (NodeRefSegment.role_inner segment)).
      * match goal with
        | |- context [Assembler.report _ ?r] =>
            destruct (Hstep r) as (K1 & K2 & K3 & K4);
            destruct (IH (Assembler.report
                            (Assembler.with_mismatches a
                               (Assembler.m_inner_outer_mismatches a + 1)%Z) r))
              as (H1 & H2 & H3 & H4)
        end.
        cbn zeta in *. rewrite H1, H2, H3, H4, K1, K2, K3, K4.
        unfold received. rewrite K1. cbn [length map role_report].
        destruct (problem_reporter (Assembler.m_config a));
          rewrite <- ?app_assoc, ?app_nil_r;
          (split; [reflexivity|split; [reflexivity|split; [lia|reflexivity]]]).
      * apply IH.
Qed.

Lemma wrong_roles_same_rings expect_outer a b rings :
  Assembler.m_rings b = Assembler.m_rings a ->
  wrong_roles expect_outer b rings = wrong_roles expect_outer a rings.
Proof.
  intros H. unfold wrong_roles, Assembler.ring_at. now rewrite H.
Qed.

Lemma check_roles_of_rings_counts expect_outer rings :
  forall a,
    let b :=
      fold_left
        (fun a ringptr =>
           Assembler.check_roles_of_ring expect_outer
             (ProtoRing.segments (Assembler.ring_at a ringptr)) a)
        rings a in
    let wrong := wrong_roles expect_outer a rings in
    same_rings a b
    /\ Assembler.m_config b = Assembler.m_config a
    /\ Assembler.m_segment_list b = Assembler.m_segment_list a
    /\ Assembler.m_inner_outer_mismatches b
       = (Assembler.m_inner_outer_mismatches a + Z.of_nat (length wrong))%Z
    /\ Assembler.reporter b
       = Assembler.reporter a
           ++ received a (map (role_report expect_outer) wrong).
Proof.
  induction rings as [|ringptr rest IH]; intros a; cbn zeta.
  - cbn. unfold received. rewrite Z.add_0_r.
    destruct (problem_reporter _); rewrite app_nil_r; repeat split.
  - cbn [fold_left wrong_roles flat_map].
    fold (wrong_roles expect_outer a rest).
    set (a1 := Assembler.check_roles_of_ring expect_outer
                 (ProtoRing.segments (Assembler.ring_at a ringptr)) a).
    pose proof (same_rings_check_roles_of_ring expect_outer
                  (ProtoRing.segments (Assembler.ring_at a ringptr)) a) as Hr.
    destruct (check_roles_of_ring_counts expect_outer
                (ProtoRing.segments (Assembler.ring_at a ringptr)) a)
      as (K1 & K2 & K3 & K4).
    fold a1 in Hr, K1, K2, K3, K4. cbn zeta in K1, K2, K3, K4.
    destruct (IH a1) as (H0 & H1 & H2 & H3 & H4). cbn zeta in H1, H2, H3, H4.
    rewrite (wrong_roles_same_rings expect_outer a a1 rest (proj1 Hr))
      in H3, H4.
    split; [exact (same_rings_trans _ _ _ Hr H0)|].
    rewrite H1, H2, H3, H4, K1, K2, K3, K4.
    unfold received. rewrite K1. rewrite length_app, map_app.
    destruct (problem_reporter (Assembler.m_config a));
      rewrite <- ?app_assoc, ?app_nil_r;
      (split; [reflexivity|split; [reflexivity|split; [lia|reflexivity]]]).
Qed.

(** X8: [check_inner_outer_roles] adds to the mismatch counter the number of
    segments of the outer rings whose role is not "outer" plus the number of
    segments of the inner rings whose role is not "inner", and calls
    [report_role_should_be_outer] or [report_role_should_be_inner] once for
    each of them, the outer rings first, ring by ring and segment by
    segment; the rings and the two vectors of ring pointers stay as they
    are. *)
Theorem check_inner_outer_roles_counts_wrong_roles :
  forall a,
    let b := Assembler.check_inner_outer_roles a in
    let outer := wrong_roles true a (Assembler.m_outer_rings a) in
    let inner := wrong_roles false a (Assembler.m_inner_rings a) in
    Assembler.m_inner_outer_mismatches b
    = (Assembler.m_inner_outer_mismatches a
       + Z.of_nat (length outer + length inner))%Z
    /\ Assembler.reporter b
       = Assembler.reporter a
           ++ received a (map (role_report true) outer
                          ++ map (role_report false) inner)
    /\ same_rings a b
    /\ Assembler.m_config b = Assembler.m_config a
    /\ Assembler.m_segment_list b = Assembler.m_segment_list a.
Proof.
  intros a b outer inner. subst b outer inner.
  unfold Assembler.check_inner_outer_roles.
  destruct (check_roles_of_rings_counts true (Assembler.m_outer_rings a) a)
    as (H0 & H1 & H2 & H3 & H4).
  cbn zeta in H1, H2, H3, H4.
  set (a1 := fold_left
               (fun a ringptr =>
                  Assembler.check_roles_of_ring true
                    (ProtoRing.segments (Assembler.ring_at a ringptr)) a)
               (Assembler.m_outer_rings a) a) in *.
  destruct (check_roles_of_rings_counts false (Assembler.m_inner_rings a1) a1)
    as (K0 & K1 & K2 & K3 & K4).
  cbn zeta in K1, K2, K3, K4.
  destruct H0 as (Hr & Ho & Hi).
  rewrite (wrong_roles_same_rings false a a1 _ Hr) in K3, K4.
  rewrite Hi in K0, K1, K2, K3, K4 |- *.
  rewrite K1, K2, K3, K4, H1, H2, H3, H4.
  unfold received. rewrite H1.
  refine (conj _ (conj _ (conj _ (conj eq_refl eq_refl)))).
  - rewrite Nat2Z.inj_add. lia.
  - destruct (problem_reporter (Assembler.m_config a));
      rewrite <- ?app_assoc, ?app_nil_r; reflexivity.
  - exact (same_rings_trans _ _ _ (conj Hr (conj Ho Hi)) K0).
Qed.

(** ** Closed rings *)

Lemma hd_rev {A : Type} (d : A) l : hd d (rev l) = last l d.
Proof.
  induction l as [|x l IH]; simpl; auto.
  destruct l as [|y l]; simpl in *; auto.
  destruct (rev l ++ [y]) eqn:E; simpl in *.
  - destruct (rev l); discriminate.
  - exact IH.
Qed.

Lemma last_rev {A : Type} (d : A) l : last (rev l) d = hd d l.
Proof.
  rewrite <- (rev_involutive l) at 2. now rewrite hd_rev.
Qed.

Lemma last_map {A B : Type} (f : A -> B) (d : A) l :
  last (map f l) (f d) = f (last l d).
Proof.
  induction l as [|x l IH]; simpl; auto.
  destruct l as [|y l]; simpl in *; auto.
Qed.

Lemma hd_map {A B : Type} (f : A -> B) (d : A) l :
  hd (f d) (map f l) = f (hd d l).
Proof. destruct l; reflexivity. Qed.

Lemma Location_eqb_sym a b : Location.eqb a b = Location.eqb b a.
Proof.
  unfold Location.eqb.
  now rewrite (Z.eqb_sym (Location.x a)), (Z.eqb_sym (Location.y a)).
Qed.

Lemma closed_segments r r' :
  ProtoRing.segments r = ProtoRing.segments r' ->
  ProtoRing.closed r = ProtoRing.closed r'.
Proof.
  intros H. unfold ProtoRing.closed, ProtoRing.get_segment_front,
    ProtoRing.get_segment_back. now rewrite H.
Qed.

Lemma closed_reverse r : ProtoRing.closed (ProtoRing.reverse r) = ProtoRing.closed r.
Proof.
  unfold ProtoRing.closed, ProtoRing.get_segment_front,
    ProtoRing.get_segment_back, ProtoRing.reverse. cbn [ProtoRing.segments
    ProtoRing.with_segments].
  rewrite hd_rev, last_rev.
  change NodeRefSegment.default
    with (NodeRefSegment.swap_locations NodeRefSegment.default).
  rewrite last_map, hd_map. cbn [NodeRefSegment.swap_locations
    NodeRefSegment.first NodeRefSegment.second].
  apply Location_eqb_sym.
Qed.

Lemma check_inner_outer_ring_segments l r :
  ProtoRing.segments (Assembler.check_inner_outer_ring l r)
  = ProtoRing.segments r.
Proof.
  unfold Assembler.check_inner_outer_ring.
  destruct (Assembler.check_inner_outer_loop _ _ _ _ _) as [count above].
  destruct (negb _); reflexivity.
Qed.

Lemma all_closed_modify_ring a p f :
  (forall r, ProtoRing.closed (f r) = ProtoRing.closed r) ->
  all_closed a -> all_closed (Assembler.modify_ring a p f).
Proof.
  intros Hf Ha q r. unfold Assembler.modify_ring. cbn.
  rewrite lookup_update. destruct (q =? p) eqn:E.
  - apply Nat.eqb_eq in E. subst q.
    destruct (Assembler.lookup (Assembler.m_rings a) p) as [r0|] eqn:E0;
      simpl; [|discriminate].
    intros H. injection H as <-. rewrite Hf. now apply (Ha p).
  - apply Ha.
Qed.

Lemma all_closed_classify_ring a ring :
  all_closed a -> all_closed (Assembler.classify_ring a ring).
Proof.
  intros Ha. unfold Assembler.classify_ring.
  assert (H1 : all_closed (Assembler.check_inner_outer a ring)).
  { apply all_closed_modify_ring; [|exact Ha].
    intros r. apply closed_segments, check_inner_outer_ring_segments. }
  set (a1 := Assembler.check_inner_outer a ring) in *.
  destruct (ProtoRing.outer (Assembler.ring_at a1 ring)).
  - destruct (negb (ProtoRing.is_cw (Assembler.ring_at a1 ring))).
    + apply (all_closed_modify_ring a1 ring ProtoRing.reverse closed_reverse H1).
    + exact H1.
  - destruct (ProtoRing.is_cw (Assembler.ring_at a1 ring)).
    + apply (all_closed_modify_ring a1 ring ProtoRing.reverse closed_reverse H1).
    + exact H1.
Qed.

Lemma all_closed_fold_left {A : Type} (f : Assembler.t -> A -> Assembler.t) :
  (forall a x, all_closed a -> all_closed (f a x)) ->
  forall l a, all_closed a -> all_closed (fold_left f l a).
Proof.
  intros Hf l. induction l as [|x l IH]; intros a Ha; simpl; auto.
Qed.

Lemma all_closed_add_inner_ring a outer inner :
  all_closed a ->
  all_closed
    (Assembler.modify_ring a outer (fun r => ProtoRing.add_inner_ring r inner)).
Proof.
  apply all_closed_modify_ring. intros r. now apply closed_segments.
Qed.

Lemma all_closed_add_to_first_outer inner outers :
  forall a, all_closed a ->
            all_closed (Assembler.add_to_first_outer a inner outers).
Proof.
  induction outers as [|outer rest IH]; intros a Ha; simpl; auto.
  destruct (ProtoRing.is_in _ _); auto.
  now apply all_closed_add_inner_ring.
Qed.

Lemma all_closed_assign_inner_rings a :
  all_closed a -> all_closed (Assembler.assign_inner_rings a).
Proof.
  intros Ha. unfold Assembler.assign_inner_rings.
  destruct (length (Assembler.m_outer_rings a) =? 1).
  - apply all_closed_fold_left; [|exact Ha].
    intros b inner Hb. now apply all_closed_add_inner_ring.
  - apply all_closed_fold_left; [|exact Ha].
    intros b inner Hb. now apply all_closed_add_to_first_outer.
Qed.

Lemma lookup_In rings p r :
  Assembler.lookup rings p = Some r -> In (p, r) rings.
Proof.
  induction rings as [|[q r0] rest IH]; simpl; [discriminate|].
  destruct (q =? p) eqn:E.
  - apply Nat.eqb_eq in E. subst q. intros H. injection H as ->. now left.
  - intros H. right. now apply IH.
Qed.

Lemma no_open_ring_all_closed a :
  fst (Assembler.check_for_open_rings a) = false ->
  all_closed (snd (Assembler.check_for_open_rings a)).
Proof.
  unfold Assembler.check_for_open_rings.
  destruct (check_for_open_rings_loop_spec (Assembler.m_rings a) a false)
    as (H1 & H2 & _).
  rewrite H1. cbn [orb]. intros Hnone p r. rewrite H2. intros Hl.
  apply lookup_In in Hl.
  destruct (ProtoRing.closed r) eqn:E; auto.
  assert (Hex : existsb (fun ring => negb (ProtoRing.closed ring))
                        (map snd (Assembler.m_rings a)) = true).
  { apply existsb_exists. exists r. split; [|now rewrite E].
    apply in_map_iff. exists (p, r). auto. }
  congruence.
Qed.

Lemma create_rings_all_closed a :
  fst (Assembler.create_rings a) = true ->
  all_closed (snd (Assembler.create_rings a)).
Proof.
  unfold Assembler.create_rings.
  destruct (Assembler.find_intersections (Assembler.normalize a))
    as [found a2].
  destruct found; [discriminate|].
  pose proof (no_open_ring_all_closed
                (Assembler.add_segments (Assembler.m_segment_list a2) a2)) as Hc.
  destruct (Assembler.check_for_open_rings
              (Assembler.add_segments (Assembler.m_segment_list a2) a2))
    as [open a4].
  destruct open; [discriminate|]. intros _. cbn [fst snd] in *.
  specialize (Hc eq_refl).
  match goal with
  | |- all_closed (Assembler.check_inner_outer_roles ?b) =>
      destruct (same_rings_check_inner_outer_roles b) as (Hr & _);
      assert (Hb : all_closed b)
  end.
  { destruct (length (Assembler.m_rings a4) =? 1).
    - exact Hc.
    - apply all_closed_assign_inner_rings. unfold Assembler.classify_rings.
      apply all_closed_fold_left; [|exact Hc].
      intros b p. apply all_closed_classify_ring. }
  intros p r. rewrite Hr. apply Hb.
Qed.

Lemma ends_meet_ring_nodes r :
  ends_meet (Assembler.ring_nodes r) = ProtoRing.closed r.
Proof.
  unfold ends_meet, Assembler.ring_nodes, ProtoRing.closed,
    ProtoRing.get_segment_front, ProtoRing.get_segment_back.
  destruct (ProtoRing.segments r) as [|s l]; [reflexivity|].
  cbn [hd]. f_equal. f_equal.
  change NodeRef.default with (NodeRefSegment.second NodeRefSegment.default).
  rewrite <- (last_map NodeRefSegment.second NodeRefSegment.default (s :: l)).
  reflexivity.
Qed.

Lemma all_closed_ring_at a p :
  all_closed a -> ProtoRing.closed (Assembler.ring_at a p) = true.
Proof.
  intros Ha. unfold Assembler.ring_at.
  destruct (Assembler.lookup (Assembler.m_rings a) p) as [r|] eqn:E.
  - now apply (Ha p).
  - reflexivity.
Qed.

(** X9: when [create_rings] returns true, every ring the assembler holds is
    closed, and so every ring [add_rings_to_area] writes to the area, outer
    or inner, begins and ends at the same location. *)
Theorem successful_create_rings_leaves_closed_rings :
  forall a,
    fst (Assembler.create_rings a) = true ->
    let a' := snd (Assembler.create_rings a) in
    (forall p ring,
       Assembler.lookup (Assembler.m_rings a') p = Some ring ->
       ProtoRing.closed ring = true)
    /\ Forall (fun ring => ends_meet (nodes_of_ring ring) = true)
              (Assembler.add_rings_to_area a').
Proof.
  intros a Hok a'. pose proof (create_rings_all_closed a Hok) as Hc.
  fold a' in Hc. split; [exact Hc|].
  unfold Assembler.add_rings_to_area. rewrite Forall_forall.
  intros ring Hin. apply in_flat_map in Hin.
  destruct Hin as (p & _ & [<-|Hin]).
  - cbn [nodes_of_ring]. rewrite ends_meet_ring_nodes.
    now apply all_closed_ring_at.
  - apply in_map_iff in Hin. destruct Hin as (q & <- & _).
    cbn [nodes_of_ring]. rewrite ends_meet_ring_nodes.
    now apply all_closed_ring_at.
Qed.

(** The way of scenario 1. *)
Lemma successful_create_rings_leaves_closed_rings_witness :
  let a := Assembler.begin_way Examples.fresh (WayPtr.make 0 Examples.square) in
  fst (Assembler.create_rings a) = true
  /\ Forall (fun ring => ends_meet (nodes_of_ring ring) = true)
            (Assembler.add_rings_to_area (snd (Assembler.create_rings a))).
Proof.
  assert (Hok : fst (Assembler.create_rings
                       (Assembler.begin_way Examples.fresh
                          (WayPtr.make 0 Examples.square))) = true)
    by (vm_compute; reflexivity).
  split; [exact Hok|].
  exact (proj2 (successful_create_rings_leaves_closed_rings _ Hok)).
Defined.

(** ** The common tags of the outer ways *)

Lemma counter_increment_positive counter kv :
  counter_positive counter ->
  counter_positive (Assembler.counter_increment counter kv).
Proof.
  unfold counter_positive.
  induction counter as [|[k n] rest IH]; intros H; simpl.
  - repeat constructor.
  - inversion H as [|? ? Hn Hrest]; subst. simpl in Hn.
    destruct (String.compare kv k).
    + constructor; [simpl; lia|exact Hrest].
    + constructor; [simpl; lia|exact H].
    + constructor; [exact Hn|now apply IH].
Qed.

Lemma counter_of_list_positive l :
  forall counter,
    counter_positive counter ->
    counter_positive (fold_left Assembler.counter_increment l counter).
Proof.
  induction l as [|kv l IH]; intros counter H; simpl; auto.
  apply IH. now apply counter_increment_positive.
Qed.

Lemma counter_of_list_keys l :
  forall counter e,
    In e (fold_left Assembler.counter_increment l counter) ->
    In (fst e) l \/ In e counter.
Proof.
  induction l as [|kv l IH]; intros counter e H; simpl in *; auto.
  destruct (IH _ _ H) as [H'|H']; auto.
  destruct (counter_increment_keys _ _ _ H') as [H''|H'']; auto.
Qed.

(** A [std::map] is determined by the count it holds for every key. *)
Lemma counter_determined c1 :
  forall c2,
    counter_ok c1 -> counter_ok c2 ->
    counter_positive c1 -> counter_positive c2 ->
    (forall k, counter_get c1 k = counter_get c2 k) ->
    c1 = c2.
Proof.
  unfold counter_ok, counter_positive.
  induction c1 as [|[k1 n1] r1 IH]; intros [|[k2 n2] r2] Ho1 Ho2 Hp1 Hp2 Hget.
  - reflexivity.
  - inversion Hp2 as [|? ? Hn _]; subst. simpl in Hn.
    specialize (Hget k2). simpl in Hget. rewrite String.eqb_refl in Hget. lia.
  - inversion Hp1 as [|? ? Hn _]; subst. simpl in Hn.
    specialize (Hget k1). simpl in Hget. rewrite String.eqb_refl in Hget. lia.
  - inversion Ho1 as [|? ? Hr1 Hall1]; subst.
    inversion Ho2 as [|? ? Hr2 Hall2]; subst.
    inversion Hp1 as [|? ? Hn1 Hp1']; subst.
    inversion Hp2 as [|? ? Hn2 Hp2']; subst.
    simpl in Hn1, Hn2, Hall1, Hall2.
    assert (Hlt : forall k n r k' n' r',
              Forall (fun e => String.compare k' (fst e) = Lt) r' ->
              String.compare k k' = Lt -> 0 < n ->
              counter_get ((k, n) :: r) k = counter_get ((k', n') :: r') k ->
              False).
    { intros k n r k' n' r' Hall Hc Hn H. simpl in H.
      rewrite String.eqb_refl in H.
      rewrite String.eqb_sym, (compare_lt_neq _ _ Hc) in H.
      rewrite counter_get_below in H; [lia|].
      rewrite Forall_forall in Hall |- *. intros e He.
      eapply compare_lt_trans; [exact Hc|now apply Hall]. }
    destruct (String.compare k1 k2) eqn:E.
    + apply String.compare_eq_iff in E. subst k2.
      pose proof (Hget k1) as H1. simpl in H1.
      rewrite String.eqb_refl in H1. subst n2.
      f_equal. apply IH; auto.
      intros k. specialize (Hget k). simpl in Hget.
      destruct (String.eqb k1 k) eqn:Ek; [|exact Hget].
      apply String.eqb_eq in Ek. subst k.
      now rewrite !counter_get_below.
    + exfalso. exact (Hlt k1 n1 r1 k2 n2 r2 Hall2 E Hn1 (Hget k1)).
    + exfalso. apply compare_gt_lt in E.
      exact (Hlt k2 n2 r2 k1 n1 r1 Hall1 E Hn2 (eq_sym (Hget k2))).
Qed.

Lemma filter_strongly_sorted {A : Type} (R : A -> A -> Prop) (keep : A -> bool)
  (l : list A) :
  StronglySorted R l -> StronglySorted R (filter keep l).
Proof.
  induction l as [|x l IH]; intros Hs; simpl; auto.
  inversion Hs as [|? ? Hl Hall]; subst.
  destruct (keep x); [|now apply IH].
  constructor; [now apply IH|].
  rewrite Forall_forall in Hall |- *. intros y Hy.
  apply filter_In in Hy. now apply Hall.
Qed.

Lemma map_strongly_sorted {A B : Type} (R : A -> A -> Prop)
  (R' : B -> B -> Prop) (f : A -> B) (l : list A) :
  (forall x y, In x l -> In y l -> R x y -> R' (f x) (f y)) ->
  StronglySorted R l -> StronglySorted R' (map f l).
Proof.
  induction l as [|x l IH]; intros Hf Hs; simpl; [constructor|].
  inversion Hs as [|? ? Hl Hall]; subst.
  constructor.
  - apply IH; auto. intros y z Hy Hz. apply Hf; now right.
  - rewrite Forall_map. rewrite Forall_forall in Hall |- *.
    intros y Hy. apply Hf; [now left|now right|now apply Hall].
Qed.

Lemma add_common_tags_of_counter ways :
  Assembler.add_common_tags ways
  = map (fun t_c => tag_of_kv (fst t_c))
        (filter (fun t_c : string * nat => snd t_c =? length ways)
                (fold_left Assembler.counter_increment (kvs_of_ways ways) [])).
Proof.
  unfold Assembler.add_common_tags. rewrite counter_of_ways.
  generalize (fold_left Assembler.counter_increment (kvs_of_ways ways) []).
  intros counter. induction counter as [|[kv n] rest IH]; simpl; auto.
  destruct (n =? length ways); simpl; now rewrite IH.
Qed.

(** X10: the tags [add_common_tags] emits do not depend on the order in
    which the set of ways is walked, that is, on the addresses of the ways.
    Where the keys and values of the tags are C strings, the tags come out
    in the strict order of the strings key, zero byte, value, so that no
    tag is emitted twice. *)
Theorem common_tags_ignore_the_order_of_the_ways :
  forall ways,
    (forall ways',
       Permutation ways ways' ->
       Assembler.add_common_tags ways' = Assembler.add_common_tags ways)
    /\ ((forall way, In way ways -> Forall c_tag (Way.tags (WayPtr.deref way))) ->
        StronglySorted
          (fun t1 t2 =>
             String.compare (Assembler.kv_of_tag t1) (Assembler.kv_of_tag t2)
             = Lt)
          (Assembler.add_common_tags ways)).
Proof.
  intros ways. split.
  - intros ways' Hperm. rewrite !add_common_tags_of_counter.
    rewrite (Permutation_length Hperm).
    assert (Hkvs : Permutation (kvs_of_ways ways) (kvs_of_ways ways')).
    { unfold kvs_of_ways. now apply Permutation_flat_map. }
    destruct (counter_of_list (kvs_of_ways ways) [] (SSorted_nil _))
      as [Hok Hget].
    destruct (counter_of_list (kvs_of_ways ways') [] (SSorted_nil _))
      as [Hok' Hget'].
    rewrite (counter_determined _ _ Hok' Hok); auto.
    + apply counter_of_list_positive. constructor.
    + apply counter_of_list_positive. constructor.
    + intros k. rewrite Hget, Hget'. f_equal.
      symmetry. revert k. now apply (Permutation_count_occ string_dec).
  - intros Hc. rewrite add_common_tags_of_counter.
    destruct (counter_of_list (kvs_of_ways ways) [] (SSorted_nil _))
      as [Hok _].
    set (counter := fold_left Assembler.counter_increment (kvs_of_ways ways) [])
      in *.
    assert (Hkey : forall e, In e counter ->
              Assembler.kv_of_tag (tag_of_kv (fst e)) = fst e).
    { intros e He. destruct (counter_of_list_keys _ _ _ He) as [H|[]].
      unfold kvs_of_ways in H. apply in_flat_map in H.
      destruct H as (way & Hway & H). apply in_map_iff in H.
      destruct H as (tag & Htag & Hin). rewrite <- Htag.
      specialize (Hc way Hway). rewrite Forall_forall in Hc.
      now rewrite (tag_of_kv_of_tag tag (Hc _ Hin)). }
    apply map_strongly_sorted
      with (R := fun e1 e2 : string * nat =>
                   String.compare (fst e1) (fst e2) = Lt).
    + intros x y Hx Hy Hxy. apply filter_In in Hx, Hy.
      now rewrite (Hkey x (proj1 Hx)), (Hkey y (proj1 Hy)).
    + apply filter_strongly_sorted. exact Hok.
Qed.

(** ** Input without segments *)

Lemma create_rings_without_segments config mismatches address reports :
  let a := Assembler.make config [] [] [] [] mismatches address reports in
  Assembler.create_rings a = (true, a).
Proof. reflexivity. Qed.

(** X11: an input that yields no segment is not an error.  On a newly
    constructed assembler, a relation assembled without member ways and a
    way with a single node both make [create_rings] succeed with no ring at
    all: the area that is emitted has the attributes and the tags (those of
    the relation except [type] if one of them passes the filter, else none;
    those of the way) and no ring, and the reporter is only told the
    object. *)
Theorem input_without_segments_gives_area_without_rings :
  (forall config reports relation in_buffer out,
     let a := Assembler.create config reports in
     let result := Assembler.assemble_relation a relation [] in_buffer out in
     snd result
     = out
         ++ [Assembler.add_tags
               (Assembler.initialize_area_from_object
                  (Relation.object relation) 1)
               (if 0 <? length (KeyFilter.filtered
                                  Assembler.relation_tags_filter
                                  (Relation.tags relation))
                then filter (fun tag => negb (String.eqb (Tag.key tag) "type"))
                            (Relation.tags relation)
                else [])]
     /\ Assembler.reporter (fst result)
        = reports
            ++ received a [set_object item_relation (Relation.id relation)]
     /\ Assembler.m_rings (fst result) = [])
  /\ (forall config reports way node out,
        Way.nodes (WayPtr.deref way) = [node] ->
        let a := Assembler.create config reports in
        let result := Assembler.assemble_way a way out in
        snd result
        = out
            ++ [Assembler.add_tags
                  (Assembler.initialize_area_from_object
                     (Way.object (WayPtr.deref way)) 0)
                  (Way.tags (WayPtr.deref way))]
        /\ Assembler.reporter (fst result)
           = reports
               ++ received a [set_object item_way (Way.id (WayPtr.deref way))]
        /\ Assembler.m_rings (fst result) = []).
Proof.
  split.
  - intros config reports relation in_buffer out a result. subst a result.
    unfold Assembler.assemble_relation.
    assert (Hbegin :
      Assembler.begin_relation (Assembler.create config reports) relation []
                               in_buffer
      = Assembler.make config [] [] [] [] 0%Z 0
          (reports ++ received (Assembler.create config reports)
                        [set_object item_relation (Relation.id relation)])).
    { unfold Assembler.begin_relation, Assembler.report, received.
      cbn [Assembler.create Assembler.m_config].
      destruct (Relation.members relation), (problem_reporter config); cbn;
        now rewrite ?app_nil_r. }
    rewrite Hbegin, create_rings_without_segments.
    cbn [Assembler.m_inner_outer_mismatches Z.eqb].
    destruct (Relation.members relation);
      cbn [Assembler.assemble_inner_ways Assembler.with_reporter fst snd
           Assembler.reporter Assembler.m_rings];
      (refine (conj _ (conj eq_refl eq_refl))).
    all: f_equal; f_equal.
    all: unfold Assembler.add_tags_to_area_relation.
    all: destruct (0 <? length _); [now rewrite copy_tags|reflexivity].
  - intros config reports way node out Hnodes a result. subst a result.
    unfold Assembler.assemble_way.
    assert (Hbegin :
      Assembler.begin_way (Assembler.create config reports) way
      = Assembler.make config [] [] [] [] 0%Z 0
          (reports ++ received (Assembler.create config reports)
                        [set_object item_way (Way.id (WayPtr.deref way))])).
    { unfold Assembler.begin_way, Assembler.report, received,
        SegmentList.extract_segments_from_way, Way.ends_have_same_id,
        Way.front, Way.back.
      rewrite Hnodes. cbn [hd last SegmentList.segments_of_nodes].
      rewrite Z.eqb_refl. cbn [negb Assembler.create Assembler.m_config].
      destruct (problem_reporter config); cbn; now rewrite ?app_nil_r. }
    rewrite Hbegin, create_rings_without_segments.
    cbn [fst snd Assembler.reporter Assembler.m_rings].
    refine (conj _ (conj eq_refl eq_refl)).
    unfold Assembler.add_tags_to_area_way. rewrite copy_tags. reflexivity.
Qed.

(** ** A failed [create_rings] *)

(** X12: when [create_rings] returns false it has classified nothing: the
    vectors of outer and of inner rings and the mismatch counter are as they
    were before the call.  The segment list is not rolled back: it is the
    list of the assembler with the segments of the input, sorted and with
    the duplicates erased. *)
Theorem failed_create_rings_classifies_nothing :
  forall a,
    fst (Assembler.create_rings a) = false ->
    let a' := snd (Assembler.create_rings a) in
    Assembler.m_outer_rings a' = Assembler.m_outer_rings a
    /\ Assembler.m_inner_rings a' = Assembler.m_inner_rings a
    /\ Assembler.m_inner_outer_mismatches a'
       = Assembler.m_inner_outer_mismatches a
    /\ Assembler.m_segment_list a'
       = SegmentList.erase_duplicate_segments
           (SegmentList.sort (Assembler.m_segment_list a)).
Proof.
  intros a. unfold Assembler.create_rings.
  assert (H2 : let a2 := snd (Assembler.find_intersections
                                (Assembler.normalize a)) in
               Assembler.m_outer_rings a2 = Assembler.m_outer_rings a
               /\ Assembler.m_inner_rings a2 = Assembler.m_inner_rings a
               /\ Assembler.m_inner_outer_mismatches a2
                  = Assembler.m_inner_outer_mismatches a
               /\ Assembler.m_segment_list a2
                  = SegmentList.erase_duplicate_segments
                      (SegmentList.sort (Assembler.m_segment_list a))).
  { unfold Assembler.find_intersections.
    destruct (SegmentList.find_intersections _ _ _) as [found reports].
    cbn. repeat split. }
  destruct (Assembler.find_intersections (Assembler.normalize a))
    as [found a2].
  cbn [snd] in H2. cbn zeta in H2.
  destruct found; [intros _; exact H2|].
  pose proof (same_members_add_segments (Assembler.m_segment_list a2) a2) as H3.
  destruct (check_for_open_rings_reports_open_rings
              (Assembler.add_segments (Assembler.m_segment_list a2) a2))
    as (_ & _ & _ & H4).
  destruct (Assembler.check_for_open_rings
              (Assembler.add_segments (Assembler.m_segment_list a2) a2))
    as [open a4].
  cbn [snd] in H4.
  destruct open; [intros _|discriminate].
  destruct (same_members_trans _ _ _ H3 H4) as (_ & K2 & K3 & K4 & K5).
  destruct H2 as (L1 & L2 & L3 & L4).
  cbn [snd]. cbn zeta. rewrite <- K2, <- K3, <- K4, <- K5. auto.
Qed.

(** The way of scenario 5 leaves a ring open. *)
Lemma failed_create_rings_classifies_nothing_witness :
  let a := Assembler.begin_way Examples.fresh (WayPtr.make 0 Examples.open_way) in
  fst (Assembler.create_rings a) = false
  /\ Assembler.m_outer_rings (snd (Assembler.create_rings a)) = []
  /\ length (Assembler.m_segment_list (snd (Assembler.create_rings a))) = 3.
Proof.
  assert (Hfail : fst (Assembler.create_rings
                         (Assembler.begin_way Examples.fresh
                            (WayPtr.make 0 Examples.open_way))) = false)
    by (vm_compute; reflexivity).
  split; [exact Hfail|].
  destruct (failed_create_rings_classifies_nothing _ Hfail) as (H1 & _ & _ & H4).
  cbn zeta in H1, H4. rewrite H1, H4. split; reflexivity.
Defined.

(** ** The problem reporter is optional *)

(** Without a reporter nothing is reported; the report a call makes changes
    only the reporter. *)
Lemma report_muted a log r :
  Assembler.report (muted a log) r = muted (Assembler.report a r) log.
Proof.
  unfold Assembler.report. cbn [muted Assembler.m_config problem_reporter].
  destruct (problem_reporter (Assembler.m_config a)); reflexivity.
Qed.

Lemma has_same_location_muted a log nr1 nr2 :
  Assembler.has_same_location (muted a log) nr1 nr2
  = (fst (Assembler.has_same_location a nr1 nr2),
     muted (snd (Assembler.has_same_location a nr1 nr2)) log).
Proof.
  unfold Assembler.has_same_location.
  destruct (negb (Location.eqb _ _)); [reflexivity|].
  destruct (negb (NodeRef.ref nr1 =? NodeRef.ref nr2)%Z); [|reflexivity].
  now rewrite report_muted.
Qed.

(** One step of a proof that a function does on [muted a log] what it does
    on [a]: a call on a muted assembler is replaced by the call on the
    assembler itself, or a call on the assembler is named. *)
Ltac mute_probe :=
  match goal with
  | |- context [Assembler.has_same_location (muted ?a ?log) ?x ?y] =>
      rewrite (has_same_location_muted a log x y);
      destruct (Assembler.has_same_location a x y) as [[|] ?];
      cbn [fst snd]
  end.

Lemma check_for_open_rings_loop_muted rings :
  forall a log open,
    Assembler.check_for_open_rings_loop rings (muted a log) open
    = (fst (Assembler.check_for_open_rings_loop rings a open),
       muted (snd (Assembler.check_for_open_rings_loop rings a open)) log).
Proof.
  induction rings as [|[p ring] rest IH]; intros a log open; simpl;
    [reflexivity|].
  destruct (negb (ProtoRing.closed ring)); [|apply IH].
  rewrite report_muted. apply IH.
Qed.

Lemma possibly_combine_rings_back_loop_muted ring nr its :
  forall a log,
    Assembler.possibly_combine_rings_back_loop ring nr its (muted a log)
    = (fst (Assembler.possibly_combine_rings_back_loop ring nr its a),
       muted (snd (Assembler.possibly_combine_rings_back_loop ring nr its a))
             log).
Proof.
  induction its as [|[it it_ring] rest IH]; intros a log; simpl;
    [reflexivity|].
  destruct (negb (it =? ring) && negb (ProtoRing.closed it_ring)); [|apply IH].
  mute_probe; [reflexivity|].
  mute_probe; [reflexivity|].
  apply IH.
Qed.

Lemma possibly_combine_rings_front_loop_muted ring nr its :
  forall a log,
    Assembler.possibly_combine_rings_front_loop ring nr its (muted a log)
    = (fst (Assembler.possibly_combine_rings_front_loop ring nr its a),
       muted (snd (Assembler.possibly_combine_rings_front_loop ring nr its a))
             log).
Proof.
  induction its as [|[it it_ring] rest IH]; intros a log; simpl;
    [reflexivity|].
  destruct (negb (it =? ring) && negb (ProtoRing.closed it_ring)); [|apply IH].
  mute_probe; [reflexivity|].
  mute_probe; [reflexivity|].
  apply IH.
Qed.

Lemma has_closed_subring_back_loop_muted ring nr its end_ :
  forall a log,
    Assembler.has_closed_subring_back_loop ring nr its end_ (muted a log)
    = (fst (Assembler.has_closed_subring_back_loop ring nr its end_ a),
       muted (snd (Assembler.has_closed_subring_back_loop ring nr its end_ a))
             log).
Proof.
  induction its as [|[it segment] rest IH]; intros a log; simpl;
    [reflexivity|].
  mute_probe; [reflexivity|]. apply IH.
Qed.

Lemma has_closed_subring_front_loop_muted ring nr its :
  forall a log,
    Assembler.has_closed_subring_front_loop ring nr its (muted a log)
    = (fst (Assembler.has_closed_subring_front_loop ring nr its a),
       muted (snd (Assembler.has_closed_subring_front_loop ring nr its a))
             log).
Proof.
  induction its as [|[it segment] rest IH]; intros a log; simpl;
    [reflexivity|].
  mute_probe; [reflexivity|]. apply IH.
Qed.

Lemma has_closed_subring_back_muted a log ring nr :
  Assembler.has_closed_subring_back (muted a log) ring nr
  = (fst (Assembler.has_closed_subring_back a ring nr),
     muted (snd (Assembler.has_closed_subring_back a ring nr)) log).
Proof.
  unfold Assembler.has_closed_subring_back.
  change (Assembler.ring_at (muted a log) ring) with (Assembler.ring_at a ring).
  destruct (length _ <? 3); [reflexivity|].
  apply has_closed_subring_back_loop_muted.
Qed.

Lemma has_closed_subring_front_muted a log ring nr :
  Assembler.has_closed_subring_front (muted a log) ring nr
  = (fst (Assembler.has_closed_subring_front a ring nr),
     muted (snd (Assembler.has_closed_subring_front a ring nr)) log).
Proof.
  unfold Assembler.has_closed_subring_front.
  change (Assembler.ring_at (muted a log) ring) with (Assembler.ring_at a ring).
  destruct (length _ <? 3); [reflexivity|].
  apply has_closed_subring_front_loop_muted.
Qed.

Lemma adjacent_find_muted segments :
  forall a log,
    Assembler.adjacent_find segments (muted a log)
    = (fst (Assembler.adjacent_find segments a),
       muted (snd (Assembler.adjacent_find segments a)) log).
Proof.
  induction segments as [|s1 rest IH]; intros a log; [reflexivity|].
  destruct rest as [|s2 rest]; [reflexivity|].
  cbn [Assembler.adjacent_find].
  mute_probe; [reflexivity|]. apply IH.
Qed.

Lemma check_for_closed_subring_muted a log ring :
  Assembler.check_for_closed_subring (muted a log) ring
  = (fst (Assembler.check_for_closed_subring a ring),
     muted (snd (Assembler.check_for_closed_subring a ring)) log).
Proof.
  unfold Assembler.check_for_closed_subring.
  change (Assembler.ring_at (muted a log) ring) with (Assembler.ring_at a ring).
  rewrite adjacent_find_muted.
  destruct (Assembler.adjacent_find _ a) as [[[s1 s2]|] a1]; reflexivity.
Qed.

Lemma combine_rings_front_muted a log segment ring :
  Assembler.combine_rings_front (muted a log) segment ring
  = muted (Assembler.combine_rings_front a segment ring) log.
Proof.
  unfold Assembler.combine_rings_front.
  change (Assembler.modify_ring (muted a log) ring
            (fun r => ProtoRing.add_segment_front r segment))
    with (muted (Assembler.modify_ring a ring
                   (fun r => ProtoRing.add_segment_front r segment)) log).
  rewrite has_closed_subring_front_muted.
  destruct (Assembler.has_closed_subring_front _ ring _) as [found a2].
  cbn [fst snd]. unfold Assembler.possibly_combine_rings_front.
  change (Assembler.ring_at (muted a2 log) ring) with (Assembler.ring_at a2 ring).
  change (Assembler.m_rings (muted a2 log)) with (Assembler.m_rings a2).
  rewrite possibly_combine_rings_front_loop_muted.
  destruct (Assembler.possibly_combine_rings_front_loop _ _ _ a2)
    as [combined a3].
  cbn [fst snd]. destruct combined; [|reflexivity].
  now rewrite check_for_closed_subring_muted.
Qed.

Lemma combine_rings_back_muted a log segment ring :
  Assembler.combine_rings_back (muted a log) segment ring
  = muted (Assembler.combine_rings_back a segment ring) log.
Proof.
  unfold Assembler.combine_rings_back.
  change (Assembler.modify_ring (muted a log) ring
            (fun r => ProtoRing.add_segment_back r segment))
    with (muted (Assembler.modify_ring a ring
                   (fun r => ProtoRing.add_segment_back r segment)) log).
  rewrite has_closed_subring_back_muted.
  destruct (Assembler.has_closed_subring_back _ ring _) as [found a2].
  cbn [fst snd]. unfold Assembler.possibly_combine_rings_back.
  change (Assembler.ring_at (muted a2 log) ring) with (Assembler.ring_at a2 ring).
  change (Assembler.m_rings (muted a2 log)) with (Assembler.m_rings a2).
  rewrite possibly_combine_rings_back_loop_muted.
  destruct (Assembler.possibly_combine_rings_back_loop _ _ _ a2)
    as [combined a3].
  cbn [fst snd]. destruct combined; [|reflexivity].
  now rewrite check_for_closed_subring_muted.
Qed.

Lemma add_to_existing_ring_loop_muted rings segment :
  forall a log,
    Assembler.add_to_existing_ring_loop rings segment (muted a log)
    = (fst (Assembler.add_to_existing_ring_loop rings segment a),
       muted (snd (Assembler.add_to_existing_ring_loop rings segment a)) log).
Proof.
  induction rings as [|[p ring] rest IH]; intros a log; simpl;
    [reflexivity|].
  destruct (ProtoRing.closed ring); [apply IH|].
  mute_probe; [now rewrite combine_rings_back_muted|].
  mute_probe; [now rewrite combine_rings_back_muted|].
  mute_probe; [now rewrite combine_rings_front_muted|].
  mute_probe; [now rewrite combine_rings_front_muted|].
  apply IH.
Qed.

Lemma add_segments_muted segments :
  forall a log,
    Assembler.add_segments segments (muted a log)
    = muted (Assembler.add_segments segments a) log.
Proof.
  induction segments as [|segment rest IH]; intros a log; simpl;
    [reflexivity|].
  unfold Assembler.add_to_existing_ring.
  change (Assembler.m_rings (muted a log)) with (Assembler.m_rings a).
  rewrite add_to_existing_ring_loop_muted.
  destruct (Assembler.add_to_existing_ring_loop _ segment a) as [added a1].
  cbn [fst snd]. destruct added; [apply IH|].
  change (Assembler.push_back (muted a1 log) (ProtoRing.of_segment segment))
    with (muted (Assembler.push_back a1 (ProtoRing.of_segment segment)) log).
  apply IH.
Qed.

Lemma find_intersections_with_muted s1 rest :
  forall flag reports log,
    SegmentList.find_intersections_with s1 rest false log
    = (fst (SegmentList.find_intersections_with s1 rest flag reports), log).
Proof.
  induction rest as [|s2 rest IH]; intros flag reports log; simpl;
    [reflexivity|].
  destruct (_ <? _)%Z; [reflexivity|].
  destruct (NodeRefSegment.intersects s1 s2); try apply IH.
  - rewrite (IH flag (if flag
                      then reports ++ [SegmentList.report_of_intersection s1 s2]
                      else reports) log).
    destruct (SegmentList.find_intersections_with s1 rest flag _); reflexivity.
  - rewrite (IH flag (if flag
                      then reports ++ [SegmentList.report_of_intersection s1 s2]
                      else reports) log).
    destruct (SegmentList.find_intersections_with s1 rest flag _); reflexivity.
Qed.

Lemma find_intersections_list_muted segments :
  forall flag reports log,
    SegmentList.find_intersections segments false log
    = (fst (SegmentList.find_intersections segments flag reports), log).
Proof.
  induction segments as [|s1 rest IH]; intros flag reports log; simpl;
    [reflexivity|].
  rewrite (find_intersections_with_muted s1 rest flag reports log).
  destruct (SegmentList.find_intersections_with s1 rest flag reports)
    as [found1 reports1].
  cbn [fst]. rewrite (IH flag reports1 log).
  destruct (SegmentList.find_intersections rest flag reports1); reflexivity.
Qed.

Lemma find_intersections_muted a log :
  Assembler.find_intersections (muted a log)
  = (fst (Assembler.find_intersections a),
     muted (snd (Assembler.find_intersections a)) log).
Proof.
  unfold Assembler.find_intersections.
  cbn [muted Assembler.m_segment_list Assembler.m_config problem_reporter
       Assembler.reporter].
  rewrite (find_intersections_list_muted (Assembler.m_segment_list a)
             (problem_reporter (Assembler.m_config a)) (Assembler.reporter a)
             log).
  destruct (SegmentList.find_intersections _ _ (Assembler.reporter a));
    reflexivity.
Qed.

Lemma fold_left_muted {A : Type} (f : Assembler.t -> A -> Assembler.t) :
  (forall a log x, f (muted a log) x = muted (f a x) log) ->
  forall l a log, fold_left f l (muted a log) = muted (fold_left f l a) log.
Proof.
  intros Hf l. induction l as [|x l IH]; intros a log; simpl; [reflexivity|].
  now rewrite Hf, IH.
Qed.

Lemma classify_ring_muted a log ring :
  Assembler.classify_ring (muted a log) ring
  = muted (Assembler.classify_ring a ring) log.
Proof.
  unfold Assembler.classify_ring.
  change (Assembler.check_inner_outer (muted a log) ring)
    with (muted (Assembler.check_inner_outer a ring) log).
  set (a1 := Assembler.check_inner_outer a ring).
  change (Assembler.ring_at (muted a1 log) ring) with (Assembler.ring_at a1 ring).
  destruct (ProtoRing.outer (Assembler.ring_at a1 ring)).
  - destruct (negb (ProtoRing.is_cw (Assembler.ring_at a1 ring))); reflexivity.
  - destruct (ProtoRing.is_cw (Assembler.ring_at a1 ring)); reflexivity.
Qed.

Lemma add_to_first_outer_muted inner outers :
  forall a log,
    Assembler.add_to_first_outer (muted a log) inner outers
    = muted (Assembler.add_to_first_outer a inner outers) log.
Proof.
  induction outers as [|outer rest IH]; intros a log; simpl; [reflexivity|].
  change (Assembler.ring_at (muted a log) inner) with (Assembler.ring_at a inner).
  change (Assembler.ring_at (muted a log) outer) with (Assembler.ring_at a outer).
  destruct (ProtoRing.is_in _ _); [reflexivity|apply IH].
Qed.

Lemma assign_inner_rings_muted a log :
  Assembler.assign_inner_rings (muted a log)
  = muted (Assembler.assign_inner_rings a) log.
Proof.
  unfold Assembler.assign_inner_rings.
  change (Assembler.m_outer_rings (muted a log))
    with (Assembler.m_outer_rings a).
  change (Assembler.m_inner_rings (muted a log))
    with (Assembler.m_inner_rings a).
  destruct (length (Assembler.m_outer_rings a) =? 1).
  - apply fold_left_muted with
      (f := fun a inner =>
              Assembler.modify_ring a (hd 0 (Assembler.m_outer_rings a))
                (fun r => ProtoRing.add_inner_ring r inner)).
    reflexivity.
  - change (Assembler.area_less (muted a log)) with (Assembler.area_less a).
    change (Assembler.with_outer_rings (muted a log)
              (std_sort (Assembler.area_less a) (Assembler.m_outer_rings a)))
      with (muted (Assembler.with_outer_rings a
                     (std_sort (Assembler.area_less a)
                               (Assembler.m_outer_rings a))) log).
    change (Assembler.m_inner_rings
              (Assembler.with_outer_rings a
                 (std_sort (Assembler.area_less a) (Assembler.m_outer_rings a))))
      with (Assembler.m_inner_rings a).
    apply fold_left_muted with
      (f := fun a inner =>
              Assembler.add_to_first_outer a inner (Assembler.m_outer_rings a)).
    intros b l x. apply add_to_first_outer_muted.
Qed.

Lemma check_roles_of_ring_muted expect_outer segments :
  forall a log,
    Assembler.check_roles_of_ring expect_outer segments (muted a log)
    = muted (Assembler.check_roles_of_ring expect_outer segments a) log.
Proof.
  induction segments as [|segment rest IH]; intros a log; simpl;
    [reflexivity|].
  destruct expect_outer.
  - destruct (negb (NodeRefSegment.role_outer segment)); [|apply IH].
    change (Assembler.with_mismatches (muted a log)
              (Assembler.m_inner_outer_mismatches a + 1)%Z)
      with (muted (Assembler.with_mismatches a
                     (Assembler.m_inner_outer_mismatches a + 1)%Z) log).
    rewrite report_muted. apply IH.
  - destruct (negb (NodeRefSegment.role_inner segment)); [|apply IH].
    change (Assembler.with_mismatches (muted a log)
              (Assembler.m_inner_outer_mismatches a + 1)%Z)
      with (muted (Assembler.with_mismatches a
                     (Assembler.m_inner_outer_mismatches a + 1)%Z) log).
    rewrite report_muted. apply IH.
Qed.

Lemma check_inner_outer_roles_muted a log :
  Assembler.check_inner_outer_roles (muted a log)
  = muted (Assembler.check_inner_outer_roles a) log.
Proof.
  unfold Assembler.check_inner_outer_roles.
  change (Assembler.m_outer_rings (muted a log))
    with (Assembler.m_outer_rings a).
  rewrite (fold_left_muted
             (fun a ringptr =>
                Assembler.check_roles_of_ring true
                  (ProtoRing.segments (Assembler.ring_at a ringptr)) a)).
  - match goal with
    | |- context [muted ?b log] =>
        change (Assembler.m_inner_rings (muted b log))
          with (Assembler.m_inner_rings b)
    end.
    apply fold_left_muted with
      (f := fun a ringptr =>
              Assembler.check_roles_of_ring false
                (ProtoRing.segments (Assembler.ring_at a ringptr)) a).
    intros b l x. apply check_roles_of_ring_muted.
  - intros b l x. apply check_roles_of_ring_muted.
Qed.

Lemma create_rings_muted a log :
  Assembler.create_rings (muted a log)
  = (fst (Assembler.create_rings a), muted (snd (Assembler.create_rings a)) log).
Proof.
  unfold Assembler.create_rings.
  change (Assembler.normalize (muted a log))
    with (muted (Assembler.normalize a) log).
  rewrite find_intersections_muted.
  destruct (Assembler.find_intersections (Assembler.normalize a))
    as [found a2].
  cbn [fst snd]. destruct found; [reflexivity|].
  change (Assembler.m_segment_list (muted a2 log))
    with (Assembler.m_segment_list a2).
  rewrite add_segments_muted. unfold Assembler.check_for_open_rings.
  match goal with
  | |- context [muted ?b log] =>
      change (Assembler.m_rings (muted b log)) with (Assembler.m_rings b)
  end.
  rewrite check_for_open_rings_loop_muted.
  destruct (Assembler.check_for_open_rings_loop _ _ false) as [open a4].
  cbn [fst snd]. destruct open; [reflexivity|].
  change (Assembler.m_rings (muted a4 log)) with (Assembler.m_rings a4).
  f_equal. destruct (length (Assembler.m_rings a4) =? 1).
  - apply (check_inner_outer_roles_muted
             (Assembler.with_outer_rings a4
                (Assembler.m_outer_rings a4
                   ++ [fst (hd (0, ProtoRing.empty) (Assembler.m_rings a4))]))
             log).
  - unfold Assembler.classify_rings.
    change (Assembler.m_rings (muted a4 log)) with (Assembler.m_rings a4).
    rewrite (fold_left_muted Assembler.classify_ring classify_ring_muted).
    rewrite assign_inner_rings_muted. apply check_inner_outer_roles_muted.
Qed.

Lemma begin_way_muted a log way :
  Assembler.begin_way (muted a log) way = muted (Assembler.begin_way a way) log.
Proof.
  unfold Assembler.begin_way. rewrite report_muted.
  destruct (negb (Way.ends_have_same_id (WayPtr.deref way)));
    [rewrite report_muted|]; reflexivity.
Qed.

Lemma assemble_way_muted a log way out :
  Assembler.assemble_way (muted a log) way out
  = (muted (fst (Assembler.assemble_way a way out)) log,
     snd (Assembler.assemble_way a way out)).
Proof.
  unfold Assembler.assemble_way.
  rewrite begin_way_muted, create_rings_muted.
  destruct (Assembler.create_rings (Assembler.begin_way a way)) as [ok a4].
  reflexivity.
Qed.

Lemma assemble_inner_ways_muted config relation_members :
  forall members in_buffer area_tags reports log out,
    Assembler.assemble_inner_ways (make_config false (debug config))
      relation_members members in_buffer area_tags log out
    = (log,
       snd (Assembler.assemble_inner_ways config relation_members members
              in_buffer area_tags reports out)).
Proof.
  induction relation_members as [|memit rest IH];
    intros [|offset members] in_buffer area_tags reports log out;
    try reflexivity.
  cbn [Assembler.assemble_inner_ways].
  destruct (Assembler.inner_way_is_area _ _ _); [|apply IH].
  change (Assembler.create (make_config false (debug config)) log)
    with (muted (Assembler.create config reports) log).
  rewrite assemble_way_muted.
  destruct (Assembler.assemble_way (Assembler.create config reports) _ out)
    as [assembler' out'].
  cbn [fst snd muted Assembler.reporter]. apply IH.
Qed.

(** X13: the problem reporter is optional and has no say in the result.
    Both entry points do on an assembler with a null [problem_reporter] what
    they do on the same assembler with a reporter: the output buffer is the
    same afterwards and so is every member of the assembler, while the
    reporter object is left as it was. *)
Theorem problem_reporter_is_optional :
  (forall a log way out,
     Assembler.assemble_way (muted a log) way out
     = (muted (fst (Assembler.assemble_way a way out)) log,
        snd (Assembler.assemble_way a way out)))
  /\ (forall a log relation members in_buffer out,
        Assembler.assemble_relation (muted a log) relation members in_buffer out
        = (muted (fst (Assembler.assemble_relation a relation members
                         in_buffer out)) log,
           snd (Assembler.assemble_relation a relation members in_buffer out))).
Proof.
  split; [exact assemble_way_muted|].
  intros a log relation members in_buffer out.
  unfold Assembler.assemble_relation.
  assert (Hbegin :
    Assembler.begin_relation (muted a log) relation members in_buffer
    = muted (Assembler.begin_relation a relation members in_buffer) log).
  { unfold Assembler.begin_relation. now rewrite report_muted. }
  rewrite Hbegin, create_rings_muted.
  destruct (Assembler.create_rings
              (Assembler.begin_relation a relation members in_buffer))
    as [ok a3].
  cbn [fst snd].
  change (Assembler.m_inner_outer_mismatches (muted a3 log))
    with (Assembler.m_inner_outer_mismatches a3).
  change (Assembler.add_tags_to_area_relation (muted a3 log) relation)
    with (Assembler.add_tags_to_area_relation a3 relation).
  change (Assembler.add_rings_to_area (muted a3 log))
    with (Assembler.add_rings_to_area a3).
  destruct (Assembler.m_inner_outer_mismatches a3 =? 0)%Z; [|reflexivity].
  change (Assembler.m_config (muted a3 log))
    with (make_config false (debug (Assembler.m_config a3))).
  change (Assembler.reporter (muted a3 log)) with log.
  match goal with
  | |- context [Assembler.assemble_inner_ways (Assembler.m_config a3) ?rm ?m
                  ?ib ?tags ?r ?o] =>
      rewrite (assemble_inner_ways_muted (Assembler.m_config a3) rm m ib tags
                 r log o);
      destruct (Assembler.assemble_inner_ways (Assembler.m_config a3) rm m ib
                  tags r o) as [reports out2]
  end.
  reflexivity.
Qed.

(** ** The list of rings during the stitching *)

Lemma lookup_app_some rings rings' q r :
  Assembler.lookup rings q = Some r ->
  Assembler.lookup (rings ++ rings') q = Some r.
Proof.
  induction rings as [|[k r0] rest IH]; simpl; [discriminate|].
  destruct (k =? q); auto.
Qed.

Lemma lookup_app_none rings rings' q :
  Assembler.lookup rings q = None ->
  Assembler.lookup (rings ++ rings') q = Assembler.lookup rings' q.
Proof.
  induction rings as [|[k r0] rest IH]; simpl; auto.
  destruct (k =? q); [discriminate|auto].
Qed.

Lemma lookup_none rings q :
  Assembler.lookup rings q = None <-> ~ In q (map fst rings).
Proof.
  induction rings as [|[k r0] rest IH]; simpl; [tauto|].
  destruct (k =? q) eqn:E.
  - apply Nat.eqb_eq in E. subst k. split; [discriminate|tauto].
  - apply Nat.eqb_neq in E. tauto.
Qed.

Lemma In_lookup rings q r :
  NoDup (map fst rings) -> In (q, r) rings -> Assembler.lookup rings q = Some r.
Proof.
  induction rings as [|[k r0] rest IH]; simpl; [tauto|].
  intros Hnd [Heq|Hin]; inversion Hnd as [|? ? Hk Hrest]; subst.
  - injection Heq as -> ->. now rewrite Nat.eqb_refl.
  - destruct (k =? q) eqn:E; [|auto].
    apply Nat.eqb_eq in E. subst k. exfalso. apply Hk.
    apply in_map_iff. exists (q, r). auto.
Qed.

Lemma update_keys rings p f :
  map fst (Assembler.update rings p f) = map fst rings.
Proof.
  induction rings as [|[k r0] rest IH]; simpl; auto.
  destruct (k =? p); simpl; now rewrite ?IH.
Qed.

Lemma update_In rings p f e :
  In e (Assembler.update rings p f) ->
  In e rings \/ exists r, In (p, r) rings /\ e = (p, f r).
Proof.
  induction rings as [|[k r0] rest IH]; simpl; [tauto|].
  destruct (k =? p) eqn:E; simpl.
  - apply Nat.eqb_eq in E. subst k. intros [<-|H]; eauto.
  - intros [<-|H]; auto. destruct (IH H) as [H'|(r & H1 & H2)]; eauto.
Qed.

Lemma erase_keys rings p :
  map fst (filter (fun e : ring_ptr * ProtoRing.t => negb (fst e =? p)) rings)
  = filter (fun k => negb (k =? p)) (map fst rings).
Proof.
  induction rings as [|[k r0] rest IH]; simpl; auto.
  destruct (negb (k =? p)); simpl; now rewrite IH.
Qed.

Lemma lookup_erase rings p q :
  Assembler.lookup
    (filter (fun e : ring_ptr * ProtoRing.t => negb (fst e =? p)) rings) q
  = if q =? p then None else Assembler.lookup rings q.
Proof.
  induction rings as [|[k r0] rest IH]; simpl.
  - destruct (q =? p); reflexivity.
  - destruct (k =? p) eqn:Ekp; simpl.
    + rewrite IH. apply Nat.eqb_eq in Ekp. subst k.
      destruct (q =? p) eqn:Eqp; auto.
      rewrite Nat.eqb_sym, Eqp. reflexivity.
    + rewrite IH. destruct (k =? q) eqn:Ekq; auto.
      apply Nat.eqb_eq in Ekq. subst k. now rewrite Ekp.
Qed.

Lemma erase_absent rings p :
  ~ In p (map fst rings) ->
  filter (fun e : ring_ptr * ProtoRing.t => negb (fst e =? p)) rings = rings.
Proof.
  induction rings as [|[k r0] rest IH]; simpl; auto.
  intros H. destruct (k =? p) eqn:E.
  - apply Nat.eqb_eq in E. tauto.
  - simpl. f_equal. apply IH. tauto.
Qed.

Section Stitching.

(** A property of segments that does not depend on their direction. *)
Variable P : NodeRefSegment.t -> bool.
Hypothesis P_swap : forall s, P (NodeRefSegment.swap_locations s) = P s.

Local Abbreviation count := (count_segments P).

Lemma count_app l l' : count (l ++ l') = count l + count l'.
Proof. unfold count_segments. now rewrite filter_app, length_app. Qed.

Lemma count_reverse l :
  count (rev (map NodeRefSegment.swap_locations l)) = count l.
Proof.
  unfold count_segments. induction l as [|s l IH]; simpl; auto.
  rewrite filter_app, length_app, IH. simpl. rewrite P_swap.
  destruct (P s); simpl; lia.
Qed.

Lemma count_split l b e :
  b <= e ->
  count (firstn b l ++ skipn e l) + count (firstn (e - b) (skipn b l)) = count l.
Proof.
  intros Hbe.
  rewrite <- (firstn_skipn b l) at 4.
  rewrite <- (firstn_skipn (e - b) (skipn b l)) at 2.
  rewrite skipn_skipn. replace (e - b + b) with e by lia.
  rewrite !count_app. lia.
Qed.

(** The segments of a list of rings. *)
Local Abbreviation segments_of :=
  (flat_map (fun e : ring_ptr * ProtoRing.t => ProtoRing.segments (snd e))).

Lemma count_update rings p f r :
  Assembler.lookup rings p = Some r ->
  count (segments_of (Assembler.update rings p f)) + count (ProtoRing.segments r)
  = count (segments_of rings) + count (ProtoRing.segments (f r)).
Proof.
  induction rings as [|[k r0] rest IH]; simpl; [discriminate|].
  destruct (k =? p); simpl.
  - intros H. injection H as ->. rewrite !count_app. lia.
  - intros H. specialize (IH H). rewrite !count_app. lia.
Qed.

Lemma count_erase rings p r :
  NoDup (map fst rings) ->
  Assembler.lookup rings p = Some r ->
  count (segments_of
           (filter (fun e : ring_ptr * ProtoRing.t => negb (fst e =? p)) rings))
  + count (ProtoRing.segments r)
  = count (segments_of rings).
Proof.
  induction rings as [|[k r0] rest IH]; simpl; [discriminate|].
  intros Hnd. inversion Hnd as [|? ? Hk Hrest]; subst.
  destruct (k =? p) eqn:E; simpl.
  - intros H. injection H as ->. apply Nat.eqb_eq in E. subst k.
    rewrite (erase_absent rest p Hk), !count_app. lia.
  - intros H. specialize (IH Hrest H). rewrite !count_app. lia.
Qed.


(** The rings whose addresses the stitching must leave alone. *)
Variable protected : ring_ptr -> Prop.

Local Abbreviation keeps := (ring_step protected).
Local Abbreviation ready_for := (ready protected).
Local Abbreviation step := (stitch_step P protected).
Local Abbreviation steps := (stitches P protected).

Lemma ring_step_refl a t : ready_for t a -> keeps t a a.
Proof.
  intros (_ & _ & Hwf & Hv). refine (conj Hwf (conj Hv (conj _ _))); auto.
Qed.

Lemma ring_step_trans t a b c :
  keeps t a b -> keeps t b c -> keeps t a c.
Proof.
  intros (_ & _ & Hf1 & Hu1) (Hwf & Hv & Hf2 & Hu2).
  refine (conj Hwf (conj Hv (conj _ _))); auto.
Qed.

Lemma ready_step t a b : ready_for t a -> keeps t a b -> ready_for t b.
Proof.
  intros (Hnp & Hpc & _ & _) (Hwf & Hv & Hf & _).
  refine (conj Hnp (conj _ (conj Hwf Hv))).
  intros q Hq. destruct (Hpc q Hq) as (ring & Hl & Hc).
  exists ring. auto.
Qed.

Lemma not_protected_open a it r :
  protected_closed protected a ->
  Assembler.lookup (Assembler.m_rings a) it = Some r ->
  ProtoRing.closed r = false ->
  ~ protected it.
Proof.
  intros Hpc Hl Ho Hp. destruct (Hpc it Hp) as (ring & Hl' & Hc). congruence.
Qed.

(** A change of something other than the list of rings. *)
Lemma ring_step_same_rings a b t :
  Assembler.m_rings b = Assembler.m_rings a ->
  Assembler.next_address b = Assembler.next_address a ->
  ready_for t a -> keeps t a b.
Proof.
  intros Hr Hn (_ & _ & Hwf & Hv).
  unfold ring_step, distinct_addresses, valid, unclassified in *.
  rewrite Hr, Hn. refine (conj Hwf (conj Hv (conj _ _))); auto.
Qed.

Lemma has_same_location_rings a nr1 nr2 :
  Assembler.m_rings (snd (Assembler.has_same_location a nr1 nr2))
  = Assembler.m_rings a
  /\ Assembler.next_address (snd (Assembler.has_same_location a nr1 nr2))
     = Assembler.next_address a.
Proof.
  unfold Assembler.has_same_location, Assembler.report.
  destruct (negb (Location.eqb _ _)); [split; reflexivity|].
  destruct (negb (NodeRef.ref nr1 =? NodeRef.ref nr2)%Z); [|split; reflexivity].
  destruct (problem_reporter (Assembler.m_config a)); split; reflexivity.
Qed.

(** A change of a ring in place. *)
Lemma ring_step_modify a t p f :
  ~ protected p ->
  (forall r, Assembler.lookup (Assembler.m_rings a) p = Some r ->
             unclassified_ring r -> unclassified_ring (f r)) ->
  ready_for t a ->
  keeps t a (Assembler.modify_ring a p f).
Proof.
  intros Hp Hf (_ & _ & [Hnd Hb] & Hv).
  unfold ring_step, distinct_addresses, valid, unclassified,
    Assembler.modify_ring.
  cbn [Assembler.m_rings Assembler.with_rings Assembler.next_address].
  refine (conj (conj _ _) (conj _ (conj _ _))).
  - now rewrite update_keys.
  - rewrite Forall_forall in Hb |- *. intros e He.
    destruct (update_In _ _ _ _ He) as [H|(r & H & ->)]; [now apply Hb|].
    apply (Hb _ H).
  - rewrite lookup_update. destruct (t =? p) eqn:E; [|exact Hv].
    apply Nat.eqb_eq in E. subst p.
    unfold valid in Hv.
    destruct (Assembler.lookup (Assembler.m_rings a) t); [discriminate|tauto].
  - intros q ring Hq Hl. rewrite lookup_update.
    destruct (q =? p) eqn:E; [|exact Hl].
    apply Nat.eqb_eq in E. subst q. contradiction.
  - intros Hu. rewrite Forall_forall in Hu |- *. intros e He.
    destruct (update_In _ _ _ _ He) as [H|(r & H & ->)]; [now apply Hu|].
    apply Hf; [now apply In_lookup|]. apply (Hu _ H).
Qed.

(** [m_rings.erase(it)] for a ring other than the target. *)
Lemma ring_step_erase a t it :
  it <> t -> ~ protected it -> ready_for t a ->
  keeps t a (Assembler.erase a it).
Proof.
  intros Hit Hp (_ & _ & [Hnd Hb] & Hv).
  unfold ring_step, distinct_addresses, valid, unclassified,
    Assembler.erase.
  cbn [Assembler.m_rings Assembler.with_rings Assembler.next_address].
  refine (conj (conj _ _) (conj _ (conj _ _))).
  - rewrite erase_keys. now apply NoDup_filter.
  - rewrite Forall_forall in Hb |- *. intros e He.
    apply filter_In in He. now apply Hb.
  - rewrite lookup_erase.
    destruct (t =? it) eqn:E; [|exact Hv].
    apply Nat.eqb_eq in E. congruence.
  - intros q ring Hq Hlq. rewrite lookup_erase.
    destruct (q =? it) eqn:E; [|exact Hlq].
    apply Nat.eqb_eq in E. subst q. contradiction.
  - intros Hu. rewrite Forall_forall in Hu |- *. intros e He.
    apply filter_In in He. now apply Hu.
Qed.

(** [m_rings.push_back] of a ring made of segments. *)
Lemma ring_step_push_back a t r :
  unclassified_ring r -> ready_for t a ->
  keeps t a (Assembler.push_back a r).
Proof.
  intros Hr (_ & _ & [Hnd Hb] & Hv).
  unfold ring_step, distinct_addresses, valid, unclassified,
    Assembler.push_back.
  cbn [Assembler.m_rings Assembler.next_address].
  assert (Hfresh : ~ In (Assembler.next_address a)
                        (map fst (Assembler.m_rings a))).
  { intros Hin. apply in_map_iff in Hin. destruct Hin as (e & He & Hin).
    rewrite Forall_forall in Hb. specialize (Hb _ Hin). cbv beta in Hb.
    unfold ring_ptr in *. rewrite <- He in Hb. exact (Nat.lt_irrefl _ Hb). }
  refine (conj (conj _ _) (conj _ (conj _ _))).
  - rewrite map_app. simpl.
    apply Permutation_NoDup with (l := Assembler.next_address a
                                         :: map fst (Assembler.m_rings a)).
    + apply Permutation_cons_append.
    + now constructor.
  - apply Forall_app. split.
    + rewrite Forall_forall in Hb |- *. intros e He. specialize (Hb _ He).
      cbv beta in Hb. now apply Nat.lt_lt_succ_r.
    + repeat constructor.
  - unfold valid in Hv.
    destruct (Assembler.lookup (Assembler.m_rings a) t) as [r0|] eqn:E;
      [|tauto].
    now rewrite (lookup_app_some _ _ _ _ E).
  - intros q ring Hq Hl. now apply lookup_app_some.
  - intros Hu. apply Forall_app. split; [exact Hu|].
    constructor; [exact Hr|constructor].
Qed.

Lemma lookup_modify_ring a p f q :
  Assembler.lookup (Assembler.m_rings (Assembler.modify_ring a p f)) q
  = if q =? p then option_map f (Assembler.lookup (Assembler.m_rings a) p)
    else Assembler.lookup (Assembler.m_rings a) q.
Proof. apply lookup_update. Qed.

Lemma count_modify_ring a p f r :
  Assembler.lookup (Assembler.m_rings a) p = Some r ->
  count (ring_segments (Assembler.modify_ring a p f))
  + count (ProtoRing.segments r)
  = count (ring_segments a) + count (ProtoRing.segments (f r)).
Proof. apply count_update. Qed.

Lemma count_erase_ring a p r :
  distinct_addresses a ->
  Assembler.lookup (Assembler.m_rings a) p = Some r ->
  count (ring_segments (Assembler.erase a p)) + count (ProtoRing.segments r)
  = count (ring_segments a).
Proof. intros [Hnd _]. now apply count_erase. Qed.

Lemma count_push_back a r :
  count (ring_segments (Assembler.push_back a r))
  = count (ring_segments a) + count (ProtoRing.segments r).
Proof.
  unfold ring_segments, Assembler.push_back. cbn [Assembler.m_rings].
  rewrite flat_map_app, count_app. cbn [flat_map snd]. now rewrite app_nil_r.
Qed.

Lemma step_refl a t : ready_for t a -> step t 0 a a.
Proof.
  intros Hr. split; [now apply ring_step_refl|]. now rewrite Nat.add_0_r.
Qed.

Lemma step_trans t n m a b c :
  step t n a b -> step t m b c -> step t (n + m) a c.
Proof.
  intros [H1 E1] [H2 E2]. split; [exact (ring_step_trans _ _ _ _ H1 H2)|].
  rewrite E2, E1. now rewrite Nat.add_assoc.
Qed.

Lemma step_then t n a b c : step t n a b -> step t 0 b c -> step t n a c.
Proof.
  intros H1 H2. pose proof (step_trans _ _ _ _ _ _ H1 H2) as H.
  now rewrite Nat.add_0_r in H.
Qed.

Lemma step_after t n a b c : step t 0 a b -> step t n b c -> step t n a c.
Proof. intros H1 H2. exact (step_trans _ _ _ _ _ _ H1 H2). Qed.

Lemma ready_after t n a b : ready_for t a -> step t n a b -> ready_for t b.
Proof. intros Hr [H _]. exact (ready_step _ _ _ Hr H). Qed.

Lemma step_same_rings a b t :
  Assembler.m_rings b = Assembler.m_rings a ->
  Assembler.next_address b = Assembler.next_address a ->
  ready_for t a -> step t 0 a b.
Proof.
  intros Hr Hn Hready. split; [now apply ring_step_same_rings|].
  unfold ring_segments. now rewrite Hr, Nat.add_0_r.
Qed.

Lemma ready_lookup t a :
  ready_for t a ->
  exists r, Assembler.lookup (Assembler.m_rings a) t = Some r.
Proof.
  intros (_ & _ & _ & Hv). unfold valid in Hv.
  destruct (Assembler.lookup (Assembler.m_rings a) t) as [r|]; [eauto|tauto].
Qed.

Lemma ring_at_lookup a p r :
  Assembler.lookup (Assembler.m_rings a) p = Some r -> Assembler.ring_at a p = r.
Proof. unfold Assembler.ring_at. now intros ->. Qed.

Lemma unclassified_with_segments r l :
  unclassified_ring r -> unclassified_ring (ProtoRing.with_segments r l).
Proof. intros H. exact H. Qed.

(** A change of the segments of the target. *)
Lemma step_modify a t f n :
  (forall r, unclassified_ring r -> unclassified_ring (f r)) ->
  (forall r, count (ProtoRing.segments (f r))
             = count (ProtoRing.segments r) + n) ->
  ready_for t a ->
  step t n a (Assembler.modify_ring a t f).
Proof.
  intros Hf Hn Hready. split.
  - apply ring_step_modify; [apply Hready|auto|exact Hready].
  - destruct (ready_lookup _ _ Hready) as [r Hl].
    pose proof (count_modify_ring a t f r Hl) as Hc. rewrite Hn in Hc. lia.
Qed.

(** The segments from position [b] up to [e] become a ring of their own. *)
Lemma step_split a t b e :
  b <= e -> ready_for t a ->
  step t 0 a (Assembler.split_off_subring a t b e).
Proof.
  intros Hbe Hready. unfold Assembler.split_off_subring.
  destruct (ready_lookup _ _ Hready) as [r Hl].
  rewrite (ring_at_lookup _ _ _ Hl).
  set (a1 := Assembler.modify_ring a t
               (fun r0 => ProtoRing.remove_segments r0 b e)).
  assert (H1 : keeps t a a1).
  { apply ring_step_modify;
      [apply Hready|intros r0 _ H; exact H|exact Hready]. }
  assert (H2 : keeps t a1
                 (Assembler.push_back a1
                    (ProtoRing.of_range (ProtoRing.range r b e)))).
  { apply ring_step_push_back; [split; reflexivity|].
    exact (ready_step _ _ _ Hready H1). }
  split; [exact (ring_step_trans _ _ _ _ H1 H2)|].
  pose proof (count_modify_ring a t
                (fun r0 => ProtoRing.remove_segments r0 b e) r Hl) as Hc.
  fold a1 in Hc.
  pose proof (count_split (ProtoRing.segments r) _ _ Hbe) as Hs.
  rewrite count_push_back.
  cbn [ProtoRing.remove_segments ProtoRing.with_segments ProtoRing.segments
       ProtoRing.of_range] in *.
  unfold ProtoRing.range. lia.
Qed.

(** The ring at [it] is appended to the target in some way and erased. *)
Lemma step_merge a t it it_ring f :
  it <> t ->
  Assembler.lookup (Assembler.m_rings a) it = Some it_ring ->
  ProtoRing.closed it_ring = false ->
  (forall r, unclassified_ring r -> unclassified_ring (f r)) ->
  (forall r, count (ProtoRing.segments (f r))
             = count (ProtoRing.segments r)
               + count (ProtoRing.segments it_ring)) ->
  ready_for t a ->
  step t 0 a (Assembler.erase (Assembler.modify_ring a t f) it).
Proof.
  intros Hit Hl Ho Hf Hn Hready.
  assert (Hnp : ~ protected it).
  { apply (not_protected_open _ _ _ (proj1 (proj2 Hready)) Hl Ho). }
  set (a1 := Assembler.modify_ring a t f).
  assert (H1 : keeps t a a1).
  { apply ring_step_modify; [apply Hready|auto|exact Hready]. }
  assert (H2 : keeps t a1 (Assembler.erase a1 it)).
  { apply ring_step_erase; auto. exact (ready_step _ _ _ Hready H1). }
  split; [exact (ring_step_trans _ _ _ _ H1 H2)|].
  destruct (ready_lookup _ _ Hready) as [r Hlt].
  pose proof (count_modify_ring a t f r Hlt) as Hc. rewrite Hn in Hc.
  fold a1 in Hc.
  assert (Hl1 : Assembler.lookup (Assembler.m_rings a1) it = Some it_ring).
  { unfold a1. rewrite lookup_modify_ring.
    apply Nat.eqb_neq in Hit. now rewrite Hit. }
  pose proof (count_erase_ring a1 it it_ring (proj1 H1) Hl1) as He.
  lia.
Qed.

(** The target and the ring at [it] exchange their segments, the ring at
    [it] is appended to the target and erased. *)
Lemma step_swap_merge a t it it_ring :
  it <> t ->
  Assembler.lookup (Assembler.m_rings a) it = Some it_ring ->
  ProtoRing.closed it_ring = false ->
  ready_for t a ->
  step t 0 a
    (Assembler.erase
       (Assembler.modify_ring (Assembler.swap_segments a t it) t
          (fun r => ProtoRing.merge_ring r
                      (Assembler.ring_at (Assembler.swap_segments a t it) it)))
       it).
Proof.
  intros Hit Hl Ho Hready.
  assert (Hnp : ~ protected it).
  { apply (not_protected_open _ _ _ (proj1 (proj2 Hready)) Hl Ho). }
  assert (Hnt : ~ protected t) by apply Hready.
  destruct (ready_lookup _ _ Hready) as [r Hlt].
  assert (Eit : (it =? t) = false) by now apply Nat.eqb_neq.
  assert (Eti : (t =? it) = false) by (rewrite Nat.eqb_sym; exact Eit).
  unfold Assembler.swap_segments.
  rewrite (ring_at_lookup _ _ _ Hlt), (ring_at_lookup _ _ _ Hl).
  cbn [ProtoRing.swap_segments].
  set (r' := ProtoRing.with_segments r (ProtoRing.segments it_ring)).
  set (it' := ProtoRing.with_segments it_ring (ProtoRing.segments r)).
  set (a1 := Assembler.modify_ring a t (fun _ => r')).
  set (a2 := Assembler.modify_ring a1 it (fun _ => it')).
  assert (L1i : Assembler.lookup (Assembler.m_rings a1) it = Some it_ring).
  { unfold a1. now rewrite lookup_modify_ring, Eit. }
  assert (L2t : Assembler.lookup (Assembler.m_rings a2) t = Some r').
  { unfold a2. rewrite lookup_modify_ring, Eti.
    unfold a1. now rewrite lookup_modify_ring, Nat.eqb_refl, Hlt. }
  assert (L2i : Assembler.lookup (Assembler.m_rings a2) it = Some it').
  { unfold a2. now rewrite lookup_modify_ring, Nat.eqb_refl, L1i. }
  rewrite (ring_at_lookup _ _ _ L2i).
  set (a3 := Assembler.modify_ring a2 t (fun r0 => ProtoRing.merge_ring r0 it')).
  assert (L3i : Assembler.lookup (Assembler.m_rings a3) it = Some it').
  { unfold a3. now rewrite lookup_modify_ring, Eit. }
  assert (H1 : keeps t a a1).
  { apply ring_step_modify; auto. intros r0 Hr0 Hu.
    assert (r0 = r) by congruence. subst r0. exact Hu. }
  pose proof (ready_step _ _ _ Hready H1) as R1.
  assert (H2 : keeps t a1 a2).
  { apply ring_step_modify; auto. intros r0 Hr0 Hu.
    assert (r0 = it_ring) by congruence. subst r0. exact Hu. }
  pose proof (ready_step _ _ _ R1 H2) as R2.
  assert (H3 : keeps t a2 a3).
  { apply ring_step_modify; auto. }
  pose proof (ready_step _ _ _ R2 H3) as R3.
  assert (H4 : keeps t a3 (Assembler.erase a3 it)).
  { apply ring_step_erase; auto. }
  split.
  - exact (ring_step_trans _ _ _ _
             (ring_step_trans _ _ _ _ (ring_step_trans _ _ _ _ H1 H2) H3) H4).
  - pose proof (count_modify_ring a t (fun _ => r') r Hlt) as C1.
    pose proof (count_modify_ring a1 it (fun _ => it') it_ring L1i) as C2.
    pose proof (count_modify_ring a2 t
                  (fun r0 => ProtoRing.merge_ring r0 it') r' L2t) as C3.
    pose proof (count_erase_ring a3 it it' (proj1 H3) L3i) as C4.
    fold a1 in C1. fold a2 in C2. fold a3 in C3.
    unfold r', it' in C1, C2, C3, C4.
    cbn [ProtoRing.merge_ring ProtoRing.with_segments ProtoRing.segments]
      in C1, C2, C3, C4.
    rewrite count_app in C3. lia.
Qed.

(** Names the result of the next call of [has_same_location] in the goal,
    with the fact that the list of rings is as before. *)
Ltac probe same a' Hr Hn :=
  match goal with
  | |- context [Assembler.has_same_location ?a ?x ?y] =>
      generalize (has_same_location_rings a x y);
      destruct (Assembler.has_same_location a x y) as [same a'];
      cbn [fst snd]; intros [Hr Hn]
  end.

Lemma step_possibly_combine_rings_back_loop ring nr its :
  forall a,
    (forall it r, In (it, r) its ->
                  Assembler.lookup (Assembler.m_rings a) it = Some r) ->
    ready_for ring a ->
    step ring 0 a
      (snd (Assembler.possibly_combine_rings_back_loop ring nr its a)).
Proof.
  induction its as [|[it it_ring] rest IH]; intros a Hsnap Hready;
    cbn [Assembler.possibly_combine_rings_back_loop].
  - now apply step_refl.
  - assert (Hrest : forall it0 r, In (it0, r) rest ->
                      Assembler.lookup (Assembler.m_rings a) it0 = Some r)
      by (intros; apply Hsnap; now right).
    pose proof (Hsnap it it_ring (or_introl eq_refl)) as Hl.
    destruct (negb (it =? ring) && negb (ProtoRing.closed it_ring)) eqn:E;
      [|now apply IH].
    apply andb_true_iff in E. destruct E as [E1 E2].
    apply negb_true_iff in E1, E2. apply Nat.eqb_neq in E1.
    probe same1 a1 Hr1 Hn1.
    assert (S1 : step ring 0 a a1) by now apply step_same_rings.
    pose proof (ready_after _ _ _ _ Hready S1) as R1.
    assert (Hl1 : Assembler.lookup (Assembler.m_rings a1) it = Some it_ring)
      by now rewrite Hr1.
    destruct same1; cbn [snd].
    + rewrite (ring_at_lookup _ _ _ Hl1).
      apply (step_after _ _ _ _ _ S1).
      apply (step_merge a1 ring it it_ring); auto.
      intros r. cbn [ProtoRing.merge_ring ProtoRing.with_segments
                     ProtoRing.segments]. apply count_app.
    + probe same2 a2 Hr2 Hn2.
      assert (S2 : step ring 0 a1 a2) by now apply step_same_rings.
      pose proof (ready_after _ _ _ _ R1 S2) as R2.
      assert (Hl2 : Assembler.lookup (Assembler.m_rings a2) it = Some it_ring)
        by now rewrite Hr2.
      pose proof (step_after _ _ _ _ _ S1 S2) as S12.
      destruct same2; cbn [snd].
      * rewrite (ring_at_lookup _ _ _ Hl2).
        apply (step_after _ _ _ _ _ S12).
        apply (step_merge a2 ring it it_ring); auto.
        intros r. cbn [ProtoRing.merge_ring_reverse ProtoRing.reverse
                       ProtoRing.with_segments ProtoRing.segments].
        now rewrite count_app, count_reverse.
      * apply (step_after _ _ _ _ _ S12). apply IH; [|exact R2].
        intros it0 r0 Hin. rewrite Hr2, Hr1. now apply Hrest.
Qed.

Lemma step_possibly_combine_rings_front_loop ring nr its :
  forall a,
    (forall it r, In (it, r) its ->
                  Assembler.lookup (Assembler.m_rings a) it = Some r) ->
    ready_for ring a ->
    step ring 0 a
      (snd (Assembler.possibly_combine_rings_front_loop ring nr its a)).
Proof.
  induction its as [|[it it_ring] rest IH]; intros a Hsnap Hready;
    cbn [Assembler.possibly_combine_rings_front_loop].
  - now apply step_refl.
  - assert (Hrest : forall it0 r, In (it0, r) rest ->
                      Assembler.lookup (Assembler.m_rings a) it0 = Some r)
      by (intros; apply Hsnap; now right).
    pose proof (Hsnap it it_ring (or_introl eq_refl)) as Hl.
    destruct (negb (it =? ring) && negb (ProtoRing.closed it_ring)) eqn:E;
      [|now apply IH].
    apply andb_true_iff in E. destruct E as [E1 E2].
    apply negb_true_iff in E1, E2. apply Nat.eqb_neq in E1.
    probe same1 a1 Hr1 Hn1.
    assert (S1 : step ring 0 a a1) by now apply step_same_rings.
    pose proof (ready_after _ _ _ _ Hready S1) as R1.
    assert (Hl1 : Assembler.lookup (Assembler.m_rings a1) it = Some it_ring)
      by now rewrite Hr1.
    destruct same1; cbn [snd].
    + apply (step_after _ _ _ _ _ S1).
      now apply (step_swap_merge a1 ring it it_ring).
    + probe same2 a2 Hr2 Hn2.
      assert (S2 : step ring 0 a1 a2) by now apply step_same_rings.
      pose proof (ready_after _ _ _ _ R1 S2) as R2.
      assert (Hl2 : Assembler.lookup (Assembler.m_rings a2) it = Some it_ring)
        by now rewrite Hr2.
      pose proof (step_after _ _ _ _ _ S1 S2) as S12.
      destruct same2; cbn [snd].
      * set (a3 := Assembler.modify_ring a2 ring ProtoRing.reverse).
        assert (S3 : step ring 0 a2 a3).
        { apply step_modify; auto. intros r.
          cbn [ProtoRing.reverse ProtoRing.with_segments ProtoRing.segments].
          now rewrite count_reverse, Nat.add_0_r. }
        pose proof (ready_after _ _ _ _ R2 S3) as R3.
        assert (Hl3 : Assembler.lookup (Assembler.m_rings a3) it = Some it_ring).
        { unfold a3. rewrite lookup_modify_ring.
          apply Nat.eqb_neq in E1. now rewrite E1. }
        rewrite (ring_at_lookup _ _ _ Hl3).
        apply (step_after _ _ _ _ _ (step_after _ _ _ _ _ S12 S3)).
        apply (step_merge a3 ring it it_ring); auto.
        intros r. cbn [ProtoRing.merge_ring ProtoRing.with_segments
                       ProtoRing.segments]. apply count_app.
      * apply (step_after _ _ _ _ _ S12). apply IH; [|exact R2].
        intros it0 r0 Hin. rewrite Hr2, Hr1. now apply Hrest.
Qed.

Lemma In_firstn {A : Type} (x : A) n l : In x (firstn n l) -> In x l.
Proof.
  intros H. rewrite <- (firstn_skipn n l). apply in_or_app. now left.
Qed.

Lemma In_skipn {A : Type} (x : A) n l : In x (skipn n l) -> In x l.
Proof.
  intros H. rewrite <- (firstn_skipn n l). apply in_or_app. now right.
Qed.

Lemma inner_positions_bound l it s :
  In (it, s) (Assembler.inner_positions l) -> it < length l.
Proof.
  unfold Assembler.inner_positions. intros H.
  apply In_firstn, In_skipn, in_combine_l, in_seq in H. lia.
Qed.

Lemma step_has_closed_subring_back_loop ring nr its end_ :
  forall a,
    (forall it s, In (it, s) its -> it <= end_) ->
    ready_for ring a ->
    step ring 0 a
      (snd (Assembler.has_closed_subring_back_loop ring nr its end_ a)).
Proof.
  induction its as [|[it segment] rest IH]; intros a Hits Hready;
    cbn [Assembler.has_closed_subring_back_loop].
  - now apply step_refl.
  - probe same a1 Hr1 Hn1.
    assert (S1 : step ring 0 a a1) by now apply step_same_rings.
    pose proof (ready_after _ _ _ _ Hready S1) as R1.
    apply (step_after _ _ _ _ _ S1).
    destruct same; cbn [snd].
    + apply step_split; [|exact R1]. apply (Hits it segment). now left.
    + apply IH; [|exact R1]. intros it0 s0 Hin. apply (Hits it0 s0). now right.
Qed.

Lemma step_has_closed_subring_back a ring nr :
  ready_for ring a ->
  step ring 0 a (snd (Assembler.has_closed_subring_back a ring nr)).
Proof.
  intros Hready. unfold Assembler.has_closed_subring_back.
  destruct (length _ <? 3); [now apply step_refl|].
  apply step_has_closed_subring_back_loop; [|exact Hready].
  intros it s Hin. apply inner_positions_bound in Hin. lia.
Qed.

Lemma step_has_closed_subring_front_loop ring nr its :
  forall a,
    ready_for ring a ->
    step ring 0 a
      (snd (Assembler.has_closed_subring_front_loop ring nr its a)).
Proof.
  induction its as [|[it segment] rest IH]; intros a Hready;
    cbn [Assembler.has_closed_subring_front_loop].
  - now apply step_refl.
  - probe same a1 Hr1 Hn1.
    assert (S1 : step ring 0 a a1) by now apply step_same_rings.
    pose proof (ready_after _ _ _ _ Hready S1) as R1.
    apply (step_after _ _ _ _ _ S1).
    destruct same; cbn [snd].
    + apply step_split; [lia|exact R1].
    + now apply IH.
Qed.

Lemma step_has_closed_subring_front a ring nr :
  ready_for ring a ->
  step ring 0 a (snd (Assembler.has_closed_subring_front a ring nr)).
Proof.
  intros Hready. unfold Assembler.has_closed_subring_front.
  destruct (length _ <? 3); [now apply step_refl|].
  now apply step_has_closed_subring_front_loop.
Qed.

Lemma adjacent_find_rings segments :
  forall a,
    Assembler.m_rings (snd (Assembler.adjacent_find segments a))
    = Assembler.m_rings a
    /\ Assembler.next_address (snd (Assembler.adjacent_find segments a))
       = Assembler.next_address a.
Proof.
  induction segments as [|s1 rest IH]; intros a; [split; reflexivity|].
  destruct rest as [|s2 rest]; [split; reflexivity|].
  cbn [Assembler.adjacent_find].
  probe same a1 Hr1 Hn1.
  destruct same; cbn [snd]; [split; assumption|].
  destruct (IH a1) as [H1 H2]. cbn [Assembler.adjacent_find] in H1, H2.
  split; congruence.
Qed.

Lemma step_check_for_closed_subring a ring :
  ready_for ring a ->
  step ring 0 a (snd (Assembler.check_for_closed_subring a ring)).
Proof.
  intros Hready. unfold Assembler.check_for_closed_subring.
  match goal with
  | |- context [Assembler.adjacent_find ?l a] =>
      generalize (adjacent_find_rings l a);
      destruct (Assembler.adjacent_find l a) as [[[s1 s2]|] a1];
      cbn [fst snd]; intros [Hr1 Hn1]
  end.
  - assert (S1 : step ring 0 a a1) by now apply step_same_rings.
    pose proof (ready_after _ _ _ _ Hready S1) as R1.
    apply (step_after _ _ _ _ _ S1).
    match goal with
    | |- context [if ?c then _ else _] => destruct c eqn:E
    end; cbn [fst snd].
    + apply Nat.ltb_lt in E. apply (step_split a1 ring); [lia|exact R1].
    + apply Nat.ltb_ge in E. apply (step_split a1 ring); [lia|exact R1].
  - now apply step_same_rings.
Qed.

Lemma step_combine_rings_back a segment ring :
  ready_for ring a ->
  step ring (count [segment]) a (Assembler.combine_rings_back a segment ring).
Proof.
  intros Hready. unfold Assembler.combine_rings_back.
  set (a1 := Assembler.modify_ring a ring
               (fun r => ProtoRing.add_segment_back r segment)).
  assert (S1 : step ring (count [segment]) a a1).
  { apply step_modify; auto. intros r.
    cbn [ProtoRing.add_segment_back ProtoRing.with_segments
         ProtoRing.segments]. apply count_app. }
  pose proof (ready_after _ _ _ _ Hready S1) as R1.
  pose proof (step_has_closed_subring_back a1 ring
                (NodeRefSegment.second segment) R1) as S2.
  destruct (Assembler.has_closed_subring_back a1 ring _) as [found a2].
  cbn [snd] in S2.
  pose proof (ready_after _ _ _ _ R1 S2) as R2.
  unfold Assembler.possibly_combine_rings_back.
  pose proof (step_possibly_combine_rings_back_loop ring
                (NodeRefSegment.second
                   (ProtoRing.get_segment_back (Assembler.ring_at a2 ring)))
                (Assembler.m_rings a2) a2) as S3.
  destruct (Assembler.possibly_combine_rings_back_loop ring _ _ a2)
    as [combined a3].
  cbn [snd] in S3.
  assert (S3' : step ring 0 a2 a3).
  { apply S3; [|exact R2]. intros it r. apply In_lookup. apply R2. }
  pose proof (ready_after _ _ _ _ R2 S3') as R3.
  pose proof (step_then _ _ _ _ _ (step_then _ _ _ _ _ S1 S2) S3') as S13.
  destruct combined; [|exact S13].
  apply (step_then _ _ _ _ _ S13).
  now apply step_check_for_closed_subring.
Qed.

Lemma step_combine_rings_front a segment ring :
  ready_for ring a ->
  step ring (count [segment]) a (Assembler.combine_rings_front a segment ring).
Proof.
  intros Hready. unfold Assembler.combine_rings_front.
  set (a1 := Assembler.modify_ring a ring
               (fun r => ProtoRing.add_segment_front r segment)).
  assert (S1 : step ring (count [segment]) a a1).
  { apply step_modify; auto. intros r.
    cbn [ProtoRing.add_segment_front ProtoRing.with_segments
         ProtoRing.segments].
    change (segment :: ProtoRing.segments r)
      with ([segment] ++ ProtoRing.segments r).
    rewrite count_app. lia. }
  pose proof (ready_after _ _ _ _ Hready S1) as R1.
  pose proof (step_has_closed_subring_front a1 ring
                (NodeRefSegment.first segment) R1) as S2.
  destruct (Assembler.has_closed_subring_front a1 ring _) as [found a2].
  cbn [snd] in S2.
  pose proof (ready_after _ _ _ _ R1 S2) as R2.
  unfold Assembler.possibly_combine_rings_front.
  pose proof (step_possibly_combine_rings_front_loop ring
                (NodeRefSegment.first
                   (ProtoRing.get_segment_front (Assembler.ring_at a2 ring)))
                (Assembler.m_rings a2) a2) as S3.
  destruct (Assembler.possibly_combine_rings_front_loop ring _ _ a2)
    as [combined a3].
  cbn [snd] in S3.
  assert (S3' : step ring 0 a2 a3).
  { apply S3; [|exact R2]. intros it r. apply In_lookup. apply R2. }
  pose proof (ready_after _ _ _ _ R2 S3') as R3.
  pose proof (step_then _ _ _ _ _ (step_then _ _ _ _ _ S1 S2) S3') as S13.
  destruct combined; [|exact S13].
  apply (step_then _ _ _ _ _ S13).
  now apply step_check_for_closed_subring.
Qed.

Lemma steps_refl a :
  protected_closed protected a -> distinct_addresses a -> steps 0 a a.
Proof.
  intros Hpc Hwf. refine (conj Hwf (conj Hpc (conj _ (conj _ _)))); auto.
Qed.

Lemma steps_trans n m a b c : steps n a b -> steps m b c -> steps (n + m) a c.
Proof.
  intros (_ & _ & E1 & F1 & U1) (Hwf & Hpc & E2 & F2 & U2).
  refine (conj Hwf (conj Hpc (conj _ (conj _ _)))); auto.
  rewrite E2, E1. now rewrite Nat.add_assoc.
Qed.

Lemma steps_of_step t n a b : ready_for t a -> step t n a b -> steps n a b.
Proof.
  intros Hready [Hk E]. pose proof (ready_step _ _ _ Hready Hk) as Hb.
  destruct Hk as (Hwf & _ & F & U).
  exact (conj Hwf (conj (proj1 (proj2 Hb)) (conj E (conj F U)))).
Qed.

Lemma steps_same_rings_l n a a1 b :
  Assembler.m_rings a1 = Assembler.m_rings a -> steps n a1 b -> steps n a b.
Proof.
  intros Hr. unfold stitches, ring_segments, unclassified.
  now rewrite Hr.
Qed.

Lemma steps_push_back a r :
  unclassified_ring r ->
  protected_closed protected a -> distinct_addresses a ->
  steps (count (ProtoRing.segments r)) a (Assembler.push_back a r).
Proof.
  intros Hr Hpc [Hnd Hb].
  assert (Hfresh : ~ In (Assembler.next_address a)
                        (map fst (Assembler.m_rings a))).
  { intros Hin. apply in_map_iff in Hin. destruct Hin as (e & He & Hin).
    rewrite Forall_forall in Hb. specialize (Hb _ Hin). cbv beta in Hb.
    unfold ring_ptr in *. rewrite <- He in Hb. exact (Nat.lt_irrefl _ Hb). }
  refine (conj (conj _ _) (conj _ (conj _ (conj _ _)))).
  - unfold Assembler.push_back. cbn [Assembler.m_rings]. rewrite map_app.
    apply Permutation_NoDup with (l := Assembler.next_address a
                                         :: map fst (Assembler.m_rings a)).
    + apply Permutation_cons_append.
    + now constructor.
  - unfold Assembler.push_back.
    cbn [Assembler.m_rings Assembler.next_address].
    apply Forall_app. split.
    + rewrite Forall_forall in Hb |- *. intros e He. specialize (Hb _ He).
      cbv beta in Hb. now apply Nat.lt_lt_succ_r.
    + repeat constructor.
  - intros q Hq. destruct (Hpc q Hq) as (ring & Hl & Hc). exists ring.
    split; [|exact Hc]. unfold Assembler.push_back. cbn [Assembler.m_rings].
    now apply lookup_app_some.
  - apply count_push_back.
  - intros q ring _ Hl. unfold Assembler.push_back. cbn [Assembler.m_rings].
    now apply lookup_app_some.
  - intros Hu. unfold unclassified, Assembler.push_back.
    cbn [Assembler.m_rings]. apply Forall_app. split; [exact Hu|].
    constructor; [exact Hr|constructor].
Qed.

Lemma count_swap s : count [NodeRefSegment.swap_locations s] = count [s].
Proof.
  unfold count_segments. cbn [filter]. rewrite P_swap.
  destruct (P s); reflexivity.
Qed.

(** A segment attached to the ring at [p] of an assembler whose rings are
    those of [a]. *)
Lemma steps_attach a ak p n res :
  Assembler.m_rings ak = Assembler.m_rings a ->
  Assembler.next_address ak = Assembler.next_address a ->
  ready_for p a ->
  (ready_for p ak -> step p n ak res) ->
  steps n a res.
Proof.
  intros Hr Hn Hready Hstep.
  assert (S1 : step p 0 a ak) by now apply step_same_rings.
  apply (steps_of_step p); [exact Hready|].
  apply (step_after _ _ _ _ _ S1). apply Hstep.
  exact (ready_after _ _ _ _ Hready S1).
Qed.

Lemma steps_add_to_existing_ring_loop rings segment :
  forall a,
    (forall p r, In (p, r) rings ->
                 Assembler.lookup (Assembler.m_rings a) p = Some r) ->
    protected_closed protected a -> distinct_addresses a ->
    steps (if fst (Assembler.add_to_existing_ring_loop rings segment a)
           then count [segment] else 0)
          a (snd (Assembler.add_to_existing_ring_loop rings segment a)).
Proof.
  induction rings as [|[p ring] rest IH]; intros a Hsnap Hpc Hwf;
    cbn [Assembler.add_to_existing_ring_loop].
  - cbn [fst snd]. now apply steps_refl.
  - assert (Hrest : forall q r, In (q, r) rest ->
                      Assembler.lookup (Assembler.m_rings a) q = Some r)
      by (intros; apply Hsnap; now right).
    pose proof (Hsnap p ring (or_introl eq_refl)) as Hl.
    destruct (ProtoRing.closed ring) eqn:Ec; [now apply IH|].
    assert (Hready : ready_for p a).
    { refine (conj _ (conj Hpc (conj Hwf _))).
      - exact (not_protected_open _ _ _ Hpc Hl Ec).
      - unfold valid. rewrite Hl. discriminate. }
    probe same1 a1 Hr1 Hn1.
    destruct same1; cbn [fst snd].
    { apply (steps_attach a a1 p); auto.
      intros R. now apply step_combine_rings_back. }
    probe same2 a2 Hr2 Hn2. rewrite Hr1 in Hr2. rewrite Hn1 in Hn2.
    destruct same2; cbn [fst snd].
    { rewrite <- (count_swap segment). apply (steps_attach a a2 p); auto.
      intros R. now apply step_combine_rings_back. }
    probe same3 a3 Hr3 Hn3. rewrite Hr2 in Hr3. rewrite Hn2 in Hn3.
    destruct same3; cbn [fst snd].
    { rewrite <- (count_swap segment). apply (steps_attach a a3 p); auto.
      intros R. now apply step_combine_rings_front. }
    probe same4 a4 Hr4 Hn4. rewrite Hr3 in Hr4. rewrite Hn3 in Hn4.
    destruct same4; cbn [fst snd].
    { apply (steps_attach a a4 p); auto.
      intros R. now apply step_combine_rings_front. }
    apply (steps_same_rings_l _ a a4); [exact Hr4|].
    apply IH.
    + intros q r Hin. rewrite Hr4. now apply Hrest.
    + intros q Hq. rewrite Hr4. now apply Hpc.
    + unfold distinct_addresses. rewrite Hr4, Hn4. exact Hwf.
Qed.

Lemma steps_add_segments segments :
  forall a,
    protected_closed protected a -> distinct_addresses a ->
    steps (count segments) a (Assembler.add_segments segments a).
Proof.
  induction segments as [|segment rest IH]; intros a Hpc Hwf;
    cbn [Assembler.add_segments].
  - now apply steps_refl.
  - unfold Assembler.add_to_existing_ring.
    pose proof (steps_add_to_existing_ring_loop (Assembler.m_rings a) segment a)
      as S1.
    destruct (Assembler.add_to_existing_ring_loop (Assembler.m_rings a)
                segment a) as [added a1].
    cbn [fst snd] in S1.
    assert (S1' : steps (if added then count [segment] else 0) a a1).
    { apply S1; auto. intros p r. apply In_lookup. apply Hwf. }
    change (segment :: rest) with ([segment] ++ rest). rewrite count_app.
    destruct added.
    + apply (steps_trans _ _ _ _ _ S1'). apply IH; apply S1'.
    + pose proof (steps_push_back a1 (ProtoRing.of_segment segment)
                    (conj eq_refl eq_refl) (proj1 (proj2 S1')) (proj1 S1'))
        as S2.
      cbn [ProtoRing.of_segment ProtoRing.segments] in S2.
      pose proof (steps_trans _ _ _ _ _ S1' S2) as S12. cbn [Nat.add] in S12.
      apply (steps_trans _ _ _ _ _ S12). apply IH; apply S2.
Qed.

End Stitching.

(** X14: the stitching leaves closed rings alone.  Once a ring of the list
    is closed, neither [add_to_existing_ring] nor the whole loop over the
    segments extends it, merges it with another ring, splits it or erases
    it: the pointer points to the same ring afterwards. *)
Theorem closed_rings_are_left_alone :
  forall a,
    distinct_addresses a ->
    forall p ring,
      Assembler.lookup (Assembler.m_rings a) p = Some ring ->
      ProtoRing.closed ring = true ->
      (forall segment,
         Assembler.lookup
           (Assembler.m_rings (snd (Assembler.add_to_existing_ring a segment))) p
         = Some ring)
      /\ (forall segments,
            Assembler.lookup
              (Assembler.m_rings (Assembler.add_segments segments a)) p
            = Some ring).
Proof.
  intros a Hwf p ring Hl Hc.
  set (protected := fun q =>
         exists r, Assembler.lookup (Assembler.m_rings a) q = Some r
                   /\ ProtoRing.closed r = true).
  assert (Hpc : protected_closed protected a) by (intros q Hq; exact Hq).
  assert (Hp : protected p) by (exists ring; auto).
  split.
  - intros segment. unfold Assembler.add_to_existing_ring.
    destruct (steps_add_to_existing_ring_loop (fun _ => true)
                (fun _ => eq_refl) protected (Assembler.m_rings a) segment a)
      as (_ & _ & _ & F & _); auto.
    intros q r. apply In_lookup. apply Hwf.
  - intros segments.
    destruct (steps_add_segments (fun _ => true) (fun _ => eq_refl) protected
                segments a Hpc Hwf) as (_ & _ & _ & F & _).
    auto.
Qed.

(** The rings the square of scenario 1 is stitched to, and the segments of
    the triangle of scenario 2 added to them. *)
Lemma closed_rings_are_left_alone_witness :
  let a :=
    Assembler.stitched
      (Assembler.begin_way Examples.fresh (WayPtr.make 0 Examples.square)) in
  let segments :=
    SegmentList.segments_of_nodes (Way.nodes Examples.hole) "inner"
                                  (WayPtr.make 1 Examples.hole) in
  distinct_addresses a
  /\ ProtoRing.closed (Assembler.ring_at a 0) = true
  /\ Assembler.lookup (Assembler.m_rings (Assembler.add_segments segments a)) 0
     = Assembler.lookup (Assembler.m_rings a) 0.
Proof.
  set (a := Assembler.stitched
              (Assembler.begin_way Examples.fresh
                 (WayPtr.make 0 Examples.square))).
  assert (Hwf : distinct_addresses a).
  { split; vm_compute; repeat constructor. intros []. }
  assert (Hl : Assembler.lookup (Assembler.m_rings a) 0
               = Some (Assembler.ring_at a 0)) by reflexivity.
  assert (Hc : ProtoRing.closed (Assembler.ring_at a 0) = true)
    by reflexivity.
  cbn zeta. split; [exact Hwf|]. split; [exact Hc|].
  rewrite Hl.
  exact (proj2 (closed_rings_are_left_alone a Hwf 0 _ Hl Hc) _).
Defined.

(** ** Every segment ends up in one ring *)

Section Conservation.

Variable P : NodeRefSegment.t -> bool.
Hypothesis P_swap : forall s, P (NodeRefSegment.swap_locations s) = P s.

Lemma count_modify_same a p f :
  (forall r, count_segments P (ProtoRing.segments (f r))
             = count_segments P (ProtoRing.segments r)) ->
  count_segments P (ring_segments (Assembler.modify_ring a p f))
  = count_segments P (ring_segments a).
Proof.
  intros Hf. unfold ring_segments, Assembler.modify_ring.
  cbn [Assembler.m_rings Assembler.with_rings].
  induction (Assembler.m_rings a) as [|[k r] rest IH]; [reflexivity|].
  cbn [Assembler.update]. destruct (k =? p); cbn [flat_map snd].
  - now rewrite !count_app, Hf.
  - now rewrite !count_app, IH.
Qed.

Lemma count_classify_ring a p :
  count_segments P (ring_segments (Assembler.classify_ring a p))
  = count_segments P (ring_segments a).
Proof.
  unfold Assembler.classify_ring.
  assert (H1 : count_segments P
                 (ring_segments (Assembler.check_inner_outer a p))
               = count_segments P (ring_segments a)).
  { apply count_modify_same. intros r.
    now rewrite check_inner_outer_ring_segments. }
  assert (Hrev : forall b,
            count_segments P
              (ring_segments (Assembler.modify_ring b p ProtoRing.reverse))
            = count_segments P (ring_segments b)).
  { intros b. apply count_modify_same. intros r.
    apply count_reverse. exact P_swap. }
  set (a1 := Assembler.check_inner_outer a p) in *.
  destruct (ProtoRing.outer (Assembler.ring_at a1 p)).
  - destruct (negb (ProtoRing.is_cw (Assembler.ring_at a1 p)));
      unfold ring_segments in *;
      cbn [Assembler.with_outer_rings Assembler.m_rings];
      [rewrite <- H1; apply Hrev|exact H1].
  - destruct (ProtoRing.is_cw (Assembler.ring_at a1 p));
      unfold ring_segments in *;
      cbn [Assembler.with_inner_rings Assembler.m_rings];
      [rewrite <- H1; apply Hrev|exact H1].
Qed.

Lemma count_fold_left {A : Type} (f : Assembler.t -> A -> Assembler.t) :
  (forall a x, count_segments P (ring_segments (f a x))
               = count_segments P (ring_segments a)) ->
  forall l a, count_segments P (ring_segments (fold_left f l a))
              = count_segments P (ring_segments a).
Proof.
  intros Hf l. induction l as [|x l IH]; intros a; simpl; [reflexivity|].
  now rewrite IH, Hf.
Qed.

Lemma count_add_to_first_outer inner outers :
  forall a,
    count_segments P (ring_segments (Assembler.add_to_first_outer a inner outers))
    = count_segments P (ring_segments a).
Proof.
  induction outers as [|outer rest IH]; intros a; simpl; [reflexivity|].
  destruct (ProtoRing.is_in _ _); [|apply IH].
  now apply count_modify_same.
Qed.

Lemma count_assign_inner_rings a :
  count_segments P (ring_segments (Assembler.assign_inner_rings a))
  = count_segments P (ring_segments a).
Proof.
  unfold Assembler.assign_inner_rings.
  destruct (length (Assembler.m_outer_rings a) =? 1).
  - apply count_fold_left. intros b inner. now apply count_modify_same.
  - rewrite count_fold_left; [reflexivity|].
    intros b inner. apply count_add_to_first_outer.
Qed.

Lemma count_after_stitching a :
  Assembler.m_rings a = [] ->
  count_segments P (ring_segments (Assembler.stitched a))
  = count_segments P
      (SegmentList.erase_duplicate_segments
         (SegmentList.sort (Assembler.m_segment_list a))).
Proof.
  intros Hrings. unfold Assembler.stitched, Assembler.find_intersections.
  destruct (SegmentList.find_intersections
              (Assembler.m_segment_list (Assembler.normalize a)) _ _)
    as [found reports].
  cbn [snd Assembler.with_reporter Assembler.m_segment_list
       Assembler.normalize Assembler.with_segment_list].
  match goal with
  | |- context [Assembler.add_segments ?l ?b] =>
      destruct (steps_add_segments P P_swap (fun _ => False) l b)
        as (_ & _ & E & _)
  end.
  - intros q [].
  - unfold distinct_addresses.
    cbn [Assembler.m_rings Assembler.next_address Assembler.with_reporter
         Assembler.with_segment_list Assembler.normalize].
    rewrite Hrings. split; constructor.
  - rewrite E. unfold ring_segments.
    cbn [Assembler.m_rings Assembler.with_reporter
         Assembler.with_segment_list Assembler.normalize
         Assembler.m_segment_list].
    rewrite Hrings. reflexivity.
Qed.

End Conservation.

(** X15: the stitching neither loses nor doubles a segment.  For every
    property of segments that does not depend on their direction, the loop
    over the segments adds to the rings as many segments with the property
    as the list has; so when [create_rings] succeeds on an assembler
    without rings, the rings hold, up to direction, the segments of the
    sorted list without its duplicates, each once. *)
Theorem stitching_keeps_every_segment :
  forall P : NodeRefSegment.t -> bool,
    (forall s, P (NodeRefSegment.swap_locations s) = P s) ->
    (forall segments a,
       distinct_addresses a ->
       count_segments P (ring_segments (Assembler.add_segments segments a))
       = count_segments P (ring_segments a) + count_segments P segments)
    /\ (forall a,
          Assembler.m_rings a = [] ->
          fst (Assembler.create_rings a) = true ->
          count_segments P (ring_segments (snd (Assembler.create_rings a)))
          = count_segments P
              (SegmentList.erase_duplicate_segments
                 (SegmentList.sort (Assembler.m_segment_list a)))).
Proof.
  intros P P_swap. split.
  - intros segments a Hwf.
    destruct (steps_add_segments P P_swap (fun _ => False) segments a)
      as (_ & _ & E & _); auto.
    intros q [].
  - intros a Hrings. pose proof (count_after_stitching P P_swap a Hrings) as E.
    unfold Assembler.create_rings, Assembler.stitched in *.
    destruct (Assembler.find_intersections (Assembler.normalize a))
      as [found a2].
    cbn [snd] in E. destruct found; [discriminate|].
    destruct (check_for_open_rings_reports_open_rings
                (Assembler.add_segments (Assembler.m_segment_list a2) a2))
      as (_ & _ & Hr & _).
    destruct (Assembler.check_for_open_rings
                (Assembler.add_segments (Assembler.m_segment_list a2) a2))
      as [open a4].
    cbn [snd] in Hr. destruct open; [discriminate|]. intros _. cbn [snd].
    match goal with
    | |- context [Assembler.check_inner_outer_roles ?b] =>
        destruct (same_rings_check_inner_outer_roles b) as (Hroles & _)
    end.
    unfold ring_segments at 1. rewrite Hroles.
    fold (ring_segments
            (if length (Assembler.m_rings a4) =? 1
             then Assembler.with_outer_rings a4
                    (Assembler.m_outer_rings a4
                       ++ [fst (hd (0, ProtoRing.empty) (Assembler.m_rings a4))])
             else Assembler.assign_inner_rings (Assembler.classify_rings a4))).
    rewrite <- E.
    assert (E4 : ring_segments a4
                 = ring_segments
                     (Assembler.add_segments (Assembler.m_segment_list a2) a2)).
    { unfold ring_segments. now rewrite Hr. }
    rewrite <- E4.
    destruct (length (Assembler.m_rings a4) =? 1); [reflexivity|].
    rewrite count_assign_inner_rings. unfold Assembler.classify_rings.
    apply count_fold_left. intros b p. now apply count_classify_ring.
Qed.

(** Counting all segments: the way of scenario 1 on a new assembler. *)
Lemma stitching_keeps_every_segment_witness :
  let a := Assembler.begin_way Examples.fresh (WayPtr.make 0 Examples.square) in
  fst (Assembler.create_rings a) = true
  /\ count_segments (fun _ => true)
                    (ring_segments (snd (Assembler.create_rings a)))
     = 4.
Proof.
  set (a := Assembler.begin_way Examples.fresh (WayPtr.make 0 Examples.square)).
  assert (Hok : fst (Assembler.create_rings a) = true) by reflexivity.
  cbn zeta. split; [exact Hok|].
  rewrite (proj2 (stitching_keeps_every_segment (fun _ => true)
                    (fun _ => eq_refl)) a eq_refl Hok).
  reflexivity.
Defined.

(** ** Every ring is classified once *)

Lemma same_marks_refl a : same_marks a a.
Proof. split; reflexivity. Qed.

Lemma same_marks_trans a b c : same_marks a b -> same_marks b c -> same_marks a c.
Proof.
  intros [K1 M1] [K2 M2]. split; [congruence|].
  intros q. now rewrite M2, M1.
Qed.

Lemma same_marks_modify_ring a p f :
  (forall r, ProtoRing.outer (f r) = ProtoRing.outer r) ->
  same_marks a (Assembler.modify_ring a p f).
Proof.
  intros Hf. split.
  - unfold Assembler.modify_ring. cbn [Assembler.m_rings Assembler.with_rings].
    apply update_keys.
  - intros q. rewrite ring_at_modify_ring.
    destruct (q =? p) eqn:E; [|reflexivity].
    apply Nat.eqb_eq in E. subst q. unfold Assembler.ring_at.
    destruct (Assembler.lookup (Assembler.m_rings a) p); [apply Hf|reflexivity].
Qed.

Lemma same_marks_fold_left {A : Type} (f : Assembler.t -> A -> Assembler.t) :
  (forall a x, same_marks a (f a x)) ->
  forall l a, same_marks a (fold_left f l a).
Proof.
  intros Hf l. induction l as [|x l IH]; intros a; simpl.
  - apply same_marks_refl.
  - eapply same_marks_trans; [apply Hf|apply IH].
Qed.

Lemma same_marks_add_to_first_outer inner outers :
  forall a, same_marks a (Assembler.add_to_first_outer a inner outers).
Proof.
  induction outers as [|outer rest IH]; intros a; simpl.
  - apply same_marks_refl.
  - destruct (ProtoRing.is_in _ _); [|apply IH].
    now apply same_marks_modify_ring.
Qed.

Lemma same_marks_assign_inner_rings a :
  same_marks a (Assembler.assign_inner_rings a).
Proof.
  unfold Assembler.assign_inner_rings.
  destruct (length (Assembler.m_outer_rings a) =? 1).
  - apply same_marks_fold_left. intros b inner.
    now apply same_marks_modify_ring.
  - eapply same_marks_trans;
      [|apply same_marks_fold_left; intros b inner;
        apply same_marks_add_to_first_outer].
    split; reflexivity.
Qed.

Lemma assign_inner_rings_vectors a :
  Permutation (Assembler.m_outer_rings (Assembler.assign_inner_rings a))
              (Assembler.m_outer_rings a)
  /\ Assembler.m_inner_rings (Assembler.assign_inner_rings a)
     = Assembler.m_inner_rings a.
Proof.
  destruct (assign_inner_rings_spec a) as ((Ho & Hi & _) & Hone & Hmany).
  cbn [Assembler.with_outer_rings Assembler.m_inner_rings] in Hi.
  split; [|exact Hi].
  destruct (Assembler.m_outer_rings a) as [|outer [|outer' rest]] eqn:E.
  - rewrite (proj1 (Hmany ltac:(simpl; lia))). apply std_sort_perm.
  - rewrite (proj1 (Hone outer eq_refl)). apply Permutation_refl.
  - rewrite (proj1 (Hmany ltac:(simpl; lia))). apply std_sort_perm.
Qed.

(** One round of the loop that classifies: the ring at [p] goes to one of
    the two vectors, the one its mark says. *)
Lemma classify_ring_marks a p :
  let b := Assembler.classify_ring a p in
  map fst (Assembler.m_rings b) = map fst (Assembler.m_rings a)
  /\ (forall q, q <> p ->
                ProtoRing.outer (Assembler.ring_at b q)
                = ProtoRing.outer (Assembler.ring_at a q))
  /\ ((Assembler.m_outer_rings b = Assembler.m_outer_rings a ++ [p]
       /\ Assembler.m_inner_rings b = Assembler.m_inner_rings a
       /\ ProtoRing.outer (Assembler.ring_at b p) = true)
      \/ (Assembler.m_outer_rings b = Assembler.m_outer_rings a
          /\ Assembler.m_inner_rings b = Assembler.m_inner_rings a ++ [p]
          /\ ProtoRing.outer (Assembler.ring_at b p) = false)).
Proof.
  cbn zeta. unfold Assembler.classify_ring.
  set (a1 := Assembler.check_inner_outer a p).
  assert (K1 : map fst (Assembler.m_rings a1) = map fst (Assembler.m_rings a)).
  { unfold a1, Assembler.check_inner_outer, Assembler.modify_ring.
    cbn [Assembler.m_rings Assembler.with_rings]. apply update_keys. }
  assert (M1 : forall q, q <> p ->
                 Assembler.ring_at a1 q = Assembler.ring_at a q).
  { intros q Hq. unfold a1, Assembler.check_inner_outer.
    rewrite ring_at_modify_ring. apply Nat.eqb_neq in Hq. now rewrite Hq. }
  assert (Hrev : forall c, same_marks c
                             (Assembler.modify_ring c p ProtoRing.reverse)).
  { intros c. now apply same_marks_modify_ring. }
  destruct (ProtoRing.outer (Assembler.ring_at a1 p)) eqn:Eo.
  - set (a2 := if negb (ProtoRing.is_cw (Assembler.ring_at a1 p))
               then Assembler.modify_ring a1 p ProtoRing.reverse else a1).
    assert (S2 : same_marks a1 a2
                 /\ Assembler.m_outer_rings a2 = Assembler.m_outer_rings a
                 /\ Assembler.m_inner_rings a2 = Assembler.m_inner_rings a).
    { unfold a2. destruct (negb _).
      - split; [apply Hrev|split; reflexivity].
      - split; [apply same_marks_refl|split; reflexivity]. }
    destruct S2 as ([K2 M2] & O2 & I2).
    refine (conj _ (conj _ (or_introl (conj _ (conj _ _))))).
    + cbn [Assembler.with_outer_rings Assembler.m_rings]. congruence.
    + intros q Hq.
      change (Assembler.ring_at (Assembler.with_outer_rings a2 _) q)
        with (Assembler.ring_at a2 q).
      now rewrite M2, (M1 q Hq).
    + cbn [Assembler.with_outer_rings Assembler.m_outer_rings].
      now rewrite O2.
    + exact I2.
    + change (Assembler.ring_at (Assembler.with_outer_rings a2 _) p)
        with (Assembler.ring_at a2 p).
      now rewrite M2.
  - set (a2 := if ProtoRing.is_cw (Assembler.ring_at a1 p)
               then Assembler.modify_ring a1 p ProtoRing.reverse else a1).
    assert (S2 : same_marks a1 a2
                 /\ Assembler.m_outer_rings a2 = Assembler.m_outer_rings a
                 /\ Assembler.m_inner_rings a2 = Assembler.m_inner_rings a).
    { unfold a2. destruct (ProtoRing.is_cw _).
      - split; [apply Hrev|split; reflexivity].
      - split; [apply same_marks_refl|split; reflexivity]. }
    destruct S2 as ([K2 M2] & O2 & I2).
    refine (conj _ (conj _ (or_intror (conj _ (conj _ _))))).
    + cbn [Assembler.with_inner_rings Assembler.m_rings]. congruence.
    + intros q Hq.
      change (Assembler.ring_at (Assembler.with_inner_rings a2 _) q)
        with (Assembler.ring_at a2 q).
      now rewrite M2, (M1 q Hq).
    + exact O2.
    + cbn [Assembler.with_inner_rings Assembler.m_inner_rings].
      now rewrite I2.
    + change (Assembler.ring_at (Assembler.with_inner_rings a2 _) p)
        with (Assembler.ring_at a2 p).
      now rewrite M2.
Qed.

Lemma classify_rings_marks ks :
  forall a,
    NoDup ks ->
    let b := fold_left Assembler.classify_ring ks a in
    map fst (Assembler.m_rings b) = map fst (Assembler.m_rings a)
    /\ (forall q, ~ In q ks ->
                  ProtoRing.outer (Assembler.ring_at b q)
                  = ProtoRing.outer (Assembler.ring_at a q))
    /\ exists outs ins,
         Assembler.m_outer_rings b = Assembler.m_outer_rings a ++ outs
         /\ Assembler.m_inner_rings b = Assembler.m_inner_rings a ++ ins
         /\ Permutation (outs ++ ins) ks
         /\ (forall q, In q outs ->
                       ProtoRing.outer (Assembler.ring_at b q) = true)
         /\ (forall q, In q ins ->
                       ProtoRing.outer (Assembler.ring_at b q) = false).
Proof.
  induction ks as [|p ks IH]; intros a Hnd; cbn zeta.
  - cbn [fold_left]. refine (conj eq_refl (conj (fun _ _ => eq_refl) _)).
    exists [], []. rewrite !app_nil_r.
    repeat split; auto; intros q [].
  - inversion Hnd as [|? ? Hp Hks]; subst. cbn [fold_left].
    destruct (classify_ring_marks a p) as (K1 & M1 & Hcase).
    set (a1 := Assembler.classify_ring a p) in *.
    destruct (IH a1 Hks) as (K & M & outs & ins & O & I & Hperm & Ho & Hi).
    cbn zeta in K, M, O, I, Ho, Hi.
    set (b := fold_left Assembler.classify_ring ks a1) in *.
    assert (Mp : ProtoRing.outer (Assembler.ring_at b p)
                 = ProtoRing.outer (Assembler.ring_at a1 p))
      by now apply M.
    refine (conj _ (conj _ _)).
    + congruence.
    + intros q Hq. rewrite M by (intros H; apply Hq; now right).
      apply M1. intros ->. apply Hq. now left.
    + destruct Hcase as [(O1 & I1 & F1)|(O1 & I1 & F1)].
      * exists (p :: outs), ins.
        refine (conj _ (conj _ (conj _ (conj _ _)))).
        -- rewrite O, O1, <- app_assoc. reflexivity.
        -- now rewrite I, I1.
        -- simpl. now constructor.
        -- intros q [<-|Hq]; [congruence|now apply Ho].
        -- exact Hi.
      * exists outs, (p :: ins).
        refine (conj _ (conj _ (conj _ (conj _ _)))).
        -- now rewrite O, O1.
        -- rewrite I, I1, <- app_assoc. reflexivity.
        -- apply Permutation_sym, Permutation_cons_app.
           now apply Permutation_sym.
        -- exact Ho.
        -- intros q [<-|Hq]; [congruence|now apply Hi].
Qed.

(** X16: every ring is classified once.  When [create_rings] succeeds on an
    assembler that holds no rings and no ring pointers from an earlier
    call, the rings have distinct addresses and the vectors of outer and of
    inner rings together hold the address of every ring exactly once; the
    rings in the vector of outer rings are those marked outer, the rings in
    the vector of inner rings those marked inner. *)
Theorem every_ring_is_classified_once :
  forall a,
    Assembler.m_rings a = [] ->
    Assembler.m_outer_rings a = [] ->
    Assembler.m_inner_rings a = [] ->
    fst (Assembler.create_rings a) = true ->
    let a' := snd (Assembler.create_rings a) in
    NoDup (map fst (Assembler.m_rings a'))
    /\ Permutation (Assembler.m_outer_rings a' ++ Assembler.m_inner_rings a')
                   (map fst (Assembler.m_rings a'))
    /\ (forall p, In p (Assembler.m_outer_rings a') ->
                  ProtoRing.outer (Assembler.ring_at a' p) = true)
    /\ (forall p, In p (Assembler.m_inner_rings a') ->
                  ProtoRing.outer (Assembler.ring_at a' p) = false).
Proof.
  intros a Hr Ho Hi. unfold Assembler.create_rings.
  assert (H2 : let a2 := snd (Assembler.find_intersections
                                (Assembler.normalize a)) in
               Assembler.m_rings a2 = []
               /\ Assembler.m_outer_rings a2 = []
               /\ Assembler.m_inner_rings a2 = []).
  { unfold Assembler.find_intersections.
    destruct (SegmentList.find_intersections _ _ _) as [found reports].
    cbn. auto. }
  destruct (Assembler.find_intersections (Assembler.normalize a))
    as [found a2].
  cbn [snd] in H2. cbn zeta in H2. destruct H2 as (Hr2 & Ho2 & Hi2).
  destruct found; [discriminate|].
  destruct (steps_add_segments (fun _ => true) (fun _ => eq_refl)
              (fun _ => False) (Assembler.m_segment_list a2) a2)
    as (Hwf3 & _ & _ & _ & Hu3).
  { intros q []. }
  { unfold distinct_addresses. rewrite Hr2. split; constructor. }
  assert (Hu3' : unclassified
                   (Assembler.add_segments (Assembler.m_segment_list a2) a2)).
  { apply Hu3. unfold unclassified. rewrite Hr2. constructor. }
  destruct (same_members_add_segments (Assembler.m_segment_list a2) a2)
    as (_ & _ & Ho3 & Hi3 & _).
  destruct (check_for_open_rings_reports_open_rings
              (Assembler.add_segments (Assembler.m_segment_list a2) a2))
    as (_ & _ & Hr4 & (_ & _ & Ho4 & Hi4 & _)).
  destruct (Assembler.check_for_open_rings
              (Assembler.add_segments (Assembler.m_segment_list a2) a2))
    as [open a4].
  cbn [snd] in Hr4, Ho4, Hi4. destruct open; [discriminate|]. intros _.
  cbn [snd]. cbn zeta.
  assert (Ho4' : Assembler.m_outer_rings a4 = []) by congruence.
  assert (Hi4' : Assembler.m_inner_rings a4 = []) by congruence.
  assert (Hnd4 : NoDup (map fst (Assembler.m_rings a4))).
  { rewrite Hr4. apply Hwf3. }
  assert (Hu4 : unclassified a4).
  { unfold unclassified. rewrite Hr4. exact Hu3'. }
  match goal with
  | |- context [Assembler.check_inner_outer_roles ?b] =>
      destruct (same_rings_check_inner_outer_roles b) as (R1 & R2 & R3);
      set (a5 := b) in *
  end.
  assert (Rat : forall p, Assembler.ring_at
                            (Assembler.check_inner_outer_roles a5) p
                          = Assembler.ring_at a5 p).
  { intros p. unfold Assembler.ring_at. now rewrite R1. }
  rewrite R1, R2, R3.
  assert (H5 : NoDup (map fst (Assembler.m_rings a5))
               /\ Permutation
                    (Assembler.m_outer_rings a5 ++ Assembler.m_inner_rings a5)
                    (map fst (Assembler.m_rings a5))
               /\ (forall p, In p (Assembler.m_outer_rings a5) ->
                             ProtoRing.outer (Assembler.ring_at a5 p) = true)
               /\ (forall p, In p (Assembler.m_inner_rings a5) ->
                             ProtoRing.outer (Assembler.ring_at a5 p) = false)).
  { unfold a5. destruct (length (Assembler.m_rings a4) =? 1) eqn:E.
    - destruct (Assembler.m_rings a4) as [|[p r] [|e rest]] eqn:E4;
        try discriminate.
      cbn [Assembler.with_outer_rings Assembler.m_rings
           Assembler.m_outer_rings Assembler.m_inner_rings].
      rewrite E4, Ho4', Hi4'. cbn [hd fst map app].
      refine (conj Hnd4 (conj (Permutation_refl _) (conj _ _))).
      + intros q [<-|[]].
        unfold Assembler.ring_at.
        cbn [Assembler.with_outer_rings Assembler.m_rings]. rewrite E4.
        cbn [Assembler.lookup]. rewrite Nat.eqb_refl.
        unfold unclassified in Hu4. rewrite E4 in Hu4.
        inversion Hu4 as [|? ? [Hm _] _]; subst. exact Hm.
      + intros q [].
    - unfold Assembler.classify_rings.
      destruct (classify_rings_marks (map fst (Assembler.m_rings a4)) a4 Hnd4)
        as (K & _ & outs & ins & O & I & Hperm & Hos & His).
      cbn zeta in K, O, I, Hos, His.
      set (b := fold_left Assembler.classify_ring
                  (map fst (Assembler.m_rings a4)) a4) in *.
      rewrite Ho4' in O. rewrite Hi4' in I. cbn [app] in O, I.
      destruct (same_marks_assign_inner_rings b) as [Kc Mc].
      destruct (assign_inner_rings_vectors b) as [Pc Ic].
      refine (conj _ (conj _ (conj _ _))).
      + rewrite Kc, K. exact Hnd4.
      + rewrite Kc, K, Ic, I.
        apply (Permutation_trans (l' := outs ++ ins)); [|exact Hperm].
        apply Permutation_app_tail. now rewrite <- O.
      + intros q Hq. rewrite Mc. apply Hos. rewrite <- O.
        exact (Permutation_in _ Pc Hq).
      + intros q Hq. rewrite Mc. apply His. rewrite <- I, <- Ic. exact Hq. }
  destruct H5 as (N5 & P5 & F5 & G5).
  refine (conj N5 (conj P5 (conj _ _))).
  - intros p Hp. rewrite Rat. now apply F5.
  - intros p Hp. rewrite Rat. now apply G5.
Qed.

(** The square with the hole of scenario 2, as a relation. *)
Lemma every_ring_is_classified_once_witness :
  let a :=
    Assembler.begin_relation Examples.fresh Examples.square_with_hole [0; 1]
                             Examples.square_with_hole_buffer in
  fst (Assembler.create_rings a) = true
  /\ Assembler.m_outer_rings (snd (Assembler.create_rings a)) = [0]
  /\ Assembler.m_inner_rings (snd (Assembler.create_rings a)) = [1]
  /\ Permutation [0; 1]
                 (map fst (Assembler.m_rings (snd (Assembler.create_rings a)))).
Proof.
  set (a := Assembler.begin_relation Examples.fresh Examples.square_with_hole
              [0; 1] Examples.square_with_hole_buffer).
  assert (Hok : fst (Assembler.create_rings a) = true) by reflexivity.
  cbn zeta. split; [exact Hok|].
  split; [reflexivity|]. split; [reflexivity|].
  exact (proj1 (proj2 (every_ring_is_classified_once a eq_refl eq_refl eq_refl
                         Hok))).
Defined.

(** ** Rings are chains *)

Lemma chain_app_inv l l' : chain (l ++ l') -> chain l /\ chain l'.
Proof.
  induction l as [|s l IH]; cbn [app chain].
  - auto.
  - intros [H1 H2]. destruct (IH H2) as [H3 H4].
    split; [|exact H4]. split; [|exact H3].
    destruct l; [exact I|exact H1].
Qed.

Lemma chain_app l l' :
  chain l -> chain l' ->
  l = [] \/ l' = []
  \/ joined (last l NodeRefSegment.default) (hd NodeRefSegment.default l') ->
  chain (l ++ l').
Proof.
  induction l as [|s l IH]; cbn [app]; [auto|].
  intros [H1 H2] Hl' Hj. cbn [chain]. split.
  - destruct l as [|t l]; cbn [app].
    + destruct l' as [|t' l']; [exact I|].
      destruct Hj as [Hj|[Hj|Hj]]; [discriminate|discriminate|exact Hj].
    + exact H1.
  - apply IH; auto.
    destruct l as [|t l]; [now left|].
    destruct Hj as [Hj|[Hj|Hj]]; [discriminate|now right; left|].
    right; right. exact Hj.
Qed.

Lemma chain_firstn n l : chain l -> chain (firstn n l).
Proof.
  intros H. rewrite <- (firstn_skipn n l) in H. now apply chain_app_inv in H.
Qed.

Lemma chain_skipn n l : chain l -> chain (skipn n l).
Proof.
  intros H. rewrite <- (firstn_skipn n l) in H. now apply chain_app_inv in H.
Qed.

Lemma chain_reverse l :
  chain l -> chain (rev (map NodeRefSegment.swap_locations l)).
Proof.
  induction l as [|s l IH]; [auto|].
  intros [H1 H2]. cbn [map rev]. apply chain_app; [auto|exact (conj I I)|].
  destruct l as [|t l]; [now left|]. right; right.
  rewrite last_rev. cbn [map hd]. unfold joined in *. cbn. now symmetry.
Qed.

Lemma chain_nth l :
  forall i,
    chain l -> S i < length l ->
    joined (nth i l NodeRefSegment.default) (nth (S i) l NodeRefSegment.default).
Proof.
  induction l as [|s l IH]; intros i Hc Hi; [cbn in Hi; lia|].
  destruct Hc as [H1 H2]. destruct i as [|i].
  - destruct l as [|t l]; [cbn in Hi; lia|exact H1].
  - cbn [nth]. apply IH; [exact H2|cbn in Hi; lia].
Qed.

Lemma last_firstn {A : Type} (d : A) l :
  forall b, b < length l -> last (firstn (S b) l) d = nth b l d.
Proof.
  induction l as [|x l IH]; intros b Hb; [cbn in Hb; lia|].
  destruct b as [|b]; [reflexivity|].
  cbn [firstn nth]. rewrite <- IH by (cbn in Hb; lia).
  destruct l as [|y l]; [cbn in Hb; lia|]. reflexivity.
Qed.

Lemma hd_skipn {A : Type} (d : A) l : forall e, hd d (skipn e l) = nth e l d.
Proof.
  induction l as [|x l IH]; intros [|e]; cbn; auto.
Qed.

(** The ring that is left when a part is taken out of a chain: it is a chain
    if the part is at one of the two ends, or if it starts at the location
    at which the remainder goes on. *)
Lemma chain_remove l b e :
  chain l ->
  b = 0 \/ length l <= e
  \/ (b <= e
      /\ NodeRef.location
           (NodeRefSegment.first (nth b l NodeRefSegment.default))
         = NodeRef.location
             (NodeRefSegment.first (nth e l NodeRefSegment.default))) ->
  chain (firstn b l ++ skipn e l).
Proof.
  intros Hc [->|[He|[Hbe Hloc]]].
  - cbn [firstn app]. now apply chain_skipn.
  - rewrite skipn_all2 by exact He. rewrite app_nil_r. now apply chain_firstn.
  - destruct (Nat.le_gt_cases (length l) e) as [He|He].
    { rewrite skipn_all2 by exact He. rewrite app_nil_r. now apply chain_firstn. }
    apply chain_app; [now apply chain_firstn|now apply chain_skipn|].
    destruct b as [|b]; [now left|]. right; right.
    rewrite last_firstn by lia. rewrite hd_skipn.
    unfold joined. rewrite <- Hloc. apply chain_nth; [exact Hc|lia].
Qed.

Lemma has_same_location_fst a nr1 nr2 :
  fst (Assembler.has_same_location a nr1 nr2)
  = Location.eqb (NodeRef.location nr1) (NodeRef.location nr2).
Proof.
  unfold Assembler.has_same_location.
  destruct (Location.eqb _ _); cbn [negb]; [|reflexivity].
  now destruct (negb (NodeRef.ref nr1 =? NodeRef.ref nr2)%Z).
Qed.

Lemma find_first_of_found l s :
  In s l ->
  Assembler.find_first_of l s < length l
  /\ NodeRef.location
       (NodeRefSegment.first
          (nth (Assembler.find_first_of l s) l NodeRefSegment.default))
     = NodeRef.location (NodeRefSegment.first s).
Proof.
  induction l as [|h l IH]; intros Hin; [destruct Hin|].
  cbn [Assembler.find_first_of].
  destruct (NodeRefSegment.eqb h s) eqn:E.
  - split; [cbn; lia|]. cbn [nth].
    unfold NodeRefSegment.eqb in E. apply andb_true_iff in E.
    now apply Location_eqb_eq.
  - destruct Hin as [->|Hin].
    + unfold NodeRefSegment.eqb in E. apply andb_false_iff in E.
      destruct E as [E|E];
        [assert (K : Location.eqb
                       (NodeRef.location (NodeRefSegment.first s))
                       (NodeRef.location (NodeRefSegment.first s)) = true)
           by now apply Location_eqb_eq
        |assert (K : Location.eqb
                       (NodeRef.location (NodeRefSegment.second s))
                       (NodeRef.location (NodeRefSegment.second s)) = true)
           by now apply Location_eqb_eq];
        congruence.
    + destruct (IH Hin) as [H1 H2]. split; [cbn; lia|exact H2].
Qed.

Lemma adjacent_find_found segments :
  forall a s1 s2 a1,
    Assembler.adjacent_find segments a = (Some (s1, s2), a1) ->
    In s1 segments /\ In s2 segments
    /\ NodeRef.location (NodeRefSegment.first s1)
       = NodeRef.location (NodeRefSegment.first s2).
Proof.
  induction segments as [|x l IH]; intros a s1 s2 a1 H; [discriminate|].
  destruct l as [|y l]; [discriminate|].
  cbn [Assembler.adjacent_find] in H.
  pose proof (has_same_location_fst a (NodeRefSegment.first x)
                                    (NodeRefSegment.first y)) as Hs.
  destruct (Assembler.has_same_location a (NodeRefSegment.first x)
                                        (NodeRefSegment.first y)) as [same a'].
  cbn [fst] in Hs. destruct same.
  - injection H as <- <- _. symmetry in Hs. apply Location_eqb_eq in Hs.
    refine (conj _ (conj _ Hs)); cbn; auto.
  - destruct (IH _ _ _ _ H) as (H1 & H2 & H3).
    refine (conj _ (conj _ H3)); now right.
Qed.

Lemma chained_lookup a p r :
  chained a -> Assembler.lookup (Assembler.m_rings a) p = Some r ->
  chain (ProtoRing.segments r).
Proof.
  intros Hc Hl. apply lookup_In in Hl.
  exact (proj1 (Forall_forall _ _) Hc _ Hl).
Qed.

Lemma chained_ring_at a p :
  chained a -> chain (ProtoRing.segments (Assembler.ring_at a p)).
Proof.
  intros Hc. unfold Assembler.ring_at.
  destruct (Assembler.lookup (Assembler.m_rings a) p) as [r|] eqn:E.
  - exact (chained_lookup _ _ _ Hc E).
  - exact I.
Qed.

Lemma chained_same_rings a b :
  Assembler.m_rings b = Assembler.m_rings a -> chained a -> chained b.
Proof. unfold chained. now intros ->. Qed.

Lemma chained_update rings p f :
  Forall (fun e => chain (ProtoRing.segments (snd e))) rings ->
  (forall r, Assembler.lookup rings p = Some r ->
             chain (ProtoRing.segments (f r))) ->
  Forall (fun e : ring_ptr * ProtoRing.t => chain (ProtoRing.segments (snd e)))
         (Assembler.update rings p f).
Proof.
  induction rings as [|[q r] rest IH]; intros Hc Hf; [constructor|].
  inversion Hc as [|? ? Hr Hrest]; subst.
  cbn [Assembler.update Assembler.lookup] in *.
  destruct (q =? p).
  - constructor; [|exact Hrest]. now apply Hf.
  - constructor; [exact Hr|]. now apply IH.
Qed.

Lemma chained_modify a p f :
  chained a ->
  (forall r, Assembler.lookup (Assembler.m_rings a) p = Some r ->
             chain (ProtoRing.segments (f r))) ->
  chained (Assembler.modify_ring a p f).
Proof. intros Hc Hf. now apply chained_update. Qed.

Lemma chained_erase a p : chained a -> chained (Assembler.erase a p).
Proof.
  unfold chained, Assembler.erase. cbn [Assembler.m_rings Assembler.with_rings].
  rewrite !Forall_forall. intros Hc e He. apply filter_In in He. now apply Hc.
Qed.

Lemma chained_push_back a r :
  chained a -> chain (ProtoRing.segments r) ->
  chained (Assembler.push_back a r).
Proof.
  unfold chained, Assembler.push_back. cbn [Assembler.m_rings].
  intros Hc Hr. apply Forall_app. split; [exact Hc|]. now constructor.
Qed.

Lemma chained_split a t b e :
  chained a ->
  (forall r, Assembler.lookup (Assembler.m_rings a) t = Some r ->
             chain (firstn b (ProtoRing.segments r)
                    ++ skipn e (ProtoRing.segments r))) ->
  chained (Assembler.split_off_subring a t b e).
Proof.
  intros Hc Hr. unfold Assembler.split_off_subring.
  apply chained_push_back.
  - apply chained_modify; [exact Hc|]. exact Hr.
  - cbn [ProtoRing.of_range ProtoRing.segments]. unfold ProtoRing.range.
    apply chain_firstn, chain_skipn, chained_ring_at, Hc.
Qed.

Ltac probe_at same a' Hr Hn Hs :=
  match goal with
  | |- context [Assembler.has_same_location ?a ?x ?y] =>
      generalize (has_same_location_rings a x y)
                 (has_same_location_fst a x y);
      destruct (Assembler.has_same_location a x y) as [same a'];
      cbn [fst snd]; intros [Hr Hn] Hs
  end.

Lemma chained_has_closed_subring_back_loop ring nr its end_ :
  forall a,
    length (ProtoRing.segments (Assembler.ring_at a ring)) <= end_ ->
    chained a ->
    chained (snd (Assembler.has_closed_subring_back_loop ring nr its end_ a)).
Proof.
  induction its as [|[it segment] rest IH]; intros a Hlen Hc; [exact Hc|].
  cbn [Assembler.has_closed_subring_back_loop].
  probe_at same a1 Hr Hn Hs.
  assert (Hat : Assembler.ring_at a1 ring = Assembler.ring_at a ring)
    by (unfold Assembler.ring_at; now rewrite Hr).
  pose proof (chained_same_rings _ _ Hr Hc) as Hc1.
  destruct same; cbn [snd].
  - apply chained_split; [exact Hc1|]. intros r Hl.
    apply chain_remove; [exact (chained_lookup _ _ _ Hc1 Hl)|].
    right; left. rewrite <- (ring_at_lookup _ _ _ Hl), Hat. exact Hlen.
  - apply IH; [now rewrite Hat|exact Hc1].
Qed.

Lemma chained_has_closed_subring_back a ring nr :
  chained a -> chained (snd (Assembler.has_closed_subring_back a ring nr)).
Proof.
  intros Hc. unfold Assembler.has_closed_subring_back.
  destruct (_ <? 3); [exact Hc|].
  apply chained_has_closed_subring_back_loop; [apply Nat.le_refl|exact Hc].
Qed.

Lemma chained_has_closed_subring_front_loop ring nr its :
  forall a,
    chained a ->
    chained (snd (Assembler.has_closed_subring_front_loop ring nr its a)).
Proof.
  induction its as [|[it segment] rest IH]; intros a Hc; [exact Hc|].
  cbn [Assembler.has_closed_subring_front_loop].
  probe_at same a1 Hr Hn Hs.
  pose proof (chained_same_rings _ _ Hr Hc) as Hc1.
  destruct same; cbn [snd].
  - apply chained_split; [exact Hc1|]. intros r Hl.
    apply chain_remove; [exact (chained_lookup _ _ _ Hc1 Hl)|now left].
  - now apply IH.
Qed.

Lemma chained_has_closed_subring_front a ring nr :
  chained a -> chained (snd (Assembler.has_closed_subring_front a ring nr)).
Proof.
  intros Hc. unfold Assembler.has_closed_subring_front.
  destruct (_ <? 3); [exact Hc|].
  now apply chained_has_closed_subring_front_loop.
Qed.

Lemma chained_check_for_closed_subring a ring :
  chained a -> chained (snd (Assembler.check_for_closed_subring a ring)).
Proof.
  intros Hc. unfold Assembler.check_for_closed_subring.
  pose proof (adjacent_find_rings
                (std_sort NodeRefSegment.ltb
                   (ProtoRing.segments (Assembler.ring_at a ring))) a)
    as [Hr Hn].
  pose proof (adjacent_find_found
                (std_sort NodeRefSegment.ltb
                   (ProtoRing.segments (Assembler.ring_at a ring))) a) as Hf.
  destruct (Assembler.adjacent_find _ a) as [[[s1 s2]|] a1];
    cbn [fst snd] in *.
  2: exact (chained_same_rings _ _ Hr Hc).
  destruct (Hf _ _ _ eq_refl) as (H1 & H2 & H3).
  pose proof (chained_same_rings _ _ Hr Hc) as Hc1.
  assert (Hat : Assembler.ring_at a1 ring = Assembler.ring_at a ring)
    by (unfold Assembler.ring_at; now rewrite Hr).
  assert (Hin : forall s,
             In s (std_sort NodeRefSegment.ltb
                     (ProtoRing.segments (Assembler.ring_at a ring))) ->
             In s (ProtoRing.segments (Assembler.ring_at a1 ring))).
  { intros s Hs. rewrite Hat.
    exact (Permutation_in _ (std_sort_perm _ _) Hs). }
  apply Hin in H1, H2.
  destruct (find_first_of_found _ _ H1) as [B1 L1].
  destruct (find_first_of_found _ _ H2) as [B2 L2].
  refine (chained_split a1 ring _ _ Hc1 _). intros r Hl.
  rewrite (ring_at_lookup _ _ _ Hl) in *.
  apply chain_remove; [exact (chained_lookup _ _ _ Hc1 Hl)|].
  right; right.
  destruct (Nat.ltb_spec (Assembler.find_first_of (ProtoRing.segments r) s2)
                         (Assembler.find_first_of (ProtoRing.segments r) s1));
    cbn [fst snd]; split; try lia; congruence.
Qed.

Lemma ring_at_same_rings a b p :
  Assembler.m_rings b = Assembler.m_rings a ->
  Assembler.ring_at b p = Assembler.ring_at a p.
Proof. unfold Assembler.ring_at. now intros ->. Qed.

Lemma hd_reverse l :
  hd NodeRefSegment.default (rev (map NodeRefSegment.swap_locations l))
  = NodeRefSegment.swap_locations (last l NodeRefSegment.default).
Proof.
  rewrite hd_rev.
  change NodeRefSegment.default
    with (NodeRefSegment.swap_locations NodeRefSegment.default) at 1.
  apply last_map.
Qed.

Lemma last_reverse l :
  last (rev (map NodeRefSegment.swap_locations l)) NodeRefSegment.default
  = NodeRefSegment.swap_locations (hd NodeRefSegment.default l).
Proof.
  rewrite last_rev.
  change NodeRefSegment.default
    with (NodeRefSegment.swap_locations NodeRefSegment.default) at 1.
  apply hd_map.
Qed.

Lemma chained_possibly_combine_rings_back_loop ring nr its :
  forall a,
    (forall it r, In (it, r) its ->
                  Assembler.lookup (Assembler.m_rings a) it = Some r) ->
    nr = NodeRefSegment.second
           (ProtoRing.get_segment_back (Assembler.ring_at a ring)) ->
    chained a ->
    chained (snd (Assembler.possibly_combine_rings_back_loop ring nr its a)).
Proof.
  induction its as [|[it it_ring] rest IH]; intros a Hits Hnr Hc; [exact Hc|].
  cbn [Assembler.possibly_combine_rings_back_loop].
  assert (Hrest : forall it' r, In (it', r) rest ->
                    Assembler.lookup (Assembler.m_rings a) it' = Some r)
    by (intros; apply Hits; now right).
  pose proof (Hits it it_ring (or_introl eq_refl)) as Hit.
  destruct (negb (it =? ring) && negb (ProtoRing.closed it_ring));
    [|now apply IH].
  probe_at same1 a1 Hr1 Hn1 Hs1.
  pose proof (chained_same_rings _ _ Hr1 Hc) as Hc1.
  destruct same1.
  { cbn [snd]. apply chained_erase, chained_modify; [exact Hc1|].
    intros r Hl. cbn [ProtoRing.merge_ring ProtoRing.with_segments
                        ProtoRing.segments].
    rewrite (ring_at_same_rings _ _ it Hr1), (ring_at_lookup _ _ _ Hit).
    apply chain_app;
      [exact (chained_lookup _ _ _ Hc1 Hl)|exact (chained_lookup _ _ _ Hc Hit)|].
    right; right. symmetry in Hs1. apply Location_eqb_eq in Hs1.
    rewrite Hr1 in Hl. rewrite Hnr, (ring_at_lookup _ _ _ Hl) in Hs1.
    exact Hs1. }
  probe_at same2 a2 Hr2 Hn2 Hs2.
  rewrite Hr1 in Hr2.
  pose proof (chained_same_rings _ _ Hr2 Hc) as Hc2.
  destruct same2.
  { cbn [snd]. apply chained_erase, chained_modify; [exact Hc2|].
    intros r Hl. cbn [ProtoRing.merge_ring_reverse ProtoRing.reverse
                        ProtoRing.with_segments ProtoRing.segments].
    rewrite (ring_at_same_rings _ _ it Hr2), (ring_at_lookup _ _ _ Hit).
    apply chain_app;
      [exact (chained_lookup _ _ _ Hc2 Hl)
      |apply chain_reverse; exact (chained_lookup _ _ _ Hc Hit)|].
    right; right. symmetry in Hs2. apply Location_eqb_eq in Hs2.
    rewrite Hr2 in Hl. rewrite Hnr, (ring_at_lookup _ _ _ Hl) in Hs2.
    rewrite hd_reverse. exact Hs2. }
  apply IH.
  - intros it' r' Hin. rewrite Hr2. now apply Hrest.
  - now rewrite (ring_at_same_rings _ _ ring Hr2).
  - exact Hc2.
Qed.

Lemma chained_possibly_combine_rings_back a ring :
  distinct_addresses a -> chained a ->
  chained (snd (Assembler.possibly_combine_rings_back a ring)).
Proof.
  intros [Hnd _] Hc. unfold Assembler.possibly_combine_rings_back.
  apply chained_possibly_combine_rings_back_loop; [|reflexivity|exact Hc].
  intros it r Hin. now apply In_lookup.
Qed.

Lemma lookup_swap_segments a t it r it_ring :
  it <> t ->
  Assembler.lookup (Assembler.m_rings a) t = Some r ->
  Assembler.lookup (Assembler.m_rings a) it = Some it_ring ->
  Assembler.lookup (Assembler.m_rings (Assembler.swap_segments a t it)) t
  = Some (ProtoRing.with_segments r (ProtoRing.segments it_ring))
  /\ Assembler.lookup (Assembler.m_rings (Assembler.swap_segments a t it)) it
     = Some (ProtoRing.with_segments it_ring (ProtoRing.segments r)).
Proof.
  intros Hne Ht Hit. unfold Assembler.swap_segments.
  rewrite (ring_at_lookup _ _ _ Ht), (ring_at_lookup _ _ _ Hit).
  cbn [ProtoRing.swap_segments].
  rewrite !lookup_modify_ring, Nat.eqb_refl.
  destruct (Nat.eqb_spec t it) as [E|_]; [now subst|].
  destruct (Nat.eqb_spec it t) as [E|_]; [now subst|].
  rewrite Nat.eqb_refl, Ht, Hit. split; reflexivity.
Qed.

Lemma chained_swap_segments a t it :
  chained a -> chained (Assembler.swap_segments a t it).
Proof.
  intros Hc. unfold Assembler.swap_segments. cbn [ProtoRing.swap_segments].
  apply chained_modify; [apply chained_modify; [exact Hc|]|]; intros r _;
    cbn [ProtoRing.with_segments ProtoRing.segments];
    now apply chained_ring_at.
Qed.

Lemma chained_possibly_combine_rings_front_loop ring nr its :
  forall a,
    (forall it r, In (it, r) its ->
                  Assembler.lookup (Assembler.m_rings a) it = Some r) ->
    nr = NodeRefSegment.first
           (ProtoRing.get_segment_front (Assembler.ring_at a ring)) ->
    valid a ring ->
    chained a ->
    chained (snd (Assembler.possibly_combine_rings_front_loop ring nr its a)).
Proof.
  induction its as [|[it it_ring] rest IH]; intros a Hits Hnr Hv Hc;
    [exact Hc|].
  cbn [Assembler.possibly_combine_rings_front_loop].
  assert (Hrest : forall it' r, In (it', r) rest ->
                    Assembler.lookup (Assembler.m_rings a) it' = Some r)
    by (intros; apply Hits; now right).
  pose proof (Hits it it_ring (or_introl eq_refl)) as Hit.
  destruct (Nat.eqb_spec it ring) as [E|Hne]; cbn [negb andb];
    [now apply IH|].
  destruct (negb (ProtoRing.closed it_ring)); [|now apply IH].
  destruct (Assembler.lookup (Assembler.m_rings a) ring) as [r0|] eqn:Hring;
    [|now elim Hv].
  rewrite (ring_at_lookup _ _ _ Hring) in Hnr.
  probe_at same1 a1 Hr1 Hn1 Hs1.
  pose proof (chained_same_rings _ _ Hr1 Hc) as Hc1.
  destruct same1.
  { cbn [snd]. rewrite <- Hr1 in Hring, Hit.
    destruct (lookup_swap_segments a1 ring it r0 it_ring Hne Hring Hit)
      as [Lt Lit].
    apply chained_erase, chained_modify; [now apply chained_swap_segments|].
    intros r Hl. rewrite Lt in Hl. injection Hl as <-.
    rewrite (ring_at_lookup _ _ _ Lit).
    cbn [ProtoRing.merge_ring ProtoRing.with_segments ProtoRing.segments].
    apply chain_app;
      [exact (chained_lookup _ _ _ Hc1 Hit)
      |exact (chained_lookup _ _ _ Hc1 Hring)|].
    right; right. symmetry in Hs1. apply Location_eqb_eq in Hs1.
    rewrite Hnr in Hs1. symmetry. exact Hs1. }
  probe_at same2 a2 Hr2 Hn2 Hs2.
  rewrite Hr1 in Hr2.
  pose proof (chained_same_rings _ _ Hr2 Hc) as Hc2.
  destruct same2.
  { cbn [snd]. rewrite <- Hr2 in Hring, Hit.
    apply chained_erase, chained_modify.
    - apply chained_modify; [exact Hc2|]. intros r Hl.
      apply chain_reverse. exact (chained_lookup _ _ _ Hc2 Hl).
    - intros r Hl. rewrite lookup_modify_ring, Nat.eqb_refl, Hring in Hl.
      injection Hl as <-.
      unfold Assembler.ring_at at 1. rewrite lookup_modify_ring.
      destruct (Nat.eqb_spec it ring) as [E|_]; [now elim Hne|]. rewrite Hit.
      cbn [ProtoRing.merge_ring ProtoRing.reverse ProtoRing.with_segments
             ProtoRing.segments].
      apply chain_app;
        [apply chain_reverse; exact (chained_lookup _ _ _ Hc2 Hring)
        |exact (chained_lookup _ _ _ Hc2 Hit)|].
      right; right. symmetry in Hs2. apply Location_eqb_eq in Hs2.
      rewrite Hnr in Hs2. rewrite last_reverse. exact Hs2. }
  apply IH.
  - intros it' r' Hin. rewrite Hr2. now apply Hrest.
  - rewrite (ring_at_same_rings _ _ ring Hr2), (ring_at_lookup _ _ _ Hring).
    exact Hnr.
  - unfold valid. now rewrite Hr2, Hring.
  - exact Hc2.
Qed.

Lemma chained_possibly_combine_rings_front a ring :
  distinct_addresses a -> valid a ring -> chained a ->
  chained (snd (Assembler.possibly_combine_rings_front a ring)).
Proof.
  intros [Hnd _] Hv Hc. unfold Assembler.possibly_combine_rings_front.
  apply chained_possibly_combine_rings_front_loop;
    [|reflexivity|exact Hv|exact Hc].
  intros it r Hin. now apply In_lookup.
Qed.

Section Chains.

Local Abbreviation nothing := (fun _ : ring_ptr => False).
Local Abbreviation any := (fun _ : NodeRefSegment.t => true).

Lemma ready_nothing a b p r :
  Assembler.m_rings b = Assembler.m_rings a ->
  Assembler.next_address b = Assembler.next_address a ->
  distinct_addresses a ->
  Assembler.lookup (Assembler.m_rings a) p = Some r ->
  ready nothing p b.
Proof.
  intros Hr Hn Hd Hl. unfold ready, protected_closed, distinct_addresses, valid.
  rewrite Hr, Hn. refine (conj (fun F => F) (conj _ (conj Hd _))).
  - intros q [].
  - now rewrite Hl.
Qed.

Lemma ready_modify a p f :
  ready nothing p a -> ready nothing p (Assembler.modify_ring a p f).
Proof.
  intros (_ & _ & [Hnd Hlt] & Hv).
  unfold ready, protected_closed, distinct_addresses, valid in *.
  cbn [Assembler.modify_ring Assembler.with_rings Assembler.m_rings
         Assembler.next_address].
  refine (conj (fun F => F) (conj _ (conj (conj _ _) _))).
  - intros q [].
  - now rewrite update_keys.
  - rewrite Forall_forall in *. intros e He.
    assert (K : In (fst e) (map fst (Assembler.m_rings a))).
    { rewrite <- (update_keys _ p f). now apply in_map. }
    apply in_map_iff in K. destruct K as (e' & <- & He'). now apply Hlt.
  - rewrite lookup_update, Nat.eqb_refl.
    destruct (Assembler.lookup (Assembler.m_rings a) p); [discriminate|].
    now elim Hv.
Qed.

Lemma chained_combine_rings_back a segment ring :
  ready nothing ring a -> chained a ->
  (forall r, Assembler.lookup (Assembler.m_rings a) ring = Some r ->
             ProtoRing.segments r = []
             \/ joined (last (ProtoRing.segments r) NodeRefSegment.default)
                       segment) ->
  chained (Assembler.combine_rings_back a segment ring).
Proof.
  intros Hr Hc Hj. unfold Assembler.combine_rings_back.
  pose proof (ready_modify a ring
                (fun r => ProtoRing.add_segment_back r segment) Hr) as R1.
  assert (C1 : chained (Assembler.modify_ring a ring
                          (fun r => ProtoRing.add_segment_back r segment))).
  { apply chained_modify; [exact Hc|]. intros r Hl.
    cbn [ProtoRing.add_segment_back ProtoRing.with_segments
           ProtoRing.segments].
    apply chain_app; [exact (chained_lookup _ _ _ Hc Hl)|exact (conj I I)|].
    destruct (Hj r Hl) as [E|E]; [now left|right; right; exact E]. }
  set (a1 := Assembler.modify_ring a ring
               (fun r => ProtoRing.add_segment_back r segment)) in *.
  pose proof (step_has_closed_subring_back any nothing a1 ring
                (NodeRefSegment.second segment) R1) as S2.
  pose proof (ready_after _ _ _ _ _ _ R1 S2) as R2.
  pose proof (chained_has_closed_subring_back a1 ring
                (NodeRefSegment.second segment) C1) as C2.
  destruct (Assembler.has_closed_subring_back a1 ring
              (NodeRefSegment.second segment)) as [found a2].
  cbn [snd] in *.
  assert (C3 := chained_possibly_combine_rings_back a2 ring
                  (proj1 (proj2 (proj2 R2))) C2).
  destruct (Assembler.possibly_combine_rings_back a2 ring) as [combined a3].
  cbn [snd] in C3.
  destruct combined; [now apply chained_check_for_closed_subring|exact C3].
Qed.

Lemma chained_combine_rings_front a segment ring :
  ready nothing ring a -> chained a ->
  (forall r, Assembler.lookup (Assembler.m_rings a) ring = Some r ->
             ProtoRing.segments r = []
             \/ joined segment
                       (hd NodeRefSegment.default (ProtoRing.segments r))) ->
  chained (Assembler.combine_rings_front a segment ring).
Proof.
  intros Hr Hc Hj. unfold Assembler.combine_rings_front.
  pose proof (ready_modify a ring
                (fun r => ProtoRing.add_segment_front r segment) Hr) as R1.
  assert (C1 : chained (Assembler.modify_ring a ring
                          (fun r => ProtoRing.add_segment_front r segment))).
  { apply chained_modify; [exact Hc|]. intros r Hl.
    cbn [ProtoRing.add_segment_front ProtoRing.with_segments
           ProtoRing.segments].
    apply (chain_app [segment]);
      [exact (conj I I)|exact (chained_lookup _ _ _ Hc Hl)|].
    destruct (Hj r Hl) as [E|E]; [now right; left|right; right; exact E]. }
  set (a1 := Assembler.modify_ring a ring
               (fun r => ProtoRing.add_segment_front r segment)) in *.
  pose proof (step_has_closed_subring_front any nothing a1 ring
                (NodeRefSegment.first segment) R1) as S2.
  pose proof (ready_after _ _ _ _ _ _ R1 S2) as R2.
  pose proof (chained_has_closed_subring_front a1 ring
                (NodeRefSegment.first segment) C1) as C2.
  destruct (Assembler.has_closed_subring_front a1 ring
              (NodeRefSegment.first segment)) as [found a2].
  cbn [snd] in *.
  assert (C3 := chained_possibly_combine_rings_front a2 ring
                  (proj1 (proj2 (proj2 R2))) (proj2 (proj2 (proj2 R2))) C2).
  destruct (Assembler.possibly_combine_rings_front a2 ring) as [combined a3].
  cbn [snd] in C3.
  destruct combined; [now apply chained_check_for_closed_subring|exact C3].
Qed.

Lemma chained_add_to_existing_ring_loop rings segment :
  forall a,
    (forall p r, In (p, r) rings ->
                 Assembler.lookup (Assembler.m_rings a) p = Some r) ->
    distinct_addresses a -> chained a ->
    chained (snd (Assembler.add_to_existing_ring_loop rings segment a)).
Proof.
  induction rings as [|[p ring] rest IH]; intros a Hin Hd Hc; [exact Hc|].
  cbn [Assembler.add_to_existing_ring_loop].
  assert (Hrest : forall q r, In (q, r) rest ->
                    Assembler.lookup (Assembler.m_rings a) q = Some r)
    by (intros; apply Hin; now right).
  pose proof (Hin p ring (or_introl eq_refl)) as Hp.
  destruct (ProtoRing.closed ring); [now apply IH|].
  probe_at same1 a1 Hr1 Hn1 Hs1.
  destruct same1.
  { cbn [snd]. apply chained_combine_rings_back;
      [exact (ready_nothing _ _ _ _ Hr1 Hn1 Hd Hp)
      |exact (chained_same_rings _ _ Hr1 Hc)|].
    intros r Hl. rewrite Hr1, Hp in Hl. injection Hl as <-. right.
    symmetry in Hs1. now apply Location_eqb_eq in Hs1. }
  probe_at same2 a2 Hr2 Hn2 Hs2. rewrite Hr1 in Hr2. rewrite Hn1 in Hn2.
  destruct same2.
  { cbn [snd]. apply chained_combine_rings_back;
      [exact (ready_nothing _ _ _ _ Hr2 Hn2 Hd Hp)
      |exact (chained_same_rings _ _ Hr2 Hc)|].
    intros r Hl. rewrite Hr2, Hp in Hl. injection Hl as <-. right.
    symmetry in Hs2. now apply Location_eqb_eq in Hs2. }
  probe_at same3 a3 Hr3 Hn3 Hs3. rewrite Hr2 in Hr3. rewrite Hn2 in Hn3.
  destruct same3.
  { cbn [snd]. apply chained_combine_rings_front;
      [exact (ready_nothing _ _ _ _ Hr3 Hn3 Hd Hp)
      |exact (chained_same_rings _ _ Hr3 Hc)|].
    intros r Hl. rewrite Hr3, Hp in Hl. injection Hl as <-. right.
    symmetry in Hs3. apply Location_eqb_eq in Hs3. symmetry. exact Hs3. }
  probe_at same4 a4 Hr4 Hn4 Hs4. rewrite Hr3 in Hr4. rewrite Hn3 in Hn4.
  destruct same4.
  { cbn [snd]. apply chained_combine_rings_front;
      [exact (ready_nothing _ _ _ _ Hr4 Hn4 Hd Hp)
      |exact (chained_same_rings _ _ Hr4 Hc)|].
    intros r Hl. rewrite Hr4, Hp in Hl. injection Hl as <-. right.
    symmetry in Hs4. apply Location_eqb_eq in Hs4. symmetry. exact Hs4. }
  apply IH.
  - intros q r Hq. rewrite Hr4. now apply Hrest.
  - destruct Hd as [Hnd Hlt]. split; rewrite Hr4; [exact Hnd|].
    now rewrite Hn4.
  - exact (chained_same_rings _ _ Hr4 Hc).
Qed.

Lemma chained_add_segments segments :
  forall a,
    distinct_addresses a -> chained a ->
    chained (Assembler.add_segments segments a).
Proof.
  induction segments as [|segment rest IH]; intros a Hd Hc; [exact Hc|].
  cbn [Assembler.add_segments]. unfold Assembler.add_to_existing_ring.
  assert (Hin : forall p r, In (p, r) (Assembler.m_rings a) ->
                  Assembler.lookup (Assembler.m_rings a) p = Some r)
    by (intros p r; apply In_lookup, Hd).
  assert (Hp : protected_closed nothing a) by (intros q []).
  pose proof (steps_add_to_existing_ring_loop any (fun _ => eq_refl) nothing
                (Assembler.m_rings a) segment a Hin Hp Hd) as (Hd1 & Hp1 & _).
  pose proof (chained_add_to_existing_ring_loop
                (Assembler.m_rings a) segment a Hin Hd Hc) as Hc1.
  destruct (Assembler.add_to_existing_ring_loop (Assembler.m_rings a)
              segment a) as [added a1].
  cbn [snd] in *. destruct added; [now apply IH|].
  pose proof (steps_push_back any nothing a1 (ProtoRing.of_segment segment)
                (conj eq_refl eq_refl) Hp1 Hd1) as (Hd2 & _).
  apply IH; [exact Hd2|]. apply chained_push_back; [exact Hc1|].
  exact (conj I I).
Qed.

End Chains.

Lemma chained_fold_left {A : Type} (f : Assembler.t -> A -> Assembler.t) :
  (forall a x, chained a -> chained (f a x)) ->
  forall l a, chained a -> chained (fold_left f l a).
Proof.
  intros Hf l. induction l as [|x l IH]; intros a Ha; simpl; auto.
Qed.

Lemma chained_classify_ring a ring :
  chained a -> chained (Assembler.classify_ring a ring).
Proof.
  intros Ha. unfold Assembler.classify_ring.
  assert (H1 : chained (Assembler.check_inner_outer a ring)).
  { apply chained_modify; [exact Ha|]. intros r Hl.
    rewrite check_inner_outer_ring_segments.
    exact (chained_lookup _ _ _ Ha Hl). }
  set (a1 := Assembler.check_inner_outer a ring) in *.
  assert (H2 : chained (Assembler.modify_ring a1 ring ProtoRing.reverse)).
  { apply chained_modify; [exact H1|]. intros r Hl.
    apply chain_reverse. exact (chained_lookup _ _ _ H1 Hl). }
  destruct (ProtoRing.outer (Assembler.ring_at a1 ring)).
  - destruct (negb (ProtoRing.is_cw (Assembler.ring_at a1 ring)));
      [exact H2|exact H1].
  - destruct (ProtoRing.is_cw (Assembler.ring_at a1 ring));
      [exact H2|exact H1].
Qed.

Lemma chained_add_inner_ring a outer inner :
  chained a ->
  chained
    (Assembler.modify_ring a outer (fun r => ProtoRing.add_inner_ring r inner)).
Proof.
  intros Ha. apply chained_modify; [exact Ha|]. intros r Hl.
  exact (chained_lookup _ _ _ Ha Hl).
Qed.

Lemma chained_add_to_first_outer inner outers :
  forall a, chained a -> chained (Assembler.add_to_first_outer a inner outers).
Proof.
  induction outers as [|outer rest IH]; intros a Ha; simpl; [exact Ha|].
  destruct (ProtoRing.is_in _ _); [now apply chained_add_inner_ring|].
  now apply IH.
Qed.

Lemma chained_assign_inner_rings a :
  chained a -> chained (Assembler.assign_inner_rings a).
Proof.
  intros Ha. unfold Assembler.assign_inner_rings.
  destruct (length (Assembler.m_outer_rings a) =? 1).
  - apply chained_fold_left; [|exact Ha].
    intros b inner Hb. now apply chained_add_inner_ring.
  - apply chained_fold_left; [|exact Ha].
    intros b inner Hb. now apply chained_add_to_first_outer.
Qed.

Lemma chained_create_rings a :
  distinct_addresses a -> chained a ->
  chained (snd (Assembler.create_rings a)).
Proof.
  intros Hd Hc. unfold Assembler.create_rings, Assembler.find_intersections.
  destruct (SegmentList.find_intersections
              (Assembler.m_segment_list (Assembler.normalize a)) _ _)
    as [found reports].
  destruct found; [exact Hc|].
  match goal with
  | |- context [Assembler.add_segments ?l ?b] =>
      pose proof (chained_add_segments l b Hd Hc) as H3;
      destruct (check_for_open_rings_reports_open_rings
                  (Assembler.add_segments l b)) as (_ & _ & Hr & _);
      destruct (Assembler.check_for_open_rings (Assembler.add_segments l b))
        as [open a4]
  end.
  cbn [snd] in *. pose proof (chained_same_rings _ _ Hr H3) as H4.
  destruct open; [exact H4|]. cbn [snd].
  match goal with
  | |- chained (Assembler.check_inner_outer_roles ?b) =>
      destruct (same_rings_check_inner_outer_roles b) as (Hr' & _);
      apply (chained_same_rings _ _ Hr')
  end.
  destruct (length (Assembler.m_rings a4) =? 1); [exact H4|].
  apply chained_assign_inner_rings. unfold Assembler.classify_rings.
  apply chained_fold_left; [|exact H4].
  intros b p. apply chained_classify_ring.
Qed.

(** The nodes a ring builder receives for a chain: one more than the ring
    has segments, and from each to the next runs the segment at that
    position. *)
Lemma ring_nodes_of_chain r :
  chain (ProtoRing.segments r) ->
  forall i,
    i < length (ProtoRing.segments r) ->
    NodeRef.location (nth i (Assembler.ring_nodes r) NodeRef.default)
    = NodeRef.location
        (NodeRefSegment.first
           (nth i (ProtoRing.segments r) NodeRefSegment.default))
    /\ nth (S i) (Assembler.ring_nodes r) NodeRef.default
       = NodeRefSegment.second
           (nth i (ProtoRing.segments r) NodeRefSegment.default).
Proof.
  intros Hc i Hi. unfold Assembler.ring_nodes, ProtoRing.get_segment_front.
  assert (Hsnd : forall j,
             nth j (map NodeRefSegment.second (ProtoRing.segments r))
                 NodeRef.default
             = NodeRefSegment.second
                 (nth j (ProtoRing.segments r) NodeRefSegment.default)).
  { intros j.
    change NodeRef.default
      with (NodeRefSegment.second NodeRefSegment.default) at 1.
    apply map_nth. }
  split; [|cbn [nth]; apply Hsnd].
  destruct i as [|i].
  - cbn [nth]. now destruct (ProtoRing.segments r).
  - cbn [nth]. rewrite Hsnd. apply chain_nth; [exact Hc|exact Hi].
Qed.

(** X17: rings are chains.  The stitching keeps every ring a chain of
    segments in which each segment starts at the location where the one
    before it ends, whatever becomes of [create_rings]; when it succeeds
    every ring is a closed chain, and of the nodes a ring of the area is
    made of, each is at the start of the segment at its position and the
    next one is the end of that segment. *)
Theorem rings_are_closed_chains :
  forall a,
    distinct_addresses a ->
    chained a ->
    (forall segments, chained (Assembler.add_segments segments a))
    /\ chained (snd (Assembler.create_rings a))
    /\ (fst (Assembler.create_rings a) = true ->
        forall p ring,
          Assembler.lookup
            (Assembler.m_rings (snd (Assembler.create_rings a))) p
          = Some ring ->
          chain (ProtoRing.segments ring)
          /\ ProtoRing.closed ring = true
          /\ forall i,
               i < length (ProtoRing.segments ring) ->
               NodeRef.location
                 (nth i (Assembler.ring_nodes ring) NodeRef.default)
               = NodeRef.location
                   (NodeRefSegment.first
                      (nth i (ProtoRing.segments ring)
                           NodeRefSegment.default))
               /\ nth (S i) (Assembler.ring_nodes ring) NodeRef.default
                  = NodeRefSegment.second
                      (nth i (ProtoRing.segments ring)
                           NodeRefSegment.default)).
Proof.
  intros a Hd Hc.
  pose proof (chained_create_rings a Hd Hc) as Hc'.
  refine (conj (fun segments => chained_add_segments segments a Hd Hc)
               (conj Hc' _)).
  intros Hok p ring Hl.
  pose proof (chained_lookup _ _ _ Hc' Hl) as Hchain.
  refine (conj Hchain (conj _ (ring_nodes_of_chain ring Hchain))).
  exact (create_rings_all_closed a Hok p ring Hl).
Qed.

(** The way whose nodes 1 and 4 are at the same place: it gives two rings,
    each a closed chain of three segments. *)
Lemma rings_are_closed_chains_witness :
  let a := Assembler.begin_way Examples.fresh (WayPtr.make 0 Examples.bow_tie) in
  distinct_addresses a
  /\ fst (Assembler.create_rings a) = true
  /\ map (fun e => length (ProtoRing.segments (snd e)))
         (Assembler.m_rings (snd (Assembler.create_rings a))) = [3; 3]
  /\ chained (snd (Assembler.create_rings a)).
Proof.
  set (a := Assembler.begin_way Examples.fresh (WayPtr.make 0 Examples.bow_tie)).
  assert (Hd : distinct_addresses a) by (split; constructor).
  assert (Hc : chained a) by constructor.
  cbn zeta. split; [exact Hd|]. split; [reflexivity|]. split; [reflexivity|].
  exact (proj1 (proj2 (rings_are_closed_chains a Hd Hc))).
Defined.

(** ** The direction of the rings *)

Lemma sum_from l :
  forall acc : Z,
    fold_left
      (fun acc s =>
         let a := NodeRef.location (NodeRefSegment.first s) in
         let b := NodeRef.location (NodeRefSegment.second s) in
         acc + (Location.x b * Location.y a - Location.x a * Location.y b))%Z
      l acc
    = (acc + ProtoRing.sum (ProtoRing.make l true []))%Z.
Proof.
  unfold ProtoRing.sum. cbn [ProtoRing.segments].
  induction l as [|s l IH]; intros acc; cbn [fold_left].
  - lia.
  - rewrite IH. rewrite (IH (0 + _)%Z). lia.
Qed.

Lemma sum_reverse r :
  ProtoRing.sum (ProtoRing.reverse r) = (- ProtoRing.sum r)%Z.
Proof.
  unfold ProtoRing.sum, ProtoRing.reverse.
  cbn [ProtoRing.with_segments ProtoRing.segments].
  induction (ProtoRing.segments r) as [|s l IH]; [reflexivity|].
  cbn [map rev fold_left]. rewrite fold_left_app. cbn [fold_left].
  rewrite IH. rewrite (sum_from l (0 + _)%Z). unfold ProtoRing.sum.
  cbn [ProtoRing.segments NodeRefSegment.swap_locations NodeRefSegment.first
         NodeRefSegment.second].
  ring.
Qed.

Lemma area_reverse r :
  ProtoRing.area (ProtoRing.reverse r) = (- ProtoRing.area r)%Z.
Proof.
  unfold ProtoRing.area. rewrite sum_reverse. apply Z.quot_opp_l. lia.
Qed.

Lemma classify_ring_oriented a p :
  oriented (Assembler.ring_at (Assembler.classify_ring a p) p)
  /\ forall q,
       q <> p ->
       Assembler.ring_at (Assembler.classify_ring a p) q
       = Assembler.ring_at a q.
Proof.
  unfold Assembler.classify_ring.
  set (a1 := Assembler.check_inner_outer a p).
  assert (M1 : forall q, q <> p ->
                 Assembler.ring_at a1 q = Assembler.ring_at a q).
  { intros q Hq. unfold a1, Assembler.check_inner_outer.
    rewrite ring_at_modify_ring. apply Nat.eqb_neq in Hq. now rewrite Hq. }
  assert (Mrev : forall q, q <> p ->
                   Assembler.ring_at
                     (Assembler.modify_ring a1 p ProtoRing.reverse) q
                   = Assembler.ring_at a q).
  { intros q Hq. rewrite ring_at_modify_ring.
    destruct (Nat.eqb_spec q p) as [E|_]; [now elim Hq|]. now apply M1. }
  assert (Hrev : Assembler.ring_at
                   (Assembler.modify_ring a1 p ProtoRing.reverse) p
                 = ProtoRing.reverse (Assembler.ring_at a1 p)).
  { rewrite ring_at_modify_ring, Nat.eqb_refl. unfold Assembler.ring_at.
    now destruct (Assembler.lookup (Assembler.m_rings a1) p). }
  destruct (ProtoRing.outer (Assembler.ring_at a1 p)) eqn:Eo;
    destruct (ProtoRing.is_cw (Assembler.ring_at a1 p)) eqn:Ec;
    cbn [negb];
    match goal with
    | |- oriented (Assembler.ring_at (_ ?b _) p) /\ _ =>
        change (oriented (Assembler.ring_at b p)
                /\ forall q, q <> p ->
                     Assembler.ring_at b q = Assembler.ring_at a q)
    end;
    (split; [|assumption]);
    unfold oriented; rewrite ?Hrev; cbn [ProtoRing.reverse ProtoRing.outer
      ProtoRing.with_segments ProtoRing.m_outer];
    fold (ProtoRing.outer (Assembler.ring_at a1 p)); rewrite Eo;
    try (fold (ProtoRing.reverse (Assembler.ring_at a1 p));
         rewrite sum_reverse);
    unfold ProtoRing.is_cw in Ec;
    [apply Z.ltb_lt in Ec|apply Z.ltb_ge in Ec
    |apply Z.ltb_lt in Ec|apply Z.ltb_ge in Ec]; lia.
Qed.

Lemma classify_rings_oriented ks :
  forall a q,
    In q ks ->
    oriented (Assembler.ring_at (fold_left Assembler.classify_ring ks a) q).
Proof.
  induction ks as [|p ks IH] using rev_ind; intros a q Hin; [destruct Hin|].
  rewrite fold_left_app. cbn [fold_left].
  destruct (classify_ring_oriented
              (fold_left Assembler.classify_ring ks a) p) as [Ho Hf].
  destruct (Nat.eq_dec q p) as [->|Hne]; [exact Ho|].
  rewrite (Hf q Hne). apply IH. apply in_app_or in Hin.
  destruct Hin as [H|[H|[]]]; [exact H|]. now elim Hne.
Qed.

Lemma classify_rings_keys ks :
  forall a,
    map fst (Assembler.m_rings (fold_left Assembler.classify_ring ks a))
    = map fst (Assembler.m_rings a).
Proof.
  induction ks as [|p ks IH]; intros a; [reflexivity|].
  cbn [fold_left]. rewrite IH. apply (classify_ring_marks a p).
Qed.

Lemma oriented_assign_inner_rings a q :
  oriented (Assembler.ring_at a q) ->
  oriented (Assembler.ring_at (Assembler.assign_inner_rings a) q).
Proof.
  unfold oriented.
  destruct (same_marks_assign_inner_rings a) as [_ Hm].
  destruct (assign_inner_rings_spec a) as ((_ & _ & _ & _ & Hseg) & _).
  rewrite Hm. unfold ProtoRing.sum. rewrite (Hseg q). exact (fun H => H).
Qed.

(** X18: the direction of the rings when there are several.  When
    [create_rings] succeeds and the assembler holds more or less than one
    ring, no ring that is marked outer runs counter-clockwise (its signed
    area, half of [sum], is not negative) and no ring that is marked inner
    runs clockwise. *)
Theorem several_rings_are_oriented :
  forall a,
    fst (Assembler.create_rings a) = true ->
    let a' := snd (Assembler.create_rings a) in
    length (Assembler.m_rings a') <> 1 ->
    forall p ring,
      Assembler.lookup (Assembler.m_rings a') p = Some ring ->
      (ProtoRing.outer ring = true ->
       (0 <= ProtoRing.sum ring)%Z
       /\ (ProtoRing.is_cw ring = true \/ ProtoRing.sum ring = 0%Z))
      /\ (ProtoRing.outer ring = false ->
          (ProtoRing.sum ring <= 0)%Z /\ ProtoRing.is_cw ring = false).
Proof.
  intros a. unfold Assembler.create_rings.
  destruct (Assembler.find_intersections (Assembler.normalize a))
    as [found a2].
  destruct found; [discriminate|].
  destruct (check_for_open_rings_reports_open_rings
              (Assembler.add_segments (Assembler.m_segment_list a2) a2))
    as (_ & _ & Hr4 & _).
  destruct (Assembler.check_for_open_rings
              (Assembler.add_segments (Assembler.m_segment_list a2) a2))
    as [open a4].
  cbn [snd] in Hr4. destruct open; [discriminate|]. intros _.
  cbn [snd]. cbn zeta.
  match goal with
  | |- context [Assembler.check_inner_outer_roles ?b] =>
      destruct (same_rings_check_inner_outer_roles b) as (R1 & _)
  end.
  rewrite R1. clear R1.
  destruct (length (Assembler.m_rings a4) =? 1) eqn:E.
  { apply Nat.eqb_eq in E. intros Hlen. now elim Hlen. }
  intros _ p ring Hl.
  assert (Ho : oriented ring).
  { rewrite <- (ring_at_lookup _ _ _ Hl).
    apply oriented_assign_inner_rings. unfold Assembler.classify_rings.
    apply classify_rings_oriented.
    rewrite <- (classify_rings_keys (map fst (Assembler.m_rings a4)) a4).
    fold (Assembler.classify_rings a4).
    destruct (same_marks_assign_inner_rings (Assembler.classify_rings a4))
      as [K _].
    rewrite <- K. apply lookup_In in Hl.
    exact (in_map fst _ _ Hl). }
  unfold oriented in Ho. unfold ProtoRing.is_cw.
  split; intros Hm; rewrite Hm in Ho; (split; [exact Ho|]).
  - destruct (Z.ltb_spec 0 (ProtoRing.sum ring)); [now left|right; lia].
  - now apply Z.ltb_ge.
Qed.

(** The square with the hole of scenario 2: twice the signed area is 200
    for the ring of the square and -16 for the ring of the hole. *)
Lemma several_rings_are_oriented_witness :
  let a :=
    Assembler.begin_relation Examples.fresh Examples.square_with_hole [0; 1]
                             Examples.square_with_hole_buffer in
  fst (Assembler.create_rings a) = true
  /\ map (fun e => (ProtoRing.outer (snd e), ProtoRing.sum (snd e)))
         (Assembler.m_rings (snd (Assembler.create_rings a)))
     = [(true, 200%Z); (false, (-16)%Z)]
  /\ (forall p ring,
        Assembler.lookup (Assembler.m_rings (snd (Assembler.create_rings a))) p
        = Some ring ->
        (ProtoRing.outer ring = true ->
         (0 <= ProtoRing.sum ring)%Z
         /\ (ProtoRing.is_cw ring = true \/ ProtoRing.sum ring = 0%Z))
        /\ (ProtoRing.outer ring = false ->
            (ProtoRing.sum ring <= 0)%Z /\ ProtoRing.is_cw ring = false)).
Proof.
  set (a := Assembler.begin_relation Examples.fresh Examples.square_with_hole
              [0; 1] Examples.square_with_hole_buffer).
  assert (Hok : fst (Assembler.create_rings a) = true) by reflexivity.
  assert (Hlen : length (Assembler.m_rings (snd (Assembler.create_rings a)))
                 <> 1) by (vm_compute; discriminate).
  cbn zeta. split; [exact Hok|]. split; [reflexivity|].
  exact (several_rings_are_oriented a Hok Hlen).
Defined.

(** The triangle of area one half next to the square: the stitching leaves
    its ring clockwise, with a shoelace sum of 1, and the loop over the
    rings leaves it as it is. *)
Lemma small_triangle_stays_clockwise :
  let a :=
    Assembler.begin_relation Examples.fresh Examples.triangle_and_square
      [0; 1] [Examples.unit_triangle; Examples.untagged_square] in
  fst (Assembler.create_rings a) = true
  /\ map (fun e => (ProtoRing.sum (snd e), ProtoRing.is_cw (snd e)))
         (Assembler.m_rings (Assembler.stitched a))
     = [(1%Z, true); (200%Z, true)]
  /\ map (fun e => (ProtoRing.outer (snd e), ProtoRing.sum (snd e),
                    ProtoRing.is_cw (snd e)))
         (Assembler.m_rings (snd (Assembler.create_rings a)))
     = [(true, 1%Z, true); (true, 200%Z, true)].
Proof. vm_compute. repeat split. Qed.

(** ** The areas of the inner ways *)

Lemma assemble_way_from_empty_buffer a way out :
  snd (Assembler.assemble_way a way out)
  = out ++ snd (Assembler.assemble_way a way []).
Proof.
  unfold Assembler.assemble_way.
  destruct (Assembler.create_rings (Assembler.begin_way a way)) as [ok a4].
  reflexivity.
Qed.

Lemma assemble_way_any_reports config reports way out :
  snd (Assembler.assemble_way (Assembler.create config reports) way out)
  = snd (Assembler.assemble_way (Assembler.create config []) way out).
Proof.
  pose proof (assemble_way_muted (Assembler.create config reports) [] way out)
    as H1.
  pose proof (assemble_way_muted (Assembler.create config []) [] way out)
    as H2.
  change (muted (Assembler.create config reports) [])
    with (muted (Assembler.create config []) []) in H1.
  rewrite H1 in H2. now injection H2.
Qed.

Lemma assemble_inner_ways_areas config relation_members :
  forall members in_buffer area_tags reports out,
    snd (Assembler.assemble_inner_ways config relation_members members
           in_buffer area_tags reports out)
    = out
        ++ flat_map
             (fun offset =>
                snd (Assembler.assemble_way (Assembler.create config [])
                       (get_way in_buffer offset) []))
             (inner_way_offsets relation_members members in_buffer area_tags).
Proof.
  induction relation_members as [|memit rest IH];
    intros [|offset members] in_buffer area_tags reports out;
    cbn [Assembler.assemble_inner_ways inner_way_offsets flat_map snd];
    try now rewrite app_nil_r.
  destruct (Assembler.inner_way_is_area _ _ _); [|apply IH].
  pose proof (assemble_way_from_empty_buffer (Assembler.create config reports)
                (get_way in_buffer offset) out) as Happ.
  rewrite (assemble_way_any_reports config reports _ []) in Happ.
  destruct (Assembler.assemble_way (Assembler.create config reports)
              (get_way in_buffer offset) out) as [a' out'].
  cbn [snd] in Happ. rewrite IH, Happ. cbn [flat_map].
  now rewrite <- app_assoc.
Qed.

(** X19: the areas of the inner ways.  What the relation entry point emits
    after the area of the relation is, for each member way it picks and in
    their order, the area that the way entry point emits for that way on a
    newly constructed assembler; neither the relation, nor the state of the
    assembler, nor what has been reported before has a part in it.  With a
    mismatch of roles nothing is emitted after the area of the relation. *)
Theorem inner_ways_are_assembled_on_their_own :
  forall a relation members in_buffer out,
    let result :=
      Assembler.assemble_relation a relation members in_buffer out in
    let area :=
      nth (length out) (snd result)
          (Assembler.initialize_area_from_object empty_object 0) in
    skipn (S (length out)) (snd result)
    = if (Assembler.m_inner_outer_mismatches (fst result) =? 0)%Z
      then flat_map
             (fun offset =>
                snd (Assembler.assemble_way
                       (Assembler.create (Assembler.m_config (fst result)) [])
                       (get_way in_buffer offset) []))
             (inner_way_offsets (Relation.members relation) members in_buffer
                                (Area.tags area))
      else [].
Proof.
  intros a relation members in_buffer out. cbn zeta.
  unfold Assembler.assemble_relation.
  destruct (Assembler.create_rings
              (Assembler.begin_relation a relation members in_buffer))
    as [ok a3].
  match goal with
  | |- context [out ++ [?b]] => set (builder := b)
  end.
  assert (Hskip : forall rest : OutBuffer,
             skipn (S (length out)) ((out ++ [builder]) ++ rest) = rest).
  { intros rest. rewrite <- app_assoc.
    replace (S (length out)) with (length out + 1) by lia.
    rewrite skipn_app, skipn_all2 by lia.
    replace (length out + 1 - length out) with 1 by lia. reflexivity. }
  assert (Hnth : forall rest : OutBuffer,
             nth (length out) ((out ++ [builder]) ++ rest)
                 (Assembler.initialize_area_from_object empty_object 0)
             = builder).
  { intros rest. rewrite <- app_assoc. rewrite app_nth2 by lia.
    now rewrite Nat.sub_diag. }
  destruct (Assembler.m_inner_outer_mismatches a3 =? 0)%Z eqn:E.
  - pose proof (assemble_inner_ways_areas (Assembler.m_config a3)
                  (Relation.members relation) members in_buffer
                  (Area.tags builder) (Assembler.reporter a3)
                  (out ++ [builder])) as Hloop.
    destruct (Assembler.assemble_inner_ways (Assembler.m_config a3)
                (Relation.members relation) members in_buffer
                (Area.tags builder) (Assembler.reporter a3)
                (out ++ [builder])) as [reports out2].
    cbn [fst snd Assembler.with_reporter Assembler.m_inner_outer_mismatches
           Assembler.m_config] in *.
    rewrite E, Hloop, Hskip, Hnth. reflexivity.
  - cbn [fst snd]. rewrite E. rewrite <- (app_nil_r (out ++ [builder])).
    apply Hskip.
Qed.

(** ** The output buffer *)

Lemma int64_even z : Z.even (Assembler.int64 z) = Z.even z.
Proof.
  unfold Assembler.int64.
  rewrite (Z.mod_eq (z + 2 ^ 63) (2 ^ 64)) by lia.
  replace (z + 2 ^ 63 - 2 ^ 64 * ((z + 2 ^ 63) / 2 ^ 64) - 2 ^ 63)%Z
    with (z + 2 * (- 2 ^ 63 * ((z + 2 ^ 63) / 2 ^ 64)))%Z by ring.
  apply Z.even_add_mul_2.
Qed.

Lemma int64_in_range z :
  (- 2 ^ 63 <= z < 2 ^ 63)%Z -> Assembler.int64 z = z.
Proof.
  intros H. unfold Assembler.int64. rewrite Z.mod_small; lia.
Qed.

Lemma area_id_parity id :
  Z.even (Assembler.area_id id 0) = true
  /\ Z.odd (Assembler.area_id id 1) = true.
Proof.
  unfold Assembler.area_id. split.
  - rewrite int64_even, Z.add_0_r, int64_even, Z.mul_comm.
    apply Z.even_mul.
  - rewrite <- Z.negb_even, int64_even, Z.even_add, int64_even, Z.mul_comm.
    now rewrite Z.even_mul.
Qed.

Lemma area_id_in_range id id_offset :
  (- 2 ^ 62 <= id < 2 ^ 62)%Z -> (0 <= id_offset <= 1)%Z ->
  Assembler.area_id id id_offset = (id * 2 + id_offset)%Z.
Proof.
  intros H1 H2. unfold Assembler.area_id.
  rewrite (int64_in_range (id * 2)) by lia. apply int64_in_range. lia.
Qed.

Lemma assemble_way_area a way out :
  exists tags rings,
    snd (Assembler.assemble_way a way out)
    = out ++ [Area.make (Assembler.area_id (Way.id (WayPtr.deref way)) 0)
                (Object.version (Way.object (WayPtr.deref way)))
                (Object.changeset (Way.object (WayPtr.deref way)))
                (Object.timestamp (Way.object (WayPtr.deref way)))
                (Object.visible (Way.object (WayPtr.deref way)))
                (Object.uid (Way.object (WayPtr.deref way)))
                (Object.user (Way.object (WayPtr.deref way)))
                tags rings].
Proof.
  unfold Assembler.assemble_way.
  destruct (Assembler.create_rings (Assembler.begin_way a way)) as [[|] a4];
    cbn [snd]; eexists; eexists; reflexivity.
Qed.

(** X20: the entry points append to the output buffer.  The areas committed
    before a call stay as they are.  The way entry point adds one area, with
    the attributes of the way; the relation entry point adds an area with
    the attributes of the relation, followed by the areas of inner ways.
    The id of an area is computed in [int64_t], twice the id of the object
    for a way and one more for a relation: this is the number itself while
    the id of the object is at least -2^62 and less than 2^62, and what the
    wrap-around leaves of it otherwise; either way the id of an area made
    of a way is even and that of an area made of a relation is odd. *)
Theorem entry_points_append_to_the_buffer :
  (forall a way out,
     exists tags rings,
       snd (Assembler.assemble_way a way out)
       = out ++ [Area.make (Assembler.area_id (Way.id (WayPtr.deref way)) 0)
                   (Object.version (Way.object (WayPtr.deref way)))
                   (Object.changeset (Way.object (WayPtr.deref way)))
                   (Object.timestamp (Way.object (WayPtr.deref way)))
                   (Object.visible (Way.object (WayPtr.deref way)))
                   (Object.uid (Way.object (WayPtr.deref way)))
                   (Object.user (Way.object (WayPtr.deref way)))
                   tags rings])
  /\ (forall a relation members in_buffer out,
        exists tags rings more,
          snd (Assembler.assemble_relation a relation members in_buffer out)
          = out ++ Area.make (Assembler.area_id (Relation.id relation) 1)
                     (Object.version (Relation.object relation))
                     (Object.changeset (Relation.object relation))
                     (Object.timestamp (Relation.object relation))
                     (Object.visible (Relation.object relation))
                     (Object.uid (Relation.object relation))
                     (Object.user (Relation.object relation))
                     tags rings
                   :: more
          /\ Forall (fun area => Z.even (Area.id area) = true) more)
  /\ (forall id,
        Z.even (Assembler.area_id id 0) = true
        /\ Z.odd (Assembler.area_id id 1) = true
        /\ ((- 2 ^ 62 <= id < 2 ^ 62)%Z ->
            Assembler.area_id id 0 = (id * 2)%Z
            /\ Assembler.area_id id 1 = (id * 2 + 1)%Z)
        /\ Assembler.area_id (2 ^ 62) 0 = (- 2 ^ 63)%Z).
Proof.
  split; [exact assemble_way_area|]. split.
  2:{ intros id. destruct (area_id_parity id) as [He Ho].
      refine (conj He (conj Ho (conj _ eq_refl))). intros Hid.
      rewrite !area_id_in_range by lia. split; lia. }
  intros a relation members in_buffer out.
  unfold Assembler.assemble_relation.
  destruct (Assembler.create_rings
              (Assembler.begin_relation a relation members in_buffer))
    as [ok a3].
  match goal with
  | |- context [out ++ [?b]] => set (builder := b)
  end.
  assert (Hb : exists tags rings,
             builder
             = Area.make (Assembler.area_id (Relation.id relation) 1)
                 (Object.version (Relation.object relation))
                 (Object.changeset (Relation.object relation))
                 (Object.timestamp (Relation.object relation))
                 (Object.visible (Relation.object relation))
                 (Object.uid (Relation.object relation))
                 (Object.user (Relation.object relation))
                 tags rings).
  { unfold builder. destruct ok; eexists; eexists; reflexivity. }
  destruct Hb as (tags & rings & Hb).
  exists tags, rings.
  destruct (Assembler.m_inner_outer_mismatches a3 =? 0)%Z.
  - pose proof (assemble_inner_ways_areas (Assembler.m_config a3)
                  (Relation.members relation) members in_buffer
                  (Area.tags builder) (Assembler.reporter a3)
                  (out ++ [builder])) as Hloop.
    destruct (Assembler.assemble_inner_ways (Assembler.m_config a3)
                (Relation.members relation) members in_buffer
                (Area.tags builder) (Assembler.reporter a3)
                (out ++ [builder])) as [reports out2].
    cbn [snd] in *. rewrite Hloop, <- app_assoc, Hb. cbn [app].
    eexists. split; [reflexivity|].
    apply Forall_flat_map, Forall_forall. intros offset _.
    destruct (assemble_way_area
                (Assembler.create (Assembler.m_config a3) [])
                (get_way in_buffer offset) []) as (t & r & ->).
    constructor; [|constructor]. cbn [app Area.id].
    apply area_id_parity.
  - exists []. cbn [snd]. rewrite Hb. split; [reflexivity|constructor].
Qed.

(** ** The ring a segment goes to *)

Lemma has_same_location_cases a nr1 nr2 :
  (Location.eqb (NodeRef.location nr1) (NodeRef.location nr2) = true
   /\ fst (Assembler.has_same_location a nr1 nr2) = true)
  \/ (Location.eqb (NodeRef.location nr1) (NodeRef.location nr2) = false
      /\ Assembler.has_same_location a nr1 nr2 = (false, a)).
Proof.
  pose proof (has_same_location_fst a nr1 nr2) as Hs.
  pose proof (has_same_location_false a nr1 nr2) as Hf.
  destruct (Assembler.has_same_location a nr1 nr2) as [[|] a1];
    cbn [fst snd] in *.
  - left. now split.
  - right. split; [now symmetry|]. now rewrite Hf.
Qed.

Ltac probe_case a x y :=
  let E := fresh "E" in
  let F := fresh "F" in
  let same := fresh "same" in
  let a1 := fresh "a" in
  destruct (has_same_location_cases a x y) as [[E F]|[E F]];
  [rewrite E; cbn [orb];
   repeat match goal with
          | H : Location.eqb _ _ = _ |- _ => progress rewrite H
          end;
   destruct (Assembler.has_same_location a x y) as [same a1];
   cbn [fst snd] in F |- *; subst same; reflexivity
  |rewrite E, F; cbn [orb]].

Lemma add_to_existing_ring_loop_first rings segment :
  forall a,
    Assembler.add_to_existing_ring_loop rings segment a
    = match find (takes segment) rings with
      | None => (false, a)
      | Some (p, ring) => (true, attached a segment p ring)
      end.
Proof.
  induction rings as [|[p ring] rest IH]; intros a; [reflexivity|].
  cbn [Assembler.add_to_existing_ring_loop find].
  unfold takes at 1. cbn [snd]. unfold meets, attached.
  destruct (ProtoRing.closed ring); cbn [negb andb]; [apply IH|].
  probe_case a (NodeRefSegment.second (ProtoRing.get_segment_back ring))
             (NodeRefSegment.first segment).
  probe_case a (NodeRefSegment.second (ProtoRing.get_segment_back ring))
             (NodeRefSegment.second segment).
  probe_case a (NodeRefSegment.first (ProtoRing.get_segment_front ring))
             (NodeRefSegment.first segment).
  probe_case a (NodeRefSegment.first (ProtoRing.get_segment_front ring))
             (NodeRefSegment.second segment).
  apply IH.
Qed.

(** X21: the ring a segment goes to.  [add_to_existing_ring] gives the
    segment to the first ring of the list that is open and has an end where
    the segment has one, attaching it at the end of the ring rather than at
    its start and by its first node rather than by its second; the probes
    that failed before have changed nothing.  If there is no such ring it
    returns false and leaves the assembler as it is. *)
Theorem segment_goes_to_the_first_ring_it_meets :
  forall a segment,
    Assembler.add_to_existing_ring a segment
    = match find (takes segment) (Assembler.m_rings a) with
      | None => (false, a)
      | Some (p, ring) => (true, attached a segment p ring)
      end.
Proof.
  intros a segment. apply add_to_existing_ring_loop_first.
Qed.

(** ** The rings that are split off *)

Lemma in_combine_seq l :
  forall start it (s : NodeRefSegment.t),
    In (it, s) (combine (seq start (length l)) l) ->
    start <= it /\ it - start < length l
    /\ nth (it - start) l NodeRefSegment.default = s.
Proof.
  induction l as [|h l IH]; intros start it s Hin; [destruct Hin|].
  cbn [length seq combine] in Hin. destruct Hin as [Heq|Hin].
  - injection Heq as <- <-. rewrite Nat.sub_diag. cbn. repeat split; lia.
  - destruct (IH _ _ _ Hin) as (H1 & H2 & H3).
    replace (it - start) with (S (it - S start)) by lia.
    cbn [nth length]. repeat split; try lia. exact H3.
Qed.

Lemma inner_positions_nth l it s :
  In (it, s) (Assembler.inner_positions l) ->
  it < length l /\ nth it l NodeRefSegment.default = s.
Proof.
  unfold Assembler.inner_positions. intros H.
  apply In_firstn, In_skipn, in_combine_seq in H.
  rewrite Nat.sub_0_r in H. tauto.
Qed.

Lemma last_skipn {A : Type} (d : A) l :
  forall n, n < length l -> last (skipn n l) d = last l d.
Proof.
  induction l as [|x l IH]; intros n Hn; [cbn in Hn; lia|].
  destruct n as [|n]; [reflexivity|].
  cbn [skipn]. rewrite IH by (cbn in Hn; lia).
  destruct l; [cbn in Hn; lia|reflexivity].
Qed.

Lemma nth_after {A : Type} (d : A) l :
  forall n i, nth i (skipn n l) d = nth (n + i) l d.
Proof.
  induction l as [|x l IH]; intros [|n] i; cbn [skipn Nat.add nth]; auto.
  now destruct i.
Qed.

Lemma lookup_split_off_subring a ring b e r :
  distinct_addresses a ->
  Assembler.lookup (Assembler.m_rings a) ring = Some r ->
  Assembler.lookup (Assembler.m_rings (Assembler.split_off_subring a ring b e))
                   (Assembler.next_address a)
  = Some (ProtoRing.of_range (ProtoRing.range r b e))
  /\ Assembler.lookup
       (Assembler.m_rings (Assembler.split_off_subring a ring b e)) ring
     = Some (ProtoRing.remove_segments r b e).
Proof.
  intros [Hnd Hlt] Hl. unfold Assembler.split_off_subring.
  rewrite (ring_at_lookup _ _ _ Hl).
  cbn [Assembler.push_back Assembler.modify_ring Assembler.with_rings
         Assembler.m_rings Assembler.next_address].
  split.
  - rewrite lookup_app_none.
    + cbn [Assembler.lookup]. now rewrite Nat.eqb_refl.
    + apply lookup_none. rewrite update_keys. intros Hin.
      apply in_map_iff in Hin. destruct Hin as (e' & He & Hin).
      apply (proj1 (Forall_forall _ _) Hlt) in Hin.
      unfold ring_ptr in *. rewrite He in Hin. exact (Nat.lt_irrefl _ Hin).
  - apply lookup_app_some. rewrite lookup_update, Nat.eqb_refl, Hl.
    reflexivity.
Qed.

Lemma has_closed_subring_back_loop_splits ring nr its end_ :
  forall a,
    fst (Assembler.has_closed_subring_back_loop ring nr its end_ a) = true ->
    exists it segment ak,
      In (it, segment) its
      /\ NodeRef.location nr = NodeRef.location (NodeRefSegment.first segment)
      /\ Assembler.m_rings ak = Assembler.m_rings a
      /\ Assembler.next_address ak = Assembler.next_address a
      /\ snd (Assembler.has_closed_subring_back_loop ring nr its end_ a)
         = Assembler.split_off_subring ak ring it end_.
Proof.
  induction its as [|[it segment] rest IH]; intros a; [discriminate|].
  cbn [Assembler.has_closed_subring_back_loop].
  probe_at same a1 Hr Hn Hs. destruct same; cbn [fst snd].
  - intros _. exists it, segment, a1. symmetry in Hs.
    apply Location_eqb_eq in Hs. repeat split; auto. now left.
  - intros H. destruct (IH a1 H) as (it' & s' & ak & H1 & H2 & H3 & H4 & H5).
    exists it', s', ak. repeat split; auto; try congruence. now right.
Qed.

Lemma has_closed_subring_front_loop_splits ring nr its :
  forall a,
    fst (Assembler.has_closed_subring_front_loop ring nr its a) = true ->
    exists it segment ak,
      In (it, segment) its
      /\ NodeRef.location nr = NodeRef.location (NodeRefSegment.second segment)
      /\ Assembler.m_rings ak = Assembler.m_rings a
      /\ Assembler.next_address ak = Assembler.next_address a
      /\ snd (Assembler.has_closed_subring_front_loop ring nr its a)
         = Assembler.split_off_subring ak ring 0 (it + 1).
Proof.
  induction its as [|[it segment] rest IH]; intros a; [discriminate|].
  cbn [Assembler.has_closed_subring_front_loop].
  probe_at same a1 Hr Hn Hs. destruct same; cbn [fst snd].
  - intros _. exists it, segment, a1. symmetry in Hs.
    apply Location_eqb_eq in Hs. repeat split; auto. now left.
  - intros H. destruct (IH a1 H) as (it' & s' & ak & H1 & H2 & H3 & H4 & H5).
    exists it', s', ak. repeat split; auto; try congruence. now right.
Qed.

Lemma distinct_addresses_same_rings a b :
  Assembler.m_rings b = Assembler.m_rings a ->
  Assembler.next_address b = Assembler.next_address a ->
  distinct_addresses a -> distinct_addresses b.
Proof. unfold distinct_addresses. now intros -> ->. Qed.

Lemma hd_firstn {A : Type} (d : A) n l : hd d (firstn (S n) l) = hd d l.
Proof. now destruct l. Qed.

Lemma has_closed_subring_back_loop_false ring nr its end_ :
  forall a,
    fst (Assembler.has_closed_subring_back_loop ring nr its end_ a) = false ->
    snd (Assembler.has_closed_subring_back_loop ring nr its end_ a) = a.
Proof.
  induction its as [|[it segment] rest IH]; intros a; [reflexivity|].
  cbn [Assembler.has_closed_subring_back_loop].
  pose proof (has_same_location_false a nr (NodeRefSegment.first segment))
    as Hf.
  destruct (Assembler.has_same_location a nr (NodeRefSegment.first segment))
    as [[|] a1]; cbn [fst snd] in *; [discriminate|].
  rewrite (Hf eq_refl). apply IH.
Qed.

Lemma has_closed_subring_front_loop_false ring nr its :
  forall a,
    fst (Assembler.has_closed_subring_front_loop ring nr its a) = false ->
    snd (Assembler.has_closed_subring_front_loop ring nr its a) = a.
Proof.
  induction its as [|[it segment] rest IH]; intros a; [reflexivity|].
  cbn [Assembler.has_closed_subring_front_loop].
  pose proof (has_same_location_false a nr (NodeRefSegment.second segment))
    as Hf.
  destruct (Assembler.has_same_location a nr (NodeRefSegment.second segment))
    as [[|] a1]; cbn [fst snd] in *; [discriminate|].
  rewrite (Hf eq_refl). apply IH.
Qed.

Lemma adjacent_find_none segments :
  forall a,
    fst (Assembler.adjacent_find segments a) = None ->
    snd (Assembler.adjacent_find segments a) = a.
Proof.
  induction segments as [|s1 rest IH]; intros a; [reflexivity|].
  destruct rest as [|s2 rest]; [reflexivity|].
  cbn [Assembler.adjacent_find].
  pose proof (has_same_location_false a (NodeRefSegment.first s1)
                                      (NodeRefSegment.first s2)) as Hf.
  destruct (Assembler.has_same_location a (NodeRefSegment.first s1)
                                        (NodeRefSegment.first s2))
    as [[|] a1]; cbn [fst snd] in *; [discriminate|].
  rewrite (Hf eq_refl). apply IH.
Qed.

Lemma back_subring_closed l it nr :
  it < length l ->
  NodeRef.location nr
  = NodeRef.location
      (NodeRefSegment.first (nth it l NodeRefSegment.default)) ->
  NodeRef.location nr
  = NodeRef.location (NodeRefSegment.second (last l NodeRefSegment.default)) ->
  let new := ProtoRing.of_range (firstn (length l - it) (skipn it l)) in
  l = firstn it l ++ skipn (length l) l ++ ProtoRing.segments new
  /\ ProtoRing.segments new <> []
  /\ ProtoRing.closed new = true.
Proof.
  intros Hit H1 H2. cbn zeta.
  assert (Hall : firstn (length l - it) (skipn it l) = skipn it l).
  { apply firstn_all2. rewrite length_skipn. lia. }
  cbn [ProtoRing.of_range ProtoRing.segments]. rewrite Hall.
  rewrite skipn_all, app_nil_l. refine (conj _ (conj _ _)).
  - symmetry. apply firstn_skipn.
  - intros E. apply (f_equal (@length _)) in E. rewrite length_skipn in E.
    cbn in E. lia.
  - unfold ProtoRing.closed, ProtoRing.get_segment_front,
      ProtoRing.get_segment_back.
    cbn [ProtoRing.of_range ProtoRing.segments].
    rewrite hd_skipn, last_skipn by exact Hit.
    apply Location_eqb_eq. congruence.
Qed.

Lemma front_subring_closed l it nr :
  it < length l ->
  NodeRef.location nr
  = NodeRef.location
      (NodeRefSegment.second (nth it l NodeRefSegment.default)) ->
  NodeRef.location nr
  = NodeRef.location (NodeRefSegment.first (hd NodeRefSegment.default l)) ->
  let new := ProtoRing.of_range (firstn (it + 1 - 0) (skipn 0 l)) in
  l = ProtoRing.segments new ++ firstn 0 l ++ skipn (it + 1) l
  /\ ProtoRing.segments new <> []
  /\ ProtoRing.closed new = true.
Proof.
  intros Hit H1 H2. cbn zeta.
  rewrite Nat.sub_0_r, Nat.add_1_r.
  cbn [ProtoRing.of_range ProtoRing.segments skipn firstn app].
  change (match l with [] => [] | a :: l0 => a :: firstn it l0 end)
    with (firstn (S it) l).
  refine (conj _ (conj _ _)).
  - symmetry. apply firstn_skipn.
  - intros E. apply (f_equal (@length _)) in E. rewrite length_firstn in E.
    cbn [length] in E. lia.
  - unfold ProtoRing.closed, ProtoRing.get_segment_front,
      ProtoRing.get_segment_back.
    cbn [ProtoRing.of_range ProtoRing.segments].
    rewrite hd_firstn, last_firstn by exact Hit.
    apply Location_eqb_eq. congruence.
Qed.

Lemma middle_subring_closed l m1 m2 :
  chain l ->
  m1 <= m2 -> m2 < length l ->
  NodeRef.location
    (NodeRefSegment.first (nth m1 l NodeRefSegment.default))
  = NodeRef.location
      (NodeRefSegment.first (nth m2 l NodeRefSegment.default)) ->
  let new := ProtoRing.of_range (firstn (m2 - m1) (skipn m1 l)) in
  l = firstn m1 l ++ ProtoRing.segments new ++ skipn m2 l
  /\ (ProtoRing.segments new <> [] -> ProtoRing.closed new = true).
Proof.
  intros Hc H12 H2 Hloc. cbn zeta.
  cbn [ProtoRing.of_range ProtoRing.segments]. split.
  - rewrite <- (firstn_skipn m1 l) at 1. f_equal.
    rewrite <- (firstn_skipn (m2 - m1) (skipn m1 l)) at 1. f_equal.
    rewrite skipn_skipn. f_equal. lia.
  - intros Hne.
    destruct (m2 - m1) as [|k] eqn:Ek; [now elim Hne|].
    unfold ProtoRing.closed, ProtoRing.get_segment_front,
      ProtoRing.get_segment_back.
    cbn [ProtoRing.of_range ProtoRing.segments].
    rewrite hd_firstn, hd_skipn.
    rewrite last_firstn by (rewrite length_skipn; lia).
    rewrite nth_after. apply Location_eqb_eq. rewrite Hloc.
    pose proof (chain_nth l (m1 + k) Hc ltac:(lia)) as Hj.
    unfold joined in Hj. replace (S (m1 + k)) with m2 in Hj by lia.
    now symmetry.
Qed.

(** X22: the rings that are split off.  Called on a ring and the node at
    its end, [has_closed_subring_back] returns true only after it has cut
    the ring in two: the ring keeps its first segments, and the others, at
    least one, have become a new ring at the end of the list, which is
    closed.  [has_closed_subring_front], called with the node at the start of
    the ring, cuts off its first segments in the same way.
    [check_for_closed_subring] takes a run of segments out of a ring that is
    a chain, and the ring they become is closed if it is not empty.  A call
    that returns false leaves the assembler as it is. *)
Theorem closed_subrings_are_split_off :
  forall a ring r,
    distinct_addresses a ->
    Assembler.lookup (Assembler.m_rings a) ring = Some r ->
    (forall nr,
       NodeRef.location nr
       = NodeRef.location
           (NodeRefSegment.second (ProtoRing.get_segment_back r)) ->
       let result := Assembler.has_closed_subring_back a ring nr in
       if fst result then
         exists rest new,
           Assembler.lookup (Assembler.m_rings (snd result)) ring = Some rest
           /\ Assembler.lookup (Assembler.m_rings (snd result))
                               (Assembler.next_address a) = Some new
           /\ ProtoRing.segments r
              = ProtoRing.segments rest ++ ProtoRing.segments new
           /\ ProtoRing.segments new <> []
           /\ ProtoRing.closed new = true
       else snd result = a)
    /\ (forall nr,
          NodeRef.location nr
          = NodeRef.location
              (NodeRefSegment.first (ProtoRing.get_segment_front r)) ->
          let result := Assembler.has_closed_subring_front a ring nr in
          if fst result then
            exists rest new,
              Assembler.lookup (Assembler.m_rings (snd result)) ring = Some rest
              /\ Assembler.lookup (Assembler.m_rings (snd result))
                                  (Assembler.next_address a) = Some new
              /\ ProtoRing.segments r
                 = ProtoRing.segments new ++ ProtoRing.segments rest
              /\ ProtoRing.segments new <> []
              /\ ProtoRing.closed new = true
          else snd result = a)
    /\ (chain (ProtoRing.segments r) ->
        let result := Assembler.check_for_closed_subring a ring in
        if fst result then
          exists rest new before after,
            Assembler.lookup (Assembler.m_rings (snd result)) ring = Some rest
            /\ Assembler.lookup (Assembler.m_rings (snd result))
                                (Assembler.next_address a) = Some new
            /\ ProtoRing.segments r
               = before ++ ProtoRing.segments new ++ after
            /\ ProtoRing.segments rest = before ++ after
            /\ (ProtoRing.segments new <> [] -> ProtoRing.closed new = true)
        else snd result = a).
Proof.
  intros a ring r Hd Hl. pose proof (ring_at_lookup _ _ _ Hl) as Hat.
  refine (conj _ (conj _ _)).
  - intros nr Hnr. cbn zeta. unfold Assembler.has_closed_subring_back.
    rewrite Hat. destruct (_ <? 3); [reflexivity|].
    pose proof (has_closed_subring_back_loop_splits ring nr
                  (Assembler.inner_positions (ProtoRing.segments r))
                  (length (ProtoRing.segments r)) a) as Ht.
    pose proof (has_closed_subring_back_loop_false ring nr
                  (Assembler.inner_positions (ProtoRing.segments r))
                  (length (ProtoRing.segments r)) a) as Hf.
    destruct (Assembler.has_closed_subring_back_loop _ _ _ _ a)
      as [[|] a']; cbn [fst snd] in *; [|now apply Hf].
    destruct (Ht eq_refl) as (it & segment & ak & Hin & Hloc & Hr & Hn & ->).
    apply inner_positions_nth in Hin. destruct Hin as [Hit Hnth].
    rewrite <- Hr in Hl.
    destruct (lookup_split_off_subring ak ring it
                (length (ProtoRing.segments r)) r
                (distinct_addresses_same_rings _ _ Hr Hn Hd) Hl) as [L1 L2].
    rewrite Hn in L1.
    destruct (back_subring_closed (ProtoRing.segments r) it nr Hit)
      as (E1 & E2 & E3); [now rewrite Hnth|exact Hnr|].
    eexists; eexists.
    refine (conj L2 (conj L1 (conj _ (conj E2 E3)))).
    rewrite app_assoc in E1. exact E1.
  - intros nr Hnr. cbn zeta. unfold Assembler.has_closed_subring_front.
    rewrite Hat. destruct (_ <? 3); [reflexivity|].
    pose proof (has_closed_subring_front_loop_splits ring nr
                  (Assembler.inner_positions (ProtoRing.segments r)) a) as Ht.
    pose proof (has_closed_subring_front_loop_false ring nr
                  (Assembler.inner_positions (ProtoRing.segments r)) a) as Hf.
    destruct (Assembler.has_closed_subring_front_loop _ _ _ a)
      as [[|] a']; cbn [fst snd] in *; [|now apply Hf].
    destruct (Ht eq_refl) as (it & segment & ak & Hin & Hloc & Hr & Hn & ->).
    apply inner_positions_nth in Hin. destruct Hin as [Hit Hnth].
    rewrite <- Hr in Hl.
    destruct (lookup_split_off_subring ak ring 0 (it + 1) r
                (distinct_addresses_same_rings _ _ Hr Hn Hd) Hl) as [L1 L2].
    rewrite Hn in L1.
    destruct (front_subring_closed (ProtoRing.segments r) it nr Hit)
      as (E1 & E2 & E3); [now rewrite Hnth|exact Hnr|].
    eexists; eexists.
    exact (conj L2 (conj L1 (conj E1 (conj E2 E3)))).
  - intros Hc. cbn zeta. unfold Assembler.check_for_closed_subring.
    rewrite Hat.
    pose proof (adjacent_find_rings
                  (std_sort NodeRefSegment.ltb (ProtoRing.segments r)) a)
      as [Hr Hn].
    pose proof (adjacent_find_found
                  (std_sort NodeRefSegment.ltb (ProtoRing.segments r)) a)
      as Hfound.
    pose proof (adjacent_find_none
                  (std_sort NodeRefSegment.ltb (ProtoRing.segments r)) a)
      as Hnone.
    destruct (Assembler.adjacent_find _ a) as [[[s1 s2]|] a1];
      cbn [fst snd] in *; [|now apply Hnone].
    destruct (Hfound _ _ _ eq_refl) as (H1 & H2 & H3).
    apply (Permutation_in _ (std_sort_perm _ _)) in H1, H2.
    rewrite <- Hr in Hl. rewrite (ring_at_lookup _ _ _ Hl).
    destruct (find_first_of_found _ _ H1) as [B1 L1].
    destruct (find_first_of_found _ _ H2) as [B2 L2].
    set (r1 := Assembler.find_first_of (ProtoRing.segments r) s1) in *.
    set (r2 := Assembler.find_first_of (ProtoRing.segments r) s2) in *.
    assert (Hm : fst (if r2 <? r1 then (r2, r1) else (r1, r2))
                 <= snd (if r2 <? r1 then (r2, r1) else (r1, r2))
                 /\ snd (if r2 <? r1 then (r2, r1) else (r1, r2))
                    < length (ProtoRing.segments r)
                 /\ NodeRef.location
                      (NodeRefSegment.first
                         (nth (fst (if r2 <? r1 then (r2, r1) else (r1, r2)))
                              (ProtoRing.segments r) NodeRefSegment.default))
                    = NodeRef.location
                        (NodeRefSegment.first
                           (nth (snd (if r2 <? r1 then (r2, r1) else (r1, r2)))
                                (ProtoRing.segments r)
                                NodeRefSegment.default))).
    { destruct (Nat.ltb_spec r2 r1); cbn [fst snd];
        (split; [lia|split; [assumption|congruence]]). }
    destruct Hm as (M1 & M2 & M3).
    set (m := if r2 <? r1 then (r2, r1) else (r1, r2)) in *.
    destruct (lookup_split_off_subring a1 ring (fst m) (snd m) r
                (distinct_addresses_same_rings _ _ Hr Hn Hd) Hl) as [K1 K2].
    rewrite Hn in K1. unfold Assembler.split_off_subring in K1, K2.
    rewrite (ring_at_lookup _ _ _ Hl) in K1, K2.
    destruct (middle_subring_closed (ProtoRing.segments r) (fst m) (snd m)
                Hc M1 M2 M3) as (E1 & E2).
    exists (ProtoRing.remove_segments r (fst m) (snd m)),
      (ProtoRing.of_range (ProtoRing.range r (fst m) (snd m))),
      (firstn (fst m) (ProtoRing.segments r)),
      (skipn (snd m) (ProtoRing.segments r)).
    exact (conj K2 (conj K1 (conj E1 (conj eq_refl E2)))).
Qed.

(** A ring from (0,0) over (10,0) and (10,10) back to (10,0): its last two
    segments are split off. *)
Lemma closed_subrings_are_split_off_witness :
  let way := WayPtr.make 0 Examples.square in
  let segment nr1 nr2 := NodeRefSegment.make nr1 nr2 "outer" way in
  let r :=
    ProtoRing.make
      [segment (Examples.node 1 0 0) (Examples.node 2 10 0);
       segment (Examples.node 2 10 0) (Examples.node 3 10 10);
       segment (Examples.node 3 10 10) (Examples.node 2 10 0)]%Z
      true [] in
  let a := Assembler.make Examples.config [] [(0, r)] [] [] 0%Z 1 [] in
  let result :=
    Assembler.has_closed_subring_back a 0 (Examples.node 2 10 0)%Z in
  distinct_addresses a
  /\ fst result = true
  /\ map (fun e => length (ProtoRing.segments (snd e)))
         (Assembler.m_rings (snd result)) = [1; 2]
  /\ if fst result then
       exists rest new,
         Assembler.lookup (Assembler.m_rings (snd result)) 0 = Some rest
         /\ Assembler.lookup (Assembler.m_rings (snd result))
                             (Assembler.next_address a) = Some new
         /\ ProtoRing.segments r
            = ProtoRing.segments rest ++ ProtoRing.segments new
         /\ ProtoRing.segments new <> []
         /\ ProtoRing.closed new = true
     else snd result = a.
Proof.
  intros way segment r a result.
  assert (Hd : distinct_addresses a).
  { split.
    - constructor; [intros []|constructor].
    - constructor; [cbn; lia|constructor]. }
  split; [exact Hd|]. split; [reflexivity|]. split; [reflexivity|].
  exact (proj1 (closed_subrings_are_split_off a 0 r Hd eq_refl)
               (Examples.node 2 10 0)%Z eq_refl).
Defined.

(** ** The rings that are merged *)

Lemma lookup_merged a ring it f r :
  it <> ring ->
  Assembler.lookup (Assembler.m_rings a) ring = Some r ->
  let a' := Assembler.erase (Assembler.modify_ring a ring f) it in
  Assembler.lookup (Assembler.m_rings a') ring = Some (f r)
  /\ Assembler.lookup (Assembler.m_rings a') it = None
  /\ forall q, q <> ring -> q <> it ->
               Assembler.lookup (Assembler.m_rings a') q
               = Assembler.lookup (Assembler.m_rings a) q.
Proof.
  intros Hne Hl. cbn zeta. unfold Assembler.erase.
  cbn [Assembler.m_rings Assembler.with_rings].
  refine (conj _ (conj _ _)).
  - rewrite lookup_erase. destruct (Nat.eqb_spec ring it) as [E|_];
      [now elim Hne|].
    now rewrite lookup_modify_ring, Nat.eqb_refl, Hl.
  - now rewrite lookup_erase, Nat.eqb_refl.
  - intros q H1 H2. rewrite lookup_erase.
    destruct (Nat.eqb_spec q it) as [E|_]; [now elim H2|].
    rewrite lookup_modify_ring.
    destruct (Nat.eqb_spec q ring) as [E|_]; [now elim H1|reflexivity].
Qed.

Lemma possibly_combine_rings_back_loop_false ring nr its :
  forall a,
    fst (Assembler.possibly_combine_rings_back_loop ring nr its a) = false ->
    snd (Assembler.possibly_combine_rings_back_loop ring nr its a) = a.
Proof.
  induction its as [|[it it_ring] rest IH]; intros a; [reflexivity|].
  cbn [Assembler.possibly_combine_rings_back_loop].
  destruct (negb (it =? ring) && negb (ProtoRing.closed it_ring));
    [|apply IH].
  destruct (has_same_location_cases a nr
              (NodeRefSegment.first (ProtoRing.get_segment_front it_ring)))
    as [[_ F]|[_ F]].
  { destruct (Assembler.has_same_location a nr
                (NodeRefSegment.first (ProtoRing.get_segment_front it_ring))) as [same a1].
    cbn [fst] in F. subst same. discriminate. }
  rewrite F.
  destruct (has_same_location_cases a nr
              (NodeRefSegment.second (ProtoRing.get_segment_back it_ring)))
    as [[_ G]|[_ G]].
  { destruct (Assembler.has_same_location a nr
                (NodeRefSegment.second (ProtoRing.get_segment_back it_ring))) as [same a1].
    cbn [fst] in G. subst same. discriminate. }
  rewrite G. apply IH.
Qed.

Lemma possibly_combine_rings_front_loop_false ring nr its :
  forall a,
    fst (Assembler.possibly_combine_rings_front_loop ring nr its a) = false ->
    snd (Assembler.possibly_combine_rings_front_loop ring nr its a) = a.
Proof.
  induction its as [|[it it_ring] rest IH]; intros a; [reflexivity|].
  cbn [Assembler.possibly_combine_rings_front_loop].
  destruct (negb (it =? ring) && negb (ProtoRing.closed it_ring));
    [|apply IH].
  destruct (has_same_location_cases a nr
              (NodeRefSegment.second (ProtoRing.get_segment_back it_ring)))
    as [[_ F]|[_ F]].
  { destruct (Assembler.has_same_location a nr
                (NodeRefSegment.second (ProtoRing.get_segment_back it_ring))) as [same a1].
    cbn [fst] in F. subst same. discriminate. }
  rewrite F.
  destruct (has_same_location_cases a nr
              (NodeRefSegment.first (ProtoRing.get_segment_front it_ring)))
    as [[_ G]|[_ G]].
  { destruct (Assembler.has_same_location a nr
                (NodeRefSegment.first (ProtoRing.get_segment_front it_ring))) as [same a1].
    cbn [fst] in G. subst same. discriminate. }
  rewrite G. apply IH.
Qed.

Lemma possibly_combine_rings_back_loop_merges ring r its :
  forall a,
    (forall it other, In (it, other) its ->
                      Assembler.lookup (Assembler.m_rings a) it = Some other) ->
    Assembler.lookup (Assembler.m_rings a) ring = Some r ->
    fst (Assembler.possibly_combine_rings_back_loop ring
           (NodeRefSegment.second (ProtoRing.get_segment_back r)) its a)
    = true ->
    merged_back a
      (snd (Assembler.possibly_combine_rings_back_loop ring
              (NodeRefSegment.second (ProtoRing.get_segment_back r)) its a))
      ring r.
Proof.
  induction its as [|[it other] rest IH]; intros a Hits Hl; [discriminate|].
  cbn [Assembler.possibly_combine_rings_back_loop].
  assert (Hrest : forall it' o, In (it', o) rest ->
                    Assembler.lookup (Assembler.m_rings a) it' = Some o)
    by (intros; apply Hits; now right).
  pose proof (Hits it other (or_introl eq_refl)) as Hit.
  destruct (Nat.eqb_spec it ring) as [E|Hne]; cbn [negb andb];
    [now apply IH|].
  destruct (ProtoRing.closed other) eqn:Hopen; cbn [negb]; [now apply IH|].
  destruct (has_same_location_cases a
              (NodeRefSegment.second (ProtoRing.get_segment_back r))
              (NodeRefSegment.first (ProtoRing.get_segment_front other)))
    as [[E1 F1]|[E1 F1]].
  { pose proof (has_same_location_rings a
                  (NodeRefSegment.second (ProtoRing.get_segment_back r))
                  (NodeRefSegment.first (ProtoRing.get_segment_front other)))
      as [Hr _].
    destruct (Assembler.has_same_location a
                (NodeRefSegment.second (ProtoRing.get_segment_back r))
                (NodeRefSegment.first (ProtoRing.get_segment_front other)))
      as [same a1].
    cbn [fst snd] in *. subst same. intros _.
    rewrite <- Hr in Hl, Hit. rewrite (ring_at_lookup _ _ _ Hit).
    destruct (lookup_merged a1 ring it
                (fun r0 => ProtoRing.merge_ring r0 other) r Hne Hl)
      as (K1 & K2 & K3).
    rewrite Hr in Hit.
    exists it, other, (ProtoRing.merge_ring r other).
    refine (conj Hne (conj Hit (conj Hopen (conj K1 (conj K2 (conj _ _)))))).
    - intros q H1 H2. cbn [snd]. rewrite (K3 q H1 H2). now rewrite Hr.
    - left. split; [now apply Location_eqb_eq|reflexivity]. }
  rewrite F1.
  destruct (has_same_location_cases a
              (NodeRefSegment.second (ProtoRing.get_segment_back r))
              (NodeRefSegment.second (ProtoRing.get_segment_back other)))
    as [[E2 F2]|[E2 F2]].
  { pose proof (has_same_location_rings a
                  (NodeRefSegment.second (ProtoRing.get_segment_back r))
                  (NodeRefSegment.second (ProtoRing.get_segment_back other)))
      as [Hr _].
    destruct (Assembler.has_same_location a
                (NodeRefSegment.second (ProtoRing.get_segment_back r))
                (NodeRefSegment.second (ProtoRing.get_segment_back other)))
      as [same a1].
    cbn [fst snd] in *. subst same. intros _.
    rewrite <- Hr in Hl, Hit. rewrite (ring_at_lookup _ _ _ Hit).
    destruct (lookup_merged a1 ring it
                (fun r0 => ProtoRing.merge_ring_reverse r0 other) r Hne Hl)
      as (K1 & K2 & K3).
    rewrite Hr in Hit.
    exists it, other, (ProtoRing.merge_ring_reverse r other).
    refine (conj Hne (conj Hit (conj Hopen (conj K1 (conj K2 (conj _ _)))))).
    - intros q H1 H2. cbn [snd]. rewrite (K3 q H1 H2). now rewrite Hr.
    - right. split; [now apply Location_eqb_eq|reflexivity]. }
  rewrite F2. now apply IH.
Qed.

Lemma lookup_swap_segments_other a t it q :
  q <> t -> q <> it ->
  Assembler.lookup (Assembler.m_rings (Assembler.swap_segments a t it)) q
  = Assembler.lookup (Assembler.m_rings a) q.
Proof.
  intros H1 H2. unfold Assembler.swap_segments.
  cbn [ProtoRing.swap_segments]. rewrite !lookup_modify_ring.
  destruct (Nat.eqb_spec q it) as [E|_]; [now elim H2|].
  destruct (Nat.eqb_spec q t) as [E|_]; [now elim H1|reflexivity].
Qed.

Lemma possibly_combine_rings_front_loop_merges ring r its :
  forall a,
    (forall it other, In (it, other) its ->
                      Assembler.lookup (Assembler.m_rings a) it = Some other) ->
    Assembler.lookup (Assembler.m_rings a) ring = Some r ->
    fst (Assembler.possibly_combine_rings_front_loop ring
           (NodeRefSegment.first (ProtoRing.get_segment_front r)) its a)
    = true ->
    merged_front a
      (snd (Assembler.possibly_combine_rings_front_loop ring
              (NodeRefSegment.first (ProtoRing.get_segment_front r)) its a))
      ring r.
Proof.
  induction its as [|[it other] rest IH]; intros a Hits Hl; [discriminate|].
  cbn [Assembler.possibly_combine_rings_front_loop].
  assert (Hrest : forall it' o, In (it', o) rest ->
                    Assembler.lookup (Assembler.m_rings a) it' = Some o)
    by (intros; apply Hits; now right).
  pose proof (Hits it other (or_introl eq_refl)) as Hit.
  destruct (Nat.eqb_spec it ring) as [E|Hne]; cbn [negb andb];
    [now apply IH|].
  destruct (ProtoRing.closed other) eqn:Hopen; cbn [negb]; [now apply IH|].
  destruct (has_same_location_cases a
              (NodeRefSegment.first (ProtoRing.get_segment_front r))
              (NodeRefSegment.second (ProtoRing.get_segment_back other)))
    as [[E1 F1]|[E1 F1]].
  { pose proof (has_same_location_rings a
                  (NodeRefSegment.first (ProtoRing.get_segment_front r))
                  (NodeRefSegment.second (ProtoRing.get_segment_back other)))
      as [Hr _].
    destruct (Assembler.has_same_location a
                (NodeRefSegment.first (ProtoRing.get_segment_front r))
                (NodeRefSegment.second (ProtoRing.get_segment_back other)))
      as [same a1].
    cbn [fst snd] in *. subst same. intros _.
    rewrite <- Hr in Hl, Hit.
    destruct (lookup_swap_segments a1 ring it r other Hne Hl Hit) as [Lt Lit].
    rewrite (ring_at_lookup _ _ _ Lit).
    destruct (lookup_merged (Assembler.swap_segments a1 ring it) ring it
                (fun r0 =>
                   ProtoRing.merge_ring r0
                     (ProtoRing.with_segments other (ProtoRing.segments r)))
                _ Hne Lt)
      as (K1 & K2 & K3).
    rewrite Hr in Hit.
    eexists it, other, _.
    refine (conj Hne (conj Hit (conj Hopen (conj K1 (conj K2 (conj _ _)))))).
    - intros q H1 H2. cbn [snd]. rewrite (K3 q H1 H2).
      rewrite (lookup_swap_segments_other _ _ _ _ H1 H2). now rewrite Hr.
    - left. split; [now apply Location_eqb_eq|reflexivity]. }
  rewrite F1.
  destruct (has_same_location_cases a
              (NodeRefSegment.first (ProtoRing.get_segment_front r))
              (NodeRefSegment.first (ProtoRing.get_segment_front other)))
    as [[E2 F2]|[E2 F2]].
  { pose proof (has_same_location_rings a
                  (NodeRefSegment.first (ProtoRing.get_segment_front r))
                  (NodeRefSegment.first (ProtoRing.get_segment_front other)))
      as [Hr _].
    destruct (Assembler.has_same_location a
                (NodeRefSegment.first (ProtoRing.get_segment_front r))
                (NodeRefSegment.first (ProtoRing.get_segment_front other)))
      as [same a1].
    cbn [fst snd] in *. subst same. intros _.
    rewrite <- Hr in Hl, Hit.
    assert (Lt : Assembler.lookup
                   (Assembler.m_rings
                      (Assembler.modify_ring a1 ring ProtoRing.reverse)) ring
                 = Some (ProtoRing.reverse r))
      by now rewrite lookup_modify_ring, Nat.eqb_refl, Hl.
    assert (Lit : Assembler.lookup
                    (Assembler.m_rings
                       (Assembler.modify_ring a1 ring ProtoRing.reverse)) it
                  = Some other).
    { rewrite lookup_modify_ring.
      destruct (Nat.eqb_spec it ring) as [E|_]; [now elim Hne|exact Hit]. }
    rewrite (ring_at_lookup _ _ _ Lit).
    destruct (lookup_merged (Assembler.modify_ring a1 ring ProtoRing.reverse)
                ring it (fun r0 => ProtoRing.merge_ring r0 other)
                _ Hne Lt)
      as (K1 & K2 & K3).
    rewrite Hr in Hit.
    eexists it, other, _.
    refine (conj Hne (conj Hit (conj Hopen (conj K1 (conj K2 (conj _ _)))))).
    - intros q H1 H2. cbn [snd]. rewrite (K3 q H1 H2).
      rewrite lookup_modify_ring.
      destruct (Nat.eqb_spec q ring) as [E|_]; [now elim H1|]. now rewrite Hr.
    - right. split; [now apply Location_eqb_eq|reflexivity]. }
  rewrite F2. now apply IH.
Qed.

(** X23: the rings that are merged.  [possibly_combine_rings_back] returns
    true only after it has merged the ring with another one: an open ring
    that starts or ends where the ring ends has left the list, its segments
    now follow those of the ring, in their order if it started there and
    reversed if it ended there, and no other ring has changed.
    [possibly_combine_rings_front] does the same at the start of the ring:
    the segments of a ring that ended there now come before those of the
    ring, and before those of a ring that started there comes the ring
    reversed.  A call that returns false leaves the assembler as it is. *)
Theorem open_rings_are_merged :
  forall a ring r,
    distinct_addresses a ->
    Assembler.lookup (Assembler.m_rings a) ring = Some r ->
    (let result := Assembler.possibly_combine_rings_back a ring in
     if fst result then merged_back a (snd result) ring r
     else snd result = a)
    /\ (let result := Assembler.possibly_combine_rings_front a ring in
        if fst result then merged_front a (snd result) ring r
        else snd result = a).
Proof.
  intros a ring r [Hnd _] Hl. pose proof (ring_at_lookup _ _ _ Hl) as Hat.
  assert (Hits : forall it other,
             In (it, other) (Assembler.m_rings a) ->
             Assembler.lookup (Assembler.m_rings a) it = Some other)
    by (intros it other; now apply In_lookup).
  split; cbn zeta.
  - unfold Assembler.possibly_combine_rings_back. rewrite Hat.
    pose proof (possibly_combine_rings_back_loop_merges ring r
                  (Assembler.m_rings a) a Hits Hl) as Ht.
    pose proof (possibly_combine_rings_back_loop_false ring
                  (NodeRefSegment.second (ProtoRing.get_segment_back r))
                  (Assembler.m_rings a) a) as Hf.
    destruct (Assembler.possibly_combine_rings_back_loop _ _ _ a)
      as [[|] a']; cbn [fst snd] in *; auto.
  - unfold Assembler.possibly_combine_rings_front. rewrite Hat.
    pose proof (possibly_combine_rings_front_loop_merges ring r
                  (Assembler.m_rings a) a Hits Hl) as Ht.
    pose proof (possibly_combine_rings_front_loop_false ring
                  (NodeRefSegment.first (ProtoRing.get_segment_front r))
                  (Assembler.m_rings a) a) as Hf.
    destruct (Assembler.possibly_combine_rings_front_loop _ _ _ a)
      as [[|] a']; cbn [fst snd] in *; auto.
Qed.

(** Two open rings: the one from (0,0) to (10,0), and the one from (10,0) to
    (10,10), which is put to its end. *)
Lemma open_rings_are_merged_witness :
  let way := WayPtr.make 0 Examples.square in
  let segment nr1 nr2 := NodeRefSegment.make nr1 nr2 "outer" way in
  let r :=
    ProtoRing.of_segment
      (segment (Examples.node 1 0 0) (Examples.node 2 10 0))%Z in
  let other :=
    ProtoRing.of_segment
      (segment (Examples.node 2 10 0) (Examples.node 3 10 10))%Z in
  let a := Assembler.make Examples.config [] [(0, r); (1, other)] [] [] 0%Z 2 [] in
  let result := Assembler.possibly_combine_rings_back a 0 in
  distinct_addresses a
  /\ fst result = true
  /\ map (fun e => (fst e, length (ProtoRing.segments (snd e))))
         (Assembler.m_rings (snd result)) = [(0, 2)]
  /\ if fst result then merged_back a (snd result) 0 r else snd result = a.
Proof.
  intros way segment r other a result.
  assert (Hd : distinct_addresses a).
  { split.
    - constructor; [intros [H|[]]; discriminate|].
      constructor; [intros []|constructor].
    - constructor; [cbn; lia|]. constructor; [cbn; lia|constructor]. }
  split; [exact Hd|]. split; [reflexivity|]. split; [reflexivity|].
  exact (proj1 (open_rings_are_merged a 0 r Hd eq_refl)).
Defined.

(** ** The count does not depend on the direction of the ring *)














(** ** Inner rings are the rings with an odd count *)


Lemma classify_ring_segment_list a p :
  Assembler.m_segment_list (Assembler.classify_ring a p)
  = Assembler.m_segment_list a.
Proof.
  unfold Assembler.classify_ring.
  repeat match goal with
         | |- context [if ?c then _ else _] => destruct c
         end; reflexivity.
Qed.

Lemma classify_rings_segment_list ks :
  forall a,
    Assembler.m_segment_list (fold_left Assembler.classify_ring ks a)
    = Assembler.m_segment_list a.
Proof.
  induction ks as [|p ks IH]; intros a; [reflexivity|].
  cbn [fold_left]. rewrite IH. apply classify_ring_segment_list.
Qed.





Lemma segment_list_fold_left {A : Type} (f : Assembler.t -> A -> Assembler.t) :
  (forall a x, Assembler.m_segment_list (f a x) = Assembler.m_segment_list a) ->
  forall l a,
    Assembler.m_segment_list (fold_left f l a) = Assembler.m_segment_list a.
Proof.
  intros Hf l. induction l as [|x l IH]; intros a; [reflexivity|].
  cbn [fold_left]. now rewrite IH, Hf.
Qed.

Lemma add_to_first_outer_segment_list inner outers :
  forall a,
    Assembler.m_segment_list (Assembler.add_to_first_outer a inner outers)
    = Assembler.m_segment_list a.
Proof.
  induction outers as [|outer rest IH]; intros a; [reflexivity|].
  cbn [Assembler.add_to_first_outer].
  destruct (ProtoRing.is_in _ _); [reflexivity|apply IH].
Qed.

Lemma assign_inner_rings_segment_list a :
  Assembler.m_segment_list (Assembler.assign_inner_rings a)
  = Assembler.m_segment_list a.
Proof.
  unfold Assembler.assign_inner_rings.
  destruct (length (Assembler.m_outer_rings a) =? 1).
  - apply segment_list_fold_left. reflexivity.
  - rewrite segment_list_fold_left; [reflexivity|].
    intros b inner. apply add_to_first_outer_segment_list.
Qed.

Lemma check_inner_outer_roles_segment_list a :
  Assembler.m_segment_list (Assembler.check_inner_outer_roles a)
  = Assembler.m_segment_list a.
Proof.
  unfold Assembler.check_inner_outer_roles.
  destruct (check_roles_of_rings_counts true (Assembler.m_outer_rings a) a)
    as (_ & _ & H1 & _).
  cbn zeta in H1.
  match goal with
  | |- Assembler.m_segment_list (fold_left _ ?l ?b) = _ =>
      destruct (check_roles_of_rings_counts false l b) as (_ & _ & H2 & _)
  end.
  cbn zeta in H2. now rewrite H2, H1.
Qed.

(** The segment list [create_rings] leaves, whatever it returns: the list
    it found, sorted and without its duplicates. *)
Lemma create_rings_segment_list a :
  Assembler.m_segment_list (snd (Assembler.create_rings a))
  = SegmentList.erase_duplicate_segments
      (SegmentList.sort (Assembler.m_segment_list a)).
Proof.
  unfold Assembler.create_rings, Assembler.find_intersections.
  destruct (SegmentList.find_intersections
              (Assembler.m_segment_list (Assembler.normalize a)) _ _)
    as [found reports].
  destruct found; [reflexivity|].
  match goal with
  | |- context [Assembler.add_segments ?l ?b] =>
      destruct (same_members_add_segments l b) as (_ & H3 & _);
      destruct (check_for_open_rings_reports_open_rings
                  (Assembler.add_segments l b)) as (_ & _ & _ & (_ & H4 & _));
      destruct (Assembler.check_for_open_rings (Assembler.add_segments l b))
        as [open a4]
  end.
  cbn [snd] in *.
  assert (E4 : Assembler.m_segment_list a4
               = SegmentList.erase_duplicate_segments
                   (SegmentList.sort (Assembler.m_segment_list a)))
    by (rewrite <- H4, <- H3; reflexivity).
  destruct open; [exact E4|]. cbn [snd].
  rewrite check_inner_outer_roles_segment_list.
  destruct (length (Assembler.m_rings a4) =? 1); [exact E4|].
  rewrite assign_inner_rings_segment_list. unfold Assembler.classify_rings.
  now rewrite classify_rings_segment_list.
Qed.




(** ** What a call does with the state it finds *)

Lemma swap_locations_involutive s :
  NodeRefSegment.swap_locations (NodeRefSegment.swap_locations s) = s.
Proof. now destruct s. Qed.

Lemma reverse_involutive r :
  ProtoRing.segments (ProtoRing.reverse (ProtoRing.reverse r))
  = ProtoRing.segments r.
Proof.
  unfold ProtoRing.reverse. cbn [ProtoRing.segments ProtoRing.with_segments].
  rewrite map_rev, rev_involutive, map_map.
  rewrite (map_ext _ (fun s => s) swap_locations_involutive).
  apply map_id.
Qed.

Lemma reverse_segments_eq r r' :
  ProtoRing.segments r' = ProtoRing.segments r ->
  ProtoRing.segments (ProtoRing.reverse r')
  = ProtoRing.segments (ProtoRing.reverse r).
Proof.
  unfold ProtoRing.reverse. cbn [ProtoRing.segments ProtoRing.with_segments].
  now intros ->.
Qed.

Lemma same_loop_refl r : same_loop r r.
Proof. now left. Qed.

Lemma same_loop_trans r1 r2 r3 :
  same_loop r1 r2 -> same_loop r2 r3 -> same_loop r1 r3.
Proof.
  unfold same_loop. intros [H|H] [K|K].
  - left. congruence.
  - right. rewrite K. now apply reverse_segments_eq.
  - right. congruence.
  - left. rewrite K, (reverse_segments_eq _ _ H). apply reverse_involutive.
Qed.

Lemma same_loops_refl a : same_loops a a.
Proof. repeat split. intros q. apply same_loop_refl. Qed.

Lemma same_loops_trans a b c :
  same_loops a b -> same_loops b c -> same_loops a c.
Proof.
  intros (H1 & H2 & H3) (K1 & K2 & K3). repeat split; try congruence.
  intros q. exact (same_loop_trans _ _ _ (H3 q) (K3 q)).
Qed.

Lemma same_loops_same_rings a b :
  Assembler.m_rings b = Assembler.m_rings a ->
  Assembler.next_address b = Assembler.next_address a ->
  same_loops a b.
Proof.
  intros Hr Hn. repeat split; [exact Hn|now rewrite Hr|].
  intros q. unfold Assembler.ring_at. rewrite Hr. apply same_loop_refl.
Qed.

Lemma same_loops_modify_ring a p f :
  (forall r, same_loop r (f r)) ->
  same_loops a (Assembler.modify_ring a p f).
Proof.
  intros Hf. repeat split.
  - unfold Assembler.modify_ring.
    cbn [Assembler.with_rings Assembler.m_rings]. apply update_keys.
  - intros q. rewrite ring_at_modify_ring.
    destruct (Nat.eqb_spec q p) as [->|_]; [|apply same_loop_refl].
    unfold Assembler.ring_at.
    destruct (Assembler.lookup (Assembler.m_rings a) p);
      [apply Hf|apply same_loop_refl].
Qed.

Lemma same_loops_fold_left {A : Type} (f : Assembler.t -> A -> Assembler.t) :
  (forall a x, same_loops a (f a x)) ->
  forall l a, same_loops a (fold_left f l a).
Proof.
  intros Hf l. induction l as [|x l IH]; intros a; simpl;
    [apply same_loops_refl|].
  exact (same_loops_trans _ _ _ (Hf a x) (IH (f a x))).
Qed.

Lemma same_loops_classify_ring a p :
  same_loops a (Assembler.classify_ring a p).
Proof.
  unfold Assembler.classify_ring.
  assert (H1 : same_loops a (Assembler.check_inner_outer a p)).
  { apply same_loops_modify_ring. intros r. left.
    apply check_inner_outer_ring_segments. }
  assert (Hrev : forall b,
            same_loops b (Assembler.modify_ring b p ProtoRing.reverse)).
  { intros b. apply same_loops_modify_ring. intros r. now right. }
  set (a1 := Assembler.check_inner_outer a p) in *.
  apply (same_loops_trans _ _ _ H1).
  destruct (ProtoRing.outer (Assembler.ring_at a1 p)).
  - destruct (negb (ProtoRing.is_cw (Assembler.ring_at a1 p))).
    + apply (same_loops_trans _ _ _ (Hrev a1)).
      now apply same_loops_same_rings.
    + now apply same_loops_same_rings.
  - destruct (ProtoRing.is_cw (Assembler.ring_at a1 p)).
    + apply (same_loops_trans _ _ _ (Hrev a1)).
      now apply same_loops_same_rings.
    + now apply same_loops_same_rings.
Qed.

Lemma same_loops_add_to_first_outer inner outers :
  forall a, same_loops a (Assembler.add_to_first_outer a inner outers).
Proof.
  induction outers as [|outer rest IH]; intros a; simpl;
    [apply same_loops_refl|].
  destruct (ProtoRing.is_in _ _); [|apply IH].
  apply same_loops_modify_ring. intros r. now left.
Qed.

Lemma same_loops_assign_inner_rings a :
  same_loops a (Assembler.assign_inner_rings a).
Proof.
  unfold Assembler.assign_inner_rings.
  destruct (length (Assembler.m_outer_rings a) =? 1).
  - apply same_loops_fold_left. intros b inner.
    apply same_loops_modify_ring. intros r. now left.
  - eapply same_loops_trans;
      [|apply same_loops_fold_left; intros b inner;
        apply same_loops_add_to_first_outer].
    now apply same_loops_same_rings.
Qed.

Lemma next_address_report a r :
  Assembler.next_address (Assembler.report a r) = Assembler.next_address a.
Proof.
  unfold Assembler.report. now destruct (problem_reporter _).
Qed.

Lemma rings_report a r :
  Assembler.m_rings (Assembler.report a r) = Assembler.m_rings a.
Proof.
  unfold Assembler.report. now destruct (problem_reporter _).
Qed.

Lemma same_loops_check_roles_of_ring expect_outer segments :
  forall a,
    same_loops a (Assembler.check_roles_of_ring expect_outer segments a).
Proof.
  induction segments as [|segment rest IH]; intros a; simpl;
    [apply same_loops_refl|].
  destruct expect_outer.
  - destruct (negb (NodeRefSegment.role_outer segment)); [|apply IH].
    eapply same_loops_trans; [|apply IH].
    apply same_loops_same_rings;
      [now rewrite rings_report|now rewrite next_address_report].
  - destruct (negb (NodeRefSegment.role_inner segment)); [|apply IH].
    eapply same_loops_trans; [|apply IH].
    apply same_loops_same_rings;
      [now rewrite rings_report|now rewrite next_address_report].
Qed.

Lemma same_loops_check_inner_outer_roles a :
  same_loops a (Assembler.check_inner_outer_roles a).
Proof.
  unfold Assembler.check_inner_outer_roles.
  eapply same_loops_trans.
  - apply same_loops_fold_left with
      (f := fun a ringptr =>
              Assembler.check_roles_of_ring true
                (ProtoRing.segments (Assembler.ring_at a ringptr)) a).
    intros b x. apply same_loops_check_roles_of_ring.
  - apply same_loops_fold_left with
      (f := fun a ringptr =>
              Assembler.check_roles_of_ring false
                (ProtoRing.segments (Assembler.ring_at a ringptr)) a).
    intros b x. apply same_loops_check_roles_of_ring.
Qed.

Lemma next_address_check_for_open_rings_loop rings :
  forall a open,
    Assembler.next_address
      (snd (Assembler.check_for_open_rings_loop rings a open))
    = Assembler.next_address a.
Proof.
  induction rings as [|[p ring] rest IH]; intros a open; simpl;
    [reflexivity|].
  destruct (negb (ProtoRing.closed ring)); rewrite IH;
    [apply next_address_report|reflexivity].
Qed.

Lemma same_loops_distinct_addresses a b :
  same_loops a b -> distinct_addresses a -> distinct_addresses b.
Proof.
  intros (Hn & Hk & _) [Hnd Hlt]. split; [now rewrite Hk|].
  rewrite Forall_forall in *. intros e He. rewrite Hn.
  assert (Hin : In (fst e) (map fst (Assembler.m_rings a)))
    by (rewrite <- Hk; now apply in_map).
  apply in_map_iff in Hin. destruct Hin as (e' & E & He').
  rewrite <- E. now apply Hlt.
Qed.

Lemma same_loops_lookup a b q r :
  same_loops a b ->
  Assembler.lookup (Assembler.m_rings a) q = Some r ->
  exists r',
    Assembler.lookup (Assembler.m_rings b) q = Some r' /\ same_loop r r'.
Proof.
  intros (_ & Hk & Hl) Hq. specialize (Hl q).
  rewrite (ring_at_lookup _ _ _ Hq) in Hl.
  destruct (Assembler.lookup (Assembler.m_rings b) q) as [r'|] eqn:E.
  - exists r'. split; [reflexivity|].
    now rewrite (ring_at_lookup _ _ _ E) in Hl.
  - exfalso. apply lookup_none in E. apply E. rewrite Hk.
    apply lookup_In in Hq. exact (in_map fst _ _ Hq).
Qed.

Lemma find_intersections_found a :
  fst (Assembler.find_intersections a)
  = fst (SegmentList.find_intersections (Assembler.m_segment_list a) false [])
  /\ Assembler.m_rings (snd (Assembler.find_intersections a))
     = Assembler.m_rings a
  /\ Assembler.next_address (snd (Assembler.find_intersections a))
     = Assembler.next_address a
  /\ Assembler.m_segment_list (snd (Assembler.find_intersections a))
     = Assembler.m_segment_list a.
Proof.
  unfold Assembler.find_intersections.
  rewrite (find_intersections_list_muted (Assembler.m_segment_list a)
             (problem_reporter (Assembler.m_config a)) (Assembler.reporter a)
             []).
  destruct (SegmentList.find_intersections _ _ (Assembler.reporter a)).
  repeat split.
Qed.

Lemma create_rings_works_on a :
  distinct_addresses a ->
  let a' := snd (Assembler.create_rings a) in
  let l := Assembler.m_segment_list a' in
  distinct_addresses a'
  /\ (forall p ring,
        Assembler.lookup (Assembler.m_rings a) p = Some ring ->
        ProtoRing.closed ring = true ->
        exists ring',
          Assembler.lookup (Assembler.m_rings a') p = Some ring'
          /\ same_loop ring ring')
  /\ if fst (SegmentList.find_intersections l false [])
     then Assembler.m_rings a' = Assembler.m_rings a
     else
       forall P : NodeRefSegment.t -> bool,
         (forall s, P (NodeRefSegment.swap_locations s) = P s) ->
         count_segments P (ring_segments a')
         = count_segments P (ring_segments a) + count_segments P l.
Proof.
  intros Hd. cbn zeta. rewrite create_rings_segment_list.
  change (SegmentList.erase_duplicate_segments
            (SegmentList.sort (Assembler.m_segment_list a)))
    with (Assembler.m_segment_list (Assembler.normalize a)).
  unfold Assembler.create_rings.
  destruct (find_intersections_found (Assembler.normalize a))
    as (Hf & Hr2 & Hn2 & Hl2).
  rewrite <- Hf.
  destruct (Assembler.find_intersections (Assembler.normalize a))
    as [found a2].
  cbn [fst snd] in *.
  assert (Hr2' : Assembler.m_rings a2 = Assembler.m_rings a) by exact Hr2.
  assert (Hn2' : Assembler.next_address a2 = Assembler.next_address a)
    by exact Hn2.
  assert (Hd2 : distinct_addresses a2)
    by exact (distinct_addresses_same_rings _ _ Hr2' Hn2' Hd).
  destruct found.
  { cbn [snd]. split; [exact Hd2|]. split; [|exact Hr2'].
    intros p ring Hp _. exists ring. rewrite Hr2'.
    split; [exact Hp|apply same_loop_refl]. }
  set (protected := fun q =>
         exists r, Assembler.lookup (Assembler.m_rings a2) q = Some r
                   /\ ProtoRing.closed r = true).
  assert (Hpc : protected_closed protected a2) by (intros q Hq; exact Hq).
  set (a3 := Assembler.add_segments (Assembler.m_segment_list a2) a2).
  assert (Hd3 : distinct_addresses a3).
  { destruct (steps_add_segments (fun _ => true) (fun _ => eq_refl) protected
                (Assembler.m_segment_list a2) a2 Hpc Hd2) as (H & _).
    exact H. }
  assert (Hk3 : forall p ring,
             Assembler.lookup (Assembler.m_rings a) p = Some ring ->
             ProtoRing.closed ring = true ->
             Assembler.lookup (Assembler.m_rings a3) p = Some ring).
  { intros p ring Hp Hc.
    destruct (steps_add_segments (fun _ => true) (fun _ => eq_refl) protected
                (Assembler.m_segment_list a2) a2 Hpc Hd2)
      as (_ & _ & _ & F & _).
    apply F; [|now rewrite Hr2'].
    exists ring. now rewrite Hr2'. }
  assert (Hc3 : forall P : NodeRefSegment.t -> bool,
             (forall s, P (NodeRefSegment.swap_locations s) = P s) ->
             count_segments P (ring_segments a3)
             = count_segments P (ring_segments a)
               + count_segments P (Assembler.m_segment_list a2)).
  { intros P P_swap.
    destruct (steps_add_segments P P_swap (fun _ => False)
                (Assembler.m_segment_list a2) a2) as (_ & _ & E & _).
    - intros q [].
    - exact Hd2.
    - fold a3 in E. rewrite E. unfold ring_segments. now rewrite Hr2'. }
  rewrite Hl2 in Hc3.
  destruct (check_for_open_rings_reports_open_rings a3)
    as (_ & _ & Hr4 & _).
  pose proof (next_address_check_for_open_rings_loop
                (Assembler.m_rings a3) a3 false) as Hn4.
  fold (Assembler.check_for_open_rings a3) in Hn4.
  destruct (Assembler.check_for_open_rings a3) as [open a4].
  cbn [snd] in Hr4, Hn4.
  assert (H34 : same_loops a3 a4) by now apply same_loops_same_rings.
  assert (Hfinal : forall a5,
             same_loops a3 a5 ->
             (forall P : NodeRefSegment.t -> bool,
                (forall s, P (NodeRefSegment.swap_locations s) = P s) ->
                count_segments P (ring_segments a5)
                = count_segments P (ring_segments a3)) ->
             distinct_addresses a5
             /\ (forall p ring,
                   Assembler.lookup (Assembler.m_rings a) p = Some ring ->
                   ProtoRing.closed ring = true ->
                   exists ring',
                     Assembler.lookup (Assembler.m_rings a5) p = Some ring'
                     /\ same_loop ring ring')
             /\ (forall P : NodeRefSegment.t -> bool,
                   (forall s, P (NodeRefSegment.swap_locations s) = P s) ->
                   count_segments P (ring_segments a5)
                   = count_segments P (ring_segments a)
                     + count_segments P
                         (Assembler.m_segment_list (Assembler.normalize a)))).
  { intros a5 H35 Hc5. split; [|split].
    - exact (same_loops_distinct_addresses _ _ H35 Hd3).
    - intros p ring Hp Hc.
      exact (same_loops_lookup _ _ _ _ H35 (Hk3 p ring Hp Hc)).
    - intros P P_swap. rewrite (Hc5 P P_swap). now apply Hc3. }
  assert (Hc4 : forall P : NodeRefSegment.t -> bool,
             count_segments P (ring_segments a4)
             = count_segments P (ring_segments a3)).
  { intros P. unfold ring_segments. now rewrite Hr4. }
  destruct open; cbn [snd].
  { apply Hfinal; [exact H34|]. intros P _. apply Hc4. }
  apply Hfinal.
  - apply (same_loops_trans _ _ _ H34).
    eapply same_loops_trans; [|apply same_loops_check_inner_outer_roles].
    destruct (length (Assembler.m_rings a4) =? 1).
    + now apply same_loops_same_rings.
    + eapply same_loops_trans; [|apply same_loops_assign_inner_rings].
      unfold Assembler.classify_rings. apply same_loops_fold_left.
      apply same_loops_classify_ring.
  - intros P P_swap. rewrite <- Hc4.
    match goal with
    | |- context [Assembler.check_inner_outer_roles ?b] =>
        destruct (same_rings_check_inner_outer_roles b) as (Hroles & _)
    end.
    unfold ring_segments at 1. rewrite Hroles.
    match goal with
    | |- count_segments P (flat_map _ (Assembler.m_rings ?b)) = _ =>
        change (count_segments P (ring_segments b)
                = count_segments P (ring_segments a4))
    end.
    destruct (length (Assembler.m_rings a4) =? 1); [reflexivity|].
    rewrite (count_assign_inner_rings P). unfold Assembler.classify_rings.
    apply count_fold_left. intros b p. now apply count_classify_ring.
Qed.

Lemma extract_segments_from_ways_app relation_members :
  forall members in_buffer l,
    SegmentList.extract_segments_from_ways l relation_members members in_buffer
    = l ++ SegmentList.extract_segments_from_ways [] relation_members members
             in_buffer.
Proof.
  induction relation_members as [|member rest IH]; intros members in_buffer l.
  - destruct members; simpl; now rewrite app_nil_r.
  - destruct members as [|offset members]; simpl; [now rewrite app_nil_r|].
    rewrite IH.
    rewrite (IH members in_buffer
               (SegmentList.extract_segments_from_way [] _ _)).
    unfold SegmentList.extract_segments_from_way. cbn [app].
    now rewrite app_assoc.
Qed.

Lemma segment_list_report a r :
  Assembler.m_segment_list (Assembler.report a r) = Assembler.m_segment_list a.
Proof.
  unfold Assembler.report. now destruct (problem_reporter _).
Qed.

Lemma begin_way_state a way :
  Assembler.m_segment_list (Assembler.begin_way a way)
  = Assembler.m_segment_list a
      ++ SegmentList.segments_of_nodes (Way.nodes (WayPtr.deref way)) "outer"
           way
  /\ Assembler.m_rings (Assembler.begin_way a way) = Assembler.m_rings a
  /\ Assembler.next_address (Assembler.begin_way a way)
     = Assembler.next_address a.
Proof.
  unfold Assembler.begin_way.
  cbn [Assembler.with_segment_list Assembler.m_segment_list Assembler.m_rings
       Assembler.next_address].
  unfold SegmentList.extract_segments_from_way.
  destruct (negb (Way.ends_have_same_id (WayPtr.deref way)));
    now rewrite ?segment_list_report, ?rings_report, ?next_address_report.
Qed.

Lemma begin_relation_state a relation members in_buffer :
  let a0 := Assembler.begin_relation a relation members in_buffer in
  Assembler.m_segment_list a0
  = Assembler.m_segment_list a
      ++ SegmentList.extract_segments_from_ways [] (Relation.members relation)
           members in_buffer
  /\ Assembler.m_rings a0 = Assembler.m_rings a
  /\ Assembler.next_address a0 = Assembler.next_address a.
Proof.
  unfold Assembler.begin_relation.
  cbn [Assembler.with_segment_list Assembler.m_segment_list Assembler.m_rings
       Assembler.next_address].
  rewrite extract_segments_from_ways_app.
  now rewrite ?segment_list_report, ?rings_report, ?next_address_report.
Qed.

Lemma create_rings_works_on_segments a a0 segments :
  Assembler.m_segment_list a0 = Assembler.m_segment_list a ++ segments ->
  Assembler.m_rings a0 = Assembler.m_rings a ->
  Assembler.next_address a0 = Assembler.next_address a ->
  works_on a segments (snd (Assembler.create_rings a0)).
Proof.
  intros Hl Hr Hn. unfold works_on. cbn zeta.
  pose proof (create_rings_segment_list a0) as E. rewrite Hl in E.
  split; [exact E|]. intros Hd.
  destruct (create_rings_works_on a0
              (distinct_addresses_same_rings _ _ Hr Hn Hd)) as (H1 & H2 & H3).
  cbn zeta in H3. rewrite E in H3. unfold ring_segments in *.
  rewrite Hr in H2, H3. auto.
Qed.

(** C8, as the code has it: only a newly constructed assembler has an empty
    segment list, no rings, empty vectors of outer and inner rings and a
    mismatch counter of zero.  A call of either entry point resets nothing
    and works on the state the calls before it left.  Every pointer in the
    vectors of outer and inner rings is still there after the call, and the
    mismatch counter is not smaller than before.  The segments of the call
    are put after the segment list that was left, and the whole list is
    sorted and loses its pairs of equal segments.  The rings that were left
    stay in the list of rings: a closed ring keeps its address and its
    segments, in their direction or in the other, and the call stitches
    the segments of the list to the rings that were left, so that the rings
    hold, up to direction, the segments they held and those of the list; if
    the list has an intersection the list of rings is the one that was
    left. *)
Theorem calls_work_on_the_state_left :
  (forall config reports,
     let a := Assembler.create config reports in
     Assembler.m_segment_list a = [] /\ Assembler.m_rings a = []
     /\ Assembler.m_outer_rings a = [] /\ Assembler.m_inner_rings a = []
     /\ Assembler.m_inner_outer_mismatches a = 0%Z)
  /\ (forall a way out,
        let a' := fst (Assembler.assemble_way a way out) in
        carried_over a a'
        /\ works_on a
             (SegmentList.segments_of_nodes (Way.nodes (WayPtr.deref way))
                                            "outer" way)
             a')
  /\ (forall a relation members in_buffer out,
        let a' :=
          fst (Assembler.assemble_relation a relation members in_buffer out) in
        carried_over a a'
        /\ works_on a
             (SegmentList.extract_segments_from_ways
                [] (Relation.members relation) members in_buffer)
             a').
Proof.
  split; [|split].
  - intros config reports. simpl. repeat split.
  - intros a way out. cbn zeta. unfold Assembler.assemble_way.
    pose proof (carried_over_create_rings (Assembler.begin_way a way)) as H.
    destruct (begin_way_state a way) as (Hl & Hr & Hn).
    pose proof (create_rings_works_on_segments a _ _ Hl Hr Hn) as W.
    destruct (Assembler.create_rings (Assembler.begin_way a way)) as [ok a4].
    cbn [fst snd] in *. split; [|exact W].
    exact (carried_over_trans _ _ _ (carried_over_begin_way a way) H).
  - intros a relation members in_buffer out. cbn zeta.
    unfold Assembler.assemble_relation.
    pose proof (carried_over_create_rings
                  (Assembler.begin_relation a relation members in_buffer)) as H.
    destruct (begin_relation_state a relation members in_buffer)
      as (Hl & Hr & Hn).
    pose proof (create_rings_works_on_segments a _ _ Hl Hr Hn) as W.
    destruct (Assembler.create_rings
                (Assembler.begin_relation a relation members in_buffer))
      as [ok a3].
    cbn [snd] in H, W.
    pose proof (carried_over_trans _ _ _
                  (carried_over_begin_relation a relation members in_buffer) H)
      as H0.
    destruct (Assembler.m_inner_outer_mismatches a3 =? 0)%Z;
      [|exact (conj H0 W)].
    destruct (Assembler.assemble_inner_ways _ _ _ _ _ _ _) as [reports out2].
    cbn [fst]. exact (conj H0 W).
Qed.

(** The way of the hole of scenario 2, assembled on the assembler that has
    just assembled the square of scenario 1: the segment list holds the four
    segments of the square and the three of the hole, and the rings hold
    the four segments the first call left in them and these seven. *)
Lemma calls_work_on_the_state_left_witness :
  let a :=
    fst (Assembler.assemble_way Examples.fresh
           (WayPtr.make 0 Examples.square) []) in
  let way := WayPtr.make 1 Examples.hole in
  let a' := fst (Assembler.assemble_way a way []) in
  distinct_addresses a
  /\ (length (Assembler.m_segment_list a) = 4
      /\ length (Assembler.m_segment_list a') = 7)
  /\ (length (ring_segments a) = 4 /\ length (ring_segments a') = 11)
  /\ works_on a
       (SegmentList.segments_of_nodes (Way.nodes (WayPtr.deref way))
                                      "outer" way)
       a'.
Proof.
  cbn zeta. split; [|split; [|split]].
  - split; vm_compute; repeat constructor. intros [].
  - split; reflexivity.
  - split; reflexivity.
  - exact (proj2 (proj1 (proj2 calls_work_on_the_state_left) _ _ [])).
Defined.
